(** * Air-traveler: the airport graph and its analytic queries

    A shallow embedding of the graph engine of the repository
    (Graph.h, Utilities.h, Consult.cpp, and the parts of ParseData.cpp and
    Script.cpp that build the graph and compose waypoint paths), followed by
    the theorems that settle the specification's claims against that code.

    Modelling conventions.
    - A [Vertex<Airport>*] is an index into the vertex set: [Graph::addVertex]
      only ever appends a freshly allocated vertex, so the i-th pointer of
      [vertexSet] designates the i-th vertex object.  A pointer that designates
      no vertex of the graph ([nullptr] included) is an index outside the list.
    - Dereferencing such a pointer is undefined behaviour in C++; the model
      makes it the explicit outcome [Undefined].
    - Loops that are not structurally recursive (queue-driven BFS, recursive
      DFS) take a fuel argument; the queries pass the number of vertices, and
      the totality lemmas show that this is always enough on a well-formed
      graph.  Running out of fuel is the separate outcome [OutOfFuel].
    - [double] is Rocq's primitive binary64 [float].
    - [int] values are integers in [Z].  Conversions from [size_t] to [int]
      are written out with their wrap-around ([static_cast_int]), and so
      are the additions on the flight counters, which are data of the
      graph ([flightsTo + flightsFrom], [flightsFrom + 1],
      [totalFlights += flightsTo]): [wrap_int] reduces them into the [int]
      range.  Additions on the counters of a traversal ([stop + 1], [i++],
      [res[airline]++]) and the sum of the out-degrees are the mathematical
      ones: these values are bounded by the number of vertices or flights,
      and the theorems about them state the bound they need. *)

From Stdlib Require Import ZArith PrimFloat.
From stdpp Require Import base option list gmap strings sorting.

Open Scope string_scope.
Open Scope list_scope.
Open Scope nat_scope.

Set Warnings "-clear-no-such-hyp".

(** ** Outcomes of a run *)

Inductive outcome (A : Type) : Type :=
  | Ok (a : A)
  | Undefined
  | OutOfFuel.
Arguments Ok {A} a.
Arguments Undefined {A}.
Arguments OutOfFuel {A}.

Global Instance outcome_ret : MRet outcome := λ A a, Ok a.
Global Instance outcome_bind : MBind outcome := λ A B f m,
  match m with
  | Ok a => f a
  | Undefined => Undefined
  | OutOfFuel => OutOfFuel
  end.

(** ** Data.h *)

Record Coordinates := mkCoordinates {
  latitude : float;
  longitude : float
}.

Record Airport := mkAirport {
  code : string;
  name : string;
  city : string;
  country : string;
  location : Coordinates
}.

(** [Airport::operator==] compares the codes only. *)
Definition Airport_eqb (a b : Airport) : bool :=
  bool_decide (code a = code b).

Record Airline := mkAirline {
  airline_code : string;
  airline_name : string;
  airline_callsign : string;
  airline_country : string
}.

(** [Airline()], the default-constructed airline. *)
Definition Airline_default : Airline := mkAirline "" "" "" "".

(** ** Graph.h *)

Abbreviation VertexPtr := nat (only parsing).

(** [std::set<Airline>] is ordered by [Airline::operator<], that is by code:
    it holds at most one airline per code, and [insert] keeps the element that
    is already there.  It is modelled as a finite map from the code. *)
Abbreviation AirlineSet := (gmap string Airline) (only parsing).

Definition AirlineSet_insert (a : Airline) (s : AirlineSet) : AirlineSet :=
  match s !! airline_code a with
  | Some _ => s
  | None => <[airline_code a := a]> s
  end.

Record Edge := mkEdge {
  dest : VertexPtr;
  distance : float;
  airlines : AirlineSet
}.

Record Vertex := mkVertex {
  info : Airport;
  adj : list Edge;
  visited : bool;
  processing : bool;
  inDegree : Z;
  outDegree : Z;
  num : Z;
  low : Z;
  flightsTo : Z;
  flightsFrom : Z
}.

(** The vertex objects of the graph in [vertexSet] order. *)
Abbreviation Graph := (list Vertex) (only parsing).

Definition setVisited (b : bool) (v : Vertex) : Vertex :=
  mkVertex (info v) (adj v) b (processing v) (inDegree v) (outDegree v)
           (num v) (low v) (flightsTo v) (flightsFrom v).

Definition setProcessing (b : bool) (v : Vertex) : Vertex :=
  mkVertex (info v) (adj v) (visited v) b (inDegree v) (outDegree v)
           (num v) (low v) (flightsTo v) (flightsFrom v).

Definition setNum (n : Z) (v : Vertex) : Vertex :=
  mkVertex (info v) (adj v) (visited v) (processing v) (inDegree v)
           (outDegree v) n (low v) (flightsTo v) (flightsFrom v).

Definition setLow (n : Z) (v : Vertex) : Vertex :=
  mkVertex (info v) (adj v) (visited v) (processing v) (inDegree v)
           (outDegree v) (num v) n (flightsTo v) (flightsFrom v).

Definition setAdj (es : list Edge) (v : Vertex) : Vertex :=
  mkVertex (info v) es (visited v) (processing v) (inDegree v)
           (outDegree v) (num v) (low v) (flightsTo v) (flightsFrom v).

Definition setFlightsTo (n : Z) (v : Vertex) : Vertex :=
  mkVertex (info v) (adj v) (visited v) (processing v) (inDegree v)
           (outDegree v) (num v) (low v) n (flightsFrom v).

Definition setFlightsFrom (n : Z) (v : Vertex) : Vertex :=
  mkVertex (info v) (adj v) (visited v) (processing v) (inDegree v)
           (outDegree v) (num v) (low v) (flightsTo v) n.

Definition Edge_addAirline (a : Airline) (e : Edge) : Edge :=
  mkEdge (dest e) (distance e) (AirlineSet_insert a (airlines e)).

(** [p->...]: reading through a vertex pointer. *)
Definition deref (g : Graph) (p : VertexPtr) : outcome Vertex :=
  match g !! p with
  | Some v => Ok v
  | None => Undefined
  end.

(** [for (auto v : vertexSet) v->visited = false;] *)
Definition resetVisited (g : Graph) : Graph := setVisited false <$> g.

(** [Graph<T>::findVertex]: the first vertex whose info equals [in], or
    [NULL] (here [None]). *)
Definition findVertex (g : Graph) (a : Airport) : option VertexPtr :=
  fst <$> list_find (λ v, Airport_eqb (info v) a = true) g.

(** [Vertex<T>::addEdge]: [adj.push_back(Edge<T>(d, distance))]. *)
Definition Vertex_addEdge (d : VertexPtr) (w : float) (v : Vertex) : Vertex :=
  setAdj (adj v ++ [mkEdge d w ∅]) v.

(** [Graph<T>::addEdge]. *)
Definition addEdge (g : Graph) (source dest_ : Airport) (w : float)
    : bool * Graph :=
  match findVertex g source, findVertex g dest_ with
  | Some v1, Some v2 => (true, alter (Vertex_addEdge v2 w) v1 g)
  | _, _ => (false, g)
  end.

(** [Graph<T>::dfsVisit]; [rec] is the recursive call. *)
Fixpoint dfsVisit_adj (rec : VertexPtr → Graph * list Airport →
                             outcome (Graph * list Airport))
    (flights : list Edge) (st : Graph * list Airport)
    : outcome (Graph * list Airport) :=
  match flights with
  | [] => Ok st
  | e :: rest =>
      let w := dest e in
      wx ← deref st.1 w;
      if visited wx then dfsVisit_adj rec rest st
      else st' ← rec w st; dfsVisit_adj rec rest st'
  end.

Fixpoint dfsVisit (fuel : nat) (v : VertexPtr) (st : Graph * list Airport)
    : outcome (Graph * list Airport) :=
  match fuel with
  | O => OutOfFuel
  | S fuel' =>
      vx ← deref st.1 v;
      let g1 := <[v := setVisited true vx]> st.1 in
      dfsVisit_adj (dfsVisit fuel') (adj vx) (g1, st.2 ++ [info vx])
  end.

(** [Graph<T>::dfs(const T &source)]. *)
Definition dfs (g : Graph) (source : Airport) : outcome (list Airport * Graph) :=
  match findVertex g source with
  | None => Ok ([], g)
  | Some s =>
      '(g', res) ← dfsVisit (length g) s (resetVisited g, []);
      Ok (res, g')
  end.

(** The inner [for] of [Graph<T>::bfs]. *)
Fixpoint bfs_adj (flights : list Edge) (g : Graph) (q : list VertexPtr)
    : outcome (Graph * list VertexPtr) :=
  match flights with
  | [] => Ok (g, q)
  | e :: rest =>
      let w := dest e in
      wx ← deref g w;
      if visited wx then bfs_adj rest g q
      else bfs_adj rest (<[w := setVisited true wx]> g) (q ++ [w])
  end.

(** The [while (!q.empty())] of [Graph<T>::bfs]. *)
Fixpoint bfs_loop (fuel : nat) (g : Graph) (q : list VertexPtr)
    (res : list Airport) : outcome (list Airport * Graph) :=
  match q with
  | [] => Ok (res, g)
  | v :: q' =>
      match fuel with
      | O => OutOfFuel
      | S fuel' =>
          vx ← deref g v;
          '(g', q'') ← bfs_adj (adj vx) g q';
          bfs_loop fuel' g' q'' (res ++ [info vx])
      end
  end.

(** [Graph<T>::bfs(const T &source)]. *)
Definition bfs (g : Graph) (source : Airport) : outcome (list Airport * Graph) :=
  match findVertex g source with
  | None => Ok ([], g)
  | Some s =>
      let g1 := resetVisited g in
      sx ← deref g1 s;
      bfs_loop (length g) (<[s := setVisited true sx]> g1) [s] []
  end.

(** ** Utilities.h *)

(** [mergeVectors]: the empty vector when either argument is empty or the last
    element of [first] differs from the first element of [second]. *)
Definition mergeVectors (first second : list VertexPtr) : list VertexPtr :=
  match last first, second with
  | Some b, f :: rest =>
      if decide (b = f) then first ++ rest else []
  | _, _ => []
  end.

(** ** Consult.cpp *)

Definition INT_MAX : Z := 2147483647.

(** [static_cast<int>(n)] for a [size_t] value [n]: reduction modulo 2^32
    into the signed range.  The same reduction gives the [int] the machine
    leaves when an [int] addition passes [INT_MAX] (two's complement
    wrap-around). *)
Definition wrap_int (z : Z) : Z := ((z + 2 ^ 31) mod 2 ^ 32 - 2 ^ 31)%Z.

Definition static_cast_int (n : nat) : Z := wrap_int (Z.of_nat n).

Abbreviation Path := (list VertexPtr) (only parsing).

(** *** searchSmallestPathBetweenAirports *)

(** The state the [for] over the flights of [current.second] works on:
    the graph (visited flags), the queue, [current.first] (which the target
    branch extends in place), [smallestPaths] and [smallestSize]. *)
Record sp_state := mkSp {
  sp_graph : Graph;
  sp_queue : list (Path * VertexPtr);
  sp_first : Path;
  sp_paths : list Path;
  sp_size : Z
}.

(** One flight of the inner [for].  The comparisons of [current.first.size()]
    with [smallestSize] are unsigned, [smallestSize] being converted; it is
    never negative, and the assignment happens under [size < smallestSize], so
    neither conversion changes the value. *)
Definition sp_flight (target : VertexPtr) (flight : Edge) (st : sp_state)
    : outcome sp_state :=
  let neighbor := dest flight in
  if decide (neighbor = target) then
    let first' := sp_first st ++ [neighbor] in
    let sz := Z.of_nat (length first') in
    if (sz <? sp_size st)%Z then
      Ok (mkSp (sp_graph st) (sp_queue st) first' [first'] sz)
    else if (sz =? sp_size st)%Z then
      Ok (mkSp (sp_graph st) (sp_queue st) first' (sp_paths st ++ [first'])
               (sp_size st))
    else
      Ok (mkSp (sp_graph st) (sp_queue st) first' (sp_paths st) (sp_size st))
  else
    nx ← deref (sp_graph st) neighbor;
    if visited nx then Ok st
    else
      let newPath := sp_first st ++ [neighbor] in
      Ok (mkSp (<[neighbor := setVisited true nx]> (sp_graph st))
               (sp_queue st ++ [(newPath, neighbor)])
               (sp_first st) (sp_paths st) (sp_size st)).

Fixpoint sp_flights (target : VertexPtr) (flights : list Edge) (st : sp_state)
    : outcome sp_state :=
  match flights with
  | [] => Ok st
  | flight :: rest => st' ← sp_flight target flight st; sp_flights target rest st'
  end.

(** The [while (!q.empty())] loop. *)
Fixpoint sp_loop (fuel : nat) (target : VertexPtr) (g : Graph)
    (q : list (Path * VertexPtr)) (paths : list Path) (size : Z)
    : outcome (list Path * Graph) :=
  match q with
  | [] => Ok (paths, g)
  | current :: q' =>
      match fuel with
      | O => OutOfFuel
      | S fuel' =>
          cx ← deref g current.2;
          st ← sp_flights target (adj cx) (mkSp g q' current.1 paths size);
          sp_loop fuel' target (sp_graph st) (sp_queue st) (sp_paths st)
                  (sp_size st)
      end
  end.

Definition searchSmallestPathBetweenAirports (g : Graph)
    (source target : VertexPtr) : outcome (list Path * Graph) :=
  let g1 := resetVisited g in
  sx ← deref g1 source;
  sp_loop (length g) target (<[source := setVisited true sx]> g1)
          [([source], source)] [] INT_MAX.

(** *** searchNumberOfReachableDestinationsInXStopsFromAirport *)

(** [for (flight : a->getAdj()) reachableDestinations.insert(
    attributeExtractor(flight.getDest()));] *)
Fixpoint rd_collect (attributeExtractor : Vertex → string)
    (flights : list Edge) (g : Graph) (acc : gset string)
    : outcome (gset string) :=
  match flights with
  | [] => Ok acc
  | flight :: rest =>
      dx ← deref g (dest flight);
      rd_collect attributeExtractor rest g ({[attributeExtractor dx]} ∪ acc)
  end.

(** The second [for]: enqueue the unvisited destinations one stop further. *)
Fixpoint rd_enqueue (stop : Z) (flights : list Edge) (g : Graph)
    (q : list (VertexPtr * Z)) : outcome (Graph * list (VertexPtr * Z)) :=
  match flights with
  | [] => Ok (g, q)
  | flight :: rest =>
      let d := dest flight in
      dx ← deref g d;
      if visited dx then rd_enqueue stop rest g q
      else rd_enqueue stop rest (<[d := setVisited true dx]> g)
                      (q ++ [(d, (stop + 1)%Z)])
  end.

Fixpoint rd_loop (fuel : nat) (layOvers : Z)
    (attributeExtractor : Vertex → string) (g : Graph)
    (q : list (VertexPtr * Z)) (acc : gset string)
    : outcome (gset string * Graph) :=
  match q with
  | [] => Ok (acc, g)
  | (a, stop) :: q' =>
      match fuel with
      | O => OutOfFuel
      | S fuel' =>
          ax ← deref g a;
          acc' ← (if (stop <=? layOvers)%Z
                  then rd_collect attributeExtractor (adj ax) g acc
                  else Ok acc);
          '(g', q'') ← rd_enqueue stop (adj ax) g q';
          rd_loop fuel' layOvers attributeExtractor g' q'' acc'
      end
  end.

(** The set [reachableDestinations] when the loop ends. *)
Definition reachableDestinations (g : Graph) (airport : VertexPtr)
    (layOvers : Z) (attributeExtractor : Vertex → string)
    : outcome (gset string * Graph) :=
  let g1 := resetVisited g in
  ax ← deref g1 airport;
  rd_loop (length g) layOvers attributeExtractor
          (<[airport := setVisited true ax]> g1) [(airport, 0%Z)] ∅.

Definition searchNumberOfReachableDestinationsInXStopsFromAirport (g : Graph)
    (airport : VertexPtr) (layOvers : Z) (attributeExtractor : Vertex → string)
    : outcome (Z * Graph) :=
  '(s, g') ← reachableDestinations g airport layOvers attributeExtractor;
  Ok (static_cast_int (size s), g').

Definition extractAirportCode (v : Vertex) : string := code (info v).
Definition extractCity (v : Vertex) : string := city (info v).
Definition extractCountry (v : Vertex) : string := country (info v).

Definition searchNumberOfReachableAirportsInXStopsFromAirport g airport layOvers :=
  searchNumberOfReachableDestinationsInXStopsFromAirport g airport layOvers
    extractAirportCode.
Definition searchNumberOfReachableCitiesInXStopsFromAirport g airport layOvers :=
  searchNumberOfReachableDestinationsInXStopsFromAirport g airport layOvers
    extractCity.
Definition searchNumberOfReachableCountriesInXStopsFromAirport g airport layOvers :=
  searchNumberOfReachableDestinationsInXStopsFromAirport g airport layOvers
    extractCountry.

(** *** searchTopKAirportGreatestAirTrafficCapacity *)

(** [int totalFlights = airports[i]->getFlightsFrom() +
    airports[i]->getFlightsTo()]: an [int] sum. *)
Definition totalFlights (v : Vertex) : Z :=
  wrap_int (flightsFrom v + flightsTo v).

(** The comparator handed to [std::sort]: more flights first; both sides
    are [int] sums. *)
Definition moreTraffic (a1 a2 : Vertex) : bool :=
  (wrap_int (flightsTo a2 + flightsFrom a2)
   <? wrap_int (flightsTo a1 + flightsFrom a1))%Z.

(** What [std::sort] may leave in [airports]: any rearrangement in which no
    airport comes before one with strictly more flights (the order among ties
    is unspecified). *)
Definition sorted_by_traffic (g airports : list Vertex) : Prop :=
  airports ≡ₚ g ∧
  Sorted (λ a1 a2, (totalFlights a2 ≤ totalFlights a1)%Z) airports.

(** The [for (int i = 0; i < airports.size(); i++)] loop on the sorted
    vector, from position [i] on. *)
Fixpoint topK_loop (k i last_totalFlights : Z) (airports : list Vertex)
    : list (Airport * Z) :=
  match airports with
  | [] => []
  | a :: rest =>
      let total := totalFlights a in
      if (i <? k)%Z || (total =? last_totalFlights)%Z
      then (info a, total) :: topK_loop k (i + 1)%Z total rest
      else []
  end.

(** [std::sort] leaves the order among airports with equal traffic
    unspecified, so the query takes the sorting routine as an argument:
    [sort airports] is the vector [std::sort] leaves for the comparator
    [moreTraffic]. *)
Definition searchTopKAirportGreatestAirTrafficCapacity
    (sort : list Vertex → list Vertex) (g : Graph) (k : Z)
    : list (Airport * Z) :=
  topK_loop k 0 0 (sort g).

(** The routines [std::sort] may be: every result is admissible. *)
Definition sorts_by_traffic (sort : list Vertex → list Vertex) : Prop :=
  ∀ g, sorted_by_traffic g (sort g).

(** One such routine, to run the query on examples: insertion before the
    first airport that has not strictly more flights, which keeps airports
    with equal traffic in the order of the vertex set. *)
Fixpoint insertByTraffic (a : Vertex) (l : list Vertex) : list Vertex :=
  match l with
  | [] => [a]
  | b :: rest =>
      if moreTraffic b a then b :: insertByTraffic a rest else a :: l
  end.

Definition sortByTraffic (l : list Vertex) : list Vertex :=
  foldr insertByTraffic [] l.

(** *** searchEssentialAirports *)

Record ea_state := mkEa {
  ea_graph : Graph;
  ea_stack : list string;
  ea_res : gset string;
  ea_index : Z
}.

(** The [for] over the flights of [v] in [dfsEssentialAirports]; [rec] is the
    recursive call and [children] the local counter. *)
Fixpoint ea_flights (rec : VertexPtr → ea_state → outcome ea_state)
    (v : VertexPtr) (flights : list Edge) (st : ea_state) (children : Z)
    : outcome ea_state :=
  match flights with
  | [] => Ok st
  | flight :: rest =>
      let d := dest flight in
      dx ← deref (ea_graph st) d;
      if negb (visited dx) then
        let children := (children + 1)%Z in
        st1 ← rec d st;
        vx ← deref (ea_graph st1) v;
        dx1 ← deref (ea_graph st1) d;
        let g2 := <[v := setLow (Z.min (low vx) (low dx1)) vx]> (ea_graph st1) in
        vx2 ← deref g2 v;
        dx2 ← deref g2 d;
        let res :=
          if (negb (num vx2 =? 0)%Z && (num vx2 <=? low dx2)%Z)
             || ((num vx2 =? 0)%Z && (1 <? children)%Z)
          then {[code (info vx2)]} ∪ ea_res st1
          else ea_res st1 in
        ea_flights rec v rest (mkEa g2 (ea_stack st1) res (ea_index st1))
                   children
      else if processing dx then
        vx ← deref (ea_graph st) v;
        let g2 := <[v := setLow (Z.min (low vx) (num dx)) vx]> (ea_graph st) in
        ea_flights rec v rest (mkEa g2 (ea_stack st) (ea_res st) (ea_index st))
                   children
      else ea_flights rec v rest st children
  end.

Fixpoint dfsEssentialAirports (fuel : nat) (v : VertexPtr) (st : ea_state)
    : outcome ea_state :=
  match fuel with
  | O => OutOfFuel
  | S fuel' =>
      vx ← deref (ea_graph st) v;
      let i := ea_index st in
      let vx1 := setLow i (setNum i (setProcessing true (setVisited true vx))) in
      let st1 := mkEa (<[v := vx1]> (ea_graph st))
                      (code (info vx1) :: ea_stack st) (ea_res st) (i + 1)%Z in
      st2 ← ea_flights (dfsEssentialAirports fuel') v (adj vx1) st1 0%Z;
      vx2 ← deref (ea_graph st2) v;
      Ok (mkEa (<[v := setProcessing false vx2]> (ea_graph st2))
               (tail (ea_stack st2)) (ea_res st2) (ea_index st2))
  end.

(** The second [for] of [searchEssentialAirports], over the vertex set. *)
Fixpoint ea_roots (fuel : nat) (vs : list VertexPtr) (st : ea_state)
    : outcome ea_state :=
  match vs with
  | [] => Ok st
  | v :: rest =>
      vx ← deref (ea_graph st) v;
      if visited vx then ea_roots fuel rest st
      else st' ← dfsEssentialAirports fuel v st; ea_roots fuel rest st'
  end.

Definition searchEssentialAirports (g : Graph)
    : outcome (gset string * Graph) :=
  st ← ea_roots (length g) (seq 0 (length g))
                (mkEa (resetVisited g) [] ∅ 0%Z);
  Ok (ea_res st, ea_graph st).

(** *** airlinesThatOperateBetweenAirports, getDistanceBetweenAirports *)

Fixpoint airlines_scan (g : Graph) (target : VertexPtr) (flights : list Edge)
    : outcome AirlineSet :=
  match flights with
  | [] => Ok ∅
  | v :: rest =>
      dx ← deref g (dest v);
      tx ← deref g target;
      if Airport_eqb (info dx) (info tx) then Ok (airlines v)
      else airlines_scan g target rest
  end.

Definition airlinesThatOperateBetweenAirports (g : Graph)
    (source target : VertexPtr) : outcome AirlineSet :=
  sx ← deref g source;
  airlines_scan g target (adj sx).

Fixpoint distance_scan (g : Graph) (target : VertexPtr) (flights : list Edge)
    : outcome float :=
  match flights with
  | [] => Ok 0%float
  | v :: rest =>
      dx ← deref g (dest v);
      tx ← deref g target;
      if Airport_eqb (info dx) (info tx) then Ok (distance v)
      else distance_scan g target rest
  end.

Definition getDistanceBetweenAirports (g : Graph) (source target : VertexPtr)
    : outcome float :=
  sx ← deref g source;
  distance_scan g target (adj sx).

(** ** ParseData.cpp *)

(** A dereference of what [findVertex] returned, [NULL] included. *)
Definition deref_found (g : Graph) (p : option VertexPtr) : outcome Vertex :=
  match p with
  | Some p => deref g p
  | None => Undefined
  end.

(** [ParseData::getAirline]: the airline of [airlinesInfo] with that code, or
    a default-constructed one. *)
Definition getAirline (airlinesInfo : AirlineSet) (airlineCode : string)
    : Airline :=
  default Airline_default (airlinesInfo !! airlineCode).

(** The search for the edge towards the target,
    [for (auto& e : sourceAirport->getAdj()) if (e.getDest()->getInfo() ==
    targetAirport->getInfo()) ... break;]: the position of the first such
    edge, counted from [i]. *)
Fixpoint pf_findEdge (g : Graph) (targetAirport : option VertexPtr)
    (flights : list Edge) (i : nat) : outcome (option nat) :=
  match flights with
  | [] => Ok None
  | e :: rest =>
      tx' ← deref g (dest e);
      tx ← deref_found g targetAirport;
      if Airport_eqb (info tx') (info tx) then Ok (Some i)
      else pf_findEdge g targetAirport rest (S i)
  end.

Section ParseData.

(** [HarversineDistance] of Utilities.cpp is built on the C library's
    [sin], [cos], [atan2] and [sqrt]; it is left as a parameter. *)
Variable HarversineDistance : float → float → float → float → float.

Definition Airport_getDistance (a : Airport) (other : Coordinates) : float :=
  HarversineDistance (latitude (location a)) (longitude (location a))
                     (latitude other) (longitude other).

(** One turn of the [while (getline(file, line))] loop of
    [ParseData::parseFlights], for a line already split into its three
    trimmed fields. *)
Definition parseFlight (airlinesInfo : AirlineSet) (g : Graph)
    (line : string * string * string) : outcome Graph :=
  let '(source, target, airlineCode) := line in
  let temp1 := mkAirport source "" "" "" (mkCoordinates 0 0) in
  let temp2 := mkAirport target "" "" "" (mkCoordinates 0 0) in
  let sourceAirport := findVertex g temp1 in
  let targetAirport := findVertex g temp2 in
  sx ← deref_found g sourceAirport;
  foundEdge ← pf_findEdge g targetAirport (adj sx) 0;
  g1 ← match foundEdge with
       | Some j =>
           Ok (alter (λ v, setAdj (alter (Edge_addAirline
                                    (getAirline airlinesInfo airlineCode))
                                  j (adj v)) v)
                     (default 0 sourceAirport) g)
       | None =>
           tx ← deref_found g targetAirport;
           let distance_ := Airport_getDistance (info sx) (location (info tx)) in
           let g' := (addEdge g (info sx) (info tx) distance_).2 in
           sx' ← deref_found g' sourceAirport;
           found' ← pf_findEdge g' targetAirport (adj sx') 0;
           match found' with
           | Some j =>
               Ok (alter (λ v, setAdj (alter (Edge_addAirline
                                        (getAirline airlinesInfo airlineCode))
                                      j (adj v)) v)
                         (default 0 sourceAirport) g')
           | None => Ok g'
           end
       end;
  sx1 ← deref_found g1 sourceAirport;
  let g2 := <[default 0 sourceAirport :=
                setFlightsFrom (wrap_int (flightsFrom sx1 + 1)) sx1]> g1 in
  tx1 ← deref_found g2 targetAirport;
  Ok (<[default 0 targetAirport :=
          setFlightsTo (wrap_int (flightsTo tx1 + 1)) tx1]> g2).

(** The whole loop of [parseFlights]. *)
Fixpoint parseFlights (airlinesInfo : AirlineSet) (g : Graph)
    (lines : list (string * string * string)) : outcome Graph :=
  match lines with
  | [] => Ok g
  | line :: rest =>
      g' ← parseFlight airlinesInfo g line;
      parseFlights airlinesInfo g' rest
  end.

End ParseData.

(** ** Script.cpp: best paths through custom layovers *)

(** [for (auto a : temp) for (auto b : pathsFromTo)
    temp2.push_back(mergeVectors(a, b));] *)
Definition mergeAll (temp pathsFromTo : list Path) : list Path :=
  a ← temp; b ← pathsFromTo; [mergeVectors a b].

(** The [for (size_t i = 0; i < customLayovers.size() - 1; ++i)] loop: one
    shortest-path query per pair of consecutive layovers, merged into
    [temp]. *)
Fixpoint cl_segments (g : Graph) (temp : list Path)
    (customLayovers : list VertexPtr) : outcome (list Path * Graph) :=
  match customLayovers with
  | a :: (b :: _) as rest =>
      '(pathsFromTo, g') ← searchSmallestPathBetweenAirports g a b;
      cl_segments g' (mergeAll temp pathsFromTo) rest
  | _ => Ok (temp, g)
  end.

(** The candidate vector [paths] for one source and one destination airport.
    [customLayovers[0]] on an empty vector is undefined. *)
Definition customLayoverPaths (g : Graph) (customLayovers : list VertexPtr)
    (sourceAirport destinationAirport : VertexPtr)
    : outcome (list Path * Graph) :=
  match customLayovers, last customLayovers with
  | first :: _, Some back =>
      '(temp, g1) ← searchSmallestPathBetweenAirports g sourceAirport first;
      '(temp', g2) ← cl_segments g1 temp customLayovers;
      '(temp2, g3) ← searchSmallestPathBetweenAirports g2 back
                        destinationAirport;
      Ok (mergeAll temp' temp2, g3)
  | _, _ => Undefined
  end.

(** The [while (it != v.end() - 1)] loop that adds up
    [getDistanceBetweenAirports] over the consecutive pairs of [v]; on an
    empty vector [v.end() - 1] lies before [v.begin()] and the loop is
    undefined. *)
Fixpoint pathDistance (g : Graph) (v : Path) (distance_ : float)
    : outcome float :=
  match v with
  | [] => Undefined
  | a :: rest =>
      match rest with
      | [] => Ok distance_
      | b :: _ =>
          d ← getDistanceBetweenAirports g a b;
          pathDistance g rest (distance_ + d)%float
      end
  end.

Abbreviation Trip := (AirlineSet * (Path * float))%type (only parsing).

(** [for (auto v : paths)] of [getBestPathsAllAirlinesWithCustomLayovers];
    [int currentLayOvers = v.size() - 2] is computed on [size_t] and then
    converted. *)
Fixpoint cl_evaluate (g : Graph) (paths : list Path) (totalPaths : list Trip)
    (minLayOvers : Z) : outcome (list Trip * Z) :=
  match paths with
  | [] => Ok (totalPaths, minLayOvers)
  | v :: rest =>
      let currentLayOvers := wrap_int (Z.of_nat (length v) - 2) in
      let '(totalPaths, minLayOvers) :=
        if (currentLayOvers <? minLayOvers)%Z then ([], currentLayOvers)
        else (totalPaths, minLayOvers) in
      if (currentLayOvers =? minLayOvers)%Z then
        d ← pathDistance g v 0%float;
        cl_evaluate g rest (totalPaths ++ [(∅, (v, d))]) minLayOvers
      else cl_evaluate g rest totalPaths minLayOvers
  end.

(** [for (auto destinationAirport : destination)] for one source airport. *)
Fixpoint cl_destinations (g : Graph) (customLayovers : list VertexPtr)
    (sourceAirport : VertexPtr) (destination : list VertexPtr)
    (totalPaths : list Trip) (minLayOvers : Z)
    : outcome (list Trip * Z * Graph) :=
  match destination with
  | [] => Ok (totalPaths, minLayOvers, g)
  | destinationAirport :: rest =>
      '(paths, g') ← customLayoverPaths g customLayovers sourceAirport
                        destinationAirport;
      '(totalPaths', minLayOvers') ← cl_evaluate g' paths totalPaths minLayOvers;
      cl_destinations g' customLayovers sourceAirport rest totalPaths'
                      minLayOvers'
  end.

Fixpoint cl_sources (g : Graph) (customLayovers : list VertexPtr)
    (source destination : list VertexPtr)
    (totalPaths : list Trip) (minLayOvers : Z)
    : outcome (list Trip * Z * Graph) :=
  match source with
  | [] => Ok (totalPaths, minLayOvers, g)
  | sourceAirport :: rest =>
      '(totalPaths', minLayOvers', g') ←
        cl_destinations g customLayovers sourceAirport destination totalPaths
                        minLayOvers;
      cl_sources g' customLayovers rest destination totalPaths' minLayOvers'
  end.

Definition getBestPathsAllAirlinesWithCustomLayovers (g : Graph)
    (customLayovers source destination : list VertexPtr)
    : outcome (list Trip * Graph) :=
  '(totalPaths, _, g') ←
    cl_sources g customLayovers source destination [] INT_MAX;
  Ok (totalPaths, g').

(** * Specification-side definitions *)

(** ** Well-formed graphs *)

(** Every edge points to a vertex of the graph: [addEdge] only stores
    pointers it obtained from [findVertex]. *)
Definition dests_valid (g : Graph) : Prop :=
  ∀ u ux e, g !! u = Some ux → e ∈ adj ux → dest e < length g.

(** Airport codes identify vertices: [addVertex] refuses an airport that
    [findVertex] already finds. *)
Definition unique_codes (g : Graph) : Prop :=
  ∀ i j vi vj, g !! i = Some vi → g !! j = Some vj →
    code (info vi) = code (info vj) → i = j.

(** At most one edge per ordered pair of vertices. *)
Definition at_most_one_edge (g : Graph) : Prop :=
  ∀ u ux, g !! u = Some ux → NoDup (dest <$> adj ux).

(** The destinations of the flights out of every vertex. *)
Definition edge_dests (g : Graph) : list (list VertexPtr) :=
  (λ v, dest <$> adj v) <$> g.

(** ** Ranking by traffic *)

(** The pair the ranking yields for an airport. *)
Definition traffic_entry (a : Vertex) : Airport * Z := (info a, totalFlights a).

(** An airport with at least as many flights comes first. *)
Definition traffic_ge (a1 a2 : Vertex) : Prop :=
  (totalFlights a2 ≤ totalFlights a1)%Z.

(** The first [k] airports of a ranking, extended by every later airport that
    has as many flights as the k-th. *)
Definition first_k_and_ties (k : nat) (airports : list Vertex) : list Vertex :=
  take k airports ++
  match last (take k airports) with
  | Some ak =>
      filter (λ a, totalFlights a = totalFlights ak) (drop k airports)
  | None => []
  end.

(** ** Walks and hop distance *)

Definition has_edge (g : Graph) (u w : VertexPtr) : Prop :=
  ∃ ux e, g !! u = Some ux ∧ e ∈ adj ux ∧ dest e = w.

(** [walk g s v k]: [v] is reached from [s] along [k] edges. *)
Inductive walk (g : Graph) (s : VertexPtr) : VertexPtr → nat → Prop :=
  | walk_here : walk g s s 0
  | walk_step u v k : walk g s u k → has_edge g u v → walk g s v (S k).

(** [d] is the hop distance from [s] to [t]: some walk has [d] edges and none
    has fewer. *)
Definition is_hop_distance (g : Graph) (s t : VertexPtr) (d : nat) : Prop :=
  walk g s t d ∧ ∀ k, walk g s t k → d ≤ k.

(** [awalk g s t v k]: a walk of [k] edges from [s] to [v] on which no
    vertex is [t]. *)
Inductive awalk (g : Graph) (s t : VertexPtr) : VertexPtr → nat → Prop :=
  | awalk_here : s ≠ t → awalk g s t s 0
  | awalk_step u v k :
      awalk g s t u k → has_edge g u v → v ≠ t → awalk g s t v (S k).

(** The destinations of the flights out of [u]. *)
Definition successors (g : Graph) (u : VertexPtr) : list VertexPtr :=
  match g !! u with
  | Some ux => dest <$> adj ux
  | None => []
  end.

(** An independent breadth-first computation of the hop distance: the search
    proceeds level by level, [frontier] holding the vertices first reached
    after exactly [d] hops and [seen] those reached so far. *)
Fixpoint bfsLevels (g : Graph) (target : VertexPtr) (fuel : nat)
    (seen frontier : list VertexPtr) (d : nat) : option nat :=
  if bool_decide (target ∈ frontier) then Some d
  else
    match fuel with
    | O => None
    | S fuel' =>
        let next := filter (λ w, w ∉ seen) (frontier ≫= successors g) in
        bfsLevels g target fuel' (seen ++ next) next (S d)
    end.

Definition bfsDistance (g : Graph) (s t : VertexPtr) : option nat :=
  bfsLevels g t (length g) [s] [s] 0.

(** ** Visited flags *)

Definition is_visited (g : Graph) (u : VertexPtr) : Prop :=
  ∃ ux, g !! u = Some ux ∧ visited ux = true.

(** The number of vertices whose visited flag is clear. *)
Definition unvisited (g : Graph) : nat :=
  length (filter (λ v, visited v = false) g).

(** ** What a query may and may not change *)

(** The transient algorithm state of a vertex, erased. *)
Definition clearTransient (v : Vertex) : Vertex :=
  setLow 0 (setNum 0 (setProcessing false (setVisited false v))).

(** [g'] holds the same vertices, payloads, edges, degrees and flight counters
    as [g]; only visited flags may differ. *)
Definition same_but_visited (g g' : Graph) : Prop :=
  resetVisited g = resetVisited g'.

(** ... only visited and processing flags and the [num] and [low] labels may
    differ. *)
Definition same_but_transient (g g' : Graph) : Prop :=
  clearTransient <$> g = clearTransient <$> g'.

(** Every queued pair designates a vertex of the graph. *)
Definition queue_valid {A} (g : Graph) (q : list (A * VertexPtr)) : Prop :=
  ∀ x, x ∈ q → x.2 < length g.

(** ** Invariants of the shortest-path search *)

(** What holds of every path the search has queued or returned, whatever the
    graph: it starts at the source; a returned path ends at the target and
    has at least two nodes. *)
Definition sp_endpoints (source target : VertexPtr) (q : list (Path * VertexPtr))
    (paths : list Path) : Prop :=
  (∀ x, x ∈ q → head x.1 = Some source) ∧
  (∀ p, p ∈ paths →
     head p = Some source ∧ last p = Some target ∧ 2 ≤ length p).

Section sp_invariants.
Variables (g0 : Graph) (s t : VertexPtr) (D : nat).

(** A queued pair: the path starts at the source and is at least as long as
    some walk to its vertex. *)
Definition entry_ok (x : Path * VertexPtr) : Prop :=
  head x.1 = Some s ∧ ∃ k, walk g0 s x.2 k ∧ S k ≤ length x.1.

(** A recorded path. *)
Definition path_ok (size : Z) (p : Path) : Prop :=
  head p = Some s ∧ last p = Some t ∧ Z.of_nat (length p) = size.

(** Before the target is met: the path of a queued pair is as long as the
    shortest target-avoiding walk to its vertex, which is visited. *)
Definition entry_exact (g : Graph) (x : Path * VertexPtr) : Prop :=
  ∃ k, length x.1 = S k ∧ awalk g0 s t x.2 k ∧
       (∀ j, awalk g0 s t x.2 j → k ≤ j) ∧ is_visited g x.2.

(** The flights out of [u] lead to visited vertices, none to the target. *)
Definition expanded_ok (g : Graph) (u : VertexPtr) : Prop :=
  ∀ w, has_edge g0 u w → w ≠ t ∧ is_visited g w.

(** The queue holds paths of [S l] nodes followed by paths of [S (S l)]
    nodes. *)
Definition levels (q : list (Path * VertexPtr)) (l : nat) : Prop :=
  ∃ qa qb, q = qa ++ qb ∧ (∀ x, x ∈ qa → length x.1 = S l) ∧
           (∀ x, x ∈ qb → length x.1 = S (S l)).

(** Every vertex within [l] target-avoiding hops is visited. *)
Definition level_seen (g : Graph) (l : nat) : Prop :=
  ∀ u k, awalk g0 s t u k → k ≤ l → is_visited g u.

(** Between two turns of the [while] loop, before the target is met. *)
Definition before_hit_outer (g : Graph) (q : list (Path * VertexPtr))
    (l : nat) : Prop :=
  levels q l ∧ (∀ x, x ∈ q → entry_exact g x) ∧
  (∀ u, is_visited g u → u ∉ q.*2 → expanded_ok g u) ∧
  level_seen g l.

(** Inside the [for] over the flights of [c], after the flights [done_],
    before the target is met. *)
Definition before_hit_inner (g : Graph) (q : list (Path * VertexPtr))
    (c : VertexPtr) (first : Path) (done_ : list Edge) (l : nat) : Prop :=
  levels q l ∧ (∀ x, x ∈ q → entry_exact g x) ∧
  length first = S l ∧ entry_exact g (first, c) ∧
  (∀ u, is_visited g u → u ∉ q.*2 → u ≠ c → expanded_ok g u) ∧
  (∀ e, e ∈ done_ → dest e ≠ t ∧ is_visited g (dest e)) ∧
  level_seen g l.

Definition sp_outer (g : Graph) (q : list (Path * VertexPtr))
    (paths : list Path) (size : Z) : Prop :=
  same_but_visited g0 g ∧
  (∀ x, x ∈ q → entry_ok x) ∧
  (∀ p, p ∈ paths → path_ok size p) ∧
  ((paths = [] ∧ size = INT_MAX ∧ ∃ l, before_hit_outer g q l) ∨
   (size = Z.of_nat (S D) ∧ paths ≠ [])).

Definition sp_inner (c : VertexPtr) (done_ : list Edge) (st : sp_state)
    : Prop :=
  same_but_visited g0 (sp_graph st) ∧
  (∀ x, x ∈ sp_queue st → entry_ok x) ∧
  entry_ok (sp_first st, c) ∧
  (∀ p, p ∈ sp_paths st → path_ok (sp_size st) p) ∧
  ((sp_paths st = [] ∧ sp_size st = INT_MAX ∧
    ∃ l, before_hit_inner (sp_graph st) (sp_queue st) c (sp_first st)
           done_ l) ∨
   (sp_size st = Z.of_nat (S D) ∧ sp_paths st ≠ [])).
End sp_invariants.

(** ** Bounded-hop reachability *)

(** Every queued airport is a vertex of the graph. *)
Definition rd_queue_valid (g : Graph) (q : list (VertexPtr * Z)) : Prop :=
  ∀ x, x ∈ q → x.1 < length g.

(** The attributes of the destinations of [flights], read in graph [g]. *)
Definition collected (attributeExtractor : Vertex → string) (g : Graph)
    (flights : list Edge) : gset string :=
  list_to_set ((λ e, from_option attributeExtractor "" (g !! dest e))
                 <$> flights).

(** The count for the budget [layOvers] is representable as an [int]. *)
Definition count_fits (g : Graph) (airport : VertexPtr) (layOvers : Z)
    (attributeExtractor : Vertex → string) : Prop :=
  ∀ s g', reachableDestinations g airport layOvers attributeExtractor
          = Ok (s, g') → (Z.of_nat (size s) ≤ INT_MAX)%Z.

(** The extractor reads the airport's payload only. *)
Definition reads_info (attributeExtractor : Vertex → string) : Prop :=
  ∀ u v, info u = info v → attributeExtractor u = attributeExtractor v.

(** ** The articulation-point search *)

(** What a piece of the depth-first search does to the graph: it changes
    transient state only, and never clears a visited flag. *)
Definition ea_post (st st' : ea_state) : Prop :=
  same_but_transient (ea_graph st) (ea_graph st') ∧
  unvisited (ea_graph st') ≤ unvisited (ea_graph st) ∧
  (∀ u, is_visited (ea_graph st) u → is_visited (ea_graph st') u).

(** The first [k] vertices of the cycle [c] have been entered and are being
    processed, the j-th with number [j]. *)
Definition cyc_entered (g : Graph) (c : list VertexPtr) (k : nat) : Prop :=
  ∀ j u, j < k → c !! j = Some u →
    ∃ ux, g !! u = Some ux ∧ visited ux = true ∧ processing ux = true ∧
          num ux = Z.of_nat j.

(** The vertices of [c] from position [k] on have not been visited. *)
Definition cyc_fresh (g : Graph) (c : list VertexPtr) (k : nat) : Prop :=
  ∀ j u, k ≤ j → c !! j = Some u →
    ∃ ux, g !! u = Some ux ∧ visited ux = false.

(** The vertices of [c] from position [k] on have been left, with low-link
    0. *)
Definition cyc_left (g : Graph) (c : list VertexPtr) (k : nat) : Prop :=
  ∀ j u, k ≤ j → c !! j = Some u →
    ∃ ux, g !! u = Some ux ∧ visited ux = true ∧ processing ux = false ∧
          low ux = 0%Z.

(** ** Aligned segments *)

(** [p] runs from [a] to [b]: it is not empty, starts with [a], ends with
    [b]. *)
Definition runs_from_to (a b : VertexPtr) (p : Path) : Prop :=
  head p = Some a ∧ last p = Some b.

(** [chain ws p]: the path [p] is put together from one segment per pair of
    consecutive waypoints of [ws], each segment running from its waypoint to
    the next, and each joined to the path before it at the shared
    waypoint. *)
Inductive chain : list VertexPtr → Path → Prop :=
  | chain_segment a b p : runs_from_to a b p → chain [a; b] p
  | chain_extend ws b c p seg :
      chain ws p → last ws = Some b → runs_from_to b c seg →
      chain (ws ++ [c]) (p ++ tail seg).

(** Every node of the path is a vertex of a graph with [n] vertices. *)
Definition nodes_below (n : nat) (p : Path) : Prop := Forall (λ v, v < n) p.

(** What the custom-layover query promises about a path: it leads from one
    of the source airports through the layovers, in order, to one of the
    destination airports. *)
Definition through_layovers (customLayovers source destination : list VertexPtr)
    (p : Path) : Prop :=
  ∃ s d, s ∈ source ∧ d ∈ destination ∧
         chain (s :: customLayovers ++ [d]) p ∧
         head p = Some s ∧ last p = Some d.

(** ** A single directed cycle *)

(** [g] is the directed cycle [c_0 → c_1 → ... → c_(n-1) → c_0] through all of
    its vertices: [c] lists every vertex once, and the only flight out of the
    k-th vertex of [c] goes to the next one, cyclically. *)
Definition is_cycle (g : Graph) (c : list VertexPtr) : Prop :=
  c ≡ₚ seq 0 (length g) ∧
  ∀ k u, c !! k = Some u →
    ∃ ux e, g !! u = Some ux ∧ adj ux = [e] ∧
            c !! (S k mod length g) = Some (dest e).

(** ** Small graphs used as instances *)

Definition airport_ (c : string) : Airport :=
  mkAirport c c c c (mkCoordinates 0 0).

(** A vertex with code [c], one flight of distance [w] to each of [dests],
    and [t] flights to it and [f] flights from it. *)
Definition vertex_ (c : string) (w : float) (dests : list VertexPtr) (t f : Z)
    : Vertex :=
  mkVertex (airport_ c) ((λ d, mkEdge d w ∅) <$> dests) false false 0 0 0 0 t f.

(** A → B, A → C, C → B. *)
Definition g_triangle : Graph :=
  [vertex_ "A" 1 [1; 2] 0 0; vertex_ "B" 1 [] 0 0; vertex_ "C" 1 [1] 0 0].

(** A → B → A. *)
Definition g_round_trip : Graph :=
  [vertex_ "A" 1 [1] 0 0; vertex_ "B" 1 [0] 0 0].

(** One airport, no flight. *)
Definition g_single : Graph := [vertex_ "A" 1 [] 0 0].

(** A → C → B → A. *)
Definition g_cycle3 : Graph :=
  [vertex_ "A" 1 [2] 0 0; vertex_ "B" 1 [0] 0 0; vertex_ "C" 1 [1] 0 0].

(** Five airports with traffic volumes 10, 8, 5, 10, 8. *)
Definition g_traffic : Graph :=
  [vertex_ "A" 1 [] 5 5; vertex_ "B" 1 [] 4 4; vertex_ "C" 1 [] 2 3;
   vertex_ "D" 1 [] 8 2; vertex_ "E" 1 [] 4 4].

(** A → B, A → C, the airports B and C both being in the city X of the
    country Y. *)
Definition g_same_city : Graph :=
  [vertex_ "A" 1 [1; 2] 0 0;
   mkVertex (mkAirport "B" "B" "X" "Y" (mkCoordinates 0 0)) []
            false false 0 0 0 0 0 0;
   mkVertex (mkAirport "C" "C" "X" "Y" (mkCoordinates 0 0)) []
            false false 0 0 0 0 0 0].

(** A → B with a flight of distance zero; no flight back. *)
Definition g_zero : Graph :=
  [vertex_ "A" 0 [1] 0 0; vertex_ "B" 0 [] 0 0].

(** * The rest of the graph class and of the queries *)

(** ** Graph.h: building and editing the graph *)

(** [Vertex<T>::Vertex(T in)] initialises [info]; [adj] starts empty and the
    two flight counters start at 0 by their member initialisers.  The other
    fields are left indeterminate: the model takes them from [junk], an
    arbitrary vertex. *)
Definition Vertex_new (in_ : Airport) (junk : Vertex) : Vertex :=
  mkVertex in_ [] (visited junk) (processing junk) (inDegree junk)
           (outDegree junk) (num junk) (low junk) 0 0.

(** [Graph<T>::addVertex]. *)
Definition addVertex (g : Graph) (in_ : Airport) (junk : Vertex)
    : bool * Graph :=
  match findVertex g in_ with
  | Some _ => (false, g)
  | None => (true, g ++ [Vertex_new in_ junk])
  end.

(** The loop of [ParseData::parseAirports] over the airports read from the
    file, [dataGraph.addVertex(airportObj)] for each; [junk k] stands for the
    indeterminate fields of the k-th allocation. *)
Fixpoint addVertices (g : Graph) (airports : list Airport)
    (junk : nat → Vertex) : Graph :=
  match airports with
  | [] => g
  | a :: rest => addVertices (addVertex g a (junk (length g))).2 rest junk
  end.

(** [Vertex<T>::removeEdgeTo] on the adjacency vector: the first edge to [d]
    is erased. *)
Fixpoint removeEdgeTo_adj (d : VertexPtr) (flights : list Edge)
    : bool * list Edge :=
  match flights with
  | [] => (false, [])
  | e :: rest =>
      if decide (dest e = d) then (true, rest)
      else let '(b, rest') := removeEdgeTo_adj d rest in (b, e :: rest')
  end.

Definition Vertex_removeEdgeTo (d : VertexPtr) (v : Vertex) : bool * Vertex :=
  let '(b, flights) := removeEdgeTo_adj d (adj v) in (b, setAdj flights v).

(** [Graph<T>::removeEdge]. *)
Definition removeEdge (g : Graph) (source dest_ : Airport) : bool * Graph :=
  match findVertex g source, findVertex g dest_ with
  | Some v1, Some v2 =>
      match g !! v1 with
      | Some vx =>
          let '(b, vx') := Vertex_removeEdgeTo v2 vx in (b, <[v1 := vx']> g)
      | None => (false, g)
      end
  | _, _ => (false, g)
  end.

Definition setInDegree (n : Z) (v : Vertex) : Vertex :=
  mkVertex (info v) (adj v) (visited v) (processing v) n (outDegree v)
           (num v) (low v) (flightsTo v) (flightsFrom v).

Definition setOutDegree (n : Z) (v : Vertex) : Vertex :=
  mkVertex (info v) (adj v) (visited v) (processing v) (inDegree v) n
           (num v) (low v) (flightsTo v) (flightsFrom v).

(** The first loop of [Graph<T>::setupInDegreeAndOutDegree];
    [v->adj.size()] is converted to [int]. *)
Definition sd_init (g : Graph) : Graph :=
  (λ v, setOutDegree (static_cast_int (length (adj v))) (setInDegree 0 v))
  <$> g.

(** [for (auto& e : v->adj) e.dest->inDegree = e.dest->inDegree + 1;] *)
Fixpoint sd_count (flights : list Edge) (g : Graph) : outcome Graph :=
  match flights with
  | [] => Ok g
  | e :: rest =>
      wx ← deref g (dest e);
      sd_count rest (<[dest e := setInDegree (inDegree wx + 1)%Z wx]> g)
  end.

(** The second loop, over the vertex set. *)
Fixpoint sd_vertices (vs : list VertexPtr) (g : Graph) : outcome Graph :=
  match vs with
  | [] => Ok g
  | v :: rest =>
      vx ← deref g v;
      g' ← sd_count (adj vx) g;
      sd_vertices rest g'
  end.

Definition setupInDegreeAndOutDegree (g : Graph) : outcome Graph :=
  sd_vertices (seq 0 (length g)) (sd_init g).

(** The number of flights into [w]. *)
Definition incoming (g : Graph) (w : VertexPtr) : nat :=
  length (filter (λ d, d = w) (mjoin (edge_dests g))).

(** ** Consult.cpp: the counters *)

(** The values an [int] holds. *)
Definition int_range (z : Z) : Prop := (- 2 ^ 31 ≤ z ≤ INT_MAX)%Z.

Definition searchNumberOfAirports (g : Graph) : Z := static_cast_int (length g).

Definition searchNumberOfAvailableFlights (g : Graph) : Z :=
  foldl (λ totalFlights airport,
           wrap_int (totalFlights + flightsTo airport)%Z) 0%Z g.

Definition searchNumberOfAvailableFlightRoutes (g : Graph) : Z :=
  foldl (λ totalFlightRoutes airport,
           (totalFlightRoutes + outDegree airport)%Z) 0%Z g.

Definition searchNumberOfFlightsOutOfAirport (g : Graph) (airport : VertexPtr)
    : outcome Z :=
  ax ← deref g airport; Ok (flightsFrom ax).

Definition searchNumberOfFlightsToAirport (g : Graph) (airport : VertexPtr)
    : outcome Z :=
  ax ← deref g airport; Ok (flightsTo ax).

(** [searchNumberOfCountriesFlownToFromAirport]: the loop
    [countries.insert(flight.getDest()->getInfo().getCountry())] is the
    collecting loop of the bounded-hop query, for the country. *)
Definition searchNumberOfCountriesFlownToFromAirport (g : Graph)
    (airport : VertexPtr) : outcome Z :=
  ax ← deref g airport;
  countries ← rd_collect extractCountry (adj ax) g ∅;
  Ok (static_cast_int (size countries)).

(** ** Flights as the parser records them *)

(** Airline [c] is recorded on a flight from [u] to [w]. *)
Definition operates (g : Graph) (u w : VertexPtr) (c : string) : Prop :=
  ∃ ux e, g !! u = Some ux ∧ e ∈ adj ux ∧ dest e = w ∧ is_Some (airlines e !! c).

(** The graph as [parseAirports] and [parseFlights] keep it. *)
Definition well_formed (g : Graph) : Prop :=
  unique_codes g ∧ dests_valid g ∧ at_most_one_edge g.

(** The airport a field of a flight line designates. *)
Definition airportOfCode (g : Graph) (c : string) : option VertexPtr :=
  findVertex g (mkAirport c "" "" "" (mkCoordinates 0 0)).

(** Every airport a line names is in the graph. *)
Definition known_airports (g : Graph) (lines : list (string * string * string))
    : Prop :=
  ∀ line, line ∈ lines →
    is_Some (airportOfCode g line.1.1) ∧ is_Some (airportOfCode g line.1.2).

Section Haversine.
Variable HarversineDistance : float → float → float → float → float.

(** Every flight carries the distance between the coordinates of its two
    airports. *)
Definition distances_recorded (g : Graph) : Prop :=
  ∀ u ux e, g !! u = Some ux → e ∈ adj ux →
    ∃ dx, g !! dest e = Some dx ∧
          distance e = Airport_getDistance HarversineDistance (info ux)
                                           (location (info dx)).
End Haversine.

(** ** What a flight line does to the graph *)

(** The flights of the source airport after a line towards [t] with airline
    [al]: the airline is added to the flight to [t] when there is one, and
    otherwise a flight of distance [w] carrying it is appended. *)
Definition adj_with_flight (t : VertexPtr) (w : float) (al : Airline)
    (flights : list Edge) : list Edge :=
  match list_find (λ e, dest e = t) flights with
  | Some (j, _) => alter (Edge_addAirline al) j flights
  | None => flights ++ [Edge_addAirline al (mkEdge t w ∅)]
  end.

(** The graph after a line from [vs] to [vt]: the flight is recorded at the
    source, whose [flightsFrom] goes up by one ([int] addition), as does
    [flightsTo] of the target; nothing else changes. *)
Definition flight_added (vs vt : VertexPtr) (w : float) (al : Airline)
    (g : Graph) : Graph :=
  imap (λ i v,
          mkVertex (info v)
            (if decide (i = vs) then adj_with_flight vt w al (adj v)
             else adj v)
            (visited v) (processing v) (inDegree v) (outDegree v)
            (num v) (low v)
            (if decide (i = vt) then wrap_int (flightsTo v + 1)
             else flightsTo v)
            (if decide (i = vs) then wrap_int (flightsFrom v + 1)
             else flightsFrom v)) g.

(** The number of lines whose source (or target) field is [c]. *)
Definition lines_from (c : string) (lines : list (string * string * string))
    : nat :=
  length (filter (λ line, line.1.1 = c) lines).

Definition lines_to (c : string) (lines : list (string * string * string))
    : nat :=
  length (filter (λ line, line.1.2 = c) lines).

(** Two airports and no flight yet. *)
Definition g_two_airports : Graph :=
  [vertex_ "A" 1 [] 0 0; vertex_ "B" 1 [] 0 0].

(** Three flight lines: two airlines from A to B, one back. *)
Definition three_lines : list (string * string * string) :=
  [("A", "B", "TAP"); ("A", "B", "RYR"); ("B", "A", "TAP")].

(** The graph a run returned, or the empty graph. *)
Definition graph_of (r : outcome Graph) : Graph :=
  match r with
  | Ok g => g
  | _ => []
  end.

(** ** Depth-first traversals *)

(** [Graph::dfsVisit] and the [dfsVisit...] helpers of Consult.cpp are the
    same recursion: mark the vertex, do something with it, then visit every
    destination that is not marked yet.  [process v vx r] is what the helper
    does with the marked vertex [vx], reached through the pointer [v], and
    its accumulator [r]. *)
Section dfsWith.
Context {R : Type}.
Variable process : VertexPtr → Vertex → R → R.

(** The [for] over the flights; [rec] is the recursive call. *)
Fixpoint dfsWith_adj (rec : VertexPtr → Graph * R → outcome (Graph * R))
    (flights : list Edge) (st : Graph * R) : outcome (Graph * R) :=
  match flights with
  | [] => Ok st
  | e :: rest =>
      let d := dest e in
      dx ← deref st.1 d;
      if visited dx then dfsWith_adj rec rest st
      else st' ← rec d st; dfsWith_adj rec rest st'
  end.

Fixpoint dfsWith (fuel : nat) (v : VertexPtr) (st : Graph * R)
    : outcome (Graph * R) :=
  match fuel with
  | O => OutOfFuel
  | S fuel' =>
      vx ← deref st.1 v;
      let vx1 := setVisited true vx in
      dfsWith_adj (dfsWith fuel') (adj vx1)
                  (<[v := vx1]> st.1, process v vx1 st.2)
  end.

(** [for (auto v : vertexSet) if (!v->isVisited()) dfsVisit...(v, res);] *)
Fixpoint dfsWith_roots (fuel : nat) (vs : list VertexPtr) (st : Graph * R)
    : outcome (Graph * R) :=
  match vs with
  | [] => Ok st
  | v :: rest =>
      vx ← deref st.1 v;
      if visited vx then dfsWith_roots fuel rest st
      else st' ← dfsWith fuel v st; dfsWith_roots fuel rest st'
  end.

(** [process] applied to the vertices of [order], one after the other. *)
Definition processAll (g : Graph) (order : list VertexPtr) (r : R) : R :=
  foldl (λ r v, match g !! v with
                | Some vx => process v (setVisited true vx) r
                | None => r
                end) r order.
End dfsWith.

(** What a depth-first traversal started at [roots] on the graph [g] has
    done when it returns [g']: [order] lists the vertices it marked, in the
    order of marking. *)
Definition dfs_post (g : Graph) (roots : list VertexPtr) (g' : Graph)
    (order : list VertexPtr) : Prop :=
  same_but_visited g g' ∧
  NoDup order ∧
  (∀ u, u ∈ order → u < length g ∧ ¬ is_visited g u) ∧
  (∀ u, is_visited g' u ↔ is_visited g u ∨ u ∈ order) ∧
  (∀ u, u ∈ order → ∃ s k, s ∈ roots ∧ walk g s u k) ∧
  (∀ u w, u ∈ order → has_edge g u w → is_visited g' w) ∧
  (∀ s, s ∈ roots → is_visited g' s).

(** [u] is reached from [s] along some flights, possibly none. *)
Definition reachable (g : Graph) (s u : VertexPtr) : Prop := ∃ k, walk g s u k.

(** The payloads of the vertices of [order]. *)
Definition infos_of (g : Graph) (order : list VertexPtr) : list Airport :=
  omap (λ u, info <$> g !! u) order.

(** [Graph<T>::dfs()]: the traversal of the whole graph. *)
Fixpoint dfs_roots (fuel : nat) (vs : list VertexPtr)
    (st : Graph * list Airport) : outcome (Graph * list Airport) :=
  match vs with
  | [] => Ok st
  | v :: rest =>
      vx ← deref st.1 v;
      if visited vx then dfs_roots fuel rest st
      else st' ← dfsVisit fuel v st; dfs_roots fuel rest st'
  end.

Definition dfs_all (g : Graph) : outcome (list Airport * Graph) :=
  '(g', res) ← dfs_roots (length g) (seq 0 (length g)) (resetVisited g, []);
  Ok (res, g').

(** ** Consult.cpp: the queries built on a traversal *)

(** [dfsVisitFlightsPerCity]: [res[cityAndCountry] += v->getFlightsFrom()]. *)
Definition addFlightsOfCity (v : VertexPtr) (vx : Vertex)
    (res : gmap (string * string) Z) : gmap (string * string) Z :=
  let cityAndCountry := (city (info vx), country (info vx)) in
  <[cityAndCountry :=
      wrap_int (default 0 (res !! cityAndCountry) + flightsFrom vx)%Z]> res.

Definition dfsVisitFlightsPerCity := dfsWith addFlightsOfCity.

Definition searchNumberOfFlightsPerCity (g : Graph)
    : outcome (gmap (string * string) Z * Graph) :=
  '(g', res) ← dfsWith_roots addFlightsOfCity (length g) (seq 0 (length g))
                 (resetVisited g, ∅);
  Ok (res, g').

(** [dfsAvailableDestinations]: the destination is marked and handed to
    [processDestination] before the recursive call; the vertex the traversal
    starts from is not marked. *)
Section dfsAvailableDestinations.
Context {R : Type}.
Variable processDestination : VertexPtr → Vertex → R → R.

Fixpoint ad_flights (rec : VertexPtr → Graph * R → outcome (Graph * R))
    (flights : list Edge) (st : Graph * R) : outcome (Graph * R) :=
  match flights with
  | [] => Ok st
  | flight :: rest =>
      let d := dest flight in
      dx ← deref st.1 d;
      if visited dx then ad_flights rec rest st
      else
        let dx1 := setVisited true dx in
        st' ← rec d (<[d := dx1]> st.1, processDestination d dx1 st.2);
        ad_flights rec rest st'
  end.

Fixpoint dfsAvailableDestinations (fuel : nat) (v : VertexPtr)
    (st : Graph * R) : outcome (Graph * R) :=
  match fuel with
  | O => OutOfFuel
  | S fuel' =>
      vx ← deref st.1 v;
      ad_flights (dfsAvailableDestinations fuel') (adj vx) st
  end.
End dfsAvailableDestinations.

(** The three counts of destinations available from an airport.  The
    recursion is at most one call deeper than the number of vertices. *)
Definition searchNumberOfAirportsAvailableForAirport (g : Graph)
    (airport : VertexPtr) : outcome (Z * Graph) :=
  '(g', numberOfAirports) ←
    dfsAvailableDestinations (λ _ _ n, (n + 1)%Z) (S (length g)) airport
                             (resetVisited g, 0%Z);
  Ok (numberOfAirports, g').

Definition searchNumberOfCitiesAvailableForAirport (g : Graph)
    (airport : VertexPtr) : outcome (Z * Graph) :=
  '(g', cityAndRespectiveCountry) ←
    dfsAvailableDestinations
      (λ _ vx (s : gset (string * string)),
         {[(city (info vx), country (info vx))]} ∪ s)
      (S (length g)) airport (resetVisited g, ∅);
  Ok (static_cast_int (size cityAndRespectiveCountry), g').

Definition searchNumberOfCountriesAvailableForAirport (g : Graph)
    (airport : VertexPtr) : outcome (Z * Graph) :=
  '(g', countries) ←
    dfsAvailableDestinations
      (λ _ vx (s : gset string), {[country (info vx)]} ∪ s)
      (S (length g)) airport (resetVisited g, ∅);
  Ok (static_cast_int (size countries), g').

(** The airport, city and country of a vertex, as the queries key them. *)
Definition cityAndCountry (vx : Vertex) : string * string :=
  (city (info vx), country (info vx)).

(** The flights out of the airports of a city. *)
Definition flights_of_city (g : Graph) (k : string * string) : Z :=
  foldr (λ vx t, (flightsFrom vx + t)%Z) 0%Z
        (filter (λ vx, cityAndCountry vx = k) g).

(** [order] lists, once each, the vertices that can be reached from
    [airport] by one flight or more. *)
Definition destinations_of (g : Graph) (airport : VertexPtr)
    (order : list VertexPtr) : Prop :=
  NoDup order ∧ ∀ u, u ∈ order ↔ ∃ k, walk g airport u (S k).

(** The vertex objects behind the pointers of [order]. *)
Definition vertices_of (g : Graph) (order : list VertexPtr) : list Vertex :=
  omap (λ u, g !! u) order.

(** ** Itineraries *)

(** Every two consecutive airports of [p] are joined by a flight. *)
Fixpoint is_route (g : Graph) (p : Path) : Prop :=
  match p with
  | a :: (b :: _) as rest => has_edge g a b ∧ is_route g rest
  | _ => True
  end.

(** The layovers [int currentLayOvers = v.size() - 2] gives a path. *)
Definition layOversOf (v : Path) : Z := wrap_int (Z.of_nat (length v) - 2).

(** The paths the shortest-path query finds for the pairs of [source] and
    [destination]. *)
Definition candidate_of (g : Graph) (source destination : list VertexPtr)
    (v : Path) : Prop :=
  ∃ s d paths g', s ∈ source ∧ d ∈ destination ∧
    searchSmallestPathBetweenAirports g s d = Ok (paths, g') ∧ v ∈ paths.

(** ** Script.cpp: best paths *)

(** [Script::getBestPathsAllAirlines].  Its [for (auto v : paths)] loop is
    the one of the variant with custom layovers, [cl_evaluate]. *)
Fixpoint bp_destinations (g : Graph) (sourceAirport : VertexPtr)
    (destination : list VertexPtr) (totalPaths : list Trip) (minLayOvers : Z)
    : outcome (list Trip * Z * Graph) :=
  match destination with
  | [] => Ok (totalPaths, minLayOvers, g)
  | destinationAirport :: rest =>
      '(paths, g') ← searchSmallestPathBetweenAirports g sourceAirport
                        destinationAirport;
      '(totalPaths', minLayOvers') ← cl_evaluate g' paths totalPaths minLayOvers;
      bp_destinations g' sourceAirport rest totalPaths' minLayOvers'
  end.

Fixpoint bp_sources (g : Graph) (source destination : list VertexPtr)
    (totalPaths : list Trip) (minLayOvers : Z)
    : outcome (list Trip * Z * Graph) :=
  match source with
  | [] => Ok (totalPaths, minLayOvers, g)
  | sourceAirport :: rest =>
      '(totalPaths', minLayOvers', g') ←
        bp_destinations g sourceAirport destination totalPaths minLayOvers;
      bp_sources g' rest destination totalPaths' minLayOvers'
  end.

Definition getBestPathsAllAirlines (g : Graph)
    (source destination : list VertexPtr) : outcome (list Trip * Graph) :=
  '(totalPaths, _, g') ← bp_sources g source destination [] INT_MAX;
  Ok (totalPaths, g').

Global Instance Airline_eq_dec : EqDecision Airline.
Proof. solve_decision. Defined.

(** [Script::getBestPathsSameAirlines].  The loop
    [for (size_t i = 0; i < v.size() - 1; ++i)] over the legs of [v], from
    leg [i] on: the airlines of the first leg, intersected with those of
    every further leg ([set_intersection] copies from [same_airlines]), until
    the set is empty.  The result is [(sameAirline, same_airlines)]. *)
Fixpoint sa_legs (g : Graph) (v : Path) (i : nat) (same_airlines : AirlineSet)
    : outcome (bool * AirlineSet) :=
  match v with
  | a :: (b :: _) as rest =>
      temp_airlines ← airlinesThatOperateBetweenAirports g a b;
      let same_airlines :=
        if decide (i = 0) then temp_airlines
        else same_airlines ∩ temp_airlines in
      if decide (same_airlines = ∅) then Ok (false, same_airlines)
      else sa_legs g rest (S i) same_airlines
  | _ => Ok (true, same_airlines)
  end.

(** On an empty [v] the bound [v.size() - 1] wraps around and [v[0]] is read
    out of bounds. *)
Definition sameAirlines (g : Graph) (v : Path) : outcome (bool * AirlineSet) :=
  match v with
  | [] => Undefined
  | _ => sa_legs g v 0 ∅
  end.

Fixpoint sa_evaluate (g : Graph) (paths : list Path) (totalPaths : list Trip)
    (minLayOvers : Z) : outcome (list Trip * Z) :=
  match paths with
  | [] => Ok (totalPaths, minLayOvers)
  | v :: rest =>
      '(sameAirline, same_airlines) ← sameAirlines g v;
      if (sameAirline : bool) then
        let currentLayOvers := wrap_int (Z.of_nat (length v) - 2) in
        let '(totalPaths, minLayOvers) :=
          if (currentLayOvers <? minLayOvers)%Z then ([], currentLayOvers)
          else (totalPaths, minLayOvers) in
        if (currentLayOvers =? minLayOvers)%Z then
          d ← pathDistance g v 0%float;
          sa_evaluate g rest (totalPaths ++ [(same_airlines, (v, d))])
                      minLayOvers
        else sa_evaluate g rest totalPaths minLayOvers
      else sa_evaluate g rest totalPaths minLayOvers
  end.

Fixpoint sa_destinations (g : Graph) (sourceAirport : VertexPtr)
    (destination : list VertexPtr) (totalPaths : list Trip) (minLayOvers : Z)
    : outcome (list Trip * Z * Graph) :=
  match destination with
  | [] => Ok (totalPaths, minLayOvers, g)
  | destinationAirport :: rest =>
      '(paths, g') ← searchSmallestPathBetweenAirports g sourceAirport
                        destinationAirport;
      '(totalPaths', minLayOvers') ← sa_evaluate g' paths totalPaths minLayOvers;
      sa_destinations g' sourceAirport rest totalPaths' minLayOvers'
  end.

Fixpoint sa_sources (g : Graph) (source destination : list VertexPtr)
    (totalPaths : list Trip) (minLayOvers : Z)
    : outcome (list Trip * Z * Graph) :=
  match source with
  | [] => Ok (totalPaths, minLayOvers, g)
  | sourceAirport :: rest =>
      '(totalPaths', minLayOvers', g') ←
        sa_destinations g sourceAirport destination totalPaths minLayOvers;
      sa_sources g' rest destination totalPaths' minLayOvers'
  end.

Definition getBestPathsSameAirlines (g : Graph)
    (source destination : list VertexPtr) : outcome (list Trip * Graph) :=
  '(totalPaths, _, g') ← sa_sources g source destination [] INT_MAX;
  Ok (totalPaths, g').

(** Airline [c] is recorded on every leg of [v]. *)
Definition flies_route (g : Graph) (c : string) (v : Path) : Prop :=
  ∀ i a b, v !! i = Some a → v !! S i = Some b → operates g a b c.

(** A → B → C; TAP flies both legs, RYR the first only. *)
Definition g_two_legs : Graph :=
  [mkVertex (airport_ "A")
     [mkEdge 1 1 {["TAP" := mkAirline "TAP" "" "" "";
                   "RYR" := mkAirline "RYR" "" "" ""]}]
     false false 0 0 0 0 0 2;
   mkVertex (airport_ "B")
     [mkEdge 2 1 {["TAP" := mkAirline "TAP" "" "" ""]}]
     false false 0 0 0 0 2 1;
   vertex_ "C" 1 [] 1 0].

(** What the shortest-path search keeps of a path it has queued for [v]: the
    path is an itinerary that ends at [v], unless it is already as long as the
    shortest path found ([current.first] is extended in place when the target
    is hit, and the paths queued after that carry the extra node). *)
Definition route_to (g : Graph) (size : Z) (p : Path) (v : VertexPtr) : Prop :=
  (is_route g p ∧ last p = Some v) ∨ (size ≤ Z.of_nat (length p))%Z.

(** A → B twice (two parallel flights), A → C, C → B. *)
Definition g_parallel : Graph :=
  [vertex_ "A" 1 [1; 1; 2] 0 0; vertex_ "B" 1 [] 0 0; vertex_ "C" 1 [1] 0 0].

(** The paths the shortest-path query finds for the pairs of [pairs]. *)
Definition candidate_of_pairs (g : Graph)
    (pairs : list (VertexPtr * VertexPtr)) (v : Path) : Prop :=
  ∃ s d paths g', (s, d) ∈ pairs ∧
    searchSmallestPathBetweenAirports g s d = Ok (paths, g') ∧ v ∈ paths.

(** What [totalPaths] and [minLayOvers] hold once the candidates [P] have
    been evaluated, [qual v S] saying that the candidate [v] qualifies, with
    the airlines [S]: the trips are the qualifying candidates with the fewest
    layovers, each with its distance. *)
Definition best_trips (g : Graph) (P : Path → Prop)
    (qual : Path → AirlineSet → Prop) (totalPaths : list Trip)
    (minLayOvers : Z) : Prop :=
  (∀ t, t ∈ totalPaths →
     P t.2.1 ∧ qual t.2.1 t.1 ∧ layOversOf t.2.1 = minLayOvers ∧
     pathDistance g t.2.1 0%float = Ok t.2.2) ∧
  (∀ v S, P v → qual v S → (minLayOvers ≤ layOversOf v)%Z) ∧
  (∀ v S, P v → qual v S → layOversOf v = minLayOvers →
     v ∈ (λ t : Trip, t.2.1) <$> totalPaths) ∧
  (minLayOvers ≤ INT_MAX)%Z ∧
  (totalPaths = [] → minLayOvers = INT_MAX).

(** ** Utilities.cpp: strings *)

Section Strings.

(** [tolower] and [isspace] of <cctype> depend on the locale in force; they
    are parameters. *)
Variable tolower : Ascii.ascii → Ascii.ascii.
Variable isspace : Ascii.ascii → bool.

Fixpoint ToLower (input : string) : string :=
  match input with
  | EmptyString => EmptyString
  | String c rest => String (tolower c) (ToLower rest)
  end.

Fixpoint RemoveSpaces (str : string) : string :=
  match str with
  | EmptyString => EmptyString
  | String ch rest =>
      if isspace ch then RemoveSpaces rest else String ch (RemoveSpaces rest)
  end.

(** [find_if(first, last, [](char c) { return !isspace(c); })] on the
    characters of a string: what is left from the position found on. *)
Fixpoint from_first_non_space (l : list Ascii.ascii) : list Ascii.ascii :=
  match l with
  | [] => []
  | c :: rest => if isspace c then from_first_non_space rest else l
  end.

(** [TrimString]: the first [erase] removes what lies before the first
    character that is no space; the second searches from the back
    ([rbegin], [rend]) and removes what lies behind the last such
    character. *)
Definition TrimString (toTrim : string) : string :=
  let trimmed := from_first_non_space (String.list_ascii_of_string toTrim) in
  String.string_of_list_ascii
    (reverse (from_first_non_space (reverse trimmed))).

(** A string without a space at either end. *)
Definition trimmed_string (l : list Ascii.ascii) : Prop :=
  (∀ c, head l = Some c → isspace c = false) ∧
  (∀ c, last l = Some c → isspace c = false).

(** *** The queries by city *)

(** [dfsVisitCityAirports]: the airport is kept when its city and country,
    in lower case and without spaces, are the strings given. *)
Definition in_city (city_ country_ : string) (vx : Vertex) : Prop :=
  RemoveSpaces (ToLower (city (info vx))) = city_ ∧
  RemoveSpaces (ToLower (country (info vx))) = country_.

Global Instance in_city_dec city_ country_ vx :
  Decision (in_city city_ country_ vx).
Proof. unfold in_city. apply _. Defined.

Definition addCityAirport (city_ country_ : string) (v : VertexPtr)
    (vx : Vertex) (res : list VertexPtr) : list VertexPtr :=
  if decide (in_city city_ country_ vx) then res ++ [v] else res.

Definition dfsVisitCityAirports (city_ country_ : string) :=
  dfsWith (addCityAirport city_ country_).

(** [getAirportsInACityAndCountry] hands the strings over in lower case and
    without spaces. *)
Definition getAirportsInACityAndCountry (g : Graph) (city_ country_ : string)
    : outcome (list VertexPtr * Graph) :=
  '(g', cityAirports) ←
    dfsWith_roots (addCityAirport (RemoveSpaces (ToLower city_))
                                  (RemoveSpaces (ToLower country_)))
                  (length g) (seq 0 (length g)) (resetVisited g, []);
  Ok (cityAirports, g').

(** [for (const auto& v : cityAirports) for (const auto& flight : v->getAdj())
    countries.insert(...)]. *)
Fixpoint cf_collect (cityAirports : list VertexPtr) (g : Graph)
    (countries : gset string) : outcome (gset string) :=
  match cityAirports with
  | [] => Ok countries
  | v :: rest =>
      vx ← deref g v;
      countries' ← rd_collect extractCountry (adj vx) g countries;
      cf_collect rest g countries'
  end.

(** [searchNumberOfCountriesFlownToFromCity] hands [city] and [country] to
    [dfsVisitCityAirports] as they are. *)
Definition searchNumberOfCountriesFlownToFromCity (g : Graph)
    (city_ country_ : string) : outcome (Z * Graph) :=
  '(g', cityAirports) ←
    dfsWith_roots (addCityAirport city_ country_)
                  (length g) (seq 0 (length g)) (resetVisited g, []);
  countries ← cf_collect cityAirports g' ∅;
  Ok (static_cast_int (size countries), g').

End Strings.

(** The "C" locale, in which a program runs unless it calls [setlocale]. *)
Definition isspace_C (c : Ascii.ascii) : bool :=
  let n := Ascii.nat_of_ascii c in (n =? 32) || ((9 <=? n) && (n <=? 13)).

Definition tolower_C (c : Ascii.ascii) : Ascii.ascii :=
  let n := Ascii.nat_of_ascii c in
  if (65 <=? n) && (n <=? 90) then Ascii.ascii_of_nat (n + 32) else c.

(** Two airports of the same city, flying to two other countries. *)
Definition g_cities : Graph :=
  [mkVertex (mkAirport "LHR" "Heathrow" "London" "United Kingdom"
               (mkCoordinates 0 0))
     [mkEdge 2 1 ∅] false false 0 0 0 0 0 1;
   mkVertex (mkAirport "LGW" "Gatwick" "London" "United Kingdom"
               (mkCoordinates 0 0))
     [mkEdge 3 1 ∅] false false 0 0 0 0 0 1;
   mkVertex (mkAirport "OPO" "Porto" "Porto" "Portugal" (mkCoordinates 0 0))
     [] false false 0 0 0 0 1 0;
   mkVertex (mkAirport "CDG" "Charles de Gaulle" "Paris" "France"
               (mkCoordinates 0 0))
     [] false false 0 0 0 0 1 0].

(** ** Consult.cpp: the statistics by airline *)

(** Every airline of a flight is filed under its code, as [Edge::addAirline]
    files it. *)
Definition airlines_keyed (g : Graph) : Prop :=
  ∀ u ux e c a, g !! u = Some ux → e ∈ adj ux → airlines e !! c = Some a →
    airline_code a = c.

(** The airlines of a set in the order a [for] over the [std::set] yields
    them: by ascending code. *)
Definition AirlineSet_elements (s : AirlineSet) : list Airline :=
  (merge_sort (λ x y : string * Airline, String.le x.1 y.1)
              (map_to_list s)).*2.

(** [for (const auto& airline : flights.getAirlines())
    airlines.insert(airline);] *)
Definition insertAirlines (flightAirlines airlines_ : AirlineSet) : AirlineSet :=
  foldl (λ acc airline, AirlineSet_insert airline acc) airlines_
        (AirlineSet_elements flightAirlines).

Definition searchNumberOfFlightsOutOfAirportFromDifferentAirlines (g : Graph)
    (airport : VertexPtr) : outcome Z :=
  ax ← deref g airport;
  Ok (static_cast_int
        (size (foldl (λ airlines_ flights,
                        insertAirlines (airlines flights) airlines_)
                     ∅ (adj ax)))).

(** [res[airline]++] on a [map<Airline, int>], which is ordered by the code
    like the sets of airlines: the entry of the code keeps the airline it was
    created with. *)
Definition countAirline (airline : Airline) (res : gmap string (Airline * Z))
    : gmap string (Airline * Z) :=
  match res !! airline_code airline with
  | Some (a, n) => <[airline_code airline := (a, (n + 1)%Z)]> res
  | None => <[airline_code airline := (airline, 1%Z)]> res
  end.

(** [dfsVisitFlightsPerAirline]: the two nested loops over the flights of
    the vertex and their airlines. *)
Definition addFlightsOfAirlines (v : VertexPtr) (vx : Vertex)
    (res : gmap string (Airline * Z)) : gmap string (Airline * Z) :=
  foldl (λ res flight,
           foldl (λ acc airline, countAirline airline acc) res
                 (AirlineSet_elements (airlines flight)))
        res (adj vx).

Definition dfsVisitFlightsPerAirline := dfsWith addFlightsOfAirlines.

Definition searchNumberOfFlightsPerAirline (g : Graph)
    : outcome (gmap string (Airline * Z) * Graph) :=
  '(g', res) ← dfsWith_roots addFlightsOfAirlines (length g)
                 (seq 0 (length g)) (resetVisited g, ∅);
  Ok (res, g').

(** The number of flights of the list that carry airline [c]. *)
Definition flights_with (c : string) (flights : list Edge) : nat :=
  length (filter (λ e, is_Some (airlines e !! c)) flights).

(** The number of flights of the graph that carry airline [c]. *)
Definition routes_of_airline (g : Graph) (c : string) : nat :=
  flights_with c (vx ← g; adj vx).

(** ** Script.cpp: best paths of one airline through custom layovers *)

(** [Script::getBestPathsSameAirlinesWithCustomLayovers]: the candidates of
    [customLayoverPaths], evaluated by the loop of
    [getBestPathsSameAirlines]. *)
Fixpoint csa_destinations (g : Graph) (customLayovers : list VertexPtr)
    (sourceAirport : VertexPtr) (destination : list VertexPtr)
    (totalPaths : list Trip) (minLayOvers : Z)
    : outcome (list Trip * Z * Graph) :=
  match destination with
  | [] => Ok (totalPaths, minLayOvers, g)
  | destinationAirport :: rest =>
      '(paths, g') ← customLayoverPaths g customLayovers sourceAirport
                        destinationAirport;
      '(totalPaths', minLayOvers') ← sa_evaluate g' paths totalPaths minLayOvers;
      csa_destinations g' customLayovers sourceAirport rest totalPaths'
                       minLayOvers'
  end.

Fixpoint csa_sources (g : Graph) (customLayovers : list VertexPtr)
    (source destination : list VertexPtr)
    (totalPaths : list Trip) (minLayOvers : Z)
    : outcome (list Trip * Z * Graph) :=
  match source with
  | [] => Ok (totalPaths, minLayOvers, g)
  | sourceAirport :: rest =>
      '(totalPaths', minLayOvers', g') ←
        csa_destinations g customLayovers sourceAirport destination totalPaths
                         minLayOvers;
      csa_sources g' customLayovers rest destination totalPaths' minLayOvers'
  end.

Definition getBestPathsSameAirlinesWithCustomLayovers (g : Graph)
    (customLayovers source destination : list VertexPtr)
    : outcome (list Trip * Graph) :=
  '(totalPaths, _, g') ←
    csa_sources g customLayovers source destination [] INT_MAX;
  Ok (totalPaths, g').

(** The candidate paths through the layovers for the pairs of [pairs], and
    for the pairs of [source] and [destination]. *)
Definition layover_candidate_of_pairs (g : Graph)
    (customLayovers : list VertexPtr) (pairs : list (VertexPtr * VertexPtr))
    (v : Path) : Prop :=
  ∃ s d paths g', (s, d) ∈ pairs ∧
    customLayoverPaths g customLayovers s d = Ok (paths, g') ∧ v ∈ paths.

Definition layover_candidate_of (g : Graph)
    (customLayovers source destination : list VertexPtr) (v : Path) : Prop :=
  ∃ s d paths g', s ∈ source ∧ d ∈ destination ∧
    customLayoverPaths g customLayovers s d = Ok (paths, g') ∧ v ∈ paths.

(** A → B → C → D; TAP flies every leg, RYR the first only. *)
Definition g_three_legs : Graph :=
  [mkVertex (airport_ "A")
     [mkEdge 1 1 {["TAP" := mkAirline "TAP" "" "" "";
                   "RYR" := mkAirline "RYR" "" "" ""]}]
     false false 0 0 0 0 0 2;
   mkVertex (airport_ "B")
     [mkEdge 2 1 {["TAP" := mkAirline "TAP" "" "" ""]}]
     false false 0 0 0 0 2 1;
   mkVertex (airport_ "C")
     [mkEdge 3 1 {["TAP" := mkAirline "TAP" "" "" ""]}]
     false false 0 0 0 0 1 1;
   vertex_ "D" 1 [] 1 0].

(** ** Consult.cpp: the maximum trip *)

(** The inner [for] of [searchMaxTripAndCorrespondingPairsOfAirports], for
    the airport [a] taken from the queue.  [distanceToOtherAirports[a]] and
    [pathToOtherAirports[a]] are [operator[]] on an [unordered_map]: they
    create the entry when there is none. *)
Fixpoint mt_flights (a : VertexPtr) (flights : list Edge) (g : Graph)
    (q : list VertexPtr) (distanceToOtherAirports : gmap VertexPtr Z)
    (pathToOtherAirports : gmap VertexPtr Path)
    : outcome (Graph * list VertexPtr * gmap VertexPtr Z * gmap VertexPtr Path) :=
  match flights with
  | [] => Ok (g, q, distanceToOtherAirports, pathToOtherAirports)
  | flight :: rest =>
      let d := dest flight in
      dx ← deref g d;
      if visited dx then
        mt_flights a rest g q distanceToOtherAirports pathToOtherAirports
      else
        let da := default 0%Z (distanceToOtherAirports !! a) in
        let distance_ :=
          <[d := (da + 1)%Z]> (<[a := da]> distanceToOtherAirports) in
        let pa := default [] (pathToOtherAirports !! a) in
        let path_ := <[d := pa ++ [d]]> (<[a := pa]> pathToOtherAirports) in
        mt_flights a rest (<[d := setVisited true dx]> g) (q ++ [d])
                   distance_ path_
  end.

(** The [while (!q.empty())] loop. *)
Fixpoint mt_loop (fuel : nat) (g : Graph) (q : list VertexPtr)
    (distanceToOtherAirports : gmap VertexPtr Z)
    (pathToOtherAirports : gmap VertexPtr Path)
    : outcome (gmap VertexPtr Z * gmap VertexPtr Path * Graph) :=
  match q with
  | [] => Ok (distanceToOtherAirports, pathToOtherAirports, g)
  | a :: q' =>
      match fuel with
      | O => OutOfFuel
      | S fuel' =>
          ax ← deref g a;
          '(g', q'', distance_, path_) ←
            mt_flights a (adj ax) g q' distanceToOtherAirports
                       pathToOtherAirports;
          mt_loop fuel' g' q'' distance_ path_
      end
  end.

Section MaxTrip.

(** The order in which a [for] over an [unordered_map] yields the entries is
    unspecified; [enumerate] stands for it. *)
Variable enumerate : gmap VertexPtr Z → list (VertexPtr * Z).

(** [max_element(begin, end, distanceASC)->second]; on an empty map the
    iterator returned is [end()]. *)
Definition mt_max (distanceToOtherAirports : gmap VertexPtr Z) : outcome Z :=
  match enumerate distanceToOtherAirports with
  | [] => Undefined
  | p :: rest =>
      Ok (foldl (λ largest p', if (largest <? p'.2)%Z then p'.2 else largest)
                p.2 rest)
  end.

(** [for (const auto& pair : distanceToOtherAirports) if (pair.second ==
    maxDistance) airportPaths.emplace_back(pathToOtherAirports[pair.first]);] *)
Definition mt_matching (distanceToOtherAirports : gmap VertexPtr Z)
    (pathToOtherAirports : gmap VertexPtr Path) (maxDistance : Z)
    (airportPaths : list Path) : list Path :=
  foldl (λ acc p, if (p.2 =? maxDistance)%Z
                  then acc ++ [default [] (pathToOtherAirports !! p.1)]
                  else acc)
        airportPaths (enumerate distanceToOtherAirports).

(** The [for (const auto& airport : consultGraph.getVertexSet())] loop. *)
Fixpoint mt_sources (fuel : nat) (airports : list VertexPtr) (g : Graph)
    (diameter : Z) (airportPaths : list Path)
    : outcome (list Path * Z * Graph) :=
  match airports with
  | [] => Ok (airportPaths, diameter, g)
  | airport :: rest =>
      let g1 := resetVisited g in
      ax ← deref g1 airport;
      '(distance_, path_, g2) ←
        mt_loop fuel (<[airport := setVisited true ax]> g1) [airport]
                {[airport := 0%Z]} {[airport := [airport]]};
      maxDistance ← mt_max distance_;
      let '(diameter, airportPaths) :=
        if (diameter <? maxDistance)%Z then (maxDistance, [])
        else (diameter, airportPaths) in
      let airportPaths :=
        if (maxDistance =? diameter)%Z
        then mt_matching distance_ path_ maxDistance airportPaths
        else airportPaths in
      mt_sources fuel rest g2 diameter airportPaths
  end.

(** The paths returned and the value stored in [diameterResult]. *)
Definition searchMaxTripAndCorrespondingPairsOfAirports (g : Graph)
    : outcome (list Path * Z * Graph) :=
  mt_sources (length g) (seq 0 (length g)) g 0%Z [].

End MaxTrip.

(** An order is admissible when it yields every entry of the map once. *)
Definition enumerates (enumerate : gmap VertexPtr Z → list (VertexPtr * Z))
    : Prop :=
  ∀ m, enumerate m ≡ₚ map_to_list m.

(** What the search from [s] leaves in its two maps: an entry for every
    airport that can be reached from [s], holding its hop distance from [s]
    and an itinerary of that many flights. *)
Definition bfs_tree (g : Graph) (s : VertexPtr) (distance_ : gmap VertexPtr Z)
    (path_ : gmap VertexPtr Path) : Prop :=
  ∀ u, (reachable g s u ↔ is_Some (distance_ !! u)) ∧
       ∀ k, distance_ !! u = Some k →
            ∃ d p, k = Z.of_nat d ∧ is_hop_distance g s u d ∧
                   path_ !! u = Some p ∧ is_route g p ∧
                   head p = Some s ∧ last p = Some u ∧ length p = S d.

(** The invariant of the search from [s]: the airports taken from the queue
    ([done_]) are at most [L] flights away, the queue holds airports [L]
    flights away followed by airports [L + 1] flights away, every entry
    comes with an itinerary of that length, and the flights out of the
    airports of [done_] lead to airports that have an entry at most one
    flight further. *)
Definition mt_inv (g : Graph) (s : VertexPtr) (done_ q : list VertexPtr)
    (distance_ : gmap VertexPtr Z) (path_ : gmap VertexPtr Path) : Prop :=
  (∀ u, is_Some (distance_ !! u) ↔ u ∈ done_ ++ q) ∧
  (∀ u k, distance_ !! u = Some k →
     ∃ d p, k = Z.of_nat d ∧ path_ !! u = Some p ∧ is_route g p ∧
            head p = Some s ∧ last p = Some u ∧ length p = S d) ∧
  (∃ L q1 q2, q = q1 ++ q2 ∧
     (∀ u k, u ∈ done_ → distance_ !! u = Some k → (k ≤ L)%Z) ∧
     (∀ u, u ∈ q1 → distance_ !! u = Some L) ∧
     (∀ u, u ∈ q2 → distance_ !! u = Some (L + 1)%Z)) ∧
  (∀ u w ku, u ∈ done_ → has_edge g u w → distance_ !! u = Some ku →
     ∃ kw, distance_ !! w = Some kw ∧ (kw ≤ ku + 1)%Z).

(** What holds once the airports of [done_] have been searched from. *)
Definition mt_outer (g : Graph) (done_ : list VertexPtr) (diameter : Z)
    (airportPaths : list Path) : Prop :=
  (∀ s t d, s ∈ done_ → is_hop_distance g s t d → (Z.of_nat d ≤ diameter)%Z) ∧
  (done_ = [] → diameter = 0%Z ∧ airportPaths = []) ∧
  (done_ ≠ [] →
     ∃ s t d, s ∈ done_ ∧ is_hop_distance g s t d ∧ diameter = Z.of_nat d) ∧
  (∀ p, p ∈ airportPaths →
     ∃ s t d, s ∈ done_ ∧ is_hop_distance g s t d ∧ diameter = Z.of_nat d ∧
              is_route g p ∧ head p = Some s ∧ last p = Some t ∧
              length p = S d) ∧
  (∀ s t d, s ∈ done_ → is_hop_distance g s t d → diameter = Z.of_nat d →
     ∃ p, p ∈ airportPaths ∧ head p = Some s ∧ last p = Some t).

(** A → B, A → C, B → C, B → D: the longest trip, A to D, takes two
    flights. *)
Definition g_diamond : Graph :=
  [vertex_ "A" 1 [1; 2] 0 0; vertex_ "B" 1 [2; 3] 0 0;
   vertex_ "C" 1 [] 0 0; vertex_ "D" 1 [] 0 0].

(** * Basic facts about the model *)

Section outcome_facts.
Context {A B : Type}.

Lemma bind_Ok (m : outcome A) (f : A → outcome B) (b : B) :
  m ≫= f = Ok b ↔ ∃ a, m = Ok a ∧ f a = Ok b.
Proof.
  destruct m as [a| |]; simpl; split.
  - intros H. by exists a.
  - by intros (a' & [= <-] & H).
  - done.
  - by intros (a' & [=] & _).
  - done.
  - by intros (a' & [=] & _).
Qed.

Lemma bind_Ok_l (m : outcome A) (f : A → outcome B) (a : A) :
  m = Ok a → m ≫= f = f a.
Proof. by intros ->. Qed.
End outcome_facts.

Lemma deref_Ok (g : Graph) p v : deref g p = Ok v ↔ g !! p = Some v.
Proof. unfold deref. destruct (g !! p); naive_solver. Qed.

Lemma deref_lookup (g : Graph) p v : g !! p = Some v → deref g p = Ok v.
Proof. apply deref_Ok. Qed.

Lemma deref_invalid (g : Graph) p : length g ≤ p → deref g p = Undefined.
Proof. intros H. unfold deref. by rewrite lookup_ge_None_2. Qed.

Lemma deref_valid (g : Graph) p : p < length g → ∃ v, deref g p = Ok v.
Proof.
  intros H. destruct (lookup_lt_is_Some_2 g p H) as [v Hv].
  exists v. by apply deref_Ok.
Qed.

Lemma length_resetVisited (g : Graph) : length (resetVisited g) = length g.
Proof. apply length_fmap. Qed.

Lemma lookup_resetVisited (g : Graph) i :
  resetVisited g !! i = setVisited false <$> g !! i.
Proof. apply list_lookup_fmap. Qed.

Lemma Airport_eqb_true a b : Airport_eqb a b = true ↔ code a = code b.
Proof. unfold Airport_eqb. apply bool_decide_eq_true. Qed.

Lemma Airport_eqb_false a b : Airport_eqb a b = false ↔ code a ≠ code b.
Proof. unfold Airport_eqb. apply bool_decide_eq_false. Qed.

Lemma findVertex_Some (g : Graph) a i :
  findVertex g a = Some i →
  ∃ v, g !! i = Some v ∧ code (info v) = code a ∧
       ∀ j w, g !! j = Some w → j < i → code (info w) ≠ code a.
Proof.
  unfold findVertex. intros H.
  destruct (list_find _ g) as [[i' v]|] eqn:E; simplify_eq/=.
  apply list_find_Some in E as (Hl & Hc & Hmin).
  exists v. split; [done|]. split; [by apply Airport_eqb_true|].
  intros j w Hj Hlt Hcode. apply (Hmin j w Hj Hlt). by apply Airport_eqb_true.
Qed.

Lemma findVertex_None (g : Graph) a :
  findVertex g a = None ↔ ∀ v, v ∈ g → code (info v) ≠ code a.
Proof.
  unfold findVertex. rewrite fmap_None, list_find_None, Forall_forall.
  split; intros H v Hv; specialize (H v Hv); by rewrite Airport_eqb_true in *.
Qed.

Lemma findVertex_unique (g : Graph) i v :
  unique_codes g → g !! i = Some v → findVertex g (info v) = Some i.
Proof.
  intros Hu Hi. destruct (findVertex g (info v)) as [j|] eqn:E.
  - apply findVertex_Some in E as (w & Hj & Hc & _).
    f_equal. by apply (Hu j i w v).
  - exfalso. rewrite findVertex_None in E.
    apply (E v); [by eapply list_elem_of_lookup_2|done].
Qed.

(** Decidable forms of the well-formedness conditions, and a tactic that
    settles a decidable closed proposition by evaluation. *)

Ltac by_compute := apply (bool_decide_unpack _); vm_compute; exact I.

Lemma unique_codes_NoDup (g : Graph) :
  NoDup ((λ v, code (info v)) <$> g) → unique_codes g.
Proof.
  intros Hn i j vi vj Hi Hj Hc.
  eapply (NoDup_lookup _ i j (code (info vi))); [done| |].
  - by rewrite list_lookup_fmap, Hi.
  - by rewrite list_lookup_fmap, Hj, Hc.
Qed.

Lemma dests_valid_Forall (g : Graph) :
  Forall (λ v, Forall (λ e, dest e < length g) (adj v)) g → dests_valid g.
Proof.
  rewrite Forall_forall. intros H u ux e Hu He.
  specialize (H ux (list_elem_of_lookup_2 _ _ _ Hu)).
  rewrite Forall_forall in H. by apply H.
Qed.

Lemma at_most_one_edge_Forall (g : Graph) :
  Forall (λ v, NoDup (dest <$> adj v)) g ↔ at_most_one_edge g.
Proof.
  rewrite Forall_forall. split.
  - intros H u ux Hu. apply H. by eapply list_elem_of_lookup_2.
  - intros H v Hv. apply list_elem_of_lookup in Hv as [u Hu]. by eapply H.
Qed.

Lemma has_edge_successors (g : Graph) u w :
  has_edge g u w ↔ w ∈ successors g u.
Proof.
  unfold has_edge, successors. split.
  - intros (ux & e & -> & He & <-). apply list_elem_of_fmap. by exists e.
  - destruct (g !! u) as [ux|]; [|by intros ?%elem_of_nil].
    intros (e & -> & He)%list_elem_of_fmap. by exists ux, e.
Qed.

(** * getDistanceBetweenAirports *)

Lemma distance_scan_no_match (g : Graph) target tx flights :
  g !! target = Some tx →
  (∀ e, e ∈ flights → ∃ dx, g !! dest e = Some dx ∧
                             code (info dx) ≠ code (info tx)) →
  distance_scan g target flights = Ok 0%float.
Proof.
  intros Ht. induction flights as [|e rest IH]; intros H; [done|].
  destruct (H e) as (dx & Hd & Hne); [left|]. simpl.
  rewrite (deref_lookup _ _ _ Hd), (deref_lookup _ _ _ Ht). simpl.
  apply Airport_eqb_false in Hne. rewrite Hne.
  apply IH. intros e' He'. apply H. by right.
Qed.

(** C10.  On a well-formed graph, when [source] has no flight to [target],
    [getDistanceBetweenAirports] returns [0.0]; this is also what it returns
    for a flight whose distance is zero (graph [g_zero]), so the two cases
    cannot be told apart from the result. *)
Theorem getDistanceBetweenAirports_no_edge (g : Graph) (source target : VertexPtr) :
  unique_codes g → dests_valid g →
  source < length g → target < length g →
  ¬ has_edge g source target →
  getDistanceBetweenAirports g source target = Ok 0%float ∧
  (has_edge g_zero 0 1 ∧ getDistanceBetweenAirports g_zero 0 1 = Ok 0%float).
Proof.
  intros Hu Hd Hs Ht Hne. split.
  - destruct (lookup_lt_is_Some_2 g source Hs) as [sx Hsx].
    destruct (lookup_lt_is_Some_2 g target Ht) as [tx Htx].
    unfold getDistanceBetweenAirports.
    rewrite (deref_lookup _ _ _ Hsx). simpl.
    apply (distance_scan_no_match g target tx); [done|].
    intros e He.
    destruct (lookup_lt_is_Some_2 g (dest e) (Hd source sx e Hsx He))
      as [dx Hdx].
    exists dx. split; [done|]. intros Hc.
    apply Hne. exists sx, e. split_and!; [done..|].
    by apply (Hu (dest e) target dx tx).
  - split; [|reflexivity].
    eexists _, _. split; [reflexivity|]. split; [left|reflexivity].
Qed.

Lemma getDistanceBetweenAirports_no_edge_witness :
  getDistanceBetweenAirports g_triangle 1 0 = Ok 0%float ∧
  (has_edge g_zero 0 1 ∧ getDistanceBetweenAirports g_zero 0 1 = Ok 0%float).
Proof.
  apply getDistanceBetweenAirports_no_edge.
  - apply unique_codes_NoDup. by_compute.
  - apply dests_valid_Forall. by_compute.
  - simpl; lia.
  - simpl; lia.
  - rewrite has_edge_successors. by_compute.
Defined.

(** * Updates that keep a projection of the graph *)

Lemma fmap_insert_same {A B} (f : A → B) (g : list A) i v v' :
  g !! i = Some v → f v' = f v → f <$> <[i:=v']> g = f <$> g.
Proof.
  intros Hi Hf. rewrite list_fmap_insert. apply list_insert_id.
  by rewrite list_lookup_fmap, Hi, Hf.
Qed.

Lemma fmap_alter_same {A B} (f : A → B) (h : A → A) (g : list A) i :
  (∀ v, f (h v) = f v) → f <$> alter h i g = f <$> g.
Proof.
  intros Hf. apply list_eq. intros j.
  rewrite !list_lookup_fmap. destruct (decide (i = j)) as [->|Hne].
  - rewrite list_lookup_alter_eq. destruct (g !! j); simpl; by rewrite ?Hf.
  - by rewrite list_lookup_alter_ne.
Qed.

(** * Absent start nodes (C8) *)

(** C8, as the code has it.  The graph-level traversals [dfs] and [bfs] look
    their source up by identifier and return the empty sequence, leaving the
    graph untouched, when it is absent.  The Consult queries take a vertex
    pointer and dereference it unconditionally: for a pointer that designates
    no vertex their behaviour is undefined, not an empty answer. *)
Theorem absent_start_node (g : Graph) (source : Airport) (p target : VertexPtr)
    (layOvers : Z) (attributeExtractor : Vertex → string) :
  findVertex g source = None → length g ≤ p →
  dfs g source = Ok ([], g) ∧
  bfs g source = Ok ([], g) ∧
  searchNumberOfReachableDestinationsInXStopsFromAirport
    g p layOvers attributeExtractor = Undefined ∧
  searchSmallestPathBetweenAirports g p target = Undefined ∧
  getDistanceBetweenAirports g p target = Undefined.
Proof.
  intros Hf Hp. unfold dfs, bfs. rewrite Hf. split_and!; [done..| | |].
  - unfold searchNumberOfReachableDestinationsInXStopsFromAirport,
      reachableDestinations.
    rewrite deref_invalid; [done|by rewrite length_resetVisited].
  - unfold searchSmallestPathBetweenAirports.
    rewrite deref_invalid; [done|by rewrite length_resetVisited].
  - unfold getDistanceBetweenAirports. by rewrite deref_invalid.
Qed.

Lemma absent_start_node_witness :
  dfs g_single (airport_ "Z") = Ok ([], g_single) ∧
  bfs g_single (airport_ "Z") = Ok ([], g_single) ∧
  searchNumberOfReachableDestinationsInXStopsFromAirport
    g_single 1 0 extractAirportCode = Undefined ∧
  searchSmallestPathBetweenAirports g_single 1 0 = Undefined ∧
  getDistanceBetweenAirports g_single 1 0 = Undefined.
Proof.
  apply absent_start_node.
  - reflexivity.
  - simpl. lia.
Defined.

(** The claim as stated fails on the bounded-hop count: with a start pointer
    that designates no vertex the query has no defined result, in particular
    not the count zero. *)
Lemma absent_start_node_not_empty :
  searchNumberOfReachableAirportsInXStopsFromAirport g_single 1 0 = Undefined ∧
  ¬ ∃ g', searchNumberOfReachableAirportsInXStopsFromAirport g_single 1 0
          = Ok (0%Z, g').
Proof. split; [reflexivity|]. by intros [g' Hg']. Qed.

(** * One edge per ordered pair (C2) *)

Lemma findVertex_code (g : Graph) a b :
  code a = code b → findVertex g a = findVertex g b.
Proof.
  intros Hc. unfold findVertex, Airport_eqb. by rewrite Hc.
Qed.

Lemma addEdge_Some (g : Graph) a b w v1 v2 :
  findVertex g a = Some v1 → findVertex g b = Some v2 →
  addEdge g a b w = (true, alter (Vertex_addEdge v2 w) v1 g).
Proof. intros H1 H2. unfold addEdge. by rewrite H1, H2. Qed.

Lemma addEdge_None (g : Graph) a b w :
  findVertex g a = None ∨ findVertex g b = None →
  addEdge g a b w = (false, g).
Proof.
  unfold addEdge. intros [->| ->]; [done|]. by destruct (findVertex g a).
Qed.

Lemma at_most_one_edge_dests (g : Graph) :
  at_most_one_edge g ↔ Forall NoDup (edge_dests g).
Proof.
  rewrite <-at_most_one_edge_Forall. unfold edge_dests.
  by rewrite Forall_fmap.
Qed.

Lemma edge_dests_addAirline (g : Graph) a j s :
  edge_dests (alter (λ v, setAdj (alter (Edge_addAirline a) j (adj v)) v) s g)
  = edge_dests g.
Proof.
  apply fmap_alter_same. intros v. simpl.
  by apply (fmap_alter_same dest).
Qed.

Lemma pf_findEdge_None (g : Graph) targetAirport flights i :
  pf_findEdge g targetAirport flights i = Ok None →
  ∀ e, e ∈ flights →
    ∃ dx tx, g !! dest e = Some dx ∧ deref_found g targetAirport = Ok tx ∧
             code (info dx) ≠ code (info tx).
Proof.
  revert i. induction flights as [|e rest IH]; intros i H e' He'.
  { by apply elem_of_nil in He'. }
  simpl in H. apply bind_Ok in H as (dx & Hdx & H).
  apply bind_Ok in H as (tx & Htx & H).
  destruct (Airport_eqb (info dx) (info tx)) eqn:E; [done|].
  apply elem_of_cons in He' as [->|He'].
  - exists dx, tx. split_and!; [by apply deref_Ok|done|].
    by apply Airport_eqb_false.
  - by eapply IH.
Qed.

Lemma edge_dests_counters (g : Graph) i v v' :
  g !! i = Some v → adj v' = adj v → edge_dests (<[i:=v']> g) = edge_dests g.
Proof.
  intros Hi Ha. apply (fmap_insert_same _ g i v v' Hi). by rewrite Ha.
Qed.

Lemma deref_found_Ok (g : Graph) p v :
  deref_found g p = Ok v → ∃ i, p = Some i ∧ g !! i = Some v.
Proof.
  destruct p as [i|]; [|done]. intros H%deref_Ok. by exists i.
Qed.

Section parseFlight_facts.
Variable HarversineDistance : float → float → float → float → float.

(** The two counter updates that end a turn of the loop. *)
Lemma parseFlight_counters (g1 g' : Graph) sourceAirport targetAirport :
  (sx1 ← deref_found g1 sourceAirport;
   let g2 := <[default 0 sourceAirport :=
                 setFlightsFrom (wrap_int (flightsFrom sx1 + 1)) sx1]> g1 in
   tx1 ← deref_found g2 targetAirport;
   Ok (<[default 0 targetAirport :=
           setFlightsTo (wrap_int (flightsTo tx1 + 1)) tx1]> g2)) = Ok g' →
  edge_dests g' = edge_dests g1.
Proof.
  intros H. apply bind_Ok in H as (sx1 & Hs & H).
  apply deref_found_Ok in Hs as (s & -> & Hs). simpl in H.
  apply bind_Ok in H as (tx1 & Ht & H).
  apply deref_found_Ok in Ht as (t & -> & Ht). simpl in H.
  injection H as <-.
  rewrite (edge_dests_counters _ t tx1 _ Ht); [|done].
  by rewrite (edge_dests_counters _ s sx1 _ Hs).
Qed.

Lemma parseFlight_edge_invariant airlinesInfo (g g' : Graph) line :
  at_most_one_edge g →
  parseFlight HarversineDistance airlinesInfo g line = Ok g' →
  at_most_one_edge g'.
Proof.
  rewrite !at_most_one_edge_dests. intros Hinv H.
  destruct line as [[source target] airlineCode].
  unfold parseFlight in H.
  set (temp1 := mkAirport source _ _ _ _) in H.
  set (temp2 := mkAirport target _ _ _ _) in H.
  apply bind_Ok in H as (sx & Hsx & H).
  apply deref_found_Ok in Hsx as (s & Hfs & Hsx).
  apply bind_Ok in H as (foundEdge & Hfound & H).
  apply bind_Ok in H as (g1 & Hg1 & H).
  apply parseFlight_counters in H. rewrite H. clear H g'.
  destruct foundEdge as [j|].
  - injection Hg1 as <-. by rewrite edge_dests_addAirline.
  - apply bind_Ok in Hg1 as (tx & Htx & Hg1).
    pose proof Htx as Htx'.
    apply deref_found_Ok in Htx' as (t & Hft & Htx').
    pose proof (findVertex_Some _ _ _ Hfs) as (sx' & Hsx' & Hcs & _).
    pose proof (findVertex_Some _ _ _ Hft) as (tx' & Htx'' & Hct & _).
    simplify_eq.
    rewrite (addEdge_Some g (info sx) (info tx) _ s t) in Hg1;
      [|by rewrite <-Hfs; apply findVertex_code
       |by rewrite <-Hft; apply findVertex_code].
    simpl in Hg1.
    assert (Forall NoDup (edge_dests (alter (Vertex_addEdge t
              (Airport_getDistance HarversineDistance (info sx)
                 (location (info tx)))) s g))) as Hadd.
    { unfold edge_dests.
      rewrite (list_fmap_alter _ _ (λ l, l ++ [t])).
      2:{ apply Forall_true. intros v. simpl. by rewrite fmap_app. }
      apply Forall_alter; [done|].
      intros l Hl Hnd. apply NoDup_app. split_and!; [done| |apply NoDup_singleton].
      intros x Hx ->%list_elem_of_singleton.
      rewrite list_lookup_fmap, Hsx in Hl. simplify_eq/=.
      apply list_elem_of_fmap in Hx as (e & -> & He).
      destruct (pf_findEdge_None _ _ _ _ Hfound e He)
        as (dx & tx2 & Hdx & Htx2 & Hne).
      rewrite Hft in Htx2. simpl in Htx2. apply deref_Ok in Htx2.
      rewrite Hdx in Htx'. by simplify_eq. }
    apply bind_Ok in Hg1 as (sx2 & _ & Hg1).
    apply bind_Ok in Hg1 as (found' & _ & Hg1).
    destruct found' as [j|]; injection Hg1 as <-; [|done].
    by rewrite edge_dests_addAirline.
Qed.

Lemma parseFlights_edge_invariant airlinesInfo lines (g g' : Graph) :
  at_most_one_edge g →
  parseFlights HarversineDistance airlinesInfo g lines = Ok g' →
  at_most_one_edge g'.
Proof.
  revert g. induction lines as [|line rest IH]; intros g Hinv H.
  - by injection H as <-.
  - simpl in H. apply bind_Ok in H as (g1 & H1 & H).
    eapply IH; [|done]. by eapply parseFlight_edge_invariant.
Qed.

End parseFlight_facts.

(** C2, as the code has it.  [Graph::addEdge] never looks for an existing
    edge: when both endpoints are found it appends a new edge to the source's
    adjacency, and otherwise it returns [false] and changes nothing.  What
    keeps at most one edge per ordered pair is [ParseData::parseFlights],
    which calls [addEdge] only after searching the source's flights in vain
    and otherwise adds the airline to the edge it found: every run of
    [parseFlights] preserves the invariant. *)
Theorem parseFlights_at_most_one_edge
    (HarversineDistance : float → float → float → float → float)
    (airlinesInfo : AirlineSet) (lines : list (string * string * string))
    (g g' : Graph) (a b : Airport) (w : float) :
  at_most_one_edge g →
  parseFlights HarversineDistance airlinesInfo g lines = Ok g' →
  at_most_one_edge g' ∧
  match findVertex g a, findVertex g b with
  | Some v1, Some v2 =>
      ∃ v, g !! v1 = Some v ∧
           addEdge g a b w = (true, <[v1 := setAdj (adj v ++ [mkEdge v2 w ∅]) v]> g)
  | _, _ => addEdge g a b w = (false, g)
  end.
Proof.
  intros Hinv H. split; [by eapply parseFlights_edge_invariant|].
  destruct (findVertex g a) as [v1|] eqn:E1;
    [|apply addEdge_None; by left].
  destruct (findVertex g b) as [v2|] eqn:E2;
    [|apply addEdge_None; by right].
  destruct (findVertex_Some _ _ _ E1) as (v & Hv & _).
  exists v. split; [done|].
  rewrite (addEdge_Some _ _ _ _ _ _ E1 E2). f_equal.
  apply list_eq. intros i. destruct (decide (v1 = i)) as [<-|Hne].
  - rewrite list_lookup_alter_eq, list_lookup_insert_eq, Hv;
      [done|by eapply lookup_lt_Some].
  - by rewrite list_lookup_alter_ne, list_lookup_insert_ne.
Qed.

Lemma parseFlights_at_most_one_edge_witness :
  at_most_one_edge
    (default [] (match parseFlights (λ _ _ _ _, 1%float) ∅ g_round_trip
                         [("A", "B", "TAP"); ("A", "B", "RYR"); ("B", "A", "TAP")]
                 with Ok g' => Some g' | _ => None end)) ∧
  ∃ v, g_round_trip !! 0 = Some v ∧
       addEdge g_round_trip (airport_ "A") (airport_ "B") 1
       = (true, <[0 := setAdj (adj v ++ [mkEdge 1 1 ∅]) v]> g_round_trip).
Proof.
  apply (parseFlights_at_most_one_edge (λ _ _ _ _, 1%float) ∅
           [("A", "B", "TAP"); ("A", "B", "RYR"); ("B", "A", "TAP")]
           g_round_trip _ (airport_ "A") (airport_ "B") 1%float).
  - apply at_most_one_edge_Forall. by_compute.
  - reflexivity.
Defined.

(** The claim as stated fails: a second [addEdge] for a pair that already has
    an edge creates a parallel edge. *)
Lemma addEdge_parallel_edge :
  at_most_one_edge g_round_trip ∧
  ¬ at_most_one_edge
      (addEdge g_round_trip (airport_ "A") (airport_ "B") 1).2.
Proof.
  split.
  - apply at_most_one_edge_Forall. by_compute.
  - rewrite <-at_most_one_edge_Forall. by_compute.
Qed.

(** * Top-K airports by traffic (C3) *)

Lemma filter_none {A} (P : A → Prop) `{∀ x, Decision (P x)} (l : list A) :
  Forall (λ x, ¬ P x) l → filter P l = [].
Proof.
  induction 1 as [|x l Hx _ IH]; [done|]. by rewrite filter_cons_False.
Qed.

Lemma StronglySorted_filter_keep {A} (R : relation A) (P : A → Prop)
    `{∀ x, Decision (P x)} (l : list A) :
  StronglySorted R l → StronglySorted R (filter P l).
Proof.
  induction 1 as [|x l Hs IH Hx]; [constructor|].
  rewrite filter_cons. destruct (decide (P x)); [|done].
  constructor; [done|]. apply Forall_forall. intros y Hy.
  apply list_elem_of_filter in Hy as [_ Hy].
  rewrite Forall_forall in Hx. by apply Hx.
Qed.

Global Instance traffic_ge_trans : Transitive traffic_ge.
Proof. unfold traffic_ge. intros a b c ??. lia. Qed.

Lemma sorted_by_traffic_strongly (g airports : list Vertex) :
  sorted_by_traffic g airports → StronglySorted traffic_ge airports.
Proof. intros [_ H]. apply (Sorted_StronglySorted traffic_ge). exact H. Qed.

Lemma moreTraffic_spec (a1 a2 : Vertex) :
  moreTraffic a1 a2 = (totalFlights a2 <? totalFlights a1)%Z.
Proof.
  unfold moreTraffic, totalFlights.
  by rewrite !(Z.add_comm (flightsTo _) (flightsFrom _)).
Qed.

Lemma insertByTraffic_perm a l : insertByTraffic a l ≡ₚ a :: l.
Proof.
  induction l as [|b l IH]; simpl; [done|].
  destruct (moreTraffic b a); [|done]. rewrite IH. apply Permutation_swap.
Qed.

Lemma insertByTraffic_sorted a l :
  StronglySorted traffic_ge l → StronglySorted traffic_ge (insertByTraffic a l).
Proof.
  induction 1 as [|b l Hs IH Hb]; simpl.
  { repeat constructor. }
  rewrite moreTraffic_spec. destruct (totalFlights a <? totalFlights b)%Z eqn:E.
  - apply Z.ltb_lt in E. constructor; [done|].
    rewrite insertByTraffic_perm. constructor; [|done].
    unfold traffic_ge. lia.
  - apply Z.ltb_ge in E. constructor; [by constructor|].
    constructor; [done|].
    eapply Forall_impl; [exact Hb|]. unfold traffic_ge. intros x. simpl. lia.
Qed.

(** The insertion sort is one of the routines [std::sort] may be. *)
Lemma sortByTraffic_sorts : sorts_by_traffic sortByTraffic.
Proof.
  intros g. split.
  - induction g as [|a g IH]; simpl; [done|].
    by rewrite insertByTraffic_perm, IH.
  - apply StronglySorted_Sorted.
    induction g as [|a g IH]; simpl; [constructor|].
    by apply insertByTraffic_sorted.
Qed.

(** Once [i] has reached [k], the loop keeps exactly the airports tied with
    the last one it kept. *)
Lemma topK_loop_ties (k i last_ : Z) (l : list Vertex) :
  (k ≤ i)%Z → StronglySorted traffic_ge l →
  Forall (λ a, (totalFlights a ≤ last_)%Z) l →
  topK_loop k i last_ l
  = traffic_entry <$> filter (λ a, totalFlights a = last_) l.
Proof.
  intros Hk Hs. revert i Hk last_.
  induction Hs as [|a l Hs IH Ha]; intros i Hk last_ Hle; [done|].
  apply Forall_cons in Hle as [Hale Hle]. simpl.
  replace (i <? k)%Z with false by (symmetry; apply Z.ltb_ge; lia).
  simpl. destruct (totalFlights a =? last_)%Z eqn:E.
  - apply Z.eqb_eq in E. rewrite filter_cons_True by done.
    rewrite fmap_cons. f_equal. rewrite IH; [by rewrite E|lia|].
    eapply Forall_impl; [exact Ha|]. unfold traffic_ge. simpl. lia.
  - apply Z.eqb_neq in E. rewrite filter_cons_False by done.
    assert (filter (λ a0, totalFlights a0 = last_) l = []) as ->; [|done].
    apply filter_none. eapply Forall_impl; [exact Ha|].
    unfold traffic_ge. simpl. lia.
Qed.

(** While [i] is below [k], the loop keeps the next [k - i] airports. *)
Lemma topK_loop_first (k : Z) (l : list Vertex) :
  ∀ (n : nat) (i last_ : Z),
    (i + Z.of_nat n = k)%Z → 0 < n →
    topK_loop k i last_ l
    = (traffic_entry <$> take n l) ++
      match last (take n l) with
      | Some ak => topK_loop k k (totalFlights ak) (drop n l)
      | None => []
      end.
Proof.
  induction l as [|a l IH]; intros n i last_ Hi Hn.
  { by rewrite take_nil. }
  destruct n as [|n]; [lia|]. simpl.
  replace (i <? k)%Z with true by (symmetry; apply Z.ltb_lt; lia).
  simpl. f_equal. destruct n as [|n].
  - rewrite take_0, drop_0. simpl. by replace (i + 1)%Z with k by lia.
  - rewrite (IH (S n) (i + 1)%Z); [|lia..]. f_equal.
    destruct l as [|b l]; [done|].
    by rewrite (firstn_cons n b l), last_cons_cons.
Qed.

Lemma topK_loop_first_k_and_ties (g airports : list Vertex) (k : Z) :
  (1 ≤ k)%Z → sorted_by_traffic g airports →
  topK_loop k 0 0 airports
  = traffic_entry <$> first_k_and_ties (Z.to_nat k) airports.
Proof.
  intros Hk Hs. apply sorted_by_traffic_strongly in Hs.
  rewrite (topK_loop_first k airports (Z.to_nat k)); [|lia..].
  unfold first_k_and_ties. rewrite fmap_app. f_equal.
  destruct (last (take (Z.to_nat k) airports)) as [ak|] eqn:E; [|done].
  rewrite <-(take_drop (Z.to_nat k) airports) in Hs.
  apply topK_loop_ties; [lia|by eapply StronglySorted_app_1_r|].
  apply Forall_forall. intros x Hx.
  apply (StronglySorted_app_1_elem_of _ _ _ ak x Hs); [|done].
  by apply last_Some_elem_of.
Qed.

(** The rule the loop follows: for [k ≥ 1] the query returns, in descending
    order of the [int] sum [flightsFrom + flightsTo], the first [k] airports
    of the ranking followed by exactly those later airports that have as
    many flights as the k-th, whatever order [std::sort] leaves among
    ties. *)
Lemma searchTopK_first_k_and_ties (sort : list Vertex → list Vertex)
    (g : Graph) (k : Z) :
  sorts_by_traffic sort → (1 ≤ k)%Z →
  searchTopKAirportGreatestAirTrafficCapacity sort g k
    = traffic_entry <$> first_k_and_ties (Z.to_nat k) (sort g) ∧
  StronglySorted traffic_ge (first_k_and_ties (Z.to_nat k) (sort g)).
Proof.
  intros Hsort Hk. pose proof (Hsort g) as Hs. split.
  - by apply (topK_loop_first_k_and_ties g).
  - apply sorted_by_traffic_strongly in Hs.
    unfold first_k_and_ties.
    rewrite <-(take_drop (Z.to_nat k) (sort g)) in Hs.
    destruct (last (take (Z.to_nat k) (sort g))) as [ak|] eqn:E.
    + apply StronglySorted_app_2.
      * intros x1 x2 H1 H2. apply list_elem_of_filter in H2 as [_ H2].
        by apply (StronglySorted_app_1_elem_of _ _ _ x1 x2 Hs).
      * by eapply StronglySorted_app_1_l.
      * apply StronglySorted_filter_keep. by eapply StronglySorted_app_1_r.
    + rewrite app_nil_r. by eapply StronglySorted_app_1_l.
Qed.

Global Instance Z_ge_trans : Transitive (λ x y : Z, (y ≤ x)%Z).
Proof. intros x y z ??. lia. Qed.

Global Instance Z_ge_antisymm : AntiSymm (=) (λ x y : Z, (y ≤ x)%Z).
Proof. intros x y ??. lia. Qed.

(** Whatever [std::sort] does with ties, the sorted vector of [g_traffic]
    carries the volumes 10, 10, 8, 8, 5 in this order. *)
Lemma sorted_g_traffic_volumes (airports : list Vertex) :
  sorted_by_traffic g_traffic airports →
  totalFlights <$> airports = [10; 10; 8; 8; 5]%Z.
Proof.
  intros [Hperm Hsorted].
  apply (Sorted_unique (λ x y : Z, (y ≤ x)%Z)).
  - by apply (Sorted_fmap totalFlights
                (λ a1 a2, (totalFlights a2 ≤ totalFlights a1)%Z)).
  - repeat constructor; lia.
  - rewrite Hperm. vm_compute.
    apply (Permutation_trans (l' := [10; 10; 8; 5; 8]%Z)).
    + apply perm_skip. by rewrite (Permutation_middle [8; 5] [8] 10)%Z.
    + do 3 apply perm_skip. apply perm_swap.
Qed.

(** C3, at the example of the claim.  For the traffic volumes 10, 10, 8, 8, 5
    and K = 2 the query returns two airports, the two of volume 10, whatever
    order [std::sort] leaves among ties: the loop stops at the third airport,
    which is past position K and not tied with the second.  The four results
    that the claim and the comment in Consult.h ask for are not returned. *)
Theorem searchTopK_example_two_results (sort : list Vertex → list Vertex) :
  sorts_by_traffic sort →
  snd <$> searchTopKAirportGreatestAirTrafficCapacity sort g_traffic 2
    = [10; 10]%Z ∧
  length (searchTopKAirportGreatestAirTrafficCapacity sort g_traffic 2) = 2 ∧
  length (searchTopKAirportGreatestAirTrafficCapacity sort g_traffic 2) ≠ 4 ∧
  ¬ (8%Z ∈ snd <$> searchTopKAirportGreatestAirTrafficCapacity sort g_traffic 2).
Proof.
  intros Hsort.
  pose proof (sorted_g_traffic_volumes _ (Hsort g_traffic)) as Hv.
  unfold searchTopKAirportGreatestAirTrafficCapacity.
  destruct (sort g_traffic) as [|a1 [|a2 [|a3 l]]]; try done.
  injection Hv as H1 H2 H3 _.
  assert (topK_loop 2 0 0 (a1 :: a2 :: a3 :: l)
          = [(info a1, 10%Z); (info a2, 10%Z)]) as ->.
  { cbn [topK_loop]. rewrite H1, H2, H3. done. }
  split_and!; [done|done|done|].
  cbn [fmap list_fmap snd]. intros H8.
  apply elem_of_cons in H8 as [H8|H8]; [done|].
  apply elem_of_cons in H8 as [H8|H8]; [done|].
  by apply elem_of_nil in H8.
Qed.

Lemma searchTopK_example_two_results_witness :
  snd <$> searchTopKAirportGreatestAirTrafficCapacity sortByTraffic g_traffic 2
    = [10; 10]%Z ∧
  length (searchTopKAirportGreatestAirTrafficCapacity sortByTraffic g_traffic 2)
    = 2 ∧
  length (searchTopKAirportGreatestAirTrafficCapacity sortByTraffic g_traffic 2)
    ≠ 4 ∧
  ¬ (8%Z ∈ snd <$> searchTopKAirportGreatestAirTrafficCapacity sortByTraffic
                     g_traffic 2).
Proof.
  apply (searchTopK_example_two_results sortByTraffic).
  apply sortByTraffic_sorts.
Defined.

(** * Visited flags: counting and framing *)

Lemma unvisited_insert (g : Graph) i v v' :
  g !! i = Some v →
  unvisited (<[i:=v']> g) + (if visited v then 0 else 1)
  = unvisited g + (if visited v' then 0 else 1).
Proof.
  intros Hi. unfold unvisited.
  rewrite insert_take_drop by (by eapply lookup_lt_Some).
  rewrite <-(take_drop_middle g i v Hi) at 3.
  rewrite !filter_app, !filter_cons, !length_app.
  destruct (visited v), (visited v'); simpl; lia.
Qed.

Lemma unvisited_mark (g : Graph) i v :
  g !! i = Some v → visited v = false →
  S (unvisited (<[i:=setVisited true v]> g)) = unvisited g.
Proof.
  intros Hi Hv. pose proof (unvisited_insert g i v (setVisited true v) Hi) as H.
  rewrite Hv in H. simpl in H. lia.
Qed.

Lemma unvisited_keep (g : Graph) i v v' :
  g !! i = Some v → visited v' = visited v →
  unvisited (<[i:=v']> g) = unvisited g.
Proof.
  intros Hi Hv. pose proof (unvisited_insert g i v v' Hi) as H.
  rewrite Hv in H. destruct (visited v); lia.
Qed.

Lemma unvisited_le_length (g : Graph) : unvisited g ≤ length g.
Proof. apply length_filter. Qed.

Lemma unvisited_resetVisited (g : Graph) :
  unvisited (resetVisited g) = length g.
Proof.
  unfold unvisited, resetVisited. induction g as [|v g IH]; [done|].
  rewrite fmap_cons, filter_cons_True by done. simpl. by rewrite IH.
Qed.

Lemma is_visited_insert (g : Graph) i v' u :
  i < length g →
  is_visited (<[i:=v']> g) u ↔
  (u = i ∧ visited v' = true) ∨ (u ≠ i ∧ is_visited g u).
Proof.
  intros Hi. unfold is_visited. destruct (decide (u = i)) as [->|Hne].
  - rewrite list_lookup_insert_eq by done. naive_solver.
  - rewrite list_lookup_insert_ne by done. naive_solver.
Qed.

Lemma is_visited_mark (g : Graph) i v u :
  g !! i = Some v →
  is_visited (<[i:=setVisited true v]> g) u ↔ u = i ∨ is_visited g u.
Proof.
  intros Hi. rewrite is_visited_insert by (by eapply lookup_lt_Some).
  simpl. destruct (decide (u = i)); naive_solver.
Qed.

Lemma not_is_visited (g : Graph) u ux :
  g !! u = Some ux → visited ux = false → ¬ is_visited g u.
Proof. intros Hu Hv (ux' & Hu' & Hv'). congruence. Qed.

Lemma is_visited_resetVisited (g : Graph) u : ¬ is_visited (resetVisited g) u.
Proof.
  intros (ux & Hu & Hv). rewrite lookup_resetVisited in Hu.
  destruct (g !! u); simplify_eq/=.
Qed.

(** ** Graphs that differ in visited flags only *)

Lemma setVisited_setVisited b b' v :
  setVisited b (setVisited b' v) = setVisited b v.
Proof. done. Qed.

Lemma same_but_visited_refl (g : Graph) : same_but_visited g g.
Proof. done. Qed.

Lemma same_but_visited_trans (g1 g2 g3 : Graph) :
  same_but_visited g1 g2 → same_but_visited g2 g3 → same_but_visited g1 g3.
Proof. unfold same_but_visited. congruence. Qed.

Lemma same_but_visited_sym (g1 g2 : Graph) :
  same_but_visited g1 g2 → same_but_visited g2 g1.
Proof. unfold same_but_visited. congruence. Qed.

Lemma same_but_visited_reset (g : Graph) : same_but_visited g (resetVisited g).
Proof.
  unfold same_but_visited, resetVisited. rewrite <-list_fmap_compose.
  by apply list_fmap_ext.
Qed.

Lemma same_but_visited_insert (g : Graph) i v b :
  g !! i = Some v → same_but_visited g (<[i:=setVisited b v]> g).
Proof.
  intros Hi. unfold same_but_visited, resetVisited. symmetry.
  by apply (fmap_insert_same _ g i v).
Qed.

Lemma same_but_visited_length (g g' : Graph) :
  same_but_visited g g' → length g = length g'.
Proof.
  unfold same_but_visited. intros H. apply (f_equal length) in H.
  by rewrite !length_resetVisited in H.
Qed.

Lemma same_but_visited_lookup (g g' : Graph) i v' :
  same_but_visited g g' → g' !! i = Some v' →
  ∃ v, g !! i = Some v ∧ setVisited false v = setVisited false v'.
Proof.
  unfold same_but_visited. intros H Hi. apply (f_equal (.!! i)) in H.
  rewrite !lookup_resetVisited, Hi in H.
  destruct (g !! i) as [v|]; [|done]. exists v. split; [done|].
  exact (Some_inj _ _ H).
Qed.

Lemma same_but_visited_adj (g g' : Graph) i v v' :
  same_but_visited g g' → g !! i = Some v → g' !! i = Some v' →
  adj v = adj v' ∧ info v = info v'.
Proof.
  intros H Hi Hi'.
  destruct (same_but_visited_lookup g g' i v' H Hi') as (v0 & Hv0 & Heq).
  rewrite Hi in Hv0. injection Hv0 as <-. split.
  - exact (f_equal adj Heq).
  - exact (f_equal info Heq).
Qed.

Lemma same_but_visited_successors (g g' : Graph) u :
  same_but_visited g g' → successors g u = successors g' u.
Proof.
  intros H. unfold successors.
  destruct (g' !! u) as [ux'|] eqn:E'.
  - destruct (same_but_visited_lookup g g' u ux' H E') as (ux & -> & Heq).
    by replace (adj ux) with (adj ux') by exact (eq_sym (f_equal adj Heq)).
  - apply lookup_ge_None in E'.
    rewrite <-(same_but_visited_length _ _ H) in E'.
    by rewrite lookup_ge_None_2.
Qed.

Lemma same_but_visited_has_edge (g g' : Graph) u w :
  same_but_visited g g' → has_edge g u w ↔ has_edge g' u w.
Proof.
  intros H. by rewrite !has_edge_successors, (same_but_visited_successors g g').
Qed.

Lemma same_but_visited_walk (g g' : Graph) s v k :
  same_but_visited g g' → walk g s v k → walk g' s v k.
Proof.
  intros H. induction 1 as [|u v k Hw IH He]; [constructor|].
  econstructor; [exact IH|]. by apply (same_but_visited_has_edge g g').
Qed.

Lemma dests_valid_successors (g : Graph) :
  dests_valid g ↔ ∀ u w, w ∈ successors g u → w < length g.
Proof.
  split.
  - intros H u w Hw. apply has_edge_successors in Hw as (ux & e & Hu & He & <-).
    by eapply H.
  - intros H u ux e Hu He. apply (H u). apply has_edge_successors.
    by exists ux, e.
Qed.

Lemma same_but_visited_dests_valid (g g' : Graph) :
  same_but_visited g g' → dests_valid g → dests_valid g'.
Proof.
  intros H. rewrite !dests_valid_successors. intros Hd u w Hw.
  rewrite <-(same_but_visited_length _ _ H). apply (Hd u).
  by rewrite (same_but_visited_successors g g').
Qed.

(** ** Graphs that differ in transient algorithm state only *)

Lemma same_but_transient_refl (g : Graph) : same_but_transient g g.
Proof. done. Qed.

Lemma same_but_transient_trans (g1 g2 g3 : Graph) :
  same_but_transient g1 g2 → same_but_transient g2 g3 →
  same_but_transient g1 g3.
Proof. unfold same_but_transient. congruence. Qed.

Lemma same_but_transient_insert (g : Graph) i v v' :
  g !! i = Some v → clearTransient v' = clearTransient v →
  same_but_transient g (<[i:=v']> g).
Proof.
  intros Hi Hc. unfold same_but_transient. symmetry.
  by apply (fmap_insert_same _ g i v).
Qed.

Lemma same_but_visited_transient (g g' : Graph) :
  same_but_visited g g' → same_but_transient g g'.
Proof.
  unfold same_but_visited, same_but_transient, resetVisited. intros H.
  transitivity (clearTransient <$> (setVisited false <$> g)).
  { rewrite <-list_fmap_compose. by apply list_fmap_ext. }
  rewrite H, <-list_fmap_compose. by apply list_fmap_ext.
Qed.

Lemma same_but_transient_length (g g' : Graph) :
  same_but_transient g g' → length g = length g'.
Proof.
  unfold same_but_transient. intros H. apply (f_equal length) in H.
  by rewrite !length_fmap in H.
Qed.

Lemma same_but_transient_lookup (g g' : Graph) i v' :
  same_but_transient g g' → g' !! i = Some v' →
  ∃ v, g !! i = Some v ∧ clearTransient v = clearTransient v'.
Proof.
  unfold same_but_transient. intros H Hi. apply (f_equal (.!! i)) in H.
  rewrite !list_lookup_fmap, Hi in H.
  destruct (g !! i) as [v|]; [|done]. exists v. split; [done|].
  exact (Some_inj _ _ H).
Qed.

Lemma same_but_transient_successors (g g' : Graph) u :
  same_but_transient g g' → successors g u = successors g' u.
Proof.
  intros H. unfold successors.
  destruct (g' !! u) as [ux'|] eqn:E'.
  - destruct (same_but_transient_lookup g g' u ux' H E') as (ux & -> & Heq).
    by replace (adj ux) with (adj ux') by exact (eq_sym (f_equal adj Heq)).
  - apply lookup_ge_None in E'.
    rewrite <-(same_but_transient_length _ _ H) in E'.
    by rewrite lookup_ge_None_2.
Qed.

Lemma same_but_transient_dests_valid (g g' : Graph) :
  same_but_transient g g' → dests_valid g → dests_valid g'.
Proof.
  intros H. rewrite !dests_valid_successors. intros Hd u w Hw.
  rewrite <-(same_but_transient_length _ _ H). apply (Hd u).
  by rewrite (same_but_transient_successors g g').
Qed.

(** What [same_but_transient] keeps, field by field. *)
Lemma same_but_transient_fields (g g' : Graph) i v v' :
  same_but_transient g g' → g !! i = Some v → g' !! i = Some v' →
  info v = info v' ∧ adj v = adj v' ∧ inDegree v = inDegree v' ∧
  outDegree v = outDegree v' ∧ flightsTo v = flightsTo v' ∧
  flightsFrom v = flightsFrom v'.
Proof.
  intros H Hi Hi'.
  destruct (same_but_transient_lookup g g' i v' H Hi') as (v0 & Hv0 & Heq).
  rewrite Hi in Hv0. injection Hv0 as <-.
  split_and!;
    [exact (f_equal info Heq)|exact (f_equal adj Heq)
    |exact (f_equal inDegree Heq)|exact (f_equal outDegree Heq)
    |exact (f_equal flightsTo Heq)|exact (f_equal flightsFrom Heq)].
Qed.

(** * The shortest-path search: loop invariants *)

(** An invariant of the inner [for]: [P done st] speaks about the state after
    the flights [done] have been handled. *)
Lemma sp_flights_invariant (P : list Edge → sp_state → Prop) target all :
  (∀ d e r st1 st2,
     all = d ++ e :: r → P d st1 → sp_flight target e st1 = Ok st2 →
     P (d ++ [e]) st2) →
  ∀ flights done_ st st',
    all = done_ ++ flights → P done_ st →
    sp_flights target flights st = Ok st' → P all st'.
Proof.
  intros Hstep. induction flights as [|e rest IH]; intros done_ st st' Hall HP H.
  - injection H as <-. by rewrite Hall, app_nil_r.
  - simpl in H. apply bind_Ok in H as (st1 & H1 & H).
    apply (IH (done_ ++ [e]) st1 st'); [by rewrite <-app_assoc| |done].
    by eapply Hstep.
Qed.

(** An invariant of the [while] loop. *)
Lemma sp_loop_invariant
    (Q : Graph → list (Path * VertexPtr) → list Path → Z → Prop) target :
  (∀ g current q paths size cx st,
     Q g (current :: q) paths size → g !! current.2 = Some cx →
     sp_flights target (adj cx) (mkSp g q current.1 paths size) = Ok st →
     Q (sp_graph st) (sp_queue st) (sp_paths st) (sp_size st)) →
  ∀ fuel g q paths size paths' g',
    Q g q paths size →
    sp_loop fuel target g q paths size = Ok (paths', g') →
    ∃ size', Q g' [] paths' size'.
Proof.
  intros Hstep. induction fuel as [|fuel IH]; intros g q paths size paths' g' HQ H.
  - destruct q; [|done]. injection H as <- <-. by exists size.
  - destruct q as [|current q]; [injection H as <- <-; by exists size|].
    simpl in H. apply bind_Ok in H as (cx & Hcx & H).
    apply bind_Ok in H as (st & Hst & H). apply deref_Ok in Hcx.
    eapply IH; [|exact H]. by eapply Hstep.
Qed.

(** ** The search returns, and changes visited flags only *)

Lemma sp_flight_total target e st :
  dest e < length (sp_graph st) →
  ∃ st2, sp_flight target e st = Ok st2 ∧
         same_but_visited (sp_graph st) (sp_graph st2) ∧
         unvisited (sp_graph st2) + length (sp_queue st2)
           = unvisited (sp_graph st) + length (sp_queue st) ∧
         (queue_valid (sp_graph st) (sp_queue st) →
          queue_valid (sp_graph st2) (sp_queue st2)).
Proof.
  intros Hd. unfold sp_flight.
  destruct (decide (dest e = target)) as [Ht|Ht].
  { repeat case_match; eexists; split_and!; try reflexivity; done. }
  destruct (lookup_lt_is_Some_2 _ _ Hd) as [nx Hnx].
  rewrite (deref_lookup _ _ _ Hnx). simpl.
  destruct (visited nx) eqn:Hv.
  { eexists; split_and!; try reflexivity; done. }
  eexists; split_and!; [reflexivity|..]; simpl.
  - by apply same_but_visited_insert.
  - rewrite length_app. simpl.
    pose proof (unvisited_mark _ _ _ Hnx Hv). lia.
  - intros Hq x Hx. rewrite length_insert.
    apply elem_of_app in Hx as [Hx|Hx%list_elem_of_singleton];
      [by apply Hq|by subst].
Qed.

Lemma sp_flights_total target flights st :
  (∀ e, e ∈ flights → dest e < length (sp_graph st)) →
  ∃ st', sp_flights target flights st = Ok st' ∧
         same_but_visited (sp_graph st) (sp_graph st') ∧
         unvisited (sp_graph st') + length (sp_queue st')
           = unvisited (sp_graph st) + length (sp_queue st) ∧
         (queue_valid (sp_graph st) (sp_queue st) →
          queue_valid (sp_graph st') (sp_queue st')).
Proof.
  revert st. induction flights as [|e rest IH]; intros st Hd.
  { exists st. split_and!; done. }
  destruct (sp_flight_total target e st) as (st1 & H1 & Hs1 & Hm1 & Hq1).
  { apply Hd. by left. }
  destruct (IH st1) as (st' & H' & Hs' & Hm' & Hq').
  { intros e' He'. rewrite <-(same_but_visited_length _ _ Hs1).
    apply Hd. by right. }
  exists st'. simpl. rewrite H1. simpl. split_and!; [done| |lia|auto].
  by eapply same_but_visited_trans.
Qed.

Lemma sp_loop_total target fuel :
  ∀ g q paths size,
    dests_valid g → queue_valid g q → unvisited g + length q ≤ fuel →
    ∃ paths' g', sp_loop fuel target g q paths size = Ok (paths', g') ∧
                 same_but_visited g g'.
Proof.
  induction fuel as [|fuel IH]; intros g q paths size Hd Hq Hm.
  { destruct q; [|simpl in Hm; lia]. by exists paths, g. }
  destruct q as [|current q]; [by exists paths, g|].
  destruct (lookup_lt_is_Some_2 g current.2) as [cx Hcx].
  { apply Hq. by left. }
  destruct (sp_flights_total target (adj cx) (mkSp g q current.1 paths size))
    as (st & Hst & Hs & Hmst & Hqst).
  { intros e He. by apply (Hd current.2 cx e). }
  simpl in *.
  destruct (IH (sp_graph st) (sp_queue st) (sp_paths st) (sp_size st))
    as (paths' & g' & H' & Hs').
  - by eapply same_but_visited_dests_valid.
  - apply Hqst. intros x Hx. apply Hq. by right.
  - lia.
  - exists paths', g'. rewrite (deref_lookup _ _ _ Hcx). simpl.
    rewrite Hst. simpl. split; [done|]. by eapply same_but_visited_trans.
Qed.

Lemma searchSmallestPath_total (g : Graph) (source target : VertexPtr) :
  dests_valid g → source < length g →
  ∃ paths g', searchSmallestPathBetweenAirports g source target
              = Ok (paths, g') ∧ same_but_visited g g'.
Proof.
  intros Hd Hs. unfold searchSmallestPathBetweenAirports.
  destruct (lookup_lt_is_Some_2 (resetVisited g) source) as [sx Hsx].
  { by rewrite length_resetVisited. }
  rewrite (deref_lookup _ _ _ Hsx). simpl.
  assert (visited sx = false) as Hv.
  { rewrite lookup_resetVisited in Hsx. destruct (g !! source); by simplify_eq/=. }
  assert (same_but_visited g (<[source:=setVisited true sx]> (resetVisited g)))
    as Hsame.
  { eapply same_but_visited_trans; [apply same_but_visited_reset|].
    by apply same_but_visited_insert. }
  destruct (sp_loop_total target (length g)
              (<[source:=setVisited true sx]> (resetVisited g))
              [([source], source)] [] INT_MAX) as (paths & g' & H & Hs').
  - by eapply same_but_visited_dests_valid.
  - intros x ->%list_elem_of_singleton. simpl.
    by rewrite length_insert, length_resetVisited.
  - pose proof (unvisited_mark _ _ _ Hsx Hv) as Hm.
    rewrite unvisited_resetVisited in Hm. simpl. lia.
  - exists paths, g'. split; [done|]. by eapply same_but_visited_trans.
Qed.

(** The frame holds for every run that returns, well-formed graph or not. *)
Lemma sp_flight_frame target e st st2 :
  sp_flight target e st = Ok st2 →
  same_but_visited (sp_graph st) (sp_graph st2).
Proof.
  unfold sp_flight. intros H.
  destruct (decide (dest e = target)).
  { repeat case_match; by simplify_eq/=. }
  apply bind_Ok in H as (nx & Hnx%deref_Ok & H).
  destruct (visited nx); simplify_eq/=; [done|].
  by apply same_but_visited_insert.
Qed.

Lemma searchSmallestPath_frame (g g' : Graph) source target paths :
  searchSmallestPathBetweenAirports g source target = Ok (paths, g') →
  same_but_visited g g'.
Proof.
  unfold searchSmallestPathBetweenAirports. intros H.
  apply bind_Ok in H as (sx & Hsx%deref_Ok & H).
  assert (∃ size' : Z, same_but_visited g g') as [_ ?]; [|done].
  eapply (sp_loop_invariant (λ g1 _ _ _, same_but_visited g g1) target);
    [| |exact H].
  - intros g0 c q p s cx st HQ Hcx Hst.
    apply (sp_flights_invariant (λ _ st1, same_but_visited g (sp_graph st1))
             target (adj cx))
      with (flights := adj cx) (done_ := []) (st := mkSp g0 q c.1 p s);
      [|done|exact HQ|exact Hst].
    intros d e r st1 st2 _ HP Hstep.
    eapply same_but_visited_trans; [exact HP|]. by eapply sp_flight_frame.
  - eapply same_but_visited_trans; [apply same_but_visited_reset|].
    by apply same_but_visited_insert.
Qed.

(** The search reads the graph through its reset only. *)
Lemma searchSmallestPath_reset (g1 g2 : Graph) source target :
  same_but_visited g1 g2 →
  searchSmallestPathBetweenAirports g1 source target
  = searchSmallestPathBetweenAirports g2 source target.
Proof.
  intros H. unfold searchSmallestPathBetweenAirports.
  rewrite (same_but_visited_length g1 g2 H).
  unfold same_but_visited in H. by rewrite H.
Qed.

(** ** Where the returned paths start and end *)

Lemma head_snoc {A} (l : list A) a x :
  head l = Some a → head (l ++ [x]) = Some a.
Proof. by destruct l. Qed.

Lemma head_Some_length {A} (l : list A) a : head l = Some a → 1 ≤ length l.
Proof. destruct l; [done|simpl; lia]. Qed.

Lemma sp_flight_endpoints source target e st st2 :
  head (sp_first st) = Some source →
  sp_endpoints source target (sp_queue st) (sp_paths st) →
  sp_flight target e st = Ok st2 →
  head (sp_first st2) = Some source ∧
  sp_endpoints source target (sp_queue st2) (sp_paths st2).
Proof.
  intros Hf [Hq Hp] H. unfold sp_flight in H.
  assert (head (sp_first st ++ [dest e]) = Some source) as Hf'
    by by apply head_snoc.
  assert (2 ≤ length (sp_first st ++ [dest e])) as Hlen.
  { rewrite length_app. simpl. pose proof (head_Some_length _ _ Hf). lia. }
  destruct (decide (dest e = target)) as [Ht|Ht].
  - assert (head (sp_first st ++ [dest e]) = Some source
            ∧ last (sp_first st ++ [dest e]) = Some target
            ∧ 2 ≤ length (sp_first st ++ [dest e])) as Hnew.
    { split_and!; [done| |done]. by rewrite last_snoc, Ht. }
    repeat case_match; simplify_eq/=; (split; [done|]).
    + split; [done|]. by intros p ->%list_elem_of_singleton.
    + split; [done|].
      intros p [Hin| ->%list_elem_of_singleton]%elem_of_app; [by apply Hp|done].
    + by split.
  - apply bind_Ok in H as (nx & Hnx & H).
    destruct (visited nx); simplify_eq/=; [done|].
    split; [done|]. split; [|done].
    intros x [Hin| ->%list_elem_of_singleton]%elem_of_app; [by apply Hq|done].
Qed.

Lemma searchSmallestPath_endpoints (g g' : Graph) source target paths :
  searchSmallestPathBetweenAirports g source target = Ok (paths, g') →
  ∀ p, p ∈ paths →
    head p = Some source ∧ last p = Some target ∧ 2 ≤ length p.
Proof.
  unfold searchSmallestPathBetweenAirports. intros H.
  apply bind_Ok in H as (sx & Hsx%deref_Ok & H).
  assert (∃ size' : Z, sp_endpoints source target [] paths) as [_ [_ ?]];
    [|done].
  eapply (sp_loop_invariant (λ _ q ps _, sp_endpoints source target q ps)
            target); [| |exact H].
  - intros g0 c q p s cx st HQ Hcx Hst.
    apply (sp_flights_invariant
             (λ _ st1, head (sp_first st1) = Some source ∧
                       sp_endpoints source target (sp_queue st1) (sp_paths st1))
             target (adj cx))
      with (flights := adj cx) (done_ := []) (st := mkSp g0 q c.1 p s) (st' := st);
      [|done| |exact Hst].
    + intros d e r st1 st2 _ [HP1 HP2] Hstep.
      by eapply sp_flight_endpoints.
    + destruct HQ as [Hq Hp]. simpl. split; [apply Hq; by left|].
      split; [|done]. intros x Hx. apply Hq. by right.
  - split; [|by intros p ?%elem_of_nil].
    by intros x ->%list_elem_of_singleton.
Qed.

(** From an airport without flights the search finds no path, whatever the
    target: the queue holds the source alone, and its turn of the loop has
    no flight to follow. *)
Lemma searchSmallestPath_no_flights (g : Graph) (source target : VertexPtr) sx :
  g !! source = Some sx → adj sx = [] →
  ∃ g', searchSmallestPathBetweenAirports g source target = Ok ([], g').
Proof.
  intros Hs Hadj. pose proof (lookup_lt_Some _ _ _ Hs) as Hlen.
  unfold searchSmallestPathBetweenAirports.
  assert (resetVisited g !! source = Some (setVisited false sx)) as Hs1
    by (by rewrite lookup_resetVisited, Hs).
  rewrite (deref_lookup _ _ _ Hs1). simpl.
  destruct (length g) as [|fuel] eqn:E; [lia|].
  cbn [sp_loop snd].
  rewrite (deref_lookup _ _ (setVisited true (setVisited false sx))).
  - cbn [mbind outcome_bind].
    change (adj (setVisited true (setVisited false sx))) with (adj sx).
    rewrite Hadj. cbn [sp_flights sp_graph sp_queue sp_paths sp_size].
    destruct fuel; by eexists.
  - apply list_lookup_insert_eq. by rewrite length_resetVisited, E.
Qed.

(** C7, as the code has it.  With source and target equal the search never
    returns the one-node path: a path is recorded only when a flight into the
    target is followed, so every returned path leaves [A] and comes back to
    it (at least two nodes).  On a well-formed graph the query returns; for
    an airport without flights the result is empty (so on the graph
    [g_single]), and on the round trip A → B → A it is the single path
    A, B, A. *)
Theorem searchSmallestPath_same_airport (g : Graph) (A : VertexPtr) :
  dests_valid g → A < length g →
  (∃ paths g',
     searchSmallestPathBetweenAirports g A A = Ok (paths, g') ∧
     ¬ ([A] ∈ paths) ∧
     (∀ p, p ∈ paths → head p = Some A ∧ last p = Some A ∧ 2 ≤ length p) ∧
     (∀ ax, g !! A = Some ax → adj ax = [] → paths = [])) ∧
  (∃ g', searchSmallestPathBetweenAirports g_single 0 0 = Ok ([], g')) ∧
  (∃ g', searchSmallestPathBetweenAirports g_round_trip 0 0
         = Ok ([[0; 1; 0]], g')).
Proof.
  intros Hd HA. split_and!; [|by eexists..].
  destruct (searchSmallestPath_total g A A Hd HA) as (paths & g' & H & _).
  exists paths, g'. split; [done|].
  pose proof (searchSmallestPath_endpoints _ _ _ _ _ H) as He.
  split_and!; [|done|].
  - intros Hin. apply He in Hin as (_ & _ & Hlen). simpl in Hlen. lia.
  - intros ax Hax Hadj.
    destruct (searchSmallestPath_no_flights g A A ax Hax Hadj) as (g2 & H2).
    rewrite H in H2. by injection H2 as -> _.
Qed.

Lemma searchSmallestPath_same_airport_witness :
  (∃ paths g',
     searchSmallestPathBetweenAirports g_round_trip 0 0 = Ok (paths, g') ∧
     ¬ ([0] ∈ paths) ∧
     (∀ p, p ∈ paths → head p = Some 0 ∧ last p = Some 0 ∧ 2 ≤ length p) ∧
     (∀ ax, g_round_trip !! 0 = Some ax → adj ax = [] → paths = [])) ∧
  (∃ g', searchSmallestPathBetweenAirports g_single 0 0 = Ok ([], g')) ∧
  (∃ g', searchSmallestPathBetweenAirports g_round_trip 0 0
         = Ok ([[0; 1; 0]], g')).
Proof.
  apply (searchSmallestPath_same_airport g_round_trip 0).
  - apply dests_valid_Forall. by_compute.
  - simpl. lia.
Defined.

(** The claim as stated fails: for an airport without flights the search from
    it to itself returns no path at all, not the one-node path. *)
Lemma searchSmallestPath_same_airport_empty :
  (∃ g', searchSmallestPathBetweenAirports g_single 0 0 = Ok ([], g')) ∧
  ¬ (∃ g', searchSmallestPathBetweenAirports g_single 0 0 = Ok ([[0]], g')).
Proof. split; [by eexists|]. by intros [g' Hg']. Qed.

(** ** Visited flags are left set *)

Lemma sp_flight_visited target e st st2 u :
  sp_flight target e st = Ok st2 →
  is_visited (sp_graph st) u → is_visited (sp_graph st2) u.
Proof.
  unfold sp_flight. intros H Hu.
  destruct (decide (dest e = target)).
  { repeat case_match; by simplify_eq/=. }
  apply bind_Ok in H as (nx & Hnx%deref_Ok & H).
  destruct (visited nx); simplify_eq/=; [done|].
  apply is_visited_mark; [done|by right].
Qed.

Lemma searchSmallestPath_source_visited (g g' : Graph) source target paths :
  searchSmallestPathBetweenAirports g source target = Ok (paths, g') →
  is_visited g' source.
Proof.
  unfold searchSmallestPathBetweenAirports. intros H.
  apply bind_Ok in H as (sx & Hsx%deref_Ok & H).
  assert (∃ size' : Z, is_visited g' source) as [_ ?]; [|done].
  eapply (sp_loop_invariant (λ g1 _ _ _, is_visited g1 source) target);
    [| |exact H].
  - intros g0 c q p s cx st HQ Hcx Hst.
    apply (sp_flights_invariant (λ _ st1, is_visited (sp_graph st1) source)
             target (adj cx))
      with (flights := adj cx) (done_ := []) (st := mkSp g0 q c.1 p s);
      [|done|exact HQ|exact Hst].
    intros d e r st1 st2 _ HP Hstep. by eapply sp_flight_visited.
  - apply is_visited_mark; [done|by left].
Qed.

(** * The shortest-path search returns paths of minimal hop count *)

Lemma awalk_walk (g : Graph) s t v k : awalk g s t v k → walk g s v k.
Proof. induction 1; econstructor; eauto. Qed.

Lemma awalk_ne (g : Graph) s t v k : awalk g s t v k → v ≠ t.
Proof. by destruct 1. Qed.

Lemma walk_awalk (g : Graph) s t v k :
  s ≠ t → walk g s v k → (∀ j, j ≤ k → ¬ walk g s t j) → awalk g s t v k.
Proof.
  intros Hst. induction 1 as [|u v k Hw IH He]; intros Hno.
  - by constructor.
  - econstructor; [apply IH|exact He|].
    + intros j Hj. apply Hno. lia.
    + intros ->. apply (Hno (S k)); [lia|]. by econstructor.
Qed.

(** The last hop of a shortest walk leaves a vertex that is reached without
    passing through the target. *)
Lemma hop_distance_last_hop (g : Graph) s t D :
  s ≠ t → is_hop_distance g s t D →
  ∃ u D', D = S D' ∧ awalk g s t u D' ∧ has_edge g u t.
Proof.
  intros Hst [Hw Hmin]. inversion Hw as [|u v k Hw' He]; subst; [done|].
  exists u, k. split_and!; [done| |done].
  apply walk_awalk; [done..|]. intros j Hj Hwj. apply Hmin in Hwj. lia.
Qed.

Section shortest.
Variables (g0 : Graph) (s t : VertexPtr) (D : nat).
Hypothesis Hst : s ≠ t.
Hypothesis HD : is_hop_distance g0 s t D.
Hypothesis Hbound : (Z.of_nat D + 1 < INT_MAX)%Z.

(** Before the target is met, a vertex whose flights have not all been
    handled is at least as deep as the current level; so a vertex from
    which the target is one hop away is not above that level. *)
Lemma first_hit_level (g : Graph) q c first done_ l :
  before_hit_inner g0 s t g q c first done_ l → D = S l ∨ S l < D.
Proof.
  intros (Hlev & Hex & Hfl & Hcex & Hclosed & Hdone & Hseen).
  destruct (hop_distance_last_hop g0 s t D Hst HD)
    as (u & D' & -> & Hu & Hut).
  destruct (decide (l ≤ D')) as [Hle|Hlt]; [lia|]. exfalso.
  assert (is_visited g u) as Hvis by (apply (Hseen u D'); [done|lia]).
  destruct (decide (u = c)) as [->|Huc].
  { destruct Hcex as (k & Hk & _ & Hmin & _). simpl in *.
    apply Hmin in Hu. lia. }
  destruct (decide (u ∈ q.*2)) as [Hin|Hnin].
  { apply list_elem_of_fmap in Hin as (x & -> & Hx).
    destruct (Hex x Hx) as (k & Hk & _ & Hmin & _).
    apply Hmin in Hu. destruct Hlev as (qa & qb & -> & Ha & Hb).
    apply elem_of_app in Hx as [Hx|Hx]; [apply Ha in Hx|apply Hb in Hx]; lia. }
  destruct (Hclosed u Hvis Hnin Huc t Hut) as [Hne _]. done.
Qed.

Lemma inner_step c d e st1 st2 :
  has_edge g0 c (dest e) →
  sp_inner g0 s t D c d st1 → sp_flight t e st1 = Ok st2 →
  sp_inner g0 s t D c (d ++ [e]) st2.
Proof.
  intros Hedge (Hsame & Hq & Hc & Hp & Hphase) H.
  pose proof Hc as [Hhead (k & Hwalk & Hlen)]. simpl in Hhead, Hwalk, Hlen.
  unfold sp_flight in H.
  destruct (decide (dest e = t)) as [Ht|Ht].
  - (* a flight into the target *)
    rewrite Ht in *.
    set (first' := sp_first st1 ++ [t]) in *.
    assert (walk g0 s t (S k)) as Hwt by (by econstructor).
    assert (D ≤ S k) as HDk by (by apply HD).
    assert (length first' = S (length (sp_first st1))) as Hlen'.
    { unfold first'. rewrite length_app. simpl. lia. }
    assert (entry_ok g0 s (first', c)) as Hc'.
    { split; [by apply head_snoc|]. exists k. simpl. split; [done|lia]. }
    assert (head first' = Some s) as Hh' by (by apply head_snoc).
    assert (last first' = Some t) as Hl' by apply last_snoc.
    destruct Hphase as [(Hnil & Hsize & l & Hb)|(Hsize & Hne)].
    + (* the first one *)
      pose proof (first_hit_level _ _ _ _ _ _ Hb) as Hlevel.
      destruct Hb as (Hlev & Hex & Hfl & Hcex & Hclosed & Hdone & Hseen).
      assert (D = S l) as HDl.
      { destruct Hlevel as [|Hlt]; [done|].
        destruct Hcex as (k0 & Hk0 & Hk0w & _). simpl in Hk0, Hk0w.
        assert (walk g0 s t (S k0)) as Hw0.
        { econstructor; [by apply (awalk_walk _ _ t)|done]. }
        apply HD in Hw0. lia. }
      rewrite Hsize in H.
      destruct (Z.ltb_spec (Z.of_nat (length first')) INT_MAX) as [_|Hge];
        [|lia].
      injection H as <-. split_and!; simpl; [done..| |].
      * intros p ->%list_elem_of_singleton. done.
      * right. split; [lia|done].
    + (* a later one *)
      rewrite Hsize in H.
      destruct (Z.ltb_spec (Z.of_nat (length first')) (Z.of_nat (S D)))
        as [Hlt|_]; [lia|].
      destruct (Z.eqb_spec (Z.of_nat (length first')) (Z.of_nat (S D)))
        as [Heq|Hneq]; injection H as <-; split_and!; simpl; try done.
      * intros p [Hin| ->%list_elem_of_singleton]%elem_of_app;
          [rewrite <-Hsize; by apply Hp|]. by split_and!.
      * right. split; [done|]. by intros [? _]%app_eq_nil.
      * by rewrite <-Hsize.
      * by right.
  - (* a flight to another airport *)
    apply bind_Ok in H as (nx & Hnx%deref_Ok & H).
    destruct (visited nx) eqn:Hv.
    + (* already visited *)
      injection H as <-. split_and!; [done..|].
      destruct Hphase as [(Hnil & Hsize & l & Hb)|?]; [left|by right].
      split_and!; [done..|]. exists l.
      destruct Hb as (Hlev & Hex & Hfl & Hcex & Hclosed & Hdone & Hseen).
      split_and!; [done..| |done].
      intros e' [Hin| ->%list_elem_of_singleton]%elem_of_app; [by apply Hdone|].
      split; [done|]. by exists nx.
    + (* discovered now *)
      injection H as <-. simpl.
      set (n := dest e) in *.
      set (g' := <[n:=setVisited true nx]> (sp_graph st1)).
      assert (∀ u, is_visited g' u ↔ u = n ∨ is_visited (sp_graph st1) u)
        as Hvis by (intros u; by apply is_visited_mark).
      assert (¬ is_visited (sp_graph st1) n) as Hnv
        by (by eapply not_is_visited).
      assert (entry_ok g0 s (sp_first st1 ++ [n], n)) as Hnew.
      { split; [by apply head_snoc|]. exists (S k). simpl.
        split; [by econstructor|]. rewrite length_app. simpl. lia. }
      split_and!; simpl.
      * eapply same_but_visited_trans; [exact Hsame|].
        by apply same_but_visited_insert.
      * intros x [Hin| ->%list_elem_of_singleton]%elem_of_app; [by apply Hq|done].
      * done.
      * done.
      * destruct Hphase as [(Hnil & Hsize & l & Hb)|?]; [left|by right].
        split_and!; [done..|]. exists l.
        destruct Hb as (Hlev & Hex & Hfl & Hcex & Hclosed & Hdone & Hseen).
        assert (∀ x, entry_exact g0 s t (sp_graph st1) x →
                     entry_exact g0 s t g' x) as Hmono.
        { intros x (kx & ? & ? & ? & ?). exists kx. split_and!; [done..|].
          apply Hvis. by right. }
        assert (awalk g0 s t n (S l)) as Hwn.
        { destruct Hcex as (k0 & Hk0 & Hk0w & _). simpl in Hk0, Hk0w.
          assert (k0 = l) as -> by lia. by econstructor. }
        split_and!.
        -- destruct Hlev as (qa & qb & -> & Ha & Hb).
           exists qa, (qb ++ [(sp_first st1 ++ [n], n)]).
           split_and!; [by rewrite app_assoc|done|].
           intros x [Hin| ->%list_elem_of_singleton]%elem_of_app;
             [by apply Hb|]. simpl. rewrite length_app. simpl. lia.
        -- intros x [Hin| ->%list_elem_of_singleton]%elem_of_app;
             [by apply Hmono, Hex|].
           exists (S l). simpl. split_and!.
           ++ rewrite length_app. simpl. lia.
           ++ done.
           ++ intros j Hj. destruct (decide (S l ≤ j)) as [|Hlt]; [done|].
              exfalso. apply Hnv. apply (Hseen n j); [done|lia].
           ++ apply Hvis. by left.
        -- done.
        -- by apply Hmono.
        -- intros u Hu Hnin Huc. rewrite fmap_app in Hnin.
           apply not_elem_of_app in Hnin as [Hnin Hnn].
           apply Hvis in Hu as [->|Hu].
           { exfalso. apply Hnn. simpl. by left. }
           intros w Hw. destruct (Hclosed u Hu Hnin Huc w Hw) as [? ?].
           split; [done|]. apply Hvis. by right.
        -- intros e' [Hin| ->%list_elem_of_singleton]%elem_of_app.
           ++ destruct (Hdone e' Hin). split; [done|]. apply Hvis. by right.
           ++ split; [done|]. apply Hvis. by left.
        -- intros u j Hu Hj. apply Hvis. right. by apply (Hseen u j).
Qed.

Lemma outer_to_inner g current q paths size :
  sp_outer g0 s t D g (current :: q) paths size →
  sp_inner g0 s t D current.2 [] (mkSp g q current.1 paths size).
Proof.
  intros (Hsame & Hq & Hp & Hphase). destruct current as [p c].
  split_and!; simpl; [done| | |done|].
  { intros x Hx. apply Hq. by right. }
  { apply (Hq (p, c)). by left. }
  destruct Hphase as [(Hnil & Hsize & l & Hb)|?]; [left|by right].
  split_and!; [done..|].
  destruct Hb as (Hlev & Hex & Hclosed & Hseen).
  assert (∀ x, x ∈ q → entry_exact g0 s t g x) as Hexq.
  { intros x Hx. apply Hex. by right. }
  assert (entry_exact g0 s t g (p, c)) as Hexc by (apply Hex; by left).
  assert (∀ u, is_visited g u → u ∉ q.*2 → u ≠ c → expanded_ok g0 t g u)
    as Hclosed'.
  { intros u Hu Hnin Huc. apply Hclosed; [done|].
    rewrite fmap_cons. simpl. intros [?|?]%elem_of_cons; done. }
  destruct Hlev as (qa & qb & Hqq & Ha & Hb).
  destruct qa as [|x qa]; simpl in Hqq.
  - (* the level is exhausted: move to the next one *)
    exists (S l). split_and!; [|done| |done..| |].
    + exists q, []. rewrite app_nil_r. split_and!; [done| |].
      * intros x Hx. apply Hb. rewrite <-Hqq. by right.
      * by intros x ?%elem_of_nil.
    + apply (Hb (p, c)). rewrite <-Hqq. by left.
    + by intros e ?%elem_of_nil.
    + intros u k Hu Hk. destruct (decide (k ≤ l)) as [|Hgt];
        [by apply (Hseen u k)|].
      assert (k = S l) as -> by lia.
      inversion Hu as [|u' ? ? Hu' He Hne]; subst.
      assert (is_visited g u') as Hvis' by (by apply (Hseen u' l)).
      apply (Hclosed u' Hvis'); [|done].
      intros (x & -> & Hx)%list_elem_of_fmap.
      destruct (Hex x Hx) as (kx & Hkx & _ & Hmin & _).
      apply Hmin in Hu'. apply Hb in Hx. lia.
  - (* the same level *)
    injection Hqq as <- ->. exists l. split_and!; [|done| |done..| |done].
    + exists qa, qb. split_and!; [done| |done].
      intros x Hx. apply Ha. by right.
    + apply (Ha (p, c)). by left.
    + by intros e ?%elem_of_nil.
Qed.

Lemma inner_to_outer c all st :
  (∀ w, has_edge g0 c w → ∃ e, e ∈ all ∧ dest e = w) →
  sp_inner g0 s t D c all st →
  sp_outer g0 s t D (sp_graph st) (sp_queue st) (sp_paths st) (sp_size st).
Proof.
  intros Hall (Hsame & Hq & Hc & Hp & Hphase).
  split_and!; [done..|].
  destruct Hphase as [(Hnil & Hsize & l & Hb)|?]; [left|by right].
  split_and!; [done..|]. exists l.
  destruct Hb as (Hlev & Hex & Hfl & Hcex & Hclosed & Hdone & Hseen).
  split_and!; [done..| |done].
  intros u Hu Hnin. destruct (decide (u = c)) as [->|Huc];
    [|by apply Hclosed].
  intros w Hw. destruct (Hall w Hw) as (e & He & <-). by apply Hdone.
Qed.

Lemma sp_outer_final g paths size :
  sp_outer g0 s t D g [] paths size →
  paths ≠ [] ∧
  ∀ p, p ∈ paths → head p = Some s ∧ last p = Some t ∧ length p = S D.
Proof.
  intros (Hsame & Hq & Hp & Hphase).
  destruct Hphase as [(Hnil & Hsize & l & Hb)|[Hsize Hne]].
  - exfalso. destruct Hb as (Hlev & Hex & Hclosed & Hseen).
    assert (∀ u k, awalk g0 s t u k → is_visited g u) as Hall.
    { induction 1 as [|u v k Hu IH He Hne].
      - apply (Hseen s 0); [by constructor|lia].
      - apply (Hclosed u IH); [by intros ?%elem_of_nil|done]. }
    destruct (hop_distance_last_hop g0 s t D Hst HD)
      as (u & D' & -> & Hu & Hut).
    destruct (Hclosed u (Hall u D' Hu)) with (w := t) as [Hne _];
      [by intros ?%elem_of_nil|done|done].
  - split; [done|]. intros p Hin. destruct (Hp p Hin) as (? & ? & Hlen).
    split_and!; [done..|]. lia.
Qed.

Lemma sp_loop_hop_distance fuel g q paths size paths' g' :
  sp_outer g0 s t D g q paths size →
  sp_loop fuel t g q paths size = Ok (paths', g') →
  paths' ≠ [] ∧
  ∀ p, p ∈ paths' → head p = Some s ∧ last p = Some t ∧ length p = S D.
Proof.
  intros HQ H.
  destruct (sp_loop_invariant (sp_outer g0 s t D) t) with (3 := H)
    as [size' Hfinal]; [|done|by eapply sp_outer_final].
  clear HQ H. intros g1 current q1 paths1 size1 cx st HQ Hcx Hfl.
  pose proof HQ as (Hsame & _).
  destruct (same_but_visited_lookup g0 g1 _ _ Hsame Hcx) as (cx0 & Hcx0 & Heq).
  apply (f_equal adj) in Heq. change (adj cx0 = adj cx) in Heq.
  apply (inner_to_outer current.2 (adj cx)).
  { intros w (ux & e & Hux & He & Hd). exists e. split; [|done].
    rewrite Hcx0 in Hux. injection Hux as <-. by rewrite <-Heq. }
  apply (sp_flights_invariant (sp_inner g0 s t D current.2) t (adj cx))
    with (flights := adj cx) (done_ := [])
         (st := mkSp g1 q1 current.1 paths1 size1); [|done| |exact Hfl].
  - intros d e r st1 st2 Hall HP Hstep.
    apply (inner_step current.2 d e st1 st2); [|done..].
    exists cx0, e. split_and!; [done| |done].
    rewrite Heq, Hall. apply elem_of_app. right. by left.
  - by apply outer_to_inner.
Qed.
End shortest.

Lemma sp_outer_initial (g : Graph) (s t D : nat) sx :
  s ≠ t → resetVisited g !! s = Some sx →
  sp_outer g s t D (<[s:=setVisited true sx]> (resetVisited g))
           [([s], s)] [] INT_MAX.
Proof.
  intros Hst Hsx.
  set (g2 := <[s:=setVisited true sx]> (resetVisited g)).
  assert (∀ u, is_visited g2 u ↔ u = s) as Hvis.
  { intros u. unfold g2. rewrite is_visited_mark by done.
    pose proof (is_visited_resetVisited g u). naive_solver. }
  split_and!.
  - eapply same_but_visited_trans; [apply same_but_visited_reset|].
    by apply same_but_visited_insert.
  - intros x ->%list_elem_of_singleton. split; [done|].
    exists 0. split; [constructor|simpl; lia].
  - by intros p ?%elem_of_nil.
  - left. split_and!; [done..|]. exists 0. split_and!.
    + exists [([s], s)], []. split_and!; [done| |by intros x ?%elem_of_nil].
      by intros x ->%list_elem_of_singleton.
    + intros x ->%list_elem_of_singleton. exists 0.
      split_and!; [done|by constructor|intros; lia|by apply Hvis].
    + intros u ->%Hvis Hnin. exfalso. apply Hnin. simpl. by left.
    + intros u k Hu Hk. assert (k = 0) as -> by lia.
      inversion Hu; subst. by apply Hvis.
Qed.

Lemma searchSmallestPath_hop_distance (g g' : Graph) (A B d : nat) paths :
  A ≠ B → (Z.of_nat d + 1 < INT_MAX)%Z → is_hop_distance g A B d →
  searchSmallestPathBetweenAirports g A B = Ok (paths, g') →
  paths ≠ [] ∧
  ∀ p, p ∈ paths → head p = Some A ∧ last p = Some B ∧ length p = S d.
Proof.
  intros Hne Hbound Hd H. unfold searchSmallestPathBetweenAirports in H.
  apply bind_Ok in H as (sx & Hsx%deref_Ok & H).
  eapply (sp_loop_hop_distance g A B d); [done..| |exact H].
  by apply sp_outer_initial.
Qed.

(** ** The independent breadth-first distance is the hop distance *)

Lemma bfsLevels_sound (g : Graph) s t fuel :
  ∀ seen frontier d r,
    (∀ v, v ∈ seen ↔ ∃ j, j ≤ d ∧ walk g s v j) →
    (∀ v, v ∈ frontier ↔ walk g s v d ∧ ∀ j, walk g s v j → d ≤ j) →
    bfsLevels g t fuel seen frontier d = Some r →
    is_hop_distance g s t r.
Proof.
  induction fuel as [|fuel IH]; intros seen frontier d r Hseen Hfront H;
    simpl in H; case_bool_decide as Hin;
    try (injection H as <-; by apply Hfront); [done|].
  apply (IH _ _ _ _) in H; [done| |].
  - (* the vertices seen after one more level *)
    intros v. rewrite elem_of_app, list_elem_of_filter, list_elem_of_bind.
    split.
    + intros [Hv|(Hnv & u & Hvu & Hu)].
      * apply Hseen in Hv as (j & Hj & Hw). exists j. split; [lia|done].
      * apply Hfront in Hu as [Hu _]. exists (S d). split; [done|].
        econstructor; [exact Hu|]. by apply has_edge_successors.
    + intros (j & Hj & Hw). destruct (decide (v ∈ seen)) as [|Hnv]; [by left|].
      right. split; [done|]. inversion Hw as [|u ? k Hu He]; subst.
      { exfalso. apply Hnv, Hseen. exists 0. split; [lia|constructor]. }
      destruct (decide (k = d)) as [->|Hkd].
      * exists u. split; [by apply has_edge_successors|]. apply Hfront.
        split; [done|]. intros j' Hj'.
        destruct (decide (d ≤ j')) as [|Hlt]; [done|]. exfalso.
        apply Hnv, Hseen. exists (S j'). split; [lia|]. by econstructor.
      * exfalso. apply Hnv, Hseen. exists (S k). split; [lia|done].
  - (* the next frontier *)
    intros v. rewrite list_elem_of_filter, list_elem_of_bind. split.
    + intros (Hnv & u & Hvu & Hu). apply Hfront in Hu as [Hu _]. split.
      * econstructor; [exact Hu|]. by apply has_edge_successors.
      * intros j Hj. destruct (decide (S d ≤ j)) as [|Hlt]; [done|].
        exfalso. apply Hnv, Hseen. exists j. split; [lia|done].
    + intros [Hw Hmin]. split.
      * intros (j & Hj & Hwj)%Hseen. apply Hmin in Hwj. lia.
      * inversion Hw as [|u ? k Hu He]; subst.
        exists u. split; [by apply has_edge_successors|]. apply Hfront.
        split; [done|]. intros j' Hj'.
        destruct (decide (d ≤ j')) as [|Hlt]; [done|]. exfalso.
        assert (walk g s v (S j')) as Hw' by (by econstructor).
        apply Hmin in Hw'. lia.
Qed.

Lemma bfsDistance_sound (g : Graph) s t d :
  bfsDistance g s t = Some d → is_hop_distance g s t d.
Proof.
  apply bfsLevels_sound.
  - intros v. rewrite list_elem_of_singleton. split.
    + intros ->. exists 0. split; [done|constructor].
    + intros (j & Hj & Hw). assert (j = 0) as -> by lia. by inversion Hw.
  - intros v. rewrite list_elem_of_singleton. split.
    + intros ->. split; [constructor|intros; lia].
    + intros [Hw _]. by inversion Hw.
Qed.

(** C1, as the code has it.  For distinct airports [A] and [B] of a
    well-formed graph with [B] at hop distance [d] from [A] (as computed by
    the independent level-by-level search [bfsDistance], or as witnessed by a
    shortest walk), the query returns, and returns at least one path; every
    returned path starts at [A], ends at [B] and has [d + 1] nodes. *)
Theorem searchSmallestPath_minimal_hops (g : Graph) (A B d : nat) :
  dests_valid g → A < length g → A ≠ B →
  (Z.of_nat d + 1 < INT_MAX)%Z →
  bfsDistance g A B = Some d ∨ is_hop_distance g A B d →
  ∃ paths g',
    searchSmallestPathBetweenAirports g A B = Ok (paths, g') ∧
    paths ≠ [] ∧
    ∀ p, p ∈ paths → head p = Some A ∧ last p = Some B ∧ length p = S d.
Proof.
  intros Hd HA Hne Hbound Hdist.
  assert (is_hop_distance g A B d) as Hhop.
  { destruct Hdist as [Hb|]; [by apply bfsDistance_sound|done]. }
  destruct (searchSmallestPath_total g A B Hd HA) as (paths & g' & H & _).
  exists paths, g'. split; [done|].
  by eapply searchSmallestPath_hop_distance.
Qed.

Lemma searchSmallestPath_minimal_hops_witness :
  ∃ paths g',
    searchSmallestPathBetweenAirports g_triangle 0 1 = Ok (paths, g') ∧
    paths ≠ [] ∧
    ∀ p, p ∈ paths → head p = Some 0 ∧ last p = Some 1 ∧ length p = 2.
Proof.
  apply (searchSmallestPath_minimal_hops g_triangle 0 1 1).
  - apply dests_valid_Forall. by_compute.
  - simpl. lia.
  - lia.
  - unfold INT_MAX. lia.
  - left. reflexivity.
Defined.

(** The claim as stated fails when the two airports coincide: on the round
    trip A → B → A the independent search gives distance 0 from A to A, so
    one node, but the path the query returns has three. *)
Lemma searchSmallestPath_same_airport_hops :
  bfsDistance g_round_trip 0 0 = Some 0 ∧
  (∃ g', searchSmallestPathBetweenAirports g_round_trip 0 0
         = Ok ([[0; 1; 0]], g')) ∧
  length [0; 1; 0] ≠ 1 + 0.
Proof. split_and!; [reflexivity|by eexists|simpl; lia]. Qed.

(** * Destinations reachable within a number of stops (C4) *)

Lemma static_cast_int_small (n : nat) :
  (Z.of_nat n ≤ INT_MAX)%Z → static_cast_int n = Z.of_nat n.
Proof.
  unfold static_cast_int, wrap_int, INT_MAX. intros H.
  rewrite Z.mod_small; lia.
Qed.

Lemma rd_collect_Ok attr (g : Graph) flights acc :
  (∀ e, e ∈ flights → dest e < length g) →
  rd_collect attr flights g acc = Ok (collected attr g flights ∪ acc).
Proof.
  revert acc. induction flights as [|e rest IH]; intros acc Hd.
  { simpl. f_equal. unfold collected. set_solver. }
  destruct (lookup_lt_is_Some_2 g (dest e)) as [dx Hdx]; [apply Hd; by left|].
  simpl. rewrite (deref_lookup _ _ _ Hdx). simpl.
  rewrite IH by (intros e' He'; apply Hd; by right). f_equal.
  unfold collected. rewrite fmap_cons, Hdx. simpl. set_solver.
Qed.

Lemma rd_enqueue_total stop flights :
  ∀ (g : Graph) q,
    (∀ e, e ∈ flights → dest e < length g) →
    ∃ g' q', rd_enqueue stop flights g q = Ok (g', q') ∧
             same_but_visited g g' ∧
             unvisited g' + length q' = unvisited g + length q ∧
             (rd_queue_valid g q → rd_queue_valid g' q') ∧
             (∀ x, x ∈ q' → x ∈ q ∨ x.2 = (stop + 1)%Z) ∧
             (∀ u, is_visited g u → is_visited g' u).
Proof.
  induction flights as [|e rest IH]; intros g q Hd.
  { exists g, q. split_and!; [done..|by left|done]. }
  destruct (lookup_lt_is_Some_2 g (dest e)) as [dx Hdx]; [apply Hd; by left|].
  simpl. rewrite (deref_lookup _ _ _ Hdx). simpl.
  destruct (visited dx) eqn:Hv.
  { apply IH. intros e' He'. apply Hd. by right. }
  destruct (IH (<[dest e:=setVisited true dx]> g) (q ++ [(dest e, (stop + 1)%Z)]))
    as (g' & q' & H & Hs & Hm & Hq & Hstop & Hvis).
  { intros e' He'. rewrite length_insert. apply Hd. by right. }
  exists g', q'. split_and!; [done| | | | |].
  - eapply same_but_visited_trans; [|exact Hs].
    by apply same_but_visited_insert.
  - rewrite Hm, length_app. simpl.
    pose proof (unvisited_mark _ _ _ Hdx Hv). lia.
  - intros Hqv. apply Hq. intros x Hx. rewrite length_insert.
    apply elem_of_app in Hx as [Hx| ->%list_elem_of_singleton];
      [by apply Hqv|]. simpl. by eapply lookup_lt_Some.
  - intros x Hx. apply Hstop in Hx as [Hx|Hx]; [|by right].
    apply elem_of_app in Hx as [Hx| ->%list_elem_of_singleton];
      [by left|by right].
  - intros u Hu. apply Hvis, is_visited_mark; [done|by right].
Qed.

Section rd_monotone.
Variables (attr : Vertex → string) (x y : Z).
Hypothesis Hxy : (x ≤ y)%Z.

(** Both budgets drive the same traversal; the smaller one collects a
    subset. *)
Lemma rd_loop_mono fuel :
  ∀ (g : Graph) q (acc1 acc2 : gset string),
    dests_valid g → rd_queue_valid g q → acc1 ⊆ acc2 →
    unvisited g + length q ≤ fuel →
    ∃ r1 r2 g', rd_loop fuel x attr g q acc1 = Ok (r1, g') ∧
                rd_loop fuel y attr g q acc2 = Ok (r2, g') ∧
                r1 ⊆ r2 ∧ same_but_visited g g' ∧
                (∀ u, is_visited g u → is_visited g' u).
Proof.
  induction fuel as [|fuel IH]; intros g q acc1 acc2 Hd Hq Hacc Hm.
  { destruct q; [|simpl in Hm; lia]. by exists acc1, acc2, g. }
  destruct q as [|[a stop] q]; [by exists acc1, acc2, g|].
  destruct (lookup_lt_is_Some_2 g a) as [ax Hax].
  { apply (Hq (a, stop)). by left. }
  assert (∀ e, e ∈ adj ax → dest e < length g) as Hadj
    by (intros e He; by apply (Hd a ax e)).
  destruct (rd_enqueue_total stop (adj ax) g q Hadj)
    as (g1 & q1 & Henq & Hs1 & Hm1 & Hq1 & _ & Hvis1).
  set (acc1' := if (stop <=? x)%Z then collected attr g (adj ax) ∪ acc1
                else acc1).
  set (acc2' := if (stop <=? y)%Z then collected attr g (adj ax) ∪ acc2
                else acc2).
  assert (acc1' ⊆ acc2') as Hacc'.
  { unfold acc1', acc2'.
    destruct (Z.leb_spec stop x), (Z.leb_spec stop y); try lia; set_solver. }
  simpl in Hm.
  destruct (IH g1 q1 acc1' acc2')
    as (r1 & r2 & g' & H1 & H2 & Hr & Hs' & Hvis');
    [by eapply same_but_visited_dests_valid| |done|lia|].
  { apply Hq1. intros z Hz. apply Hq. by right. }
  exists r1, r2, g'. simpl. rewrite (deref_lookup _ _ _ Hax). simpl.
  split_and!; [| |done|by eapply same_but_visited_trans|by auto].
  - replace (if (stop <=? x)%Z then rd_collect attr (adj ax) g acc1
             else Ok acc1) with (Ok acc1').
    { simpl. by rewrite Henq. }
    unfold acc1'. destruct (stop <=? x)%Z; [|done].
    by rewrite rd_collect_Ok.
  - replace (if (stop <=? y)%Z then rd_collect attr (adj ax) g acc2
             else Ok acc2) with (Ok acc2').
    { simpl. by rewrite Henq. }
    unfold acc2'. destruct (stop <=? y)%Z; [|done].
    by rewrite rd_collect_Ok.
Qed.

Lemma reachableDestinations_mono (g : Graph) airport :
  dests_valid g → airport < length g →
  ∃ r1 r2 g', reachableDestinations g airport x attr = Ok (r1, g') ∧
              reachableDestinations g airport y attr = Ok (r2, g') ∧
              r1 ⊆ r2 ∧ same_but_visited g g' ∧ is_visited g' airport.
Proof.
  intros Hd Ha. unfold reachableDestinations.
  destruct (lookup_lt_is_Some_2 (resetVisited g) airport) as [ax Hax].
  { by rewrite length_resetVisited. }
  rewrite (deref_lookup _ _ _ Hax). simpl.
  assert (visited ax = false) as Hv.
  { rewrite lookup_resetVisited in Hax. destruct (g !! airport); by simplify_eq/=. }
  assert (same_but_visited g (<[airport:=setVisited true ax]> (resetVisited g)))
    as Hsame.
  { eapply same_but_visited_trans; [apply same_but_visited_reset|].
    by apply same_but_visited_insert. }
  destruct (rd_loop_mono (length g)
              (<[airport:=setVisited true ax]> (resetVisited g))
              [(airport, 0%Z)] ∅ ∅)
    as (r1 & r2 & g' & H1 & H2 & Hr & Hs & Hvis).
  - by eapply same_but_visited_dests_valid.
  - intros z ->%list_elem_of_singleton. simpl.
    by rewrite length_insert, length_resetVisited.
  - done.
  - pose proof (unvisited_mark _ _ _ Hax Hv) as Hm.
    rewrite unvisited_resetVisited in Hm. simpl. lia.
  - exists r1, r2, g'. split_and!; [done..| |].
    + by eapply same_but_visited_trans.
    + apply Hvis, is_visited_mark; [done|by left].
Qed.
End rd_monotone.

(** Once every queued airport is beyond the budget, nothing more is
    collected. *)
Lemma rd_loop_beyond attr layOvers fuel :
  ∀ (g : Graph) q (acc r : gset string) g',
    dests_valid g → rd_queue_valid g q →
    (∀ z, z ∈ q → (layOvers < z.2)%Z) →
    rd_loop fuel layOvers attr g q acc = Ok (r, g') → r = acc.
Proof.
  induction fuel as [|fuel IH]; intros g q acc r g' Hd Hq Hstop H.
  { destruct q as [|[??] ?]; [|done]. by injection H as <- <-. }
  destruct q as [|[a stop] q]; [by injection H as <- <-|].
  destruct (lookup_lt_is_Some_2 g a) as [ax Hax].
  { apply (Hq (a, stop)). by left. }
  assert (∀ e, e ∈ adj ax → dest e < length g) as Hadj
    by (intros e He; by apply (Hd a ax e)).
  destruct (rd_enqueue_total stop (adj ax) g q Hadj)
    as (g1 & q1 & Henq & Hs1 & Hm1 & Hq1 & Hst1 & _).
  assert (layOvers < stop)%Z as Hlt by (apply (Hstop (a, stop)); by left).
  simpl in H. rewrite (deref_lookup _ _ _ Hax) in H. simpl in H.
  replace (stop <=? layOvers)%Z with false in H
    by (symmetry; apply Z.leb_gt; lia).
  simpl in H. rewrite Henq in H. simpl in H.
  apply IH in H; [done|by eapply same_but_visited_dests_valid| |].
  - apply Hq1. intros z Hz. apply Hq. by right.
  - intros z Hz. apply Hst1 in Hz as [Hz|Hz]; [apply Hstop; by right|lia].
Qed.

Lemma collected_same attr (g g2 : Graph) flights :
  reads_info attr → same_but_visited g g2 →
  collected attr g2 flights = collected attr g flights.
Proof.
  intros Hattr Hs. unfold collected. f_equal. apply list_fmap_ext.
  intros i e _. destruct (g2 !! dest e) as [dx2|] eqn:E2.
  - destruct (same_but_visited_lookup g g2 _ _ Hs E2) as (dx & -> & Heq).
    simpl. apply Hattr. symmetry. exact (f_equal info Heq).
  - apply lookup_ge_None in E2.
    rewrite <-(same_but_visited_length _ _ Hs) in E2.
    by rewrite lookup_ge_None_2.
Qed.

(** With no stop allowed, exactly the destinations of the direct flights are
    collected. *)
Lemma reachableDestinations_direct attr (g : Graph) airport ax :
  reads_info attr → dests_valid g → g !! airport = Some ax →
  ∃ g', reachableDestinations g airport 0 attr
        = Ok (collected attr g (adj ax), g').
Proof.
  intros Hattr Hd Ha. unfold reachableDestinations.
  assert (resetVisited g !! airport = Some (setVisited false ax)) as Hax
    by (by rewrite lookup_resetVisited, Ha).
  rewrite (deref_lookup _ _ _ Hax). simpl.
  set (g2 := <[airport:=setVisited true (setVisited false ax)]> (resetVisited g)).
  assert (same_but_visited g g2) as Hsame.
  { eapply same_but_visited_trans; [apply same_but_visited_reset|].
    by apply same_but_visited_insert. }
  assert (dests_valid g2) as Hd2 by (by eapply same_but_visited_dests_valid).
  assert (g2 !! airport = Some (setVisited true (setVisited false ax))) as Ha2.
  { apply list_lookup_insert_eq. rewrite length_resetVisited.
    by eapply lookup_lt_Some. }
  assert (∀ e, e ∈ adj ax → dest e < length g2) as Hadj.
  { intros e He. by apply (Hd2 airport _ e Ha2). }
  destruct (rd_enqueue_total 0 (adj ax) g2 [] Hadj)
    as (g3 & q3 & Henq & Hs3 & Hm3 & Hq3 & Hst3 & _).
  assert (unvisited g2 + 1 = length g) as Hm.
  { pose proof (unvisited_mark _ _ _ Hax eq_refl) as Hm.
    rewrite unvisited_resetVisited in Hm. fold g2 in Hm. lia. }
  destruct (rd_loop_mono attr 0 0 (Z.le_refl 0) (length g) g2 [(airport, 0%Z)] ∅ ∅)
    as (r1 & _ & g' & H1 & _ & _ & _); [done| |done|simpl; lia|].
  { intros z ->%list_elem_of_singleton. simpl. by eapply lookup_lt_Some. }
  exists g'. rewrite H1. f_equal. f_equal.
  destruct (length g) as [|fuel]; [lia|].
  simpl in H1. rewrite (deref_lookup _ _ _ Ha2) in H1. simpl in H1.
  change (adj (setVisited true (setVisited false ax))) with (adj ax) in H1.
  rewrite rd_collect_Ok in H1 by done. simpl in H1.
  rewrite Henq in H1. simpl in H1.
  apply rd_loop_beyond in H1.
  - rewrite H1, (collected_same attr g g2) by done. set_solver.
  - by eapply same_but_visited_dests_valid.
  - apply Hq3. by intros z ?%elem_of_nil.
  - intros z Hz. apply Hst3 in Hz as [?%elem_of_nil|Hz]; [done|lia].
Qed.

Lemma collected_two attr (g : Graph) flights B C bx cx :
  g !! B = Some bx → g !! C = Some cx →
  (∀ e, e ∈ flights → dest e = B ∨ dest e = C) →
  B ∈ dest <$> flights → C ∈ dest <$> flights →
  collected attr g flights = {[attr bx]} ∪ {[attr cx]}.
Proof.
  intros HB HC Hall HinB HinC. unfold collected.
  apply set_eq. intros a.
  rewrite elem_of_list_to_set, list_elem_of_fmap, elem_of_union,
    !elem_of_singleton.
  split.
  - intros (e & -> & He). destruct (Hall e He) as [-> | ->].
    + rewrite HB. by left.
    + rewrite HC. by right.
  - intros [-> | ->].
    + apply list_elem_of_fmap in HinB as (e & -> & He).
      exists e. by rewrite HB.
    + apply list_elem_of_fmap in HinC as (e & HeC & He).
      exists e. by rewrite <-HeC, HC.
Qed.

Lemma reads_info_extractAirportCode : reads_info extractAirportCode.
Proof. intros u v H. unfold extractAirportCode. by rewrite H. Qed.

Lemma reads_info_extractCity : reads_info extractCity.
Proof. intros u v H. unfold extractCity. by rewrite H. Qed.

Lemma reads_info_extractCountry : reads_info extractCountry.
Proof. intros u v H. unfold extractCountry. by rewrite H. Qed.

(** The count with no stop allowed, for an airport whose flights go to the
    two destinations [B] and [C]: the number of distinct attributes among
    the two. *)
Lemma reachable_count_two attr (g : Graph) airport B C ax bx cx :
  reads_info attr → dests_valid g →
  g !! airport = Some ax → g !! B = Some bx → g !! C = Some cx →
  (∀ e, e ∈ adj ax → dest e = B ∨ dest e = C) →
  B ∈ dest <$> adj ax → C ∈ dest <$> adj ax →
  ∃ g', searchNumberOfReachableDestinationsInXStopsFromAirport g airport 0 attr
        = Ok ((if decide (attr bx = attr cx) then 1 else 2)%Z, g').
Proof.
  intros Hattr Hd Hax HB HC Hall HinB HinC.
  destruct (reachableDestinations_direct attr g airport ax Hattr Hd Hax)
    as (g' & H).
  exists g'. unfold searchNumberOfReachableDestinationsInXStopsFromAirport.
  rewrite H. simpl. do 2 f_equal.
  rewrite (collected_two _ g (adj ax) B C bx cx) by done.
  destruct (decide (attr bx = attr cx)) as [->|Hne].
  - by rewrite (idemp_L (∪)), size_singleton.
  - rewrite size_union by set_solver. by rewrite !size_singleton.
Qed.

(** C4.  On a well-formed graph the count never decreases when the number of
    allowed stops grows (provided the larger count is representable as an
    [int], which the cast at the end of the query needs).  For an airport
    whose flights go to exactly the two destinations [B] and [C], with no
    stop allowed: the number of airports reached is 2 (distinct airports
    have distinct codes), and the number of cities, or of countries, is the
    number of distinct cities, or countries, among the two: 2 when they
    differ and 1 when they are the same. *)
Theorem reachable_count_monotone (g : Graph) (airport : VertexPtr) (x y : Z)
    (attributeExtractor : Vertex → string) :
  dests_valid g → airport < length g → (x ≤ y)%Z →
  count_fits g airport y attributeExtractor →
  (∃ cx cy g',
     searchNumberOfReachableDestinationsInXStopsFromAirport
       g airport x attributeExtractor = Ok (cx, g') ∧
     searchNumberOfReachableDestinationsInXStopsFromAirport
       g airport y attributeExtractor = Ok (cy, g') ∧
     (cx ≤ cy)%Z) ∧
  (∀ B C ax bx cx,
     g !! airport = Some ax → g !! B = Some bx → g !! C = Some cx →
     (∀ e, e ∈ adj ax → dest e = B ∨ dest e = C) →
     B ∈ dest <$> adj ax → C ∈ dest <$> adj ax →
     (unique_codes g → B ≠ C →
      ∃ g', searchNumberOfReachableAirportsInXStopsFromAirport g airport 0
            = Ok (2%Z, g')) ∧
     (∃ g', searchNumberOfReachableCitiesInXStopsFromAirport g airport 0
            = Ok ((if decide (city (info bx) = city (info cx))
                   then 1 else 2)%Z, g')) ∧
     (∃ g', searchNumberOfReachableCountriesInXStopsFromAirport g airport 0
            = Ok ((if decide (country (info bx) = country (info cx))
                   then 1 else 2)%Z, g'))).
Proof.
  intros Hd Ha Hxy Hfit. split.
  - destruct (reachableDestinations_mono attributeExtractor x y Hxy g airport
                Hd Ha) as (r1 & r2 & g' & H1 & H2 & Hr & _ & _).
    pose proof (Hfit r2 g' H2) as Hfit2.
    pose proof (subseteq_size r1 r2 Hr) as Hsize.
    exists (Z.of_nat (size r1)), (Z.of_nat (size r2)), g'.
    unfold searchNumberOfReachableDestinationsInXStopsFromAirport.
    rewrite H1, H2. simpl.
    rewrite !static_cast_int_small by lia. split_and!; [done..|lia].
  - intros B C ax bx cx Hax HB HC Hall HinB HinC. split_and!.
    + intros Hu Hne.
      destruct (reachable_count_two extractAirportCode g airport B C ax bx cx
                  reads_info_extractAirportCode Hd Hax HB HC Hall HinB HinC)
        as (g' & H).
      exists g'. unfold searchNumberOfReachableAirportsInXStopsFromAirport.
      rewrite H. rewrite decide_False; [done|].
      unfold extractAirportCode. intros Hc. by apply Hne, (Hu B C bx cx).
    + exact (reachable_count_two extractCity g airport B C ax bx cx
               reads_info_extractCity Hd Hax HB HC Hall HinB HinC).
    + exact (reachable_count_two extractCountry g airport B C ax bx cx
               reads_info_extractCountry Hd Hax HB HC Hall HinB HinC).
Qed.

Lemma reachable_count_monotone_witness :
  (∃ cx cy g',
     searchNumberOfReachableDestinationsInXStopsFromAirport
       g_triangle 0 0 extractAirportCode = Ok (cx, g') ∧
     searchNumberOfReachableDestinationsInXStopsFromAirport
       g_triangle 0 1 extractAirportCode = Ok (cy, g') ∧
     (cx ≤ cy)%Z) ∧
  (∃ g', searchNumberOfReachableAirportsInXStopsFromAirport g_triangle 0 0
         = Ok (2%Z, g')) ∧
  (∃ g', searchNumberOfReachableCitiesInXStopsFromAirport g_triangle 0 0
         = Ok (2%Z, g')).
Proof.
  destruct (reachable_count_monotone g_triangle 0 0 1 extractAirportCode)
    as [Hmono Hdirect].
  - apply dests_valid_Forall. by_compute.
  - simpl. lia.
  - lia.
  - intros s g' H. vm_compute in H. injection H as <- _. by vm_compute.
  - split; [exact Hmono|].
    destruct (Hdirect 1 2 _ _ _ eq_refl eq_refl eq_refl)
      as (Hairports & Hcities & _).
    + intros e He. simpl in He.
      apply elem_of_cons in He as [->|He]; [by left|].
      apply list_elem_of_singleton in He as ->. by right.
    + by_compute.
    + by_compute.
    + split; [|exact Hcities]. apply Hairports; [|done].
      intros i j vi vj Hi Hj Hc.
      destruct i as [|[|[|i]]], j as [|[|[|j]]]; simplify_eq/=; done.
Defined.

(** The claim's count of 2 fails for the cities and the countries: from A,
    whose two flights go to the distinct airports B and C of one city, the
    query with no stop allowed counts 2 airports but 1 city and 1 country. *)
Lemma reachable_cities_same_city :
  (∃ g', searchNumberOfReachableAirportsInXStopsFromAirport g_same_city 0 0
         = Ok (2%Z, g')) ∧
  (∃ g', searchNumberOfReachableCitiesInXStopsFromAirport g_same_city 0 0
         = Ok (1%Z, g')) ∧
  (∃ g', searchNumberOfReachableCountriesInXStopsFromAirport g_same_city 0 0
         = Ok (1%Z, g')) ∧
  ¬ (∃ g', searchNumberOfReachableCitiesInXStopsFromAirport g_same_city 0 0
           = Ok (2%Z, g')).
Proof.
  split_and!; [eexists; by vm_compute..|].
  intros (g' & H). vm_compute in H. congruence.
Qed.

(** * The articulation-point search: frame and termination *)

Lemma ea_post_refl st : ea_post st st.
Proof. by split_and!. Qed.

Lemma ea_post_trans st1 st2 st3 :
  ea_post st1 st2 → ea_post st2 st3 → ea_post st1 st3.
Proof.
  intros (Hs1 & Hu1 & Hv1) (Hs2 & Hu2 & Hv2). split_and!.
  - by eapply same_but_transient_trans.
  - lia.
  - auto.
Qed.

(** Rewriting the transient state of one vertex, without clearing its visited
    flag. *)
Lemma ea_post_update st v vx vx' stack res idx :
  ea_graph st !! v = Some vx →
  clearTransient vx' = clearTransient vx →
  (visited vx = true → visited vx' = true) →
  ea_post st (mkEa (<[v:=vx']> (ea_graph st)) stack res idx).
Proof.
  intros Hv Hc Hvis. split_and!; simpl.
  - by apply (same_but_transient_insert _ v vx).
  - pose proof (unvisited_insert _ v vx vx' Hv) as H.
    destruct (visited vx) eqn:E.
    + rewrite Hvis in H by done. lia.
    + destruct (visited vx'); lia.
  - intros u Hu. apply is_visited_insert; [by eapply lookup_lt_Some|].
    destruct (decide (u = v)) as [->|Hne]; [left|by right].
    split; [done|]. destruct Hu as (ux & Hux & Hvx). apply Hvis. congruence.
Qed.

Lemma ea_flights_post rec v :
  (∀ d st st1, rec d st = Ok st1 → ea_post st st1) →
  ∀ flights st children st',
    ea_flights rec v flights st children = Ok st' → ea_post st st'.
Proof.
  intros Hrec. induction flights as [|flight rest IH];
    intros st children st' H; simpl in H.
  { injection H as <-. apply ea_post_refl. }
  apply bind_Ok in H as (dx & Hdx%deref_Ok & H).
  destruct (visited dx) eqn:Hvd; simpl in H.
  - destruct (processing dx); [|by eapply IH].
    apply bind_Ok in H as (vx & Hvx%deref_Ok & H).
    apply IH in H. eapply ea_post_trans; [|exact H].
    by apply (ea_post_update st v vx).
  - apply bind_Ok in H as (st1 & Hst1 & H).
    apply bind_Ok in H as (vx & Hvx%deref_Ok & H).
    apply bind_Ok in H as (dx1 & Hdx1 & H).
    apply bind_Ok in H as (vx2 & Hvx2 & H).
    apply bind_Ok in H as (dx2 & Hdx2 & H).
    apply IH in H. eapply ea_post_trans; [by eapply Hrec|].
    eapply ea_post_trans; [|exact H].
    by apply (ea_post_update st1 v vx).
Qed.

Lemma dfsEssentialAirports_post fuel :
  ∀ v st st', dfsEssentialAirports fuel v st = Ok st' → ea_post st st'.
Proof.
  induction fuel as [|fuel IH]; intros v st st' H; [done|]. simpl in H.
  apply bind_Ok in H as (vx & Hvx%deref_Ok & H).
  apply bind_Ok in H as (st2 & Hst2 & H).
  apply bind_Ok in H as (vx2 & Hvx2%deref_Ok & H). injection H as <-.
  apply (ea_flights_post _ v IH) in Hst2.
  eapply ea_post_trans;
    [|eapply ea_post_trans;
        [exact Hst2|by apply (ea_post_update st2 v vx2)]].
  by apply (ea_post_update st v vx).
Qed.

Lemma ea_roots_post fuel vs :
  ∀ st st', ea_roots fuel vs st = Ok st' → ea_post st st'.
Proof.
  induction vs as [|v rest IH]; intros st st' H; simpl in H.
  { injection H as <-. apply ea_post_refl. }
  apply bind_Ok in H as (vx & Hvx & H).
  destruct (visited vx); [by apply IH|].
  apply bind_Ok in H as (st1 & Hst1 & H).
  eapply ea_post_trans; [by eapply dfsEssentialAirports_post|by apply IH].
Qed.

Lemma searchEssentialAirports_frame (g g' : Graph) res :
  searchEssentialAirports g = Ok (res, g') → same_but_transient g g'.
Proof.
  unfold searchEssentialAirports. intros H.
  apply bind_Ok in H as (st & Hst & H). injection H as <- <-.
  apply ea_roots_post in Hst as (Hs & _). simpl in Hs.
  eapply same_but_transient_trans; [|exact Hs].
  apply same_but_visited_transient, same_but_visited_reset.
Qed.

(** ** Termination *)

Lemma unvisited_pos (g : Graph) v vx :
  g !! v = Some vx → visited vx = false → 1 ≤ unvisited g.
Proof. intros Hv Hf. pose proof (unvisited_mark g v vx Hv Hf). lia. Qed.

Lemma ea_post_lookup st st' v :
  ea_post st st' → v < length (ea_graph st) →
  ∃ vx, ea_graph st' !! v = Some vx.
Proof.
  intros (Hs & _) Hv. apply lookup_lt_is_Some_2.
  by rewrite <-(same_but_transient_length _ _ Hs).
Qed.

Lemma ea_flights_total rec v fuel' :
  (∀ d st dx, dests_valid (ea_graph st) → ea_graph st !! d = Some dx →
     visited dx = false → unvisited (ea_graph st) ≤ fuel' →
     ∃ st1, rec d st = Ok st1 ∧ ea_post st st1) →
  ∀ flights st children,
    dests_valid (ea_graph st) → v < length (ea_graph st) →
    (∀ e, e ∈ flights → dest e < length (ea_graph st)) →
    unvisited (ea_graph st) ≤ fuel' →
    ∃ st', ea_flights rec v flights st children = Ok st' ∧ ea_post st st'.
Proof.
  intros Hrec. induction flights as [|flight rest IH];
    intros st children Hd Hv Hfl Hm.
  { exists st. split; [done|apply ea_post_refl]. }
  destruct (lookup_lt_is_Some_2 _ _ (Hfl flight ltac:(by left))) as [dx Hdx].
  destruct (lookup_lt_is_Some_2 _ _ Hv) as [vx Hvx].
  simpl. rewrite (deref_lookup _ _ _ Hdx). simpl.
  assert (∀ st2, ea_post st st2 →
            ∃ st', ea_flights rec v rest st2
                     (if visited dx then children else (children + 1)%Z)
                   = Ok st' ∧ ea_post st st') as Hrest.
  { intros st2 Hp. pose proof Hp as (Hs & Hu & _).
    destruct (IH st2 (if visited dx then children else (children + 1)%Z))
      as (st' & H' & Hp').
    - by eapply same_but_transient_dests_valid.
    - by rewrite <-(same_but_transient_length _ _ Hs).
    - intros e He. rewrite <-(same_but_transient_length _ _ Hs).
      apply Hfl. by right.
    - lia.
    - exists st'. split; [done|]. by eapply ea_post_trans. }
  destruct (visited dx) eqn:Hvd; simpl.
  - destruct (processing dx).
    + rewrite (deref_lookup _ _ _ Hvx). simpl. apply Hrest.
      by apply (ea_post_update st v vx).
    + apply Hrest, ea_post_refl.
  - destruct (Hrec (dest flight) st dx Hd Hdx Hvd Hm) as (st1 & Hst1 & Hp1).
    rewrite Hst1. simpl.
    destruct (ea_post_lookup st st1 v Hp1 Hv) as [vx1 Hvx1].
    destruct (ea_post_lookup st st1 (dest flight) Hp1) as [dx1 Hdx1];
      [by eapply lookup_lt_Some|].
    rewrite (deref_lookup _ _ _ Hvx1), (deref_lookup _ _ _ Hdx1). simpl.
    set (g2 := <[v:=setLow (Z.min (low vx1) (low dx1)) vx1]> (ea_graph st1)).
    destruct (lookup_lt_is_Some_2 g2 v) as [vx2 Hvx2].
    { unfold g2. rewrite length_insert. by eapply lookup_lt_Some. }
    destruct (lookup_lt_is_Some_2 g2 (dest flight)) as [dx2 Hdx2].
    { unfold g2. rewrite length_insert. by eapply lookup_lt_Some. }
    rewrite (deref_lookup _ _ _ Hvx2), (deref_lookup _ _ _ Hdx2). simpl.
    apply Hrest. eapply ea_post_trans; [exact Hp1|].
    by apply (ea_post_update st1 v vx1).
Qed.

Lemma dfsEssentialAirports_total fuel :
  ∀ v st vx,
    dests_valid (ea_graph st) → ea_graph st !! v = Some vx →
    visited vx = false → unvisited (ea_graph st) ≤ fuel →
    ∃ st', dfsEssentialAirports fuel v st = Ok st' ∧ ea_post st st' ∧
           is_visited (ea_graph st') v.
Proof.
  induction fuel as [|fuel IH]; intros v st vx Hd Hv Hf Hm.
  { pose proof (unvisited_pos _ _ _ Hv Hf). lia. }
  simpl. rewrite (deref_lookup _ _ _ Hv). simpl.
  set (vx1 := setLow _ _).
  set (st1 := mkEa (<[v:=vx1]> (ea_graph st)) _ _ _).
  assert (ea_post st st1) as Hp1 by (by apply (ea_post_update st v vx)).
  assert (is_visited (ea_graph st1) v) as Hvis1.
  { exists vx1. split; [|done]. apply list_lookup_insert_eq.
    by eapply lookup_lt_Some. }
  destruct (ea_flights_total (dfsEssentialAirports fuel) v fuel) with
    (flights := adj vx) (st := st1) (children := 0%Z) as (st2 & Hst2 & Hp2).
  - intros d st0 dx Hd0 Hdx Hfd Hm0.
    destruct (IH d st0 dx Hd0 Hdx Hfd Hm0) as (st' & H' & Hp' & _).
    by exists st'.
  - destruct Hp1 as (Hs1 & _). by eapply same_but_transient_dests_valid.
  - simpl. rewrite length_insert. by eapply lookup_lt_Some.
  - intros e He. simpl. rewrite length_insert. by apply (Hd v vx e).
  - simpl. pose proof (unvisited_mark _ _ _ Hv Hf) as Hmark.
    pose proof (unvisited_insert _ v vx vx1 Hv) as Hins.
    rewrite Hf in Hins. simpl in Hins. lia.
  - rewrite Hst2. simpl.
    destruct (Hp2) as (_ & _ & Hmono). apply Hmono in Hvis1.
    destruct Hvis1 as (vx2 & Hvx2 & Hvis2).
    rewrite (deref_lookup _ _ _ Hvx2). simpl. eexists. split; [done|].
    split.
    + eapply ea_post_trans; [exact Hp1|].
      eapply ea_post_trans; [exact Hp2|].
      by apply (ea_post_update st2 v vx2).
    + simpl. exists (setProcessing false vx2). split; [|done].
      apply list_lookup_insert_eq. by eapply lookup_lt_Some.
Qed.

Lemma ea_roots_total fuel vs :
  ∀ st,
    dests_valid (ea_graph st) → (∀ v, v ∈ vs → v < length (ea_graph st)) →
    unvisited (ea_graph st) ≤ fuel →
    ∃ st', ea_roots fuel vs st = Ok st' ∧ ea_post st st' ∧
           ∀ v, v ∈ vs → is_visited (ea_graph st') v.
Proof.
  induction vs as [|v rest IH]; intros st Hd Hvs Hm.
  { exists st. split_and!; [done|apply ea_post_refl|by intros v ?%elem_of_nil]. }
  destruct (lookup_lt_is_Some_2 _ _ (Hvs v ltac:(by left))) as [vx Hvx].
  simpl. rewrite (deref_lookup _ _ _ Hvx). simpl.
  assert (∀ st1, ea_post st st1 → is_visited (ea_graph st1) v →
            ∃ st', ea_roots fuel rest st1 = Ok st' ∧ ea_post st st' ∧
                   ∀ v0, v0 ∈ v :: rest → is_visited (ea_graph st') v0) as Hrest.
  { intros st1 Hp Hvis. pose proof Hp as (Hs & Hu & _).
    destruct (IH st1) as (st' & H' & Hp' & Hall).
    - by eapply same_but_transient_dests_valid.
    - intros v0 Hv0. rewrite <-(same_but_transient_length _ _ Hs).
      apply Hvs. by right.
    - lia.
    - exists st'. split_and!; [done|by eapply ea_post_trans|].
      intros v0 [->|Hv0]%elem_of_cons; [|by apply Hall].
      destruct Hp' as (_ & _ & Hmono). by apply Hmono. }
  destruct (visited vx) eqn:Hf.
  - apply Hrest; [apply ea_post_refl|by exists vx].
  - destruct (dfsEssentialAirports_total fuel v st vx Hd Hvx Hf Hm)
      as (st1 & H1 & Hp1 & Hvis1).
    rewrite H1. simpl. by apply Hrest.
Qed.

Lemma searchEssentialAirports_total (g : Graph) :
  dests_valid g →
  ∃ res g', searchEssentialAirports g = Ok (res, g') ∧
            same_but_transient g g' ∧
            ∀ u, u < length g → is_visited g' u.
Proof.
  intros Hd. unfold searchEssentialAirports.
  destruct (ea_roots_total (length g) (seq 0 (length g))
              (mkEa (resetVisited g) [] ∅ 0%Z)) as (st & Hst & Hp & Hall).
  - simpl. eapply same_but_visited_dests_valid; [|exact Hd].
    apply same_but_visited_reset.
  - intros v Hv%elem_of_seq. simpl. rewrite length_resetVisited. lia.
  - simpl. by rewrite unvisited_resetVisited.
  - rewrite Hst. simpl. exists (ea_res st), (ea_graph st).
    split_and!; [done| |].
    + destruct Hp as (Hs & _). simpl in Hs.
      eapply same_but_transient_trans; [|exact Hs].
      apply same_but_visited_transient, same_but_visited_reset.
    + intros u Hu. apply Hall, elem_of_seq. lia.
Qed.

(** * Articulation points of a directed cycle (C6) *)

Lemma is_cycle_length (g : Graph) c : is_cycle g c → length c = length g.
Proof. intros [Hp _]. by rewrite Hp, length_seq. Qed.

Lemma is_cycle_NoDup (g : Graph) c : is_cycle g c → NoDup c.
Proof. intros [Hp _]. rewrite Hp. apply NoDup_seq. Qed.

Lemma is_cycle_elem (g : Graph) c u : is_cycle g c → u ∈ c ↔ u < length g.
Proof. intros [Hp _]. rewrite Hp, elem_of_seq. lia. Qed.

Lemma rotate_nat_add_mod (b o n : nat) :
  0 < n → rotate_nat_add b o n = (b + o) mod n.
Proof.
  intros Hn. unfold rotate_nat_add.
  by rewrite <-Nat2Z.inj_add, <-Nat2Z.inj_mod, Nat2Z.id.
Qed.

(** A cycle can be listed from any of its vertices, in particular from the
    first vertex of the vertex set. *)
Lemma is_cycle_rotate (g : Graph) c :
  is_cycle g c → 0 < length g → ∃ c', is_cycle g c' ∧ c' !! 0 = Some 0.
Proof.
  intros Hcyc Hn. pose proof (is_cycle_length g c Hcyc) as Hlen.
  assert (0 ∈ c) as [p Hp]%list_elem_of_lookup
    by (by apply (is_cycle_elem g c)).
  assert (p < length g) as Hpn by (rewrite <-Hlen; by eapply lookup_lt_Some).
  exists (rotate p c). split; [split|].
  - destruct Hcyc as [Hperm _]. rewrite <-Hperm. unfold rotate.
    rewrite Permutation_app_comm. by rewrite take_drop.
  - intros k u Hk. apply lookup_rotate_r_Some in Hk as [Hk Hkn].
    rewrite Hlen in Hk, Hkn. rewrite rotate_nat_add_mod in Hk by done.
    destruct Hcyc as [_ Hnext].
    destruct (Hnext _ _ Hk) as (ux & e & Hu & Ha & Hd).
    exists ux, e. split_and!; [done..|].
    rewrite lookup_rotate_r, Hlen, rotate_nat_add_mod by
      (rewrite ?Hlen; try done; by apply Nat.mod_upper_bound, Nat.neq_0_lt_0).
    rewrite <-Hd. f_equal.
    rewrite Nat.Div0.add_mod_idemp_r.
    replace (S ((p + k) mod length g)) with ((p + k) mod length g + 1) by lia.
    rewrite Nat.Div0.add_mod_idemp_l. f_equal. lia.
  - rewrite lookup_rotate_r, Hlen, rotate_nat_add_mod by (rewrite ?Hlen; done).
    rewrite Nat.add_0_r, Nat.mod_small by done. done.
Qed.

Lemma ea_roots_visited fuel vs st :
  (∀ v, v ∈ vs → is_visited (ea_graph st) v) → ea_roots fuel vs st = Ok st.
Proof.
  induction vs as [|v rest IH]; intros Hall; [done|]. simpl.
  destruct (Hall v) as (vx & Hvx & Hvis); [by left|].
  rewrite (deref_lookup _ _ _ Hvx). simpl. rewrite Hvis.
  apply IH. intros v' Hv'. apply Hall. by right.
Qed.

Section cycle.
Variables (g0 : Graph) (c : list VertexPtr).
Hypothesis Hcyc : is_cycle g0 c.
Hypothesis Hc0 : c !! 0 = Some 0.

Lemma cyc_inj j j' u : c !! j = Some u → c !! j' = Some u → j = j'.
Proof. apply NoDup_lookup. by apply (is_cycle_NoDup g0). Qed.

Lemma cyc_pos j u : c !! j = Some u → j < length g0.
Proof.
  intros H. rewrite <-(is_cycle_length g0 c Hcyc). by eapply lookup_lt_Some.
Qed.

(** The only flight out of the k-th vertex goes to the next one. *)
Lemma cyc_next (g : Graph) k u :
  same_but_transient g0 g → c !! k = Some u →
  ∃ ux e, g !! u = Some ux ∧ adj ux = [e] ∧
          c !! (if decide (S k < length g0) then S k else 0) = Some (dest e).
Proof.
  intros Hs Hk. pose proof (cyc_pos k u Hk) as Hkn.
  destruct Hcyc as [_ Hnext].
  destruct (Hnext k u Hk) as (ux0 & e & Hu & Ha & Hd).
  destruct (lookup_lt_is_Some_2 g u) as [ux Hux].
  { rewrite <-(same_but_transient_length _ _ Hs). by eapply lookup_lt_Some. }
  destruct (same_but_transient_fields g0 g u ux0 ux Hs Hu Hux)
    as (_ & Hadj & _).
  exists ux, e. split_and!; [done|congruence|].
  rewrite <-Hd. f_equal. case_decide.
  - by rewrite Nat.mod_small.
  - replace (S k) with (length g0) by lia. by rewrite Nat.Div0.mod_same.
Qed.

(** The search from the k-th vertex of the cycle, [k ≥ 1], entered when the
    vertices before it are being processed and the others are fresh: it walks
    to the end of the cycle, meets the root, and leaves every vertex with
    low-link 0 and no articulation point recorded. *)
Lemma cyc_dfs_inner m :
  ∀ k u st fuel,
    k + m = length g0 → 1 ≤ k → 1 ≤ m → m ≤ fuel → c !! k = Some u →
    same_but_transient g0 (ea_graph st) →
    cyc_entered (ea_graph st) c k → cyc_fresh (ea_graph st) c k →
    ea_index st = Z.of_nat k →
    ∃ st', dfsEssentialAirports fuel u st = Ok st' ∧
           ea_res st' = ea_res st ∧
           (∀ j w, j < k → c !! j = Some w →
                   ea_graph st' !! w = ea_graph st !! w) ∧
           cyc_left (ea_graph st') c k.
Proof.
  induction m as [|m IH]; intros k u st fuel Hkm Hk Hm Hfuel Hu Hs Hent Hfresh Hidx;
    [lia|].
  destruct fuel as [|fuel]; [lia|].
  destruct (cyc_next _ k u Hs Hu) as (ux & e & Hux & Hadj & Hnext).
  destruct (Hfresh k u (Nat.le_refl k) Hu) as (ux' & Hux' & Hfr).
  rewrite Hux in Hux'. injection Hux' as <-.
  simpl. rewrite (deref_lookup _ _ _ Hux). simpl. rewrite Hadj, Hidx.
  set (vx1 := setLow (Z.of_nat k) (setNum (Z.of_nat k)
                (setProcessing true (setVisited true ux)))).
  set (g1 := <[u:=vx1]> (ea_graph st)).
  assert (g1 !! u = Some vx1) as Hu1.
  { apply list_lookup_insert_eq. by eapply lookup_lt_Some. }
  assert (∀ j w, j ≠ k → c !! j = Some w → g1 !! w = ea_graph st !! w) as Hother1.
  { intros j w Hj Hw. apply list_lookup_insert_ne. intros ->.
    apply Hj. by eapply cyc_inj. }
  assert (same_but_transient g0 g1) as Hs1.
  { eapply same_but_transient_trans; [exact Hs|].
    by apply (same_but_transient_insert _ u ux). }
  destruct (decide (S k < length g0)) as [Hlt|Hge].
  - (* the next vertex is fresh *)
    destruct (Hfresh (S k) (dest e)) as (dx & Hdx & Hdfr); [lia|done|].
    assert (g1 !! dest e = Some dx) as Hd1
      by (rewrite (Hother1 (S k)); [done|lia|done]).
    assert (dest e ≠ u) as Hne.
    { intros Heq. rewrite Heq in Hnext.
      pose proof (cyc_inj _ _ _ Hnext Hu). lia. }
    cbn [ea_flights ea_graph ea_stack ea_res ea_index].
    rewrite (deref_lookup _ _ _ Hd1). simpl. rewrite Hdfr. simpl.
    set (st1 := mkEa g1 _ _ _).
    destruct (IH (S k) (dest e) st1 fuel) as (st1' & H1 & Hres1 & Hkeep1 & Hleft1);
      [lia|lia|lia|lia|done|done| | |simpl; lia|].
    { intros j w Hj Hw. destruct (decide (j = k)) as [->|Hjk].
      - rewrite Hu in Hw. injection Hw as <-. by exists vx1.
      - simpl. rewrite (Hother1 j w Hjk Hw). apply (Hent j w); [lia|done]. }
    { intros j w Hj Hw. simpl. rewrite (Hother1 j w); [|lia|done].
      apply (Hfresh j w); [lia|done]. }
    rewrite H1. simpl.
    assert (ea_graph st1' !! u = Some vx1) as Hu1'.
    { rewrite (Hkeep1 k u); [done|lia|done]. }
    destruct (Hleft1 (S k) (dest e)) as (dx1 & Hdx1 & Hv1 & Hp1 & Hl1);
      [lia|done|].
    rewrite (deref_lookup _ _ _ Hu1'), (deref_lookup _ _ _ Hdx1). simpl.
    rewrite Hl1. replace (Z.min (Z.of_nat k) 0) with 0%Z by lia.
    set (g2 := <[u:=setLow 0 vx1]> (ea_graph st1')).
    assert (g2 !! u = Some (setLow 0 vx1)) as Hu2.
    { apply list_lookup_insert_eq. by eapply lookup_lt_Some. }
    assert (g2 !! dest e = Some dx1) as Hd2.
    { unfold g2. by rewrite list_lookup_insert_ne. }
    rewrite (deref_lookup _ _ _ Hu2), (deref_lookup _ _ _ Hd2). simpl.
    rewrite Hl1.
    replace (Z.of_nat k <=? 0)%Z with false by (symmetry; apply Z.leb_gt; lia).
    replace (Z.of_nat k =? 0)%Z with false by (symmetry; apply Z.eqb_neq; lia).
    simpl. rewrite (deref_lookup _ _ _ Hu2). simpl.
    eexists. split; [done|]. simpl. split_and!; [done| |].
    + intros j w Hj Hw.
      assert (w ≠ u) as Hwu.
      { intros ->. pose proof (cyc_inj _ _ _ Hw Hu). lia. }
      unfold g2. rewrite !list_lookup_insert_ne by done.
      rewrite (Hkeep1 j w); [|lia|done]. simpl. apply (Hother1 j); [lia|done].
    + intros j w Hj Hw. destruct (decide (j = k)) as [->|Hjk].
      * rewrite Hu in Hw. injection Hw as <-.
        exists (setProcessing false (setLow 0 vx1)). split; [|done].
        apply list_lookup_insert_eq. unfold g2. rewrite length_insert.
        by eapply lookup_lt_Some.
      * assert (w ≠ u) as Hwu.
        { intros ->. pose proof (cyc_inj _ _ _ Hw Hu). lia. }
        unfold g2. rewrite !list_lookup_insert_ne by done.
        apply (Hleft1 j w); [lia|done].
  - (* the next vertex is the root, which is being processed *)
    rewrite Hc0 in Hnext. injection Hnext as Hd0.
    destruct (Hent 0 0) as (dx & Hdx & Hdv & Hdp & Hdn); [lia|done|].
    assert (g1 !! 0 = Some dx) as Hd1
      by (rewrite (Hother1 0); [done|lia|done]).
    cbn [ea_flights ea_graph ea_stack ea_res ea_index].
    rewrite <-Hd0, (deref_lookup _ _ _ Hd1). simpl. rewrite Hdv, Hdp. simpl.
    rewrite (deref_lookup _ _ _ Hu1). simpl. rewrite Hdn.
    replace (Z.min (Z.of_nat k) (Z.of_nat 0)) with 0%Z by lia.
    set (g2 := <[u:=setLow 0 vx1]> g1).
    assert (g2 !! u = Some (setLow 0 vx1)) as Hu2.
    { apply list_lookup_insert_eq. by eapply lookup_lt_Some. }
    rewrite (deref_lookup _ _ _ Hu2). simpl.
    eexists. split; [done|]. simpl. split_and!; [done| |].
    + intros j w Hj Hw.
      assert (w ≠ u) as Hwu.
      { intros ->. pose proof (cyc_inj _ _ _ Hw Hu). lia. }
      unfold g2. rewrite !list_lookup_insert_ne by done.
      apply (Hother1 j); [lia|done].
    + intros j w Hj Hw. pose proof (cyc_pos j w Hw).
      assert (j = k) as -> by lia.
      rewrite Hu in Hw. injection Hw as <-.
      exists (setProcessing false (setLow 0 vx1)). split; [|done].
      apply list_lookup_insert_eq. unfold g2. rewrite length_insert.
      by eapply lookup_lt_Some.
Qed.

(** The search from the root, entered on the reset graph. *)
Lemma cyc_dfs_root st fuel :
  0 < length g0 → length g0 ≤ fuel →
  same_but_transient g0 (ea_graph st) → cyc_fresh (ea_graph st) c 0 →
  ea_index st = 0%Z →
  ∃ st', dfsEssentialAirports fuel 0 st = Ok st' ∧
         ea_res st' = ea_res st ∧ cyc_left (ea_graph st') c 0.
Proof.
  intros Hn Hfuel Hs Hfresh Hidx.
  destruct fuel as [|fuel]; [lia|].
  destruct (cyc_next _ 0 0 Hs Hc0) as (ux & e & Hux & Hadj & Hnext).
  destruct (Hfresh 0 0 (Nat.le_refl 0) Hc0) as (ux' & Hux' & Hfr).
  rewrite Hux in Hux'. injection Hux' as <-.
  simpl. rewrite (deref_lookup _ _ _ Hux). simpl. rewrite Hadj, Hidx.
  set (vx1 := setLow 0 (setNum 0 (setProcessing true (setVisited true ux)))).
  set (g1 := <[0:=vx1]> (ea_graph st)).
  assert (g1 !! 0 = Some vx1) as Hu1.
  { apply list_lookup_insert_eq. by eapply lookup_lt_Some. }
  assert (∀ j w, j ≠ 0 → c !! j = Some w → g1 !! w = ea_graph st !! w) as Hother1.
  { intros j w Hj Hw. apply list_lookup_insert_ne. intros <-.
    apply Hj. by eapply cyc_inj. }
  assert (same_but_transient g0 g1) as Hs1.
  { eapply same_but_transient_trans; [exact Hs|].
    by apply (same_but_transient_insert _ 0 ux). }
  cbn [ea_flights ea_graph ea_stack ea_res ea_index].
  destruct (decide (1 < length g0)) as [Hlt|Hge].
  - (* at least two vertices: the search walks round the cycle *)
    destruct (Hfresh 1 (dest e)) as (dx & Hdx & Hdfr); [lia|done|].
    assert (g1 !! dest e = Some dx) as Hd1
      by (rewrite (Hother1 1); [done|lia|done]).
    assert (dest e ≠ 0) as Hne.
    { intros Heq. rewrite Heq in Hnext.
      pose proof (cyc_inj _ _ _ Hnext Hc0). lia. }
    rewrite (deref_lookup _ _ _ Hd1). simpl. rewrite Hdfr. simpl.
    set (st1 := mkEa g1 _ _ _).
    destruct (cyc_dfs_inner (length g0 - 1) 1 (dest e) st1 fuel)
      as (st1' & H1 & Hres1 & Hkeep1 & Hleft1);
      [lia|lia|lia|lia|done|done| | |done|].
    { intros j w Hj Hw. assert (j = 0) as -> by lia.
      rewrite Hc0 in Hw. injection Hw as <-. by exists vx1. }
    { intros j w Hj Hw. simpl. rewrite (Hother1 j w); [|lia|done].
      apply (Hfresh j w); [lia|done]. }
    rewrite H1. simpl.
    assert (ea_graph st1' !! 0 = Some vx1) as Hu1'.
    { rewrite (Hkeep1 0 0); [done|lia|done]. }
    destruct (Hleft1 1 (dest e)) as (dx1 & Hdx1 & Hv1 & Hp1 & Hl1);
      [lia|done|].
    rewrite (deref_lookup _ _ _ Hu1'), (deref_lookup _ _ _ Hdx1). simpl.
    rewrite Hl1. simpl. change (Z.min 0 0) with 0%Z.
    set (g2 := <[0:=setLow 0 vx1]> (ea_graph st1')).
    assert (g2 !! 0 = Some (setLow 0 vx1)) as Hu2.
    { apply list_lookup_insert_eq. by eapply lookup_lt_Some. }
    assert (g2 !! dest e = Some dx1) as Hd2.
    { unfold g2. by rewrite list_lookup_insert_ne. }
    rewrite (deref_lookup _ _ _ Hu2), (deref_lookup _ _ _ Hd2). simpl.
    rewrite (deref_lookup _ _ _ Hu2). simpl.
    eexists. split; [done|]. simpl. split; [done|].
    intros j w Hj Hw. destruct (decide (j = 0)) as [->|Hj0].
    + rewrite Hc0 in Hw. injection Hw as <-.
      exists (setProcessing false (setLow 0 vx1)). split; [|done].
      apply list_lookup_insert_eq. unfold g2. rewrite length_insert.
      by eapply lookup_lt_Some.
    + assert (w ≠ 0) as Hw0.
      { intros ->. pose proof (cyc_inj _ _ _ Hw Hc0). lia. }
      unfold g2. rewrite !list_lookup_insert_ne by done.
      apply (Hleft1 j w); [lia|done].
  - (* a single vertex with a flight to itself *)
    rewrite Hc0 in Hnext. injection Hnext as Hd0.
    rewrite <-Hd0, (deref_lookup _ _ _ Hu1). simpl.
    change (Z.min 0 0) with 0%Z.
    set (g2 := <[0:=setLow 0 vx1]> g1).
    assert (g2 !! 0 = Some (setLow 0 vx1)) as Hu2.
    { apply list_lookup_insert_eq. by eapply lookup_lt_Some. }
    rewrite (deref_lookup _ _ _ Hu2). simpl.
    eexists. split; [done|]. simpl. split; [done|].
    intros j w Hj Hw. pose proof (cyc_pos j w Hw).
    assert (j = 0) as -> by lia.
    rewrite Hc0 in Hw. injection Hw as <-.
    exists (setProcessing false (setLow 0 vx1)). split; [|done].
    apply list_lookup_insert_eq. unfold g2. rewrite length_insert.
    by eapply lookup_lt_Some.
Qed.
End cycle.

(** C6.  On a graph that is a single directed cycle through all of its
    vertices (of any length, in particular three or more), the
    articulation-point query returns the empty set: the root has one
    depth-first child, and every other vertex is left with low-link 0, below
    its parent's discovery number. *)
Theorem searchEssentialAirports_cycle (g : Graph) (c : list VertexPtr) :
  is_cycle g c → ∃ g', searchEssentialAirports g = Ok (∅, g').
Proof.
  intros Hcyc. destruct (decide (0 < length g)) as [Hn|Hn].
  2:{ destruct g; [by eexists|simpl in Hn; lia]. }
  destruct (is_cycle_rotate g c Hcyc Hn) as (c' & Hcyc' & Hc0).
  unfold searchEssentialAirports.
  destruct (length g) as [|n'] eqn:Hlen; [lia|].
  rewrite <-cons_seq. cbn [ea_roots ea_graph].
  destruct (lookup_lt_is_Some_2 (resetVisited g) 0) as [vx Hvx].
  { rewrite length_resetVisited. lia. }
  assert (visited vx = false) as Hfr.
  { rewrite lookup_resetVisited in Hvx. destruct (g !! 0); by simplify_eq/=. }
  rewrite (bind_Ok_l _ _ vx (deref_lookup _ _ _ Hvx)), Hfr.
  destruct (cyc_dfs_root g c' Hcyc' Hc0 (mkEa (resetVisited g) [] ∅ 0%Z) (S n'))
    as (st' & H' & Hres & Hleft); [lia|lia| | |done|].
  { apply same_but_visited_transient, same_but_visited_reset. }
  { intros j w _ Hw. simpl.
    destruct (lookup_lt_is_Some_2 (resetVisited g) w) as [wx Hwx].
    { rewrite length_resetVisited. apply (is_cycle_elem g c' w Hcyc').
      by eapply list_elem_of_lookup_2. }
    exists wx. split; [done|].
    rewrite lookup_resetVisited in Hwx. destruct (g !! w); by simplify_eq/=. }
  rewrite (bind_Ok_l _ _ st' H'), ea_roots_visited.
  - simpl. rewrite Hres. by eexists.
  - intros v Hv%elem_of_seq.
    assert (v ∈ c') as [j Hj]%list_elem_of_lookup
      by (apply (is_cycle_elem g c' v Hcyc'); lia).
    destruct (Hleft j v) as (wx & Hwx & Hvis & _); [lia|done|]. by exists wx.
Qed.

Lemma searchEssentialAirports_cycle_witness :
  ∃ g', searchEssentialAirports g_cycle3 = Ok (∅, g').
Proof.
  apply (searchEssentialAirports_cycle g_cycle3 [0; 2; 1]). split.
  - simpl. constructor. apply perm_swap.
  - intros k u Hk. destruct k as [|[|[|k]]]; simplify_eq/=;
      eexists _, _; split_and!; reflexivity.
Defined.

(** * What the traversal queries leave behind (C9) *)

Lemma reachableDestinations_reset (g1 g2 : Graph) airport layOvers attr :
  same_but_visited g1 g2 →
  searchNumberOfReachableDestinationsInXStopsFromAirport g1 airport layOvers attr
  = searchNumberOfReachableDestinationsInXStopsFromAirport g2 airport layOvers
      attr.
Proof.
  intros H.
  unfold searchNumberOfReachableDestinationsInXStopsFromAirport,
    reachableDestinations.
  rewrite (same_but_visited_length g1 g2 H).
  unfold same_but_visited in H. by rewrite H.
Qed.

Lemma searchEssentialAirports_reset (g1 g2 : Graph) :
  same_but_visited g1 g2 →
  searchEssentialAirports g1 = searchEssentialAirports g2.
Proof.
  intros H. unfold searchEssentialAirports.
  rewrite (same_but_visited_length g1 g2 H).
  unfold same_but_visited in H. by rewrite H.
Qed.

(** C9, as the code has it.  On a well-formed graph each traversal query
    returns, and leaves the graph store as it found it: the vertex set, the
    payloads, the edges, the degrees and the flight counters are unchanged
    (only visited flags differ after the shortest-path and bounded-hop
    queries; visited and processing flags and the [num] and [low] labels
    after the articulation-point query).  Each query clears every visited flag
    at entry, so its outcome is the same on a graph [g2] that differs from [g]
    in stale visited flags.  No query clears the flags before returning: the
    start vertex is left visited, and after the articulation-point query every
    vertex is. *)
Theorem traversal_queries_frame (g g2 : Graph) (source target : VertexPtr)
    (layOvers : Z) (attributeExtractor : Vertex → string) :
  dests_valid g → source < length g → same_but_visited g g2 →
  (∃ paths g',
     searchSmallestPathBetweenAirports g source target = Ok (paths, g') ∧
     searchSmallestPathBetweenAirports g2 source target = Ok (paths, g') ∧
     same_but_visited g g' ∧ is_visited g' source) ∧
  (∃ n g',
     searchNumberOfReachableDestinationsInXStopsFromAirport
       g source layOvers attributeExtractor = Ok (n, g') ∧
     searchNumberOfReachableDestinationsInXStopsFromAirport
       g2 source layOvers attributeExtractor = Ok (n, g') ∧
     same_but_visited g g' ∧ is_visited g' source) ∧
  (∃ res g',
     searchEssentialAirports g = Ok (res, g') ∧
     searchEssentialAirports g2 = Ok (res, g') ∧
     same_but_transient g g' ∧ ∀ u, u < length g → is_visited g' u).
Proof.
  intros Hd Hs Hsame. split_and!.
  - destruct (searchSmallestPath_total g source target Hd Hs)
      as (paths & g' & H & Hframe).
    exists paths, g'. split_and!; [done| |done|].
    + by rewrite <-(searchSmallestPath_reset g g2).
    + by eapply searchSmallestPath_source_visited.
  - destruct (reachableDestinations_mono attributeExtractor layOvers layOvers
                (Z.le_refl _) g source Hd Hs)
      as (r & _ & g' & H & _ & _ & Hframe & Hvis).
    exists (static_cast_int (size r)), g'.
    assert (searchNumberOfReachableDestinationsInXStopsFromAirport
              g source layOvers attributeExtractor
            = Ok (static_cast_int (size r), g')) as Hq.
    { unfold searchNumberOfReachableDestinationsInXStopsFromAirport.
      by rewrite H. }
    split_and!; [done| |done..].
    by rewrite <-(reachableDestinations_reset g g2).
  - destruct (searchEssentialAirports_total g Hd) as (res & g' & H & Hframe & Hvis).
    exists res, g'. split_and!; [done| |done..].
    by rewrite <-(searchEssentialAirports_reset g g2).
Qed.

Lemma traversal_queries_frame_witness :
  (∃ paths g',
     searchSmallestPathBetweenAirports g_triangle 0 1 = Ok (paths, g') ∧
     searchSmallestPathBetweenAirports (setVisited true <$> g_triangle) 0 1
       = Ok (paths, g') ∧
     same_but_visited g_triangle g' ∧ is_visited g' 0) ∧
  (∃ n g',
     searchNumberOfReachableDestinationsInXStopsFromAirport
       g_triangle 0 1 extractCity = Ok (n, g') ∧
     searchNumberOfReachableDestinationsInXStopsFromAirport
       (setVisited true <$> g_triangle) 0 1 extractCity = Ok (n, g') ∧
     same_but_visited g_triangle g' ∧ is_visited g' 0) ∧
  (∃ res g',
     searchEssentialAirports g_triangle = Ok (res, g') ∧
     searchEssentialAirports (setVisited true <$> g_triangle) = Ok (res, g') ∧
     same_but_transient g_triangle g' ∧
     ∀ u, u < length g_triangle → is_visited g' u).
Proof.
  apply (traversal_queries_frame g_triangle (setVisited true <$> g_triangle)
           0 1 1 extractCity).
  - apply dests_valid_Forall. by_compute.
  - simpl. lia.
  - reflexivity.
Defined.

(** The claim as stated fails: the flags are not cleared before returning.
    After the shortest-path query from A to B on A → B → A the visited flag
    of A is still set. *)
Lemma visited_flags_not_cleared :
  ∃ paths g',
    searchSmallestPathBetweenAirports g_round_trip 0 1 = Ok (paths, g') ∧
    visited <$> g' = [true; false] ∧
    ¬ Forall (λ v, visited v = false) g'.
Proof.
  eexists _, _. split; [reflexivity|]. split; [reflexivity|]. by_compute.
Qed.

(** * Paths through custom layovers (C5) *)

Lemma mergeVectors_aligned (first second : Path) b c a :
  last first = Some b → runs_from_to b c second → head first = Some a →
  mergeVectors first second = first ++ tail second.
Proof.
  intros Hl [Hh _] _. unfold mergeVectors. rewrite Hl.
  destruct second as [|f rest]; [done|]. simpl in Hh. injection Hh as ->.
  by rewrite decide_True.
Qed.

(** Misaligned or empty arguments give the empty vector. *)
Lemma mergeVectors_misaligned (first second : Path) :
  last first ≠ head second ∨ first = [] ∨ second = [] →
  mergeVectors first second = [].
Proof.
  unfold mergeVectors. intros H.
  destruct (last first) as [b|] eqn:Hl; [|done].
  destruct second as [|f rest]; [done|].
  destruct (decide (b = f)) as [->|]; [|done].
  destruct H as [H|[->|H]]; done.
Qed.

Lemma elem_of_mergeAll (temp segs : list Path) p :
  p ∈ mergeAll temp segs ↔
  ∃ a b, a ∈ temp ∧ b ∈ segs ∧ p = mergeVectors a b.
Proof.
  unfold mergeAll. rewrite list_elem_of_bind. split.
  - intros (a & Hp & Ha). apply list_elem_of_bind in Hp as (b & Hp & Hb).
    apply list_elem_of_singleton in Hp. by exists a, b.
  - intros (a & b & Ha & Hb & ->). exists a. split; [|done].
    apply list_elem_of_bind. exists b. split; [|done]. by left.
Qed.

Lemma chain_runs ws p :
  chain ws p → ∃ a b, head ws = Some a ∧ last ws = Some b ∧ runs_from_to a b p.
Proof.
  induction 1 as [a b p Hp|ws b c p seg Hc IH Hl [Hh Hls]].
  - by exists a, b.
  - destruct IH as (a & b' & Hhw & Hlw & Hhp & Hlp).
    exists a, c. split; [|split; [|split]].
    + destruct ws; [done|]. done.
    + by rewrite last_snoc.
    + destruct p; [done|]. exact Hhp.
    + destruct seg as [|x seg]; [done|]. simpl.
      destruct seg as [|y seg].
      * rewrite app_nil_r. simpl in Hh, Hls. congruence.
      * rewrite last_cons_cons in Hls. by rewrite last_app, Hls.
Qed.

Lemma mergeAll_chain ws b c (temp segs : list Path) :
  (∀ p, p ∈ temp → chain ws p) → last ws = Some b →
  (∀ s, s ∈ segs → runs_from_to b c s) →
  ∀ p, p ∈ mergeAll temp segs → chain (ws ++ [c]) p.
Proof.
  intros Htemp Hl Hsegs p (a & s & Ha & Hs & ->)%elem_of_mergeAll.
  destruct (chain_runs ws a (Htemp a Ha)) as (x & b' & Hx & Hb' & Hha & Hla).
  assert (b' = b) as -> by congruence.
  rewrite (mergeVectors_aligned a s b c x); [|done|by apply Hsegs|done].
  eapply chain_extend; [by apply Htemp|done|by apply Hsegs].
Qed.

Lemma searchSmallestPath_runs (g g' : Graph) source target paths :
  searchSmallestPathBetweenAirports g source target = Ok (paths, g') →
  ∀ p, p ∈ paths → runs_from_to source target p.
Proof.
  intros H p Hp.
  destruct (searchSmallestPath_endpoints _ _ _ _ _ H p Hp) as (? & ? & _).
  by split.
Qed.

(** The loop over the pairs of consecutive layovers. *)
Lemma cl_segments_chain rest :
  ∀ (g : Graph) temp ws a,
    dests_valid g → (∀ v, v ∈ a :: rest → v < length g) →
    last ws = Some a → (∀ p, p ∈ temp → chain ws p) →
    ∃ temp' g', cl_segments g temp (a :: rest) = Ok (temp', g') ∧
                same_but_visited g g' ∧
                ∀ p, p ∈ temp' → chain (ws ++ rest) p.
Proof.
  induction rest as [|b rest IH]; intros g temp ws a Hd Hv Hl Htemp.
  { exists temp, g. rewrite app_nil_r. by split_and!. }
  destruct (searchSmallestPath_total g a b Hd) as (segs & g1 & H1 & Hs1).
  { apply Hv. by left. }
  destruct (IH g1 (mergeAll temp segs) (ws ++ [b]) b)
    as (temp' & g' & H' & Hs' & Hchain).
  - by eapply same_but_visited_dests_valid.
  - intros v Hin. rewrite <-(same_but_visited_length _ _ Hs1).
    apply Hv. by right.
  - by rewrite last_snoc.
  - apply (mergeAll_chain ws a b); [done..|].
    by eapply searchSmallestPath_runs.
  - exists temp', g'. simpl. rewrite H1. simpl. split_and!; [done| |].
    + by eapply same_but_visited_trans.
    + intros p Hp. rewrite (cons_middle b), app_assoc. by apply Hchain.
Qed.

Lemma customLayoverPaths_chain (g : Graph) customLayovers sourceAirport
    destinationAirport :
  dests_valid g → sourceAirport < length g →
  (∀ v, v ∈ customLayovers → v < length g) → customLayovers ≠ [] →
  ∃ paths g',
    customLayoverPaths g customLayovers sourceAirport destinationAirport
    = Ok (paths, g') ∧
    same_but_visited g g' ∧
    ∀ p, p ∈ paths →
      chain (sourceAirport :: customLayovers ++ [destinationAirport]) p.
Proof.
  intros Hd Hs Hv Hne. unfold customLayoverPaths.
  destruct customLayovers as [|l0 rest]; [done|].
  destruct (last (l0 :: rest)) as [back|] eqn:Hback;
    [|by apply last_None in Hback].
  destruct (searchSmallestPath_total g sourceAirport l0 Hd Hs)
    as (temp & g1 & H1 & Hs1).
  rewrite (bind_Ok_l _ _ _ H1). cbv beta iota.
  destruct (cl_segments_chain rest g1 temp [sourceAirport; l0] l0)
    as (temp' & g2 & H2 & Hs2 & Hchain).
  - by eapply same_but_visited_dests_valid.
  - intros v Hin. rewrite <-(same_but_visited_length _ _ Hs1). by apply Hv.
  - done.
  - intros p Hp. apply chain_segment. by eapply searchSmallestPath_runs.
  - rewrite (bind_Ok_l _ _ _ H2). cbv beta iota.
    assert (same_but_visited g g2) as Hs02
      by (by eapply same_but_visited_trans).
    destruct (searchSmallestPath_total g2 back destinationAirport)
      as (temp2 & g3 & H3 & Hs3).
    + by eapply same_but_visited_dests_valid.
    + rewrite <-(same_but_visited_length _ _ Hs02). apply Hv.
      by apply last_Some_elem_of.
    + rewrite (bind_Ok_l _ _ _ H3). cbv beta iota.
      exists (mergeAll temp' temp2), g3.
      split_and!; [done|by eapply same_but_visited_trans|].
      intros p Hp.
      change (sourceAirport :: (l0 :: rest) ++ [destinationAirport])
        with (([sourceAirport; l0] ++ rest) ++ [destinationAirport]).
      apply (mergeAll_chain _ back destinationAirport temp' temp2);
        [done| |by eapply searchSmallestPath_runs|done].
      change ([sourceAirport; l0] ++ rest)
        with (sourceAirport :: l0 :: rest).
      by rewrite last_cons, Hback.
Qed.

(** ** The nodes of the returned paths are vertices of the graph *)

Lemma sp_flight_nodes_below n target e st st2 :
  dest e < n → nodes_below n (sp_first st) →
  (∀ x, x ∈ sp_queue st → nodes_below n x.1) →
  (∀ p, p ∈ sp_paths st → nodes_below n p) →
  sp_flight target e st = Ok st2 →
  nodes_below n (sp_first st2) ∧
  (∀ x, x ∈ sp_queue st2 → nodes_below n x.1) ∧
  (∀ p, p ∈ sp_paths st2 → nodes_below n p).
Proof.
  intros He Hf Hq Hp H. unfold sp_flight in H.
  assert (nodes_below n (sp_first st ++ [dest e])) as Hnew.
  { apply Forall_app. split; [done|]. by apply Forall_singleton. }
  destruct (decide (dest e = target)) as [Ht|Ht].
  - repeat case_match; simplify_eq/=; (split; [done|]); (split; [done|]).
    + by intros p ->%list_elem_of_singleton.
    + intros p [Hin| ->%list_elem_of_singleton]%elem_of_app; [by apply Hp|done].
    + done.
  - apply bind_Ok in H as (nx & Hnx & H).
    destruct (visited nx); simplify_eq/=; [done|].
    split; [done|]. split; [|done].
    intros x [Hin| ->%list_elem_of_singleton]%elem_of_app; [by apply Hq|done].
Qed.

Lemma searchSmallestPath_nodes_below (g g' : Graph) source target paths :
  dests_valid g →
  searchSmallestPathBetweenAirports g source target = Ok (paths, g') →
  ∀ p, p ∈ paths → nodes_below (length g) p.
Proof.
  unfold searchSmallestPathBetweenAirports. intros Hd H.
  apply bind_Ok in H as (sx & Hsx%deref_Ok & H).
  assert (source < length g) as Hsrc.
  { apply lookup_lt_Some in Hsx. unfold resetVisited in Hsx.
    by rewrite length_fmap in Hsx. }
  pose (inv := λ (g1 : Graph) (q : list (Path * VertexPtr)) (ps : list Path),
          same_but_visited g g1 ∧
          (∀ x, x ∈ q → nodes_below (length g) x.1) ∧
          (∀ p, p ∈ ps → nodes_below (length g) p)).
  assert (∃ size' : Z, inv g' [] paths) as [_ (_ & _ & ?)]; [|done].
  eapply (sp_loop_invariant (λ g1 q ps _, inv g1 q ps) target); [| |exact H].
  - intros g0 c q p s cx st (Hs & Hq & Hp) Hcx Hst.
    assert (same_but_visited g (sp_graph st) ∧
            nodes_below (length g) (sp_first st) ∧
            (∀ x, x ∈ sp_queue st → nodes_below (length g) x.1) ∧
            (∀ p, p ∈ sp_paths st → nodes_below (length g) p))
      as (? & _ & ? & ?); [|by split_and!].
    apply (sp_flights_invariant
             (λ _ st1, same_but_visited g (sp_graph st1) ∧
                       nodes_below (length g) (sp_first st1) ∧
                       (∀ x, x ∈ sp_queue st1 → nodes_below (length g) x.1) ∧
                       (∀ p, p ∈ sp_paths st1 → nodes_below (length g) p))
             target (adj cx))
      with (flights := adj cx) (done_ := []) (st := mkSp g0 q c.1 p s);
      [|done| |exact Hst].
    + intros d e r st1 st2 Hall (HS & HF & HQ & HP) Hstep.
      split; [eapply same_but_visited_trans; [exact HS|];
              by eapply sp_flight_frame|].
      eapply (sp_flight_nodes_below _ target e st1); [|done..].
      rewrite (same_but_visited_length _ _ Hs).
      apply (same_but_visited_dests_valid _ _ Hs Hd (c.2) cx e Hcx).
      rewrite Hall. apply elem_of_app. right. by left.
    + simpl. split_and!; [done| |intros x Hx; apply Hq; by right|done].
      apply Hq. by left.
  - split_and!.
    + eapply same_but_visited_trans; [apply same_but_visited_reset|].
      by apply same_but_visited_insert.
    + intros x ->%list_elem_of_singleton. by apply Forall_singleton.
    + by intros p ?%elem_of_nil.
Qed.

Lemma mergeVectors_nodes_below n (first second : Path) :
  nodes_below n first → nodes_below n second →
  nodes_below n (mergeVectors first second).
Proof.
  intros Hf Hs. unfold mergeVectors.
  destruct (last first); [|by apply Forall_nil].
  destruct second as [|f rest]; [by apply Forall_nil|].
  case_decide; [|by apply Forall_nil].
  apply Forall_app. split; [done|]. by eapply Forall_cons_1.
Qed.

Lemma mergeAll_nodes_below n (temp segs : list Path) :
  (∀ p, p ∈ temp → nodes_below n p) → (∀ s, s ∈ segs → nodes_below n s) →
  ∀ p, p ∈ mergeAll temp segs → nodes_below n p.
Proof.
  intros Ht Hs p (a & b & Ha & Hb & ->)%elem_of_mergeAll.
  apply mergeVectors_nodes_below; [by apply Ht|by apply Hs].
Qed.

Lemma cl_segments_nodes_below customLayovers :
  ∀ (g g' : Graph) temp temp',
    dests_valid g → (∀ p, p ∈ temp → nodes_below (length g) p) →
    cl_segments g temp customLayovers = Ok (temp', g') →
    same_but_visited g g' ∧ ∀ p, p ∈ temp' → nodes_below (length g) p.
Proof.
  induction customLayovers as [|a rest IH]; intros g g' temp temp' Hd Ht H.
  { by injection H as <- <-. }
  destruct rest as [|b rest]; [by injection H as <- <-|].
  simpl in H. apply bind_Ok in H as ([segs g1] & H1 & H).
  pose proof (searchSmallestPath_frame _ _ _ _ _ H1) as Hs1.
  rewrite (same_but_visited_length _ _ Hs1).
  destruct (IH g1 g' (mergeAll temp segs) temp') as [Hs Hp]; [| |exact H|].
  - by eapply same_but_visited_dests_valid.
  - rewrite <-(same_but_visited_length _ _ Hs1).
    apply mergeAll_nodes_below; [done|].
    by eapply searchSmallestPath_nodes_below.
  - split; [by eapply same_but_visited_trans|done].
Qed.

Lemma customLayoverPaths_nodes_below (g g' : Graph) customLayovers
    sourceAirport destinationAirport paths :
  dests_valid g →
  customLayoverPaths g customLayovers sourceAirport destinationAirport
  = Ok (paths, g') →
  ∀ p, p ∈ paths → nodes_below (length g) p.
Proof.
  intros Hd H. unfold customLayoverPaths in H.
  destruct customLayovers as [|l0 rest]; [done|].
  destruct (last (l0 :: rest)) as [back|]; [|done].
  apply bind_Ok in H as ([temp g1] & H1 & H).
  apply bind_Ok in H as ([temp' g2] & H2 & H).
  apply bind_Ok in H as ([temp2 g3] & H3 & H).
  injection H as <- <-.
  pose proof (searchSmallestPath_frame _ _ _ _ _ H1) as Hs1.
  assert (dests_valid g1) as Hd1 by by eapply same_but_visited_dests_valid.
  destruct (cl_segments_nodes_below _ _ _ _ _ Hd1
              (λ p Hp, eq_ind _ (λ n, nodes_below n p)
                 (searchSmallestPath_nodes_below _ _ _ _ _ Hd H1 p Hp) _
                 (same_but_visited_length _ _ Hs1)) H2) as [Hs2 Hp2].
  assert (dests_valid g2) as Hd2 by by eapply same_but_visited_dests_valid.
  apply mergeAll_nodes_below.
  - intros p Hp. rewrite (same_but_visited_length _ _ Hs1). by apply Hp2.
  - intros p Hp. rewrite (same_but_visited_length _ _ Hs1),
      (same_but_visited_length _ _ Hs2).
    by eapply searchSmallestPath_nodes_below.
Qed.

(** ** Evaluating the candidates *)

Lemma distance_scan_total (g : Graph) target flights :
  target < length g → (∀ e, e ∈ flights → dest e < length g) →
  ∃ d, distance_scan g target flights = Ok d.
Proof.
  intros Ht. destruct (lookup_lt_is_Some_2 g target Ht) as [tx Htx].
  induction flights as [|e rest IH]; intros H; [by eexists|].
  destruct (lookup_lt_is_Some_2 g (dest e)) as [dx Hdx]; [apply H; by left|].
  simpl. rewrite (deref_lookup _ _ _ Hdx), (deref_lookup _ _ _ Htx). simpl.
  destruct (Airport_eqb _ _); [by eexists|].
  apply IH. intros e' He'. apply H. by right.
Qed.

Lemma getDistanceBetweenAirports_total (g : Graph) source target :
  dests_valid g → source < length g → target < length g →
  ∃ d, getDistanceBetweenAirports g source target = Ok d.
Proof.
  intros Hd Hs Ht. destruct (lookup_lt_is_Some_2 g source Hs) as [sx Hsx].
  unfold getDistanceBetweenAirports. rewrite (deref_lookup _ _ _ Hsx). simpl.
  apply distance_scan_total; [done|]. intros e He. by eapply Hd.
Qed.

Lemma pathDistance_total (g : Graph) v :
  dests_valid g → v ≠ [] → nodes_below (length g) v →
  ∀ distance_, ∃ d, pathDistance g v distance_ = Ok d.
Proof.
  intros Hd. induction v as [|a rest IH]; intros Hne Hv acc; [done|].
  destruct rest as [|b rest]; [by eexists|].
  apply Forall_cons in Hv as [Ha Hv].
  pose proof Hv as [Hb _]%Forall_cons.
  destruct (getDistanceBetweenAirports_total g a b) as [d Hdist]; [done..|].
  change (pathDistance g (a :: b :: rest) acc)
    with (d ← getDistanceBetweenAirports g a b;
          pathDistance g (b :: rest) (acc + d)%float).
  rewrite Hdist. simpl. by apply IH.
Qed.

Lemma cl_evaluate_total (R : Path → Prop) (g : Graph) paths :
  dests_valid g →
  (∀ p, p ∈ paths → p ≠ [] ∧ nodes_below (length g) p ∧ R p) →
  ∀ totalPaths minLayOvers,
    (∀ t, t ∈ totalPaths → R t.2.1) →
    ∃ totalPaths' minLayOvers',
      cl_evaluate g paths totalPaths minLayOvers
      = Ok (totalPaths', minLayOvers') ∧
      ∀ t, t ∈ totalPaths' → R t.2.1.
Proof.
  intros Hd. induction paths as [|v rest IH]; intros Hp total m Ht.
  { by exists total, m. }
  destruct (Hp v) as (Hne & Hv & HR); [by left|].
  assert (∀ p, p ∈ rest → p ≠ [] ∧ nodes_below (length g) p ∧ R p) as Hrest.
  { intros p Hin. apply Hp. by right. }
  destruct (pathDistance_total g v Hd Hne Hv 0%float) as [d Hdist].
  simpl. rewrite Hdist.
  destruct (_ <? _)%Z; destruct (_ =? _)%Z; simpl;
    apply IH; try done.
  - by intros t ->%list_elem_of_singleton.
  - by intros t ?%elem_of_nil.
  - intros t [Hin| ->%list_elem_of_singleton]%elem_of_app; [by apply Ht|done].
Qed.

Lemma chain_endpoints s customLayovers d p :
  chain (s :: customLayovers ++ [d]) p → head p = Some s ∧ last p = Some d.
Proof.
  intros (a & b & Ha & Hb & Hh & Hl)%chain_runs.
  rewrite app_comm_cons, last_snoc in Hb. simpl in Ha. by simplify_eq.
Qed.

Section custom_layovers.
Variables customLayovers source destination : list VertexPtr.
Hypothesis Hlayovers : customLayovers ≠ [].

Lemma cl_destinations_total sourceAirport dests :
  sourceAirport ∈ source → (∀ d, d ∈ dests → d ∈ destination) →
  ∀ (g : Graph) totalPaths minLayOvers,
    dests_valid g → sourceAirport < length g →
    (∀ v, v ∈ customLayovers → v < length g) →
    (∀ t, t ∈ totalPaths →
          through_layovers customLayovers source destination t.2.1) →
    ∃ totalPaths' minLayOvers' g',
      cl_destinations g customLayovers sourceAirport dests totalPaths
                      minLayOvers
      = Ok (totalPaths', minLayOvers', g') ∧
      same_but_visited g g' ∧
      ∀ t, t ∈ totalPaths' →
           through_layovers customLayovers source destination t.2.1.
Proof.
  intros Hsrc. induction dests as [|d rest IH];
    intros Hdests g total m Hd Hs Hv Ht.
  { by exists total, m, g. }
  destruct (customLayoverPaths_chain g customLayovers sourceAirport d)
    as (paths & g1 & H1 & Hs1 & Hchain); [done..|].
  pose proof (customLayoverPaths_nodes_below _ _ _ _ _ _ Hd H1) as Hnodes.
  assert (dests_valid g1) as Hd1 by by eapply same_but_visited_dests_valid.
  destruct (cl_evaluate_total
              (through_layovers customLayovers source destination) g1 paths Hd1)
    with (totalPaths := total) (minLayOvers := m)
    as (total1 & m1 & H2 & Ht1); [|done|].
  { intros p Hp.
    destruct (chain_endpoints _ _ _ _ (Hchain p Hp)) as [Hh Hl].
    split_and!.
    - by intros ->.
    - rewrite <-(same_but_visited_length _ _ Hs1). by apply Hnodes.
    - exists sourceAirport, d. split_and!; [done|apply Hdests; by left| |done..].
      by apply Hchain. }
  destruct (IH (λ d' Hd', Hdests d' (list_elem_of_further _ _ _ Hd'))
              g1 total1 m1) as (total' & m' & g' & H3 & Hs3 & Ht');
    [done|by rewrite <-(same_but_visited_length _ _ Hs1)| |done|].
  { intros v Hin. rewrite <-(same_but_visited_length _ _ Hs1). by apply Hv. }
  exists total', m', g'. simpl.
  rewrite (bind_Ok_l _ _ _ H1). cbv beta iota.
  rewrite (bind_Ok_l _ _ _ H2). cbv beta iota.
  split_and!; [done|by eapply same_but_visited_trans|done].
Qed.

Lemma cl_sources_total sources :
  (∀ s, s ∈ sources → s ∈ source) →
  ∀ (g : Graph) totalPaths minLayOvers,
    dests_valid g → (∀ s, s ∈ sources → s < length g) →
    (∀ v, v ∈ customLayovers → v < length g) →
    (∀ t, t ∈ totalPaths →
          through_layovers customLayovers source destination t.2.1) →
    ∃ totalPaths' minLayOvers' g',
      cl_sources g customLayovers sources destination totalPaths minLayOvers
      = Ok (totalPaths', minLayOvers', g') ∧
      same_but_visited g g' ∧
      ∀ t, t ∈ totalPaths' →
           through_layovers customLayovers source destination t.2.1.
Proof.
  induction sources as [|s rest IH]; intros Hsub g total m Hd Hs Hv Ht.
  { by exists total, m, g. }
  destruct (cl_destinations_total s destination) with (g := g)
    (totalPaths := total) (minLayOvers := m)
    as (total1 & m1 & g1 & H1 & Hs1 & Ht1);
    [apply Hsub; by left|done|done|apply Hs; by left|done..|].
  destruct (IH (λ s' Hs', Hsub s' (list_elem_of_further _ _ _ Hs'))
              g1 total1 m1) as (total' & m' & g' & H2 & Hs2 & Ht');
    [by eapply same_but_visited_dests_valid| | |done|].
  { intros s' Hin. rewrite <-(same_but_visited_length _ _ Hs1).
    apply Hs. by right. }
  { intros v Hin. rewrite <-(same_but_visited_length _ _ Hs1). by apply Hv. }
  exists total', m', g'. simpl.
  rewrite (bind_Ok_l _ _ _ H1). cbv beta iota.
  split_and!; [done|by eapply same_but_visited_trans|done].
Qed.
End custom_layovers.

(** C5.  In the custom-layover queries every candidate is a non-empty
    concatenation of aligned segments.  Every segment handed to
    [mergeVectors] comes from [searchSmallestPathBetweenAirports], whose
    paths start at its source and end at its target, so each composition
    passes the alignment check and no candidate that fails it is in the
    candidate set.  On a well-formed graph, with the source airports and
    the layovers among its vertices and at least one layover, the candidate
    vector of every pair of endpoints is computed and each candidate is a
    chain of segments through the layovers, from the source airport to the
    destination airport (so it is not empty); and the whole query returns,
    changes visited flags only, and every trip it returns is such a chain
    between one of the sources and one of the destinations. *)
Theorem customLayovers_aligned_candidates (g : Graph)
    (customLayovers source destination : list VertexPtr) :
  dests_valid g → customLayovers ≠ [] →
  (∀ v, v ∈ customLayovers → v < length g) →
  (∀ s, s ∈ source → s < length g) →
  (∀ s d, s ∈ source →
     ∃ paths g',
       customLayoverPaths g customLayovers s d = Ok (paths, g') ∧
       ∀ p, p ∈ paths →
         chain (s :: customLayovers ++ [d]) p ∧
         head p = Some s ∧ last p = Some d) ∧
  ∃ totalPaths g',
    getBestPathsAllAirlinesWithCustomLayovers g customLayovers source
                                              destination
    = Ok (totalPaths, g') ∧
    same_but_visited g g' ∧
    ∀ t, t ∈ totalPaths →
         through_layovers customLayovers source destination t.2.1.
Proof.
  intros Hd Hne Hv Hs. split.
  - intros s d Hin.
    destruct (customLayoverPaths_chain g customLayovers s d)
      as (paths & g' & H & _ & Hchain); [done|by apply Hs|done..|].
    exists paths, g'. split; [done|]. intros p Hp. split; [by apply Hchain|].
    eapply chain_endpoints. by apply Hchain.
  - destruct (cl_sources_total customLayovers source destination Hne source)
      with (g := g) (totalPaths := @nil Trip) (minLayOvers := INT_MAX)
      as (total & m & g' & H & Hframe & Ht); [done..| |].
    { by intros t ?%elem_of_nil. }
    exists total, g'. unfold getBestPathsAllAirlinesWithCustomLayovers.
    rewrite (bind_Ok_l _ _ _ H). by cbv beta iota.
Qed.

Lemma customLayovers_aligned_candidates_witness :
  (∀ s d, s ∈ [0] →
     ∃ paths g',
       customLayoverPaths g_triangle [2] s d = Ok (paths, g') ∧
       ∀ p, p ∈ paths →
         chain (s :: [2] ++ [d]) p ∧ head p = Some s ∧ last p = Some d) ∧
  ∃ totalPaths g',
    getBestPathsAllAirlinesWithCustomLayovers g_triangle [2] [0] [1]
    = Ok (totalPaths, g') ∧
    same_but_visited g_triangle g' ∧
    ∀ t, t ∈ totalPaths → through_layovers [2] [0] [1] t.2.1.
Proof.
  apply (customLayovers_aligned_candidates g_triangle [2] [0] [1]).
  - apply dests_valid_Forall. by_compute.
  - done.
  - intros v ->%list_elem_of_singleton. simpl; lia.
  - intros v ->%list_elem_of_singleton. simpl; lia.
Defined.

(** * Building and editing the graph *)

Lemma bind_ret_Ok {A B} (a : A) (f : A → outcome B) : Ok a ≫= f = f a.
Proof. done. Qed.

(** ** [int] additions *)

Lemma wrap_int_range (z : Z) : int_range (wrap_int z).
Proof.
  unfold int_range, wrap_int, INT_MAX.
  pose proof (Z.mod_pos_bound (z + 2 ^ 31) (2 ^ 32) eq_refl). lia.
Qed.

Lemma wrap_int_small (z : Z) : int_range z → wrap_int z = z.
Proof.
  unfold int_range, wrap_int, INT_MAX. intros H. rewrite Z.mod_small; lia.
Qed.

Lemma wrap_int_add_l (a b : Z) : wrap_int (wrap_int a + b) = wrap_int (a + b).
Proof.
  unfold wrap_int. f_equal.
  replace ((a + 2 ^ 31) mod 2 ^ 32 - 2 ^ 31 + b + 2 ^ 31)%Z
    with ((a + 2 ^ 31) mod 2 ^ 32 + b)%Z by lia.
  rewrite Zplus_mod_idemp_l. f_equal. lia.
Qed.

Lemma wrap_int_add_r (a b : Z) : wrap_int (a + wrap_int b) = wrap_int (a + b).
Proof. by rewrite Z.add_comm, wrap_int_add_l, Z.add_comm. Qed.

(** [findVertex] looks at the payloads only. *)
Lemma findVertex_infos (g g' : Graph) a :
  info <$> g = info <$> g' → findVertex g a = findVertex g' a.
Proof.
  intros H. unfold findVertex.
  assert (∀ h : Graph,
            fst <$> list_find (λ v, Airport_eqb (info v) a = true) h
            = fst <$> list_find (λ i, Airport_eqb i a = true) (info <$> h)) as E.
  { intros h. rewrite list_find_fmap.
    by destruct (list_find _ h) as [[]|]. }
  by rewrite !E, H.
Qed.

Lemma findVertex_lt (g : Graph) a i : findVertex g a = Some i → i < length g.
Proof.
  intros (v & Hv & _)%findVertex_Some. by eapply lookup_lt_Some.
Qed.

Lemma findVertex_app_old (g : Graph) v a i :
  findVertex g a = Some i → findVertex (g ++ [v]) a = Some i.
Proof.
  unfold findVertex. intros ([j x] & H & ?)%fmap_Some. simplify_eq/=.
  by rewrite (list_find_app_l _ _ _ _ _ H).
Qed.

Lemma findVertex_app_new (g : Graph) v a :
  findVertex g a = None →
  findVertex (g ++ [v]) a
  = if Airport_eqb (info v) a then Some (length g) else None.
Proof.
  unfold findVertex. intros H%fmap_None.
  rewrite (list_find_app_r _ _ _ H).
  destruct (Airport_eqb (info v) a) eqn:E; cbn [list_find].
  - by rewrite decide_True.
  - rewrite decide_False; [done|]. by rewrite E.
Qed.

Lemma unique_codes_snoc (g : Graph) v :
  unique_codes g → findVertex g (info v) = None → unique_codes (g ++ [v]).
Proof.
  intros Hu Hn i j vi vj Hi Hj Hc.
  rewrite findVertex_None in Hn.
  apply lookup_app_Some in Hi as [Hi|[Hli Hi]];
    apply lookup_app_Some in Hj as [Hj|[Hlj Hj]].
  - by eapply Hu.
  - apply list_lookup_singleton_Some in Hj as [Hj ->].
    destruct (Hn vi); [by eapply list_elem_of_lookup_2|done].
  - apply list_lookup_singleton_Some in Hi as [Hi ->].
    destruct (Hn vj); [by eapply list_elem_of_lookup_2|done].
  - apply list_lookup_singleton_Some in Hi as [Hi _].
    apply list_lookup_singleton_Some in Hj as [Hj _]. lia.
Qed.

Lemma dests_valid_snoc (g : Graph) v :
  dests_valid g → adj v = [] → dests_valid (g ++ [v]).
Proof.
  intros Hd Hv u ux e Hu He. rewrite length_app. simpl.
  apply lookup_app_Some in Hu as [Hu|[_ Hu]].
  - pose proof (Hd u ux e Hu He). lia.
  - apply list_lookup_singleton_Some in Hu as [_ ->].
    rewrite Hv in He. by apply elem_of_nil in He.
Qed.

Lemma addVertex_facts (g : Graph) (in_ : Airport) (junk : Vertex) :
  let r := addVertex g in_ junk in
  (∃ i v, findVertex r.2 in_ = Some i ∧ r.2 !! i = Some v ∧
          code (info v) = code in_) ∧
  (r.1 = true ↔ findVertex g in_ = None) ∧
  (r.1 = false → r.2 = g) ∧
  (r.1 = true →
     findVertex r.2 in_ = Some (length g) ∧
     ∃ v, r.2 = g ++ [v] ∧ info v = in_ ∧ adj v = [] ∧
          flightsTo v = 0%Z ∧ flightsFrom v = 0%Z) ∧
  (∀ a i, findVertex g a = Some i → findVertex r.2 a = Some i) ∧
  (∀ i v, g !! i = Some v → r.2 !! i = Some v) ∧
  (well_formed g → well_formed r.2).
Proof.
  unfold addVertex. destruct (findVertex g in_) as [i|] eqn:Hf; simpl.
  - destruct (findVertex_Some _ _ _ Hf) as (v & Hv & Hc & _).
    split_and!; try done. by exists i, v.
  - assert (findVertex (g ++ [Vertex_new in_ junk]) in_ = Some (length g))
      as Hnew.
    { rewrite findVertex_app_new by done. simpl.
      by rewrite (proj2 (Airport_eqb_true _ _)). }
    split_and!; try done.
    + exists (length g), (Vertex_new in_ junk). split_and!; [done| |done].
      by rewrite lookup_app_r, Nat.sub_diag.
    + intros _. split; [done|]. by eexists.
    + intros a i Ha. by apply findVertex_app_old.
    + intros i v Hv. by apply lookup_app_l_Some.
    + intros (Hu & Hd & Ho). split_and!.
      * by apply unique_codes_snoc.
      * by apply dests_valid_snoc.
      * intros u ux Hu'. apply lookup_app_Some in Hu' as [Hu'|[_ Hu']].
        -- by eapply Ho.
        -- apply list_lookup_singleton_Some in Hu' as [_ <-]. simpl.
           apply NoDup_nil_2.
Qed.

(** X1.  [addVertex] and [findVertex]: after the call the airport is found,
    whether it was added or was there already; it is added (at the end, with
    no flight and both flight counters at zero) exactly when it was not found
    before, and otherwise the graph is left as it was.  Pointers handed out
    earlier keep designating the same vertices, and the graph stays
    well formed. *)
Theorem addVertex_findVertex (g : Graph) (in_ : Airport) (junk : Vertex) :
  let r := addVertex g in_ junk in
  (∃ i v, findVertex r.2 in_ = Some i ∧ r.2 !! i = Some v ∧
          code (info v) = code in_) ∧
  (r.1 = true ↔ findVertex g in_ = None) ∧
  (r.1 = false → r.2 = g) ∧
  (r.1 = true →
     findVertex r.2 in_ = Some (length g) ∧
     ∃ v, r.2 = g ++ [v] ∧ info v = in_ ∧ adj v = [] ∧
          flightsTo v = 0%Z ∧ flightsFrom v = 0%Z) ∧
  (∀ a i, findVertex g a = Some i → findVertex r.2 a = Some i) ∧
  (∀ i v, g !! i = Some v → r.2 !! i = Some v) ∧
  (well_formed g → well_formed r.2).
Proof. apply addVertex_facts. Qed.

Lemma addVertices_invariant airports junk :
  ∀ (g : Graph) (done_ : list Airport),
    well_formed g →
    (∀ v, v ∈ g → ∃ k, list_find (λ a, code a = code (info v))
                                  (done_ ++ airports) = Some (k, info v)) →
    (∀ a, a ∈ done_ → ∃ v, v ∈ g ∧ code (info v) = code a) →
    let g' := addVertices g airports junk in
    well_formed g' ∧
    (∀ v, v ∈ g' → ∃ k, list_find (λ a, code a = code (info v))
                                   (done_ ++ airports) = Some (k, info v)) ∧
    (∀ a, a ∈ done_ ++ airports → ∃ v, v ∈ g' ∧ code (info v) = code a).
Proof.
  induction airports as [|a rest IH]; intros g done_ Hwf Hfirst Hall; simpl.
  { rewrite app_nil_r in *. done. }
  pose proof (addVertex_facts g a (junk (length g))) as
    (Hfound & Hnew & Hsame & Hadded & _ & Hkeep & Hwf').
  replace (done_ ++ a :: rest) with ((done_ ++ [a]) ++ rest) in *
    by by rewrite <-app_assoc.
  apply IH.
  - by apply Hwf'.
  - destruct (addVertex g a (junk (length g))) as [[] g1] eqn:E; simpl in *.
    + destruct Hadded as (_ & v & -> & Hi & _); [done|].
      intros v' [Hv'| ->%list_elem_of_singleton]%elem_of_app; [by apply Hfirst|].
      exists (length done_). apply list_find_app_l. rewrite Hi.
      apply list_find_Some. split_and!.
      * by rewrite lookup_app_r, Nat.sub_diag.
      * done.
      * intros j y Hj Hlt Hy. rewrite lookup_app_l in Hj by done.
        destruct (Hall y) as (w & Hw & Hcw); [by eapply list_elem_of_lookup_2|].
        assert (findVertex g a = None) as Hn by by apply Hnew.
        rewrite findVertex_None in Hn. apply (Hn w Hw). congruence.
    + rewrite Hsame by done. done.
  - intros a' [Ha'| ->%list_elem_of_singleton]%elem_of_app.
    + destruct (Hall a' Ha') as (v & Hv & Hc). exists v. split; [|done].
      apply list_elem_of_lookup in Hv as [i Hi].
      eapply list_elem_of_lookup_2. by apply Hkeep.
    + destruct Hfound as (i & v & _ & Hv & Hc). exists v.
      split; [by eapply list_elem_of_lookup_2|done].
Qed.

(** X2.  The vertex set that [parseAirports] builds, by [addVertex] from the empty
    graph: no two vertices share a code, every airport of the input is
    represented by a vertex with its code, and the vertex of a code carries
    the first airport of the input with that code (a later airport with the
    same code is dropped). *)
Theorem addVertices_first_per_code (airports : list Airport)
    (junk : nat → Vertex) :
  let g := addVertices [] airports junk in
  well_formed g ∧
  (∀ v, v ∈ g → ∃ k, list_find (λ a, code a = code (info v)) airports
                     = Some (k, info v)) ∧
  (∀ a, a ∈ airports → ∃ v, v ∈ g ∧ code (info v) = code a).
Proof.
  apply (addVertices_invariant airports junk [] []).
  - split_and!; by intros ??.
  - by intros v ?%elem_of_nil.
  - by intros a ?%elem_of_nil.
Qed.

(** ** Removing an edge *)

Lemma removeEdgeTo_adj_absent d flights :
  d ∉ (dest <$> flights) → removeEdgeTo_adj d flights = (false, flights).
Proof.
  induction flights as [|e rest IH]; intros H; [done|]. simpl.
  rewrite fmap_cons, not_elem_of_cons in H. destruct H as [Hne Hrest].
  rewrite decide_False by done. by rewrite IH.
Qed.

Lemma removeEdgeTo_adj_first d pre e post :
  d ∉ (dest <$> pre) → dest e = d →
  removeEdgeTo_adj d (pre ++ e :: post) = (true, pre ++ post).
Proof.
  intros Hpre He. induction pre as [|x pre IH]; simpl.
  - by rewrite decide_True.
  - rewrite fmap_cons, not_elem_of_cons in Hpre. destruct Hpre as [Hne Hpre].
    rewrite decide_False by done. by rewrite IH.
Qed.

Lemma removeEdgeTo_adj_found d flights :
  d ∈ dest <$> flights →
  ∃ pre e post, flights = pre ++ e :: post ∧ dest e = d ∧ d ∉ (dest <$> pre).
Proof.
  induction flights as [|x rest IH]; intros H; [by apply elem_of_nil in H|].
  destruct (decide (dest x = d)) as [Hx|Hx].
  - exists [], x, rest. split_and!; [done..|]. by intros ?%elem_of_nil.
  - rewrite fmap_cons in H. apply elem_of_cons in H as [H|H]; [done|].
    destruct (IH H) as (pre & e & post & -> & He & Hpre).
    exists (x :: pre), e, post. split_and!; [done..|].
    rewrite fmap_cons, not_elem_of_cons. done.
Qed.

Lemma setAdj_adj v : setAdj (adj v) v = v.
Proof. by destruct v. Qed.

Lemma setAdj_Vertex_addEdge d w v : setAdj (adj v) (Vertex_addEdge d w v) = v.
Proof. by destruct v. Qed.

Lemma has_edge_elem_of (g : Graph) u ux w :
  g !! u = Some ux → has_edge g u w ↔ w ∈ dest <$> adj ux.
Proof.
  intros Hu. rewrite list_elem_of_fmap. split.
  - intros (ux' & e & Hu' & He & Hd). simplify_eq. by exists e.
  - intros (e & -> & He). by exists ux, e.
Qed.

Lemma findVertex_alter_adj (g : Graph) (f : Vertex → Vertex) i a :
  (∀ v, info (f v) = info v) →
  findVertex (alter f i g) a = findVertex g a.
Proof. intros Hf. apply findVertex_infos. by apply fmap_alter_same. Qed.

(** X3.  [addEdge] and [removeEdge] undo each other: on a graph without a flight
    from [a] to [b], adding one and removing it again succeeds and gives the
    graph back, field for field. *)
Theorem removeEdge_addEdge (g : Graph) (a b : Airport) (w : float)
    (v1 v2 : VertexPtr) :
  findVertex g a = Some v1 → findVertex g b = Some v2 →
  ¬ has_edge g v1 v2 →
  (addEdge g a b w).1 = true ∧
  removeEdge (addEdge g a b w).2 a b = (true, g).
Proof.
  intros Ha Hb Hne. rewrite (addEdge_Some g a b w v1 v2) by done.
  split; [done|]. cbn [snd].
  destruct (findVertex_Some _ _ _ Ha) as (vx & Hvx & _).
  unfold removeEdge.
  rewrite !findVertex_alter_adj, Ha, Hb by done.
  rewrite list_lookup_alter_eq, Hvx. cbn [fmap option_fmap option_map].
  unfold Vertex_removeEdgeTo.
  change (adj (Vertex_addEdge v2 w vx)) with (adj vx ++ [mkEdge v2 w ∅]).
  rewrite (removeEdgeTo_adj_first v2 (adj vx) (mkEdge v2 w ∅) []);
    [|by rewrite <-(has_edge_elem_of g v1 vx v2)|done].
  rewrite app_nil_r, setAdj_Vertex_addEdge. f_equal.
  apply list_eq. intros i. destruct (decide (i = v1)) as [->|Hi].
  - rewrite list_lookup_insert_eq; [done|].
    rewrite length_alter. by eapply lookup_lt_Some.
  - by rewrite list_lookup_insert_ne, list_lookup_alter_ne by done.
Qed.

Lemma removeEdge_addEdge_witness :
  (addEdge g_triangle (airport_ "B") (airport_ "A") 1).1 = true ∧
  removeEdge (addEdge g_triangle (airport_ "B") (airport_ "A") 1).2
             (airport_ "B") (airport_ "A") = (true, g_triangle).
Proof.
  apply (removeEdge_addEdge g_triangle (airport_ "B") (airport_ "A") 1 1 0).
  - reflexivity.
  - reflexivity.
  - rewrite has_edge_successors. by_compute.
Defined.

(** X4.  [removeEdge] between two airports of a graph with at most one flight per
    pair: it answers [true] exactly when there is a flight from the first to
    the second; afterwards there is none, every other flight is still
    there, and when it answers [false] the graph is unchanged. *)
Theorem removeEdge_removes (g : Graph) (a b : Airport) (v1 v2 : VertexPtr) :
  at_most_one_edge g →
  findVertex g a = Some v1 → findVertex g b = Some v2 →
  let r := removeEdge g a b in
  (r.1 = true ↔ has_edge g v1 v2) ∧
  ¬ has_edge r.2 v1 v2 ∧
  (∀ u w, u ≠ v1 ∨ w ≠ v2 → has_edge r.2 u w ↔ has_edge g u w) ∧
  (r.1 = false → r.2 = g).
Proof.
  intros Ho Ha Hb. unfold removeEdge. rewrite Ha, Hb.
  destruct (findVertex_Some _ _ _ Ha) as (vx & Hvx & _). rewrite Hvx.
  unfold Vertex_removeEdgeTo.
  pose proof (lookup_lt_Some _ _ _ Hvx) as Hlt.
  destruct (decide (v2 ∈ dest <$> adj vx)) as [Hin|Hout].
  - destruct (removeEdgeTo_adj_found _ _ Hin) as (pre & e & post & Hadj & He & Hpre).
    rewrite Hadj, (removeEdgeTo_adj_first v2 pre e post) by done. cbn zeta.
    cbn [fst snd].
    pose proof (Ho v1 vx Hvx) as Hnd. rewrite Hadj, fmap_app, fmap_cons in Hnd.
    apply NoDup_app in Hnd as (_ & Hdisj & Hnd).
    apply NoDup_cons in Hnd as [Hpost _].
    assert (g !! v1 = Some vx → has_edge g v1 v2) as Hedge.
    { intros _. by apply (has_edge_elem_of g v1 vx). }
    split_and!.
    + split; [by auto|done].
    + rewrite (has_edge_elem_of _ v1 (setAdj (pre ++ post) vx))
        by by rewrite list_lookup_insert_eq.
      simpl. rewrite fmap_app, elem_of_app. intros [?|?]; [done|].
      by rewrite He in Hpost.
    + intros u w Huw. destruct (decide (u = v1)) as [->|Hu].
      * rewrite (has_edge_elem_of _ v1 (setAdj (pre ++ post) vx))
          by by rewrite list_lookup_insert_eq.
        rewrite (has_edge_elem_of g v1 vx) by done.
        rewrite Hadj. simpl. rewrite !fmap_app, fmap_cons, !elem_of_app,
          elem_of_cons.
        destruct Huw as [?|Hw]; [done|]. rewrite He. naive_solver.
      * unfold has_edge. by setoid_rewrite list_lookup_insert_ne.
    + done.
  - rewrite (removeEdgeTo_adj_absent _ _ Hout). cbn zeta. cbn [fst snd].
    rewrite setAdj_adj, list_insert_id by done.
    rewrite (has_edge_elem_of g v1 vx) by done.
    split_and!; [by split| done|done|done].
Qed.

Lemma removeEdge_removes_witness :
  let r := removeEdge g_triangle (airport_ "A") (airport_ "B") in
  (r.1 = true ↔ has_edge g_triangle 0 1) ∧
  ¬ has_edge r.2 0 1 ∧
  (∀ u w, u ≠ 0 ∨ w ≠ 1 → has_edge r.2 u w ↔ has_edge g_triangle u w) ∧
  (r.1 = false → r.2 = g_triangle).
Proof.
  apply (removeEdge_removes g_triangle (airport_ "A") (airport_ "B") 0 1).
  - apply at_most_one_edge_Forall. by_compute.
  - reflexivity.
  - reflexivity.
Defined.

(** ** In-degrees and out-degrees *)

Lemma setInDegree_setInDegree a b v :
  setInDegree a (setInDegree b v) = setInDegree a v.
Proof. done. Qed.

Lemma sd_count_spec flights :
  ∀ g : Graph,
    (∀ e, e ∈ flights → dest e < length g) →
    ∃ g', sd_count flights g = Ok g' ∧ length g' = length g ∧
          ∀ i v, g !! i = Some v →
            g' !! i = Some (setInDegree
                              (inDegree v +
                               Z.of_nat (length (filter (λ d, d = i)
                                                        (dest <$> flights))))%Z
                              v).
Proof.
  induction flights as [|e rest IH]; intros g Hv.
  { exists g. split_and!; [done..|]. intros i v Hi. rewrite Hi. f_equal.
    destruct v; simpl. unfold setInDegree; simpl. f_equal. lia. }
  destruct (lookup_lt_is_Some_2 g (dest e)) as [wx Hwx]; [apply Hv; by left|].
  destruct (IH (<[dest e := setInDegree (inDegree wx + 1)%Z wx]> g))
    as (g' & H & Hlen & Hpt).
  { intros e' He'. rewrite length_insert. apply Hv. by right. }
  exists g'. cbn [sd_count]. rewrite (bind_Ok_l _ _ _ (deref_lookup _ _ _ Hwx)).
  split_and!; [done|by rewrite Hlen, length_insert|].
  intros i v Hi. rewrite fmap_cons, filter_cons.
  destruct (decide (dest e = i)) as [<-|Hne].
  - assert (v = wx) as -> by congruence.
    rewrite (Hpt (dest e) (setInDegree (inDegree wx + 1)%Z wx)).
    + f_equal. unfold setInDegree; simpl. f_equal. lia.
    + apply list_lookup_insert_eq. by eapply lookup_lt_Some.
  - rewrite (Hpt i v) by by rewrite list_lookup_insert_ne. done.
Qed.

Lemma sd_vertices_spec vs :
  ∀ g : Graph,
    dests_valid g → (∀ u, u ∈ vs → u < length g) →
    ∃ g', sd_vertices vs g = Ok g' ∧ length g' = length g ∧
          ∀ i v, g !! i = Some v →
            g' !! i = Some (setInDegree
                              (inDegree v +
                               Z.of_nat (length (filter (λ d, d = i)
                                           (mjoin (successors g <$> vs)))))%Z
                              v).
Proof.
  induction vs as [|u rest IH]; intros g Hd Hv.
  { exists g. split_and!; [done..|]. intros i v Hi. rewrite Hi. f_equal.
    destruct v; simpl. unfold setInDegree; simpl. f_equal. lia. }
  destruct (lookup_lt_is_Some_2 g u) as [ux Hux]; [apply Hv; by left|].
  destruct (sd_count_spec (adj ux) g) as (g1 & H1 & Hlen1 & Hpt1).
  { intros e He. by eapply Hd. }
  assert (∀ w, successors g1 w = successors g w) as Hsucc.
  { intros w. unfold successors. destruct (g !! w) as [wx|] eqn:Hw.
    - by rewrite (Hpt1 w wx Hw).
    - apply lookup_ge_None in Hw. rewrite lookup_ge_None_2; [done|lia]. }
  destruct (IH g1) as (g' & H & Hlen & Hpt).
  { apply dests_valid_successors. intros w x. rewrite Hsucc, Hlen1.
    by apply dests_valid_successors. }
  { intros w Hw. rewrite Hlen1. apply Hv. by right. }
  exists g'. cbn [sd_vertices].
  rewrite (bind_Ok_l _ _ _ (deref_lookup _ _ _ Hux)), (bind_Ok_l _ _ _ H1).
  split_and!; [done|congruence|].
  intros i v Hi. rewrite (Hpt i _ (Hpt1 i v Hi)).
  f_equal. unfold setInDegree; simpl. f_equal.
  change (mjoin (successors g <$> u :: rest))
    with (successors g u ++ mjoin (successors g <$> rest)).
  rewrite filter_app, length_app.
  replace (successors g1 <$> rest) with (successors g <$> rest)
    by (apply list_fmap_ext; intros; symmetry; apply Hsucc).
  replace (successors g u) with (dest <$> adj ux)
    by (unfold successors; by rewrite Hux).
  change (list_fmap nat (list nat) (successors g) rest)
    with (successors g <$> rest).
  lia.
Qed.

Lemma successors_seq (g : Graph) :
  successors g <$> seq 0 (length g) = edge_dests g.
Proof.
  apply list_eq. intros i. unfold edge_dests.
  rewrite !list_lookup_fmap. destruct (g !! i) as [v|] eqn:Hi.
  - rewrite lookup_seq_lt by by eapply lookup_lt_Some. simpl.
    unfold successors. by rewrite Hi.
  - apply lookup_ge_None in Hi. by rewrite lookup_seq_ge.
Qed.

Lemma list_sum_cons' (a : nat) l : list_sum (a :: l) = a + list_sum l.
Proof. done. Qed.

Lemma indicator_sum (x k n : nat) :
  k ≤ x < k + n →
  list_sum ((λ i, if decide (x = i) then 1 else 0) <$> seq k n) = 1.
Proof.
  revert k. induction n as [|n IH]; intros k Hx; [lia|]. simpl.
  destruct (decide (x = k)) as [->|Hne].
  - f_equal. clear IH Hx. generalize (S k) (Nat.lt_succ_diag_r k).
    induction n as [|n IH]; intros j Hj; [done|]. simpl.
    rewrite decide_False by lia. apply IH. lia.
  - rewrite IH; [done|lia].
Qed.

Lemma sum_counts (L : list nat) (n : nat) :
  Forall (λ x, x < n) L →
  list_sum ((λ i, length (filter (λ d, d = i) L)) <$> seq 0 n) = length L.
Proof.
  induction 1 as [|x L Hx _ IH].
  - induction (seq 0 n) as [|? ? IHs]; [done|]. exact IHs.
  - transitivity
      (list_sum ((λ i, if decide (x = i) then 1 else 0) <$> seq 0 n) +
       list_sum ((λ i, length (filter (λ d, d = i) L)) <$> seq 0 n));
      [|rewrite indicator_sum, IH by lia; done].
    generalize (seq 0 n). intros l. induction l as [|i l IHl]; [done|].
    rewrite !fmap_cons, !list_sum_cons', IHl, filter_cons.
    destruct (decide (x = i)); simpl; lia.
Qed.

Lemma foldl_sum_shift {A} (f : A → Z) (l : list A) (a : Z) :
  foldl (λ acc v, (acc + f v)%Z) a l
  = (a + foldl (λ acc v, (acc + f v)%Z) 0%Z l)%Z.
Proof.
  revert a. induction l as [|x l IH]; intros a; simpl; [lia|].
  rewrite (IH (a + f x)%Z), (IH (0 + f x)%Z).
  by rewrite Z.add_0_l, Z.add_assoc.
Qed.

Lemma foldl_sum_pointwise (f : Vertex → Z) (c : nat → nat) (l : Graph) :
  ∀ k, (∀ i v, l !! i = Some v → f v = Z.of_nat (c (k + i))) →
       foldl (λ acc v, (acc + f v)%Z) 0%Z l
       = Z.of_nat (list_sum (c <$> seq k (length l))).
Proof.
  induction l as [|x l IH]; intros k H; [done|].
  cbn [foldl length seq]. rewrite fmap_cons, list_sum_cons', Nat2Z.inj_add.
  rewrite foldl_sum_shift, (IH (S k)).
  - by rewrite (H 0 x eq_refl), Nat.add_0_r, Z.add_0_l.
  - intros i v Hi. rewrite (H (S i) v Hi). f_equal. f_equal. lia.
Qed.

(** X5.  [setupInDegreeAndOutDegree] on a graph whose flights all lead to
    vertices of the graph: it returns; every vertex keeps its payload,
    flights and flight counters, gets the number of its flights as
    out-degree and the number of flights into it as in-degree; the
    in-degrees add up to the number of flights of the graph, and so does
    [searchNumberOfAvailableFlightRoutes] (the sum of the out-degrees) when no
    adjacency vector is too long for an [int]. *)
Theorem setupInDegreeAndOutDegree_degrees (g : Graph) :
  dests_valid g →
  ∃ g', setupInDegreeAndOutDegree g = Ok g' ∧
        length g' = length g ∧
        (∀ i v, g !! i = Some v →
           g' !! i = Some (setOutDegree (static_cast_int (length (adj v)))
                             (setInDegree (Z.of_nat (incoming g i)) v))) ∧
        foldl (λ acc v, (acc + inDegree v)%Z) 0%Z g'
        = Z.of_nat (length (mjoin (edge_dests g))) ∧
        ((∀ v, v ∈ g → (Z.of_nat (length (adj v)) ≤ INT_MAX)%Z) →
         searchNumberOfAvailableFlightRoutes g'
         = Z.of_nat (length (mjoin (edge_dests g)))).
Proof.
  intros Hd. unfold setupInDegreeAndOutDegree.
  assert (∀ w, successors (sd_init g) w = successors g w) as Hsucc.
  { intros w. unfold successors, sd_init. rewrite list_lookup_fmap.
    by destruct (g !! w). }
  destruct (sd_vertices_spec (seq 0 (length g)) (sd_init g))
    as (g' & H & Hlen & Hpt).
  { apply dests_valid_successors. intros w x. rewrite Hsucc.
    unfold sd_init. rewrite length_fmap. by apply dests_valid_successors. }
  { intros u Hu%elem_of_seq. unfold sd_init. rewrite length_fmap. lia. }
  assert (length g' = length g) as Hlen'.
  { rewrite Hlen. unfold sd_init. by rewrite length_fmap. }
  assert (∀ i v, g !! i = Some v →
            g' !! i = Some (setOutDegree (static_cast_int (length (adj v)))
                              (setInDegree (Z.of_nat (incoming g i)) v)))
    as Hspec.
  { intros i v Hi.
    rewrite (Hpt i (setOutDegree (static_cast_int (length (adj v)))
                      (setInDegree 0 v))).
    - f_equal. unfold incoming. rewrite <-successors_seq.
      replace (successors (sd_init g) <$> seq 0 (length g))
        with (successors g <$> seq 0 (length g))
        by (apply list_fmap_ext; intros; symmetry; apply Hsucc).
      done.
    - unfold sd_init. by rewrite list_lookup_fmap, Hi. }
  exists g'. split_and!; [done..| |].
  - rewrite (foldl_sum_pointwise inDegree (incoming g) g' 0).
    + rewrite Hlen'. unfold incoming. rewrite sum_counts; [done|].
      apply Forall_forall. intros x Hx.
      apply list_elem_of_join in Hx as (l & Hx & Hl).
      unfold edge_dests in Hl.
      apply list_elem_of_fmap in Hl as (v & -> & Hv).
      apply list_elem_of_fmap in Hx as (e & -> & He).
      apply list_elem_of_lookup in Hv as [u Hu]. by eapply Hd.
    + intros i v' Hi.
      destruct (lookup_lt_is_Some_2 g i) as [v Hv];
        [rewrite <-Hlen'; by eapply lookup_lt_Some|].
      rewrite (Hspec i v Hv) in Hi. by simplify_eq.
  - intros Hfit. unfold searchNumberOfAvailableFlightRoutes.
    rewrite (foldl_sum_pointwise outDegree
               (λ i, length (successors g i)) g' 0).
    + rewrite Hlen'. f_equal.
      rewrite <-successors_seq. generalize (seq 0 (length g)).
      intros l. induction l as [|i l IHl]; [done|].
      rewrite !fmap_cons, list_sum_cons', IHl.
      change (mjoin (successors g i :: (successors g <$> l)))
        with (successors g i ++ mjoin (successors g <$> l)).
      by rewrite length_app.
    + intros i v' Hi.
      destruct (lookup_lt_is_Some_2 g i) as [v Hv];
        [rewrite <-Hlen'; by eapply lookup_lt_Some|].
      rewrite (Hspec i v Hv) in Hi. simplify_eq. simpl.
      unfold successors. rewrite Hv, length_fmap.
      apply static_cast_int_small, Hfit. by eapply list_elem_of_lookup_2.
Qed.

Lemma setupInDegreeAndOutDegree_degrees_witness :
  ∃ g', setupInDegreeAndOutDegree g_triangle = Ok g' ∧
        length g' = length g_triangle ∧
        (∀ i v, g_triangle !! i = Some v →
           g' !! i = Some (setOutDegree (static_cast_int (length (adj v)))
                             (setInDegree (Z.of_nat (incoming g_triangle i))
                                          v))) ∧
        foldl (λ acc v, (acc + inDegree v)%Z) 0%Z g'
        = Z.of_nat (length (mjoin (edge_dests g_triangle))) ∧
        ((∀ v, v ∈ g_triangle → (Z.of_nat (length (adj v)) ≤ INT_MAX)%Z) →
         searchNumberOfAvailableFlightRoutes g'
         = Z.of_nat (length (mjoin (edge_dests g_triangle)))).
Proof.
  apply (setupInDegreeAndOutDegree_degrees g_triangle).
  apply dests_valid_Forall. by_compute.
Defined.

(** ** Merging paths *)

Lemma mergeVectors_nil_l (c : list VertexPtr) : mergeVectors [] c = [].
Proof. done. Qed.

Lemma mergeVectors_nil_r (a : list VertexPtr) : mergeVectors a [] = [].
Proof. unfold mergeVectors. by destruct (last a). Qed.

Lemma mergeVectors_meet (a b : list VertexPtr) x :
  last a = Some x → mergeVectors a (x :: b) = a ++ b.
Proof. intros H. unfold mergeVectors. by rewrite H, decide_True. Qed.

Lemma mergeVectors_miss (a b : list VertexPtr) x y :
  last a = Some x → x ≠ y → mergeVectors a (y :: b) = [].
Proof. intros H ?. unfold mergeVectors. by rewrite H, decide_False. Qed.

(** X6.  [mergeVectors] is associative, whatever the three vectors: both ways of
    merging give the same vector, the empty one as soon as one of the
    arguments is empty or two neighbours do not meet. *)
Theorem mergeVectors_assoc (a b c : list VertexPtr) :
  mergeVectors (mergeVectors a b) c = mergeVectors a (mergeVectors b c).
Proof.
  destruct (last a) as [x|] eqn:Ha.
  2:{ apply last_None in Ha as ->. by rewrite !mergeVectors_nil_l. }
  destruct b as [|y b].
  { by rewrite mergeVectors_nil_l, mergeVectors_nil_r, mergeVectors_nil_l. }
  destruct (last (y :: b)) as [z|] eqn:Hb; [|by apply last_None in Hb].
  destruct c as [|w c].
  { by rewrite !mergeVectors_nil_r. }
  destruct (decide (x = y)) as [->|Hxy].
  - rewrite (mergeVectors_meet a b y Ha).
    assert (last (a ++ b) = Some z) as Hab.
    { destruct b as [|u b]; [rewrite app_nil_r; by simplify_eq/=|].
      rewrite last_cons_cons in Hb. by rewrite last_app, Hb. }
    destruct (decide (z = w)) as [->|Hzw].
    + rewrite (mergeVectors_meet (a ++ b) c w Hab).
      rewrite (mergeVectors_meet (y :: b) c w Hb).
      rewrite <-app_comm_cons, (mergeVectors_meet a (b ++ c) y Ha).
      by rewrite app_assoc.
    + rewrite (mergeVectors_miss (a ++ b) c z w Hab Hzw).
      rewrite (mergeVectors_miss (y :: b) c z w Hb Hzw).
      by rewrite mergeVectors_nil_r.
  - rewrite (mergeVectors_miss a b x y Ha Hxy), mergeVectors_nil_l.
    destruct (decide (z = w)) as [->|Hzw].
    + rewrite (mergeVectors_meet (y :: b) c w Hb), <-app_comm_cons.
      by rewrite (mergeVectors_miss a (b ++ c) x y Ha Hxy).
    + rewrite (mergeVectors_miss (y :: b) c z w Hb Hzw).
      by rewrite mergeVectors_nil_r.
Qed.

(** * Reading the flights *)

Lemma unique_codes_infos (g g' : Graph) :
  info <$> g = info <$> g' → unique_codes g → unique_codes g'.
Proof.
  intros H Hu i j vi vj Hi Hj Hc.
  assert (∀ k v, g' !! k = Some v → ∃ v0, g !! k = Some v0 ∧ info v0 = info v)
    as Hback.
  { intros k v Hk.
    assert ((info <$> g) !! k = Some (info v)) as Hk'
      by by rewrite H, list_lookup_fmap, Hk.
    rewrite list_lookup_fmap in Hk'.
    destruct (g !! k) as [v0|]; [|done]. exists v0. by simplify_eq/=. }
  destruct (Hback i vi Hi) as (vi0 & Hi0 & Ei).
  destruct (Hback j vj Hj) as (vj0 & Hj0 & Ej).
  apply (Hu i j vi0 vj0 Hi0 Hj0). by rewrite Ei, Ej.
Qed.

Lemma unique_codes_dest (g : Graph) d t dx tx :
  unique_codes g → g !! d = Some dx → g !! t = Some tx →
  Airport_eqb (info dx) (info tx) = bool_decide (d = t).
Proof.
  intros Hu Hd Ht. destruct (decide (d = t)) as [->|Hne].
  - rewrite bool_decide_eq_true_2 by done. apply Airport_eqb_true. congruence.
  - rewrite bool_decide_eq_false_2 by done. apply Airport_eqb_false.
    intros Hc. by apply Hne, (Hu d t dx tx).
Qed.

(** The search for the flight towards the target compares airports by code;
    with codes that identify the vertices it finds the first flight whose
    destination is the target. *)
Lemma pf_findEdge_list_find (g : Graph) vt tx flights i :
  unique_codes g → g !! vt = Some tx →
  (∀ e, e ∈ flights → dest e < length g) →
  pf_findEdge g (Some vt) flights i
  = Ok ((λ p, i + p.1) <$> list_find (λ e, dest e = vt) flights).
Proof.
  intros Hu Ht. revert i. induction flights as [|e rest IH]; intros i Hv; [done|].
  destruct (lookup_lt_is_Some_2 g (dest e)) as [dx Hdx]; [apply Hv; by left|].
  cbn [pf_findEdge deref_found].
  rewrite (bind_Ok_l _ _ _ (deref_lookup _ _ _ Hdx)).
  rewrite (bind_Ok_l _ _ _ (deref_lookup _ _ _ Ht)).
  rewrite (unique_codes_dest g (dest e) vt dx tx) by done.
  cbn [list_find]. destruct (decide (dest e = vt)) as [He|He].
  - rewrite bool_decide_eq_true_2 by done. simpl. f_equal. f_equal. lia.
  - rewrite bool_decide_eq_false_2 by done.
    rewrite IH by (intros e' He'; apply Hv; by right).
    destruct (list_find _ rest) as [[j x]|]; simpl; [|done].
    f_equal. f_equal. lia.
Qed.

Lemma pf_findEdge_unknown (g : Graph) flights i :
  flights ≠ [] → pf_findEdge g None flights i = Undefined.
Proof.
  destruct flights as [|e rest]; [done|]. intros _. cbn [pf_findEdge].
  unfold deref. by destruct (g !! dest e).
Qed.

Lemma airportOfCode_Some (g : Graph) c i :
  airportOfCode g c = Some i →
  ∃ v, g !! i = Some v ∧ code (info v) = c.
Proof.
  intros (v & Hv & Hc & _)%findVertex_Some. by exists v.
Qed.

Lemma airportOfCode_unique (g : Graph) i v :
  unique_codes g → g !! i = Some v → airportOfCode g (code (info v)) = Some i.
Proof.
  intros Hu Hv. unfold airportOfCode.
  rewrite <-(findVertex_unique g i v Hu Hv). by apply findVertex_code.
Qed.

Lemma airportOfCode_infos (g g' : Graph) c :
  info <$> g = info <$> g' → airportOfCode g c = airportOfCode g' c.
Proof. apply findVertex_infos. Qed.

Lemma info_flight_added vs vt w al (g : Graph) :
  info <$> flight_added vs vt w al g = info <$> g.
Proof.
  unfold flight_added. rewrite fmap_imap.
  rewrite <-(imap_const info g). by apply imap_ext.
Qed.

Lemma lookup_flight_added vs vt w al (g : Graph) i v :
  g !! i = Some v →
  flight_added vs vt w al g !! i
  = Some (mkVertex (info v)
            (if decide (i = vs) then adj_with_flight vt w al (adj v)
             else adj v)
            (visited v) (processing v) (inDegree v) (outDegree v)
            (num v) (low v)
            (if decide (i = vt) then wrap_int (flightsTo v + 1)
             else flightsTo v)
            (if decide (i = vs) then wrap_int (flightsFrom v + 1)
             else flightsFrom v)).
Proof. intros H. unfold flight_added. by rewrite list_lookup_imap, H. Qed.

Lemma length_flight_added vs vt w al (g : Graph) :
  length (flight_added vs vt w al g) = length g.
Proof. apply length_imap. Qed.

Section parse.
Variable HarversineDistance : float → float → float → float → float.
Variable airlinesInfo : AirlineSet.

(** The two counter updates, on a graph [g1] that agrees with [g] except for
    the flights of the source. *)
Lemma parseFlight_counters_run (g g1 : Graph) vs vt sx flights :
  g !! vs = Some sx → vt < length g →
  g1 = <[vs := setAdj flights sx]> g →
  (sx1 ← deref_found g1 (Some vs);
   let g2 := <[default 0 (Some vs) :=
                 setFlightsFrom (wrap_int (flightsFrom sx1 + 1)) sx1]> g1 in
   tx1 ← deref_found g2 (Some vt);
   Ok (<[default 0 (Some vt) :=
           setFlightsTo (wrap_int (flightsTo tx1 + 1)) tx1]> g2))
  = Ok (imap (λ i v,
          mkVertex (info v) (if decide (i = vs) then flights else adj v)
            (visited v) (processing v) (inDegree v) (outDegree v)
            (num v) (low v)
            (if decide (i = vt) then wrap_int (flightsTo v + 1)
             else flightsTo v)
            (if decide (i = vs) then wrap_int (flightsFrom v + 1)
             else flightsFrom v)) g).
Proof.
  intros Hs Ht ->.
  pose proof (lookup_lt_Some _ _ _ Hs) as Hls.
  cbn [deref_found default].
  rewrite (bind_Ok_l _ _ (setAdj flights sx));
    [|apply deref_lookup; by rewrite list_lookup_insert_eq].
  cbv zeta.
  destruct (lookup_lt_is_Some_2
              (<[vs:=setFlightsFrom
                       (wrap_int (flightsFrom (setAdj flights sx) + 1))
                       (setAdj flights sx)]> (<[vs:=setAdj flights sx]> g)) vt)
    as [tx1 Htx1]; [by rewrite !length_insert|].
  rewrite (bind_Ok_l _ _ _ (deref_lookup _ _ _ Htx1)). f_equal.
  apply list_eq. intros i. rewrite list_lookup_imap.
  destruct (decide (i = vt)) as [->|Hit].
  - rewrite list_lookup_insert_eq by by rewrite !length_insert.
    destruct (decide (vt = vs)) as [->|Hts].
    + rewrite list_lookup_insert_eq in Htx1 by by rewrite length_insert.
      rewrite Hs. simplify_eq/=. done.
    + rewrite !list_lookup_insert_ne in Htx1 by done. rewrite Htx1. simpl.
      f_equal; by destruct tx1.
  - rewrite list_lookup_insert_ne by done.
    destruct (decide (i = vs)) as [->|His].
    + rewrite list_lookup_insert_eq by by rewrite length_insert.
      rewrite Hs. simpl. f_equal; by destruct sx.
    + rewrite !list_lookup_insert_ne by done.
      destruct (g !! i) as [v|]; [|done]. simpl. f_equal; by destruct v.
Qed.

(** One line naming two airports of a well-formed graph: the turn of the
    loop returns the graph with the flight recorded. *)
Lemma parseFlight_run (g : Graph) source target airlineCode vs vt sx tx :
  well_formed g →
  airportOfCode g source = Some vs → airportOfCode g target = Some vt →
  g !! vs = Some sx → g !! vt = Some tx →
  parseFlight HarversineDistance airlinesInfo g (source, target, airlineCode)
  = Ok (flight_added vs vt
          (Airport_getDistance HarversineDistance (info sx) (location (info tx)))
          (getAirline airlinesInfo airlineCode) g).
Proof.
  intros (Hu & Hd & Ho) Hfs Hft Hs Ht.
  pose proof (lookup_lt_Some _ _ _ Hs) as Hls.
  pose proof (lookup_lt_Some _ _ _ Ht) as Hlt.
  unfold parseFlight. fold (airportOfCode g source) (airportOfCode g target).
  rewrite Hfs, Hft.
  set (al := getAirline airlinesInfo airlineCode).
  set (w := Airport_getDistance HarversineDistance (info sx) (location (info tx))).
  cbn [deref_found].
  rewrite (bind_Ok_l _ _ _ (deref_lookup _ _ _ Hs)).
  rewrite (pf_findEdge_list_find g vt tx (adj sx) 0 Hu Ht)
    by (intros e He; exact (Hd vs sx e Hs He)).
  assert (flight_added vs vt w al g
          = imap (λ i v,
              mkVertex (info v)
                (if decide (i = vs) then adj_with_flight vt w al (adj sx)
                 else adj v)
                (visited v) (processing v) (inDegree v) (outDegree v)
                (num v) (low v)
                (if decide (i = vt) then wrap_int (flightsTo v + 1)
                 else flightsTo v)
                (if decide (i = vs) then wrap_int (flightsFrom v + 1)
                 else flightsFrom v)) g)
    as ->.
  { apply list_eq. intros i. unfold flight_added. rewrite !list_lookup_imap.
    destruct (g !! i) as [v|] eqn:Hi; [|done]. simpl. f_equal.
    destruct (decide (i = vs)) as [->|]; [|done]. by simplify_eq. }
  unfold adj_with_flight.
  destruct (list_find (λ e, dest e = vt) (adj sx)) as [[j e]|] eqn:Hfind.
  - cbn [fmap option_fmap option_map fst Nat.add default].
    rewrite bind_ret_Ok. cbv beta iota. rewrite bind_ret_Ok.
    apply (parseFlight_counters_run g _ vs vt sx
             (alter (Edge_addAirline al) j (adj sx))); [done..|].
    apply list_eq. intros i.
    destruct (decide (i = vs)) as [->|Hi].
    + rewrite list_lookup_alter_eq, list_lookup_insert_eq by done.
      by rewrite (Hs : g !! id vs = Some sx).
    + by rewrite list_lookup_alter_ne, list_lookup_insert_ne by done.
  - cbn [fmap option_fmap option_map default].
    rewrite bind_ret_Ok. cbv beta iota.
    set (g' := alter (Vertex_addEdge vt w) vs g).
    assert ((addEdge g (info sx) (info tx) w).2 = g') as Hadd.
    { rewrite (addEdge_Some g (info sx) (info tx) w vs vt); [done|..].
      - by apply findVertex_unique.
      - by apply findVertex_unique. }
    assert (info <$> g' = info <$> g) as Hinfo by by apply fmap_alter_same.
    assert (g' !! vs = Some (Vertex_addEdge vt w sx)) as Hs'
      by by unfold g'; rewrite list_lookup_alter_eq, Hs.
    assert (∃ tx', g' !! vt = Some tx') as [tx' Ht'].
    { apply lookup_lt_is_Some_2. unfold g'. by rewrite length_alter. }
    assert (list_find (λ e, dest e = vt) (adj sx ++ [mkEdge vt w ∅])
            = Some (length (adj sx), mkEdge vt w ∅)) as Hfind'.
    { apply list_find_app_Some. right. split_and!; [lia|done|].
      rewrite Nat.sub_diag. simpl. by rewrite decide_True. }
    rewrite (bind_Ok_l _ _
               (<[vs := setAdj (adj sx ++ [Edge_addAirline al (mkEdge vt w ∅)])
                               sx]> g)).
    + by apply (parseFlight_counters_run g _ vs vt sx
                  (adj sx ++ [Edge_addAirline al (mkEdge vt w ∅)])).
    + rewrite (bind_Ok_l _ _ _ (deref_lookup _ _ _ Ht)). cbv zeta.
      fold w. rewrite Hadd. cbn [deref_found].
      rewrite (bind_Ok_l _ _ _ (deref_lookup _ _ _ Hs')).
      rewrite (pf_findEdge_list_find g' vt tx' _ 0).
      * change (adj (Vertex_addEdge vt w sx)) with (adj sx ++ [mkEdge vt w ∅]).
        rewrite Hfind'. cbn [fmap option_fmap option_map fst Nat.add default].
        rewrite bind_ret_Ok. cbv beta iota.
        f_equal. apply list_eq. intros i.
        destruct (decide (i = vs)) as [->|Hi].
        -- rewrite list_lookup_alter_eq, (Hs' : g' !! id vs = _),
             list_lookup_insert_eq by done.
           simpl. f_equal. unfold setAdj. simpl. f_equal.
           rewrite <-(Nat.add_0_r (length (adj sx))), alter_app_r. done.
        -- rewrite list_lookup_alter_ne, list_lookup_insert_ne by done.
           unfold g'. by rewrite list_lookup_alter_ne.
      * by apply (unique_codes_infos g g').
      * done.
      * intros e He. unfold g'. rewrite length_alter.
        change (adj (Vertex_addEdge vt w sx)) with (adj sx ++ [mkEdge vt w ∅])
          in He.
        apply elem_of_app in He as [He| ->%list_elem_of_singleton];
          [exact (Hd vs sx e Hs He)|done].
Qed.
End parse.

(** ** The flight between two airports *)

Lemma airlines_scan_list_find (g : Graph) target tx flights :
  unique_codes g → g !! target = Some tx →
  (∀ e, e ∈ flights → dest e < length g) →
  airlines_scan g target flights
  = Ok (from_option (λ p, airlines p.2) ∅
          (list_find (λ e, dest e = target) flights)).
Proof.
  intros Hu Ht. induction flights as [|e rest IH]; intros Hv; [reflexivity|].
  destruct (lookup_lt_is_Some_2 g (dest e)) as [dx Hdx]; [apply Hv; by left|].
  cbn [airlines_scan].
  rewrite (bind_Ok_l _ _ _ (deref_lookup _ _ _ Hdx)).
  rewrite (bind_Ok_l _ _ _ (deref_lookup _ _ _ Ht)).
  rewrite (unique_codes_dest g (dest e) target dx tx) by done.
  cbn [list_find]. destruct (decide (dest e = target)) as [He|He].
  - by rewrite bool_decide_eq_true_2.
  - rewrite bool_decide_eq_false_2 by done.
    rewrite IH by (intros e' He'; apply Hv; by right).
    by destruct (list_find _ rest) as [[j x]|].
Qed.

Lemma distance_scan_list_find (g : Graph) target tx flights :
  unique_codes g → g !! target = Some tx →
  (∀ e, e ∈ flights → dest e < length g) →
  distance_scan g target flights
  = Ok (from_option (λ p, distance p.2) 0%float
          (list_find (λ e, dest e = target) flights)).
Proof.
  intros Hu Ht. induction flights as [|e rest IH]; intros Hv; [reflexivity|].
  destruct (lookup_lt_is_Some_2 g (dest e)) as [dx Hdx]; [apply Hv; by left|].
  cbn [distance_scan].
  rewrite (bind_Ok_l _ _ _ (deref_lookup _ _ _ Hdx)).
  rewrite (bind_Ok_l _ _ _ (deref_lookup _ _ _ Ht)).
  rewrite (unique_codes_dest g (dest e) target dx tx) by done.
  cbn [list_find]. destruct (decide (dest e = target)) as [He|He].
  - by rewrite bool_decide_eq_true_2.
  - rewrite bool_decide_eq_false_2 by done.
    rewrite IH by (intros e' He'; apply Hv; by right).
    by destruct (list_find _ rest) as [[j x]|].
Qed.

Lemma list_find_NoDup_dest (flights : list Edge) e :
  NoDup (dest <$> flights) → e ∈ flights →
  ∃ j, list_find (λ e', dest e' = dest e) flights = Some (j, e).
Proof.
  intros Hnd [j Hj]%list_elem_of_lookup. exists j.
  apply list_find_Some. split_and!; [done..|].
  intros k y Hk Hlt Hy.
  assert (k = j); [|lia].
  apply (NoDup_lookup (dest <$> flights) k j (dest e)); [done| |].
  - by rewrite list_lookup_fmap, Hk, <-Hy.
  - by rewrite list_lookup_fmap, Hj.
Qed.

Lemma flight_queries (g : Graph) source target sx e :
  well_formed g → g !! source = Some sx → e ∈ adj sx → dest e = target →
  getDistanceBetweenAirports g source target = Ok (distance e) ∧
  airlinesThatOperateBetweenAirports g source target = Ok (airlines e).
Proof.
  intros (Hu & Hd & Ho) Hs He Hdest.
  destruct (lookup_lt_is_Some_2 g target) as [tx Ht];
    [rewrite <-Hdest; by eapply Hd|].
  destruct (list_find_NoDup_dest (adj sx) e (Ho source sx Hs) He) as [j Hj].
  rewrite Hdest in Hj.
  unfold getDistanceBetweenAirports, airlinesThatOperateBetweenAirports.
  rewrite !(bind_Ok_l _ _ _ (deref_lookup _ _ _ Hs)).
  rewrite (distance_scan_list_find g target tx), (airlines_scan_list_find g target tx);
    try done; try (intros e' He'; exact (Hd source sx e' Hs He')).
  by rewrite Hj.
Qed.

(** X7.  The two queries about the flight between two airports, on a graph with
    distinct codes, valid flights and at most one flight per pair: for a
    flight [e] from [source] to [target] they return its distance and its
    airlines; the comparison by code of the source finds this very flight. *)
Theorem flight_between_airports (g : Graph) (source target : VertexPtr)
    (sx : Vertex) (e : Edge) :
  well_formed g → g !! source = Some sx → e ∈ adj sx → dest e = target →
  getDistanceBetweenAirports g source target = Ok (distance e) ∧
  airlinesThatOperateBetweenAirports g source target = Ok (airlines e).
Proof. apply flight_queries. Qed.

Lemma well_formed_Forall (g : Graph) :
  NoDup ((λ v, code (info v)) <$> g) →
  Forall (λ v, Forall (λ e, dest e < length g) (adj v)) g →
  Forall (λ v, NoDup (dest <$> adj v)) g →
  well_formed g.
Proof.
  intros H1 H2 H3. split_and!.
  - by apply unique_codes_NoDup.
  - by apply dests_valid_Forall.
  - by apply at_most_one_edge_Forall.
Qed.

Lemma flight_between_airports_witness :
  getDistanceBetweenAirports g_triangle 0 2 = Ok 1%float ∧
  airlinesThatOperateBetweenAirports g_triangle 0 2 = Ok ∅.
Proof.
  apply (flight_between_airports g_triangle 0 2 (vertex_ "A" 1 [1; 2] 0 0)
           (mkEdge 2 1 ∅)).
  - apply well_formed_Forall; by_compute.
  - reflexivity.
  - apply list_elem_of_lookup. by exists 1.
  - reflexivity.
Defined.

(** ** A flight line as an update of the graph *)

Lemma AirlineSet_insert_is_Some (a : Airline) (s : AirlineSet) c :
  is_Some (AirlineSet_insert a s !! c) ↔ is_Some (s !! c) ∨ c = airline_code a.
Proof.
  unfold AirlineSet_insert.
  destruct (s !! airline_code a) as [b|] eqn:E.
  - split; [by left|]. intros [?| ->]; [done|]. by rewrite E.
  - destruct (decide (c = airline_code a)) as [->|Hc].
    + rewrite lookup_insert_eq. split; [by right|by eexists].
    + rewrite lookup_insert_ne by done. naive_solver.
Qed.

Lemma dest_adj_with_flight t w al flights :
  dest <$> adj_with_flight t w al flights
  = if decide (t ∈ dest <$> flights) then dest <$> flights
    else (dest <$> flights) ++ [t].
Proof.
  unfold adj_with_flight.
  destruct (list_find _ flights) as [[j e]|] eqn:E.
  - apply list_find_Some in E as (Hj & He & _).
    rewrite decide_True.
    + by apply fmap_alter_same.
    + apply list_elem_of_fmap. exists e.
      split; [done|by eapply list_elem_of_lookup_2].
  - apply list_find_None in E. rewrite decide_False.
    + by rewrite fmap_app.
    + intros (e & -> & He)%list_elem_of_fmap.
      by apply (proj1 (Forall_forall _ _) E e He).
Qed.

Lemma adj_with_flight_elem t w al flights e' :
  e' ∈ adj_with_flight t w al flights →
  (∃ e, e ∈ flights ∧ dest e' = dest e ∧ distance e' = distance e) ∨
  (dest e' = t ∧ distance e' = w).
Proof.
  unfold adj_with_flight.
  destruct (list_find _ flights) as [[j e]|] eqn:E.
  - apply list_find_Some in E as (Hj & He & _).
    intros [k Hk]%list_elem_of_lookup. left.
    destruct (decide (j = k)) as [->|Hjk].
    + rewrite list_lookup_alter_eq, Hj in Hk. simplify_eq/=.
      exists e. split; [by eapply list_elem_of_lookup_2|done].
    + rewrite list_lookup_alter_ne in Hk by done.
      exists e'. split; [by eapply list_elem_of_lookup_2|done].
  - intros [He'| ->%list_elem_of_singleton]%elem_of_app.
    + left. by exists e'.
    + by right.
Qed.

Lemma adj_with_flight_operates t w al flights x c :
  (∃ e', e' ∈ adj_with_flight t w al flights ∧ dest e' = x ∧
         is_Some (airlines e' !! c)) ↔
  (∃ e, e ∈ flights ∧ dest e = x ∧ is_Some (airlines e !! c)) ∨
  (x = t ∧ c = airline_code al).
Proof.
  unfold adj_with_flight.
  destruct (list_find _ flights) as [[j e0]|] eqn:E.
  - apply list_find_Some in E as (Hj & He0 & _). split.
    + intros (e' & [k Hk]%list_elem_of_lookup & Hd & Hc).
      destruct (decide (j = k)) as [->|Hjk].
      * rewrite list_lookup_alter_eq, Hj in Hk. simplify_eq/=.
        apply AirlineSet_insert_is_Some in Hc as [Hc| ->]; [|by right].
        left. exists e0. split; [by eapply list_elem_of_lookup_2|done].
      * rewrite list_lookup_alter_ne in Hk by done.
        left. exists e'. split; [by eapply list_elem_of_lookup_2|done].
    + intros [(e & [k Hk]%list_elem_of_lookup & Hd & Hc)|[-> ->]].
      * destruct (decide (j = k)) as [->|Hjk].
        -- assert (e = e0) as -> by congruence.
           exists (Edge_addAirline al e0). split_and!; [|done|].
           ++ apply list_elem_of_lookup. exists k.
              by rewrite list_lookup_alter_eq, Hk.
           ++ apply AirlineSet_insert_is_Some. by left.
        -- exists e. split; [|done]. apply list_elem_of_lookup. exists k.
           by rewrite list_lookup_alter_ne.
      * exists (Edge_addAirline al e0). split_and!; [|done|].
        -- apply list_elem_of_lookup. exists j.
           by rewrite list_lookup_alter_eq, Hj.
        -- apply AirlineSet_insert_is_Some. by right.
  - split.
    + intros (e' & [He'| ->%list_elem_of_singleton]%elem_of_app & Hd & Hc).
      * left. by exists e'.
      * simpl in Hd. apply AirlineSet_insert_is_Some in Hc as [Hc|Hc].
        -- simpl in Hc. rewrite lookup_empty in Hc. by destruct Hc.
        -- by right.
    + intros [(e & He & Hd & Hc)|[-> ->]].
      * exists e. split; [|done]. apply elem_of_app. by left.
      * exists (Edge_addAirline al (mkEdge t w ∅)). split_and!; [|done|].
        -- apply elem_of_app. right. by left.
        -- apply AirlineSet_insert_is_Some. by right.
Qed.

Lemma well_formed_flight_added vs vt w al (g : Graph) :
  well_formed g → vt < length g → well_formed (flight_added vs vt w al g).
Proof.
  intros (Hu & Hd & Ho) Hvt. split_and!.
  - apply (unique_codes_infos g); [|done]. by rewrite info_flight_added.
  - intros u ux' e' Hu' He'. rewrite length_flight_added.
    destruct (lookup_lt_is_Some_2 g u) as [ux Hux].
    { rewrite <-(length_flight_added vs vt w al). by eapply lookup_lt_Some. }
    rewrite (lookup_flight_added _ _ _ _ _ _ _ Hux) in Hu'. simplify_eq/=.
    destruct (decide (u = vs)) as [->|]; [|by eapply Hd].
    apply adj_with_flight_elem in He' as [(e & He & Hde & _)|[Hde _]].
    + rewrite Hde. by eapply Hd.
    + by rewrite Hde.
  - intros u ux' Hu'.
    destruct (lookup_lt_is_Some_2 g u) as [ux Hux].
    { rewrite <-(length_flight_added vs vt w al). by eapply lookup_lt_Some. }
    rewrite (lookup_flight_added _ _ _ _ _ _ _ Hux) in Hu'. simplify_eq/=.
    destruct (decide (u = vs)) as [->|]; [|by eapply Ho].
    rewrite dest_adj_with_flight. case_decide; [by eapply Ho|].
    apply NoDup_app. split_and!; [by eapply Ho| |apply NoDup_singleton].
    by intros x Hx ->%list_elem_of_singleton.
Qed.

Lemma operates_flight_added vs vt w al (g : Graph) u x c :
  vs < length g →
  operates (flight_added vs vt w al g) u x c ↔
  operates g u x c ∨ (u = vs ∧ x = vt ∧ c = airline_code al).
Proof.
  intros Hvs. unfold operates. split.
  - intros (ux' & e' & Hu' & He' & Hd & Hc).
    destruct (lookup_lt_is_Some_2 g u) as [ux Hux].
    { rewrite <-(length_flight_added vs vt w al). by eapply lookup_lt_Some. }
    rewrite (lookup_flight_added _ _ _ _ _ _ _ Hux) in Hu'. simplify_eq/=.
    destruct (decide (u = vs)) as [->|]; [|left; by exists ux, e'].
    destruct (proj1 (adj_with_flight_operates vt w al (adj ux) (dest e') c))
      as [(e & He & Hde & Hce)|[? ?]]; [by exists e'| |by right].
    left. by exists ux, e.
  - intros [(ux & e & Hux & He & Hd & Hc)|(-> & -> & ->)].
    + pose proof (lookup_flight_added vs vt w al g u ux Hux) as Hfa.
      destruct (decide (u = vs)) as [->|Hne].
      * destruct (proj2 (adj_with_flight_operates vt w al (adj ux) x c))
          as (e' & He' & Hde' & Hce'); [left; by exists e|].
        by eexists _, e'.
      * by eexists _, e.
    + destruct (lookup_lt_is_Some_2 g vs Hvs) as [sx Hsx].
      pose proof (lookup_flight_added vs vt w al g vs sx Hsx) as Hfa.
      destruct (proj2 (adj_with_flight_operates vt w al (adj sx) vt
                         (airline_code al)))
        as (e' & He' & Hde' & Hce'); [by right|].
      eexists _, e'. split; [exact Hfa|]. cbn [adj].
      by rewrite decide_True.
Qed.

Lemma foldl_sum_cons {A} (f : A → Z) (x : A) (l : list A) :
  foldl (λ t v, (t + f v)%Z) 0%Z (x :: l)
  = (f x + foldl (λ t v, (t + f v)%Z) 0%Z l)%Z.
Proof. cbn [foldl]. by rewrite foldl_sum_shift, Z.add_0_l. Qed.

Lemma foldl_sum_same (f : Vertex → Z) (l : Graph) :
  ∀ l' : Graph,
    length l' = length l →
    (∀ i v v', l !! i = Some v → l' !! i = Some v' → f v' = f v) →
    foldl (λ t v, (t + f v)%Z) 0%Z l' = foldl (λ t v, (t + f v)%Z) 0%Z l.
Proof.
  induction l as [|x l IH]; intros [|x' l'] Hlen H; try done.
  rewrite !foldl_sum_cons, (H 0 x x' eq_refl eq_refl).
  f_equal. apply IH; [by injection Hlen|].
  intros i v v' Hi Hi'. by apply (H (S i)).
Qed.

(** The [int] accumulation of a sum is the sum, reduced once. *)
Lemma foldl_wrap_sum {A} (f : A → Z) (l : list A) :
  ∀ a, foldl (λ t v, wrap_int (t + f v)) (wrap_int a) l
       = wrap_int (foldl (λ t v, (t + f v)%Z) a l).
Proof.
  induction l as [|x l IH]; intros a; [done|].
  cbn [foldl]. by rewrite wrap_int_add_l, IH.
Qed.

Lemma searchNumberOfAvailableFlights_sum (g : Graph) :
  searchNumberOfAvailableFlights g
  = wrap_int (foldl (λ t v, (t + flightsTo v)%Z) 0%Z g).
Proof.
  unfold searchNumberOfAvailableFlights.
  change 0%Z with (wrap_int 0) at 1. apply foldl_wrap_sum.
Qed.

Lemma foldl_sum_update (f : Vertex → Z) (d : Z) (l : Graph) :
  ∀ (l' : Graph) j,
    length l' = length l → j < length l →
    (∀ i v v', l !! i = Some v → l' !! i = Some v' →
               f v' = if decide (i = j) then wrap_int (f v + d) else f v) →
    wrap_int (foldl (λ t v, (t + f v)%Z) 0%Z l')
    = wrap_int (foldl (λ t v, (t + f v)%Z) 0%Z l + d).
Proof.
  induction l as [|x l IH]; intros [|x' l'] j Hlen Hj H; try done.
  { simpl in Hj. lia. }
  rewrite !foldl_sum_cons, (H 0 x x' eq_refl eq_refl).
  destruct j as [|j].
  - rewrite decide_True by done.
    rewrite (foldl_sum_same f l l'); [|by injection Hlen|].
    + rewrite wrap_int_add_l. f_equal. lia.
    + intros i v v' Hi Hi'. rewrite (H (S i) v v' Hi Hi').
      by rewrite decide_False.
  - rewrite decide_False by done.
    rewrite <-wrap_int_add_r, (IH l' j), wrap_int_add_r;
      [f_equal; lia|by injection Hlen|simpl in Hj; lia|].
    intros i v v' Hi Hi'. rewrite (H (S i) v v' Hi Hi').
    destruct (decide (i = j)) as [->|];
      [by rewrite decide_True|by rewrite decide_False by lia].
Qed.

Lemma sum_flightsTo_flight_added vs vt w al (g : Graph) :
  vt < length g →
  searchNumberOfAvailableFlights (flight_added vs vt w al g)
  = wrap_int (searchNumberOfAvailableFlights g + 1).
Proof.
  intros Hvt. rewrite !searchNumberOfAvailableFlights_sum, wrap_int_add_l.
  apply (foldl_sum_update flightsTo 1 g _ vt);
    [apply length_flight_added|done|].
  intros i v v' Hi Hi'.
  rewrite (lookup_flight_added _ _ _ _ _ _ _ Hi) in Hi'. by simplify_eq/=.
Qed.

(** [n] increments of an [int] counter. *)
Lemma iter_increment (n : nat) (z : Z) :
  int_range z →
  Nat.iter n (λ c, wrap_int (c + 1)) z = wrap_int (z + Z.of_nat n).
Proof.
  intros Hz. induction n as [|n IH].
  - simpl. by rewrite Z.add_0_r, wrap_int_small.
  - rewrite Nat.iter_succ, IH, wrap_int_add_l. f_equal. lia.
Qed.

Section parse_all.
Variable HarversineDistance : float → float → float → float → float.
Variable airlinesInfo : AirlineSet.

Lemma distances_recorded_flight_added vs vt al (g : Graph) sx tx :
  distances_recorded HarversineDistance g →
  g !! vs = Some sx → g !! vt = Some tx →
  distances_recorded HarversineDistance
    (flight_added vs vt
       (Airport_getDistance HarversineDistance (info sx) (location (info tx)))
       al g).
Proof.
  intros Hrec Hs Ht u ux' e' Hu' He'.
  set (w := Airport_getDistance _ _ _) in *.
  destruct (lookup_lt_is_Some_2 g u) as [ux Hux].
  { rewrite <-(length_flight_added vs vt w al). by eapply lookup_lt_Some. }
  rewrite (lookup_flight_added _ _ _ _ _ _ _ Hux) in Hu'. simplify_eq/=.
  assert (∀ e, e ∈ adj ux →
            ∃ dx, flight_added vs vt w al g !! dest e = Some dx ∧
                  distance e = Airport_getDistance HarversineDistance (info ux)
                                 (location (info dx))) as Hold.
  { intros e He. destruct (Hrec u ux e Hux He) as (dx & Hdx & Hdist).
    eexists. rewrite (lookup_flight_added _ _ _ _ _ _ _ Hdx). done. }
  destruct (decide (u = vs)) as [->|]; [|by apply Hold].
  apply adj_with_flight_elem in He' as [(e & He & Hde & Hdi)|[Hde Hdi]].
  - rewrite Hde, Hdi. by apply Hold.
  - eexists. rewrite Hde, (lookup_flight_added _ _ _ _ _ _ _ Ht).
    split; [done|]. rewrite Hdi. simpl. by simplify_eq.
Qed.

Lemma parseFlight_unknown (g : Graph) source target airlineCode :
  airportOfCode g source = None ∨ airportOfCode g target = None →
  parseFlight HarversineDistance airlinesInfo g (source, target, airlineCode)
  = Undefined.
Proof.
  intros H. unfold parseFlight.
  fold (airportOfCode g source) (airportOfCode g target).
  destruct (airportOfCode g source) as [vs|] eqn:Hs; [|done].
  destruct H as [?|Ht]; [done|]. rewrite Ht.
  destruct (airportOfCode_Some _ _ _ Hs) as (sx & Hsx & _).
  cbn [deref_found]. rewrite (bind_Ok_l _ _ _ (deref_lookup _ _ _ Hsx)).
  destruct (adj sx) as [|e rest] eqn:Hadj.
  - done.
  - by rewrite pf_findEdge_unknown.
Qed.

Lemma known_airports_infos (g g' : Graph) lines :
  info <$> g = info <$> g' → known_airports g lines → known_airports g' lines.
Proof.
  intros H Hk line Hl. rewrite <-!(airportOfCode_infos g g' _ H). by apply Hk.
Qed.

Lemma lines_from_cons c (line : string * string * string) rest :
  lines_from c (line :: rest)
  = (if decide (line.1.1 = c) then 1 else 0) + lines_from c rest.
Proof. unfold lines_from. rewrite filter_cons. by case_decide. Qed.

Lemma lines_to_cons c (line : string * string * string) rest :
  lines_to c (line :: rest)
  = (if decide (line.1.2 = c) then 1 else 0) + lines_to c rest.
Proof. unfold lines_to. rewrite filter_cons. by case_decide. Qed.

(** The whole loop on lines that name airports of the graph. *)
Lemma parseFlights_run lines :
  ∀ g : Graph,
    well_formed g → known_airports g lines →
    ∃ g', parseFlights HarversineDistance airlinesInfo g lines = Ok g' ∧
          well_formed g' ∧ info <$> g' = info <$> g ∧
          (distances_recorded HarversineDistance g →
           distances_recorded HarversineDistance g') ∧
          (∀ u x c,
             operates g' u x c ↔
             operates g u x c ∨
             ∃ line, line ∈ lines ∧ airportOfCode g line.1.1 = Some u ∧
                     airportOfCode g line.1.2 = Some x ∧
                     c = airline_code (getAirline airlinesInfo line.2)) ∧
          (∀ i v, g !! i = Some v →
             ∃ v', g' !! i = Some v' ∧
                   flightsFrom v'
                   = Nat.iter (lines_from (code (info v)) lines)
                              (λ c, wrap_int (c + 1)) (flightsFrom v) ∧
                   flightsTo v'
                   = Nat.iter (lines_to (code (info v)) lines)
                              (λ c, wrap_int (c + 1)) (flightsTo v)) ∧
          searchNumberOfAvailableFlights g'
          = wrap_int (searchNumberOfAvailableFlights g
                      + Z.of_nat (length lines)).
Proof.
  induction lines as [|[[source target] airlineCode] rest IH]; intros g Hwf Hk.
  { exists g. split_and!; try done.
    - intros u x c. split; [by left|]. intros [?|(l & ?%elem_of_nil & _)]; done.
    - intros i v Hi. by exists v.
    - rewrite searchNumberOfAvailableFlights_sum, wrap_int_add_l.
      by rewrite Z.add_0_r. }
  destruct (Hk (source, target, airlineCode)) as [[vs Hfs] [vt Hft]]; [by left|].
  simpl in Hfs, Hft.
  destruct (airportOfCode_Some _ _ _ Hfs) as (sx & Hsx & Hcs).
  destruct (airportOfCode_Some _ _ _ Hft) as (tx & Htx & Hct).
  pose proof (lookup_lt_Some _ _ _ Hsx) as Hls.
  pose proof (lookup_lt_Some _ _ _ Htx) as Hlt.
  set (w := Airport_getDistance HarversineDistance (info sx) (location (info tx))).
  set (al := getAirline airlinesInfo airlineCode).
  pose proof (parseFlight_run HarversineDistance airlinesInfo g source target
                airlineCode vs vt sx tx Hwf Hfs Hft Hsx Htx) as Hstep.
  fold w al in Hstep.
  set (g1 := flight_added vs vt w al g) in *.
  assert (info <$> g1 = info <$> g) as Hinfo1 by apply info_flight_added.
  destruct (IH g1) as (g' & Hrun & Hwf' & Hinfo & Hdist & Hop & Hcnt & Hsum).
  { by apply well_formed_flight_added. }
  { apply (known_airports_infos g); [done|].
    intros line Hl. apply Hk. by right. }
  exists g'. cbn [parseFlights]. rewrite (bind_Ok_l _ _ _ Hstep).
  split_and!; [done|done|congruence| | | |].
  - intros Hrec. apply Hdist. by apply distances_recorded_flight_added.
  - intros u x c. rewrite Hop.
    assert (∀ c', airportOfCode g1 c' = airportOfCode g c') as Ha
      by (intros; by apply airportOfCode_infos).
    pose proof (operates_flight_added vs vt w al g u x c Hls) as Hop1.
    fold g1 in Hop1. split.
    + intros [[?|(-> & -> & ->)]%Hop1|(line & Hl & H1 & H2 & ->)].
      * by left.
      * right. exists (source, target, airlineCode). split; [by left|done].
      * right. exists line. rewrite <-!Ha. split; [by right|done].
    + intros [?|(line & [->|Hl]%elem_of_cons & H1 & H2 & ->)].
      * left. apply Hop1. by left.
      * left. apply Hop1. right. simpl in *.
        split_and!; [congruence|congruence|done].
      * right. exists line. by rewrite !Ha.
  - intros i v Hi.
    pose proof (lookup_flight_added vs vt w al g i v Hi) as Hi1.
    fold g1 in Hi1.
    destruct (Hcnt i _ Hi1) as (v' & Hv' & Hfrom & Hto).
    exists v'. split; [done|]. cbn [info flightsFrom flightsTo] in Hfrom, Hto.
    rewrite Hfrom, Hto, lines_from_cons, lines_to_cons. cbn [fst snd].
    pose proof (proj1 Hwf) as Hu.
    assert (i = vs ↔ source = code (info v)) as Hiff1.
    { split; [intros ->; congruence|]. intros ->.
      pose proof (airportOfCode_unique g i v Hu Hi). congruence. }
    assert (i = vt ↔ target = code (info v)) as Hiff2.
    { split; [intros ->; congruence|]. intros ->.
      pose proof (airportOfCode_unique g i v Hu Hi). congruence. }
    rewrite (Nat.add_comm _ (lines_from _ _)), (Nat.add_comm _ (lines_to _ _)),
      !Nat.iter_add.
    split.
    + destruct (decide (i = vs)), (decide (source = code (info v)));
        try done; tauto.
    + destruct (decide (i = vt)), (decide (target = code (info v)));
        try done; tauto.
  - rewrite Hsum. unfold g1. rewrite sum_flightsTo_flight_added by done.
    rewrite wrap_int_add_l. cbn [length]. f_equal. lia.
Qed.

(** A run that returns has only met lines that name airports of the
    graph. *)
Lemma parseFlights_Ok_known lines :
  ∀ g g' : Graph,
    well_formed g →
    parseFlights HarversineDistance airlinesInfo g lines = Ok g' →
    known_airports g lines.
Proof.
  induction lines as [|[[source target] airlineCode] rest IH];
    intros g g' Hwf H.
  { by intros line ?%elem_of_nil. }
  cbn [parseFlights] in H. apply bind_Ok in H as (g1 & Hstep & H).
  destruct (airportOfCode g source) as [vs|] eqn:Hfs;
    [|by rewrite parseFlight_unknown in Hstep by by left].
  destruct (airportOfCode g target) as [vt|] eqn:Hft;
    [|by rewrite parseFlight_unknown in Hstep by by right].
  destruct (airportOfCode_Some _ _ _ Hfs) as (sx & Hsx & Hcs).
  destruct (airportOfCode_Some _ _ _ Hft) as (tx & Htx & Hct).
  rewrite (parseFlight_run HarversineDistance airlinesInfo g source target
             airlineCode vs vt sx tx Hwf Hfs Hft Hsx Htx) in Hstep.
  injection Hstep as <-.
  intros line [->|Hl]%elem_of_cons.
  - simpl. by rewrite Hfs, Hft.
  - eapply (known_airports_infos _ g); [apply info_flight_added| |done].
    eapply IH; [|done]. apply well_formed_flight_added; [done|].
    by eapply lookup_lt_Some.
Qed.

Lemma parseFlights_unknown lines :
  ∀ g : Graph,
    well_formed g → ¬ known_airports g lines →
    parseFlights HarversineDistance airlinesInfo g lines = Undefined.
Proof.
  induction lines as [|[[source target] airlineCode] rest IH]; intros g Hwf Hk.
  { destruct Hk. by intros line ?%elem_of_nil. }
  cbn [parseFlights].
  destruct (airportOfCode g source) as [vs|] eqn:Hfs;
    [|by rewrite parseFlight_unknown by by left].
  destruct (airportOfCode g target) as [vt|] eqn:Hft;
    [|by rewrite parseFlight_unknown by by right].
  destruct (airportOfCode_Some _ _ _ Hfs) as (sx & Hsx & Hcs).
  destruct (airportOfCode_Some _ _ _ Hft) as (tx & Htx & Hct).
  rewrite (parseFlight_run HarversineDistance airlinesInfo g source target
             airlineCode vs vt sx tx Hwf Hfs Hft Hsx Htx).
  rewrite bind_ret_Ok. apply IH.
  - apply well_formed_flight_added; [done|]. by eapply lookup_lt_Some.
  - intros Hk'. apply Hk. intros line [->|Hl]%elem_of_cons.
    + simpl. by rewrite Hfs, Hft.
    + eapply (known_airports_infos _ g); [apply info_flight_added| |done].
      by apply Hk'.
Qed.
End parse_all.

(** ** What the loaded graph answers *)

Lemma airlines_operates (g : Graph) vs vt :
  well_formed g → vs < length g → vt < length g →
  ∃ S, airlinesThatOperateBetweenAirports g vs vt = Ok S ∧
       ∀ c, is_Some (S !! c) ↔ operates g vs vt c.
Proof.
  intros (Hu & Hd & Ho) Hvs Hvt.
  destruct (lookup_lt_is_Some_2 g vs Hvs) as [sx Hsx].
  destruct (lookup_lt_is_Some_2 g vt Hvt) as [tx Htx].
  unfold airlinesThatOperateBetweenAirports.
  rewrite (bind_Ok_l _ _ _ (deref_lookup _ _ _ Hsx)).
  rewrite (airlines_scan_list_find g vt tx) by
    (try done; intros e He; exact (Hd vs sx e Hsx He)).
  eexists. split; [done|]. intros c.
  destruct (list_find _ (adj sx)) as [[j e]|] eqn:E; simpl.
  - pose proof E as (Hj & He & _)%list_find_Some. split.
    + intros Hc. exists sx, e.
      split_and!; [done|by eapply list_elem_of_lookup_2|done..].
    + intros (sx' & e' & Hsx' & He' & Hde' & Hc). simplify_eq.
      destruct (list_find_NoDup_dest (adj sx) e' (Ho vs sx Hsx) He')
        as [j' Hj'].
      rewrite Hde', E in Hj'. by simplify_eq.
  - rewrite lookup_empty. split; [by intros []|].
    intros (sx' & e' & Hsx' & He' & Hde' & Hc). simplify_eq.
    apply list_find_None in E.
    by destruct (proj1 (Forall_forall _ _) E e' He').
Qed.

Section loaded.
Variable HarversineDistance : float → float → float → float → float.
Variable airlinesInfo : AirlineSet.

(** X8.  [parseFlights] on a well-formed graph returns exactly when every line
    names two airports of the graph; the graph it returns is well formed and
    holds the same airports.  A line with an unknown source or target makes
    the loop dereference the null pointer [findVertex] returned. *)
Theorem parseFlights_defined (g : Graph)
    (lines : list (string * string * string)) :
  well_formed g →
  (known_airports g lines →
   ∃ g', parseFlights HarversineDistance airlinesInfo g lines = Ok g' ∧
         well_formed g' ∧ info <$> g' = info <$> g) ∧
  (¬ known_airports g lines →
   parseFlights HarversineDistance airlinesInfo g lines = Undefined).
Proof.
  intros Hwf. split.
  - intros Hk.
    destruct (parseFlights_run HarversineDistance airlinesInfo lines g Hwf Hk)
      as (g' & H & Hwf' & Hinfo & _).
    by exists g'.
  - by apply parseFlights_unknown.
Qed.

(** X9.  After [parseFlights], [airlinesThatOperateBetweenAirports] answers for
    every pair of airports with the airlines recorded between them: those
    that were there before and those of the lines read for this pair, the
    airline of a line being the one of [airlinesInfo] with its code, or the
    default airline. *)
Theorem parseFlights_records_airlines (g g' : Graph)
    (lines : list (string * string * string)) (vs vt : VertexPtr) :
  well_formed g →
  parseFlights HarversineDistance airlinesInfo g lines = Ok g' →
  vs < length g → vt < length g →
  ∃ S, airlinesThatOperateBetweenAirports g' vs vt = Ok S ∧
       ∀ c, is_Some (S !! c) ↔
            operates g vs vt c ∨
            ∃ line, line ∈ lines ∧ airportOfCode g line.1.1 = Some vs ∧
                    airportOfCode g line.1.2 = Some vt ∧
                    c = airline_code (getAirline airlinesInfo line.2).
Proof.
  intros Hwf H Hvs Hvt.
  pose proof (parseFlights_Ok_known HarversineDistance airlinesInfo lines g g'
                Hwf H) as Hk.
  destruct (parseFlights_run HarversineDistance airlinesInfo lines g Hwf Hk)
    as (g'' & H' & Hwf' & Hinfo & _ & Hop & _).
  rewrite H in H'. injection H' as <-.
  assert (length g' = length g) as Hlen.
  { by rewrite <-(length_fmap info g'), Hinfo, length_fmap. }
  destruct (airlines_operates g' vs vt) as (S & HS & Hiff); [done|lia..|].
  exists S. split; [done|]. intros c. by rewrite Hiff, Hop.
Qed.

(** X10.  The flight counters after [parseFlights], in [int] arithmetic:
    [flightsFrom] of an airport has grown by the number of lines with its
    code as source and [flightsTo] by the number of lines with its code as
    target, and [searchNumberOfAvailableFlights] by the number of lines,
    each sum being reduced into the [int] range (so it is the exact sum as
    long as that does not pass [INT_MAX], see [wrap_int_small]). *)
Theorem parseFlights_counts (g g' : Graph)
    (lines : list (string * string * string)) :
  well_formed g →
  parseFlights HarversineDistance airlinesInfo g lines = Ok g' →
  searchNumberOfAvailableFlights g'
  = wrap_int (searchNumberOfAvailableFlights g + Z.of_nat (length lines)) ∧
  ∀ i v, g !! i = Some v →
    int_range (flightsFrom v) → int_range (flightsTo v) →
    searchNumberOfFlightsOutOfAirport g' i
    = Ok (wrap_int (flightsFrom v
                    + Z.of_nat (lines_from (code (info v)) lines))) ∧
    searchNumberOfFlightsToAirport g' i
    = Ok (wrap_int (flightsTo v
                    + Z.of_nat (lines_to (code (info v)) lines))).
Proof.
  intros Hwf H.
  pose proof (parseFlights_Ok_known HarversineDistance airlinesInfo lines g g'
                Hwf H) as Hk.
  destruct (parseFlights_run HarversineDistance airlinesInfo lines g Hwf Hk)
    as (g'' & H' & _ & _ & _ & _ & Hcnt & Hsum).
  rewrite H in H'. injection H' as <-.
  split; [done|]. intros i v Hi Hrf Hrt.
  destruct (Hcnt i v Hi) as (v' & Hv' & Hfrom & Hto).
  unfold searchNumberOfFlightsOutOfAirport, searchNumberOfFlightsToAirport.
  rewrite !(bind_Ok_l _ _ _ (deref_lookup _ _ _ Hv')).
  by rewrite Hfrom, Hto, !iter_increment.
Qed.

(** X11.  The distance of a flight is the distance between the coordinates of its
    two airports: [parseFlights] keeps this true, so that afterwards
    [getDistanceBetweenAirports] returns, for two airports joined by a
    flight, the distance between their coordinates. *)
Theorem parseFlights_distances (g g' : Graph)
    (lines : list (string * string * string))
    (u x : VertexPtr) (ux xx : Vertex) :
  well_formed g → distances_recorded HarversineDistance g →
  parseFlights HarversineDistance airlinesInfo g lines = Ok g' →
  g' !! u = Some ux → g' !! x = Some xx → has_edge g' u x →
  getDistanceBetweenAirports g' u x
  = Ok (Airport_getDistance HarversineDistance (info ux) (location (info xx))).
Proof.
  intros Hwf Hrec H Hu Hx (ux' & e & Hu' & He & Hde).
  pose proof (parseFlights_Ok_known HarversineDistance airlinesInfo lines g g'
                Hwf H) as Hk.
  destruct (parseFlights_run HarversineDistance airlinesInfo lines g Hwf Hk)
    as (g'' & H' & Hwf' & _ & Hdist & _).
  rewrite H in H'. injection H' as <-. simplify_eq.
  destruct (flight_queries g' u (dest e) ux e Hwf' Hu He eq_refl) as [-> _].
  destruct (Hdist Hrec u ux e Hu He) as (dx & Hdx & ->). by simplify_eq.
Qed.
End loaded.

Lemma well_formed_g_two_airports : well_formed g_two_airports.
Proof. apply well_formed_Forall; by_compute. Qed.

Lemma parseFlights_defined_witness :
  (known_airports g_two_airports three_lines →
   ∃ g', parseFlights (λ _ _ _ _, 1%float) ∅ g_two_airports three_lines
         = Ok g' ∧
         well_formed g' ∧ info <$> g' = info <$> g_two_airports) ∧
  (¬ known_airports g_two_airports three_lines →
   parseFlights (λ _ _ _ _, 1%float) ∅ g_two_airports three_lines
   = Undefined).
Proof.
  apply (parseFlights_defined (λ _ _ _ _, 1%float) ∅ g_two_airports
           three_lines).
  apply well_formed_Forall; by_compute.
Defined.

Lemma parseFlights_records_airlines_witness :
  ∃ S, airlinesThatOperateBetweenAirports
         (graph_of (parseFlights (λ _ _ _ _, 1%float) ∅ g_two_airports
                                 three_lines)) 0 1 = Ok S ∧
       ∀ c, is_Some (S !! c) ↔
            operates g_two_airports 0 1 c ∨
            ∃ line, line ∈ three_lines ∧
                    airportOfCode g_two_airports line.1.1 = Some 0 ∧
                    airportOfCode g_two_airports line.1.2 = Some 1 ∧
                    c = airline_code (getAirline ∅ line.2).
Proof.
  apply (parseFlights_records_airlines (λ _ _ _ _, 1%float) ∅ g_two_airports
           _ three_lines 0 1).
  - apply well_formed_Forall; by_compute.
  - reflexivity.
  - simpl; lia.
  - simpl; lia.
Defined.

Lemma parseFlights_counts_witness :
  searchNumberOfAvailableFlights
    (graph_of (parseFlights (λ _ _ _ _, 1%float) ∅ g_two_airports three_lines))
  = wrap_int (searchNumberOfAvailableFlights g_two_airports
              + Z.of_nat (length three_lines)) ∧
  ∀ i v, g_two_airports !! i = Some v →
    int_range (flightsFrom v) → int_range (flightsTo v) →
    searchNumberOfFlightsOutOfAirport
      (graph_of (parseFlights (λ _ _ _ _, 1%float) ∅ g_two_airports
                              three_lines)) i
    = Ok (wrap_int (flightsFrom v
                    + Z.of_nat (lines_from (code (info v)) three_lines))) ∧
    searchNumberOfFlightsToAirport
      (graph_of (parseFlights (λ _ _ _ _, 1%float) ∅ g_two_airports
                              three_lines)) i
    = Ok (wrap_int (flightsTo v
                    + Z.of_nat (lines_to (code (info v)) three_lines))).
Proof.
  apply (parseFlights_counts (λ _ _ _ _, 1%float) ∅ g_two_airports _
           three_lines).
  - apply well_formed_Forall; by_compute.
  - reflexivity.
Defined.

Lemma parseFlights_distances_witness :
  getDistanceBetweenAirports
    (graph_of (parseFlights (λ _ _ _ _, 1%float) ∅ g_two_airports three_lines))
    0 1
  = Ok 1%float.
Proof.
  eapply (parseFlights_distances (λ _ _ _ _, 1%float) ∅ g_two_airports _
            three_lines 0 1).
  - apply well_formed_Forall; by_compute.
  - intros u ux e Hu He. destruct u as [|[|u]]; simplify_eq/=;
      by apply elem_of_nil in He.
  - reflexivity.
  - reflexivity.
  - reflexivity.
  - rewrite has_edge_successors. by_compute.
Defined.

(** * Depth-first and breadth-first traversals *)

Lemma walk_trans (g : Graph) a b c j k :
  walk g a b j → walk g b c k → walk g a c (j + k).
Proof.
  intros Hab. induction 1 as [|u v k Hw IH He].
  - by rewrite Nat.add_0_r.
  - rewrite Nat.add_succ_r. by eapply walk_step.
Qed.

Lemma walk_edge (g : Graph) a b : has_edge g a b → walk g a b 1.
Proof. intros H. eapply walk_step; [apply walk_here|done]. Qed.

Lemma walk_lt (g : Graph) s u k :
  dests_valid g → s < length g → walk g s u k → u < length g.
Proof.
  intros Hd Hs. induction 1 as [|u v k Hw IH (ux & e & Hu & He & <-)]; [done|].
  by eapply Hd.
Qed.

Lemma is_visited_lt (g : Graph) u : is_visited g u → u < length g.
Proof. intros (ux & Hu & _). exact (lookup_lt_Some _ _ _ Hu). Qed.

Lemma is_visited_dec (g : Graph) u : is_visited g u ∨ ¬ is_visited g u.
Proof.
  destruct (g !! u) as [ux|] eqn:Hu.
  - destruct (visited ux) eqn:Hv.
    + left. by exists ux.
    + right. intros (ux' & Hu' & Hv'). congruence.
  - right. intros (ux' & Hu' & _). congruence.
Qed.

Lemma unvisited_mono (g g' : Graph) :
  same_but_visited g g' → (∀ u, is_visited g u → is_visited g' u) →
  unvisited g' ≤ unvisited g.
Proof.
  intros Hs Hm. pose proof (same_but_visited_length _ _ Hs) as Hlen.
  clear Hs. revert g' Hm Hlen. unfold unvisited.
  induction g as [|x g IH]; intros [|x' g'] Hm Hlen; try done.
  rewrite !filter_cons.
  assert (length (filter (λ v, visited v = false) g')
          ≤ length (filter (λ v, visited v = false) g)) as Hle.
  { apply IH; [|by injection Hlen].
    intros u (ux & Hu & Hv). destruct (Hm (S u)) as (ux' & Hu' & Hv').
    - by exists ux.
    - by exists ux'. }
  destruct (decide (visited x' = false)) as [Hx'|Hx'];
    destruct (decide (visited x = false)) as [Hx|Hx]; simpl; try lia.
  destruct (Hm 0) as (y & Hy & Hvy).
  - exists x. split; [done|]. by destruct (visited x).
  - simplify_eq/=. congruence.
Qed.

(** ** The traversal, piece by piece *)

Lemma dfs_post_nil (g : Graph) : dfs_post g [] g [].
Proof.
  split_and!.
  - apply same_but_visited_refl.
  - apply NoDup_nil_2.
  - by intros u ?%elem_of_nil.
  - intros u. split; [by left|]. by intros [?|?%elem_of_nil].
  - by intros u ?%elem_of_nil.
  - by intros u w ?%elem_of_nil.
  - by intros s ?%elem_of_nil.
Qed.

Lemma dfs_post_skip (g : Graph) s : is_visited g s → dfs_post g [s] g [].
Proof.
  intros Hs. split_and!.
  - apply same_but_visited_refl.
  - apply NoDup_nil_2.
  - by intros u ?%elem_of_nil.
  - intros u. split; [by left|]. by intros [?|?%elem_of_nil].
  - by intros u ?%elem_of_nil.
  - by intros u w ?%elem_of_nil.
  - by intros s' ->%list_elem_of_singleton.
Qed.

Lemma dfs_post_seq (g g1 g' : Graph) roots1 roots2 o1 o2 :
  dfs_post g roots1 g1 o1 → dfs_post g1 roots2 g' o2 →
  dfs_post g (roots1 ++ roots2) g' (o1 ++ o2).
Proof.
  intros (Hs1 & Hn1 & Hu1 & Hv1 & Hr1 & Hc1 & Ht1)
         (Hs2 & Hn2 & Hu2 & Hv2 & Hr2 & Hc2 & Ht2).
  split_and!.
  - by eapply same_but_visited_trans.
  - apply NoDup_app. split_and!; [done| |done].
    intros u Hu Hu'. apply (proj2 (Hu2 u Hu')). apply Hv1. by right.
  - intros u [Hu|Hu]%elem_of_app; [by apply Hu1|].
    destruct (Hu2 u Hu) as [Hlt Hnv]. split.
    + by rewrite (same_but_visited_length _ _ Hs1).
    + intros Hv. apply Hnv, Hv1. by left.
  - intros u. rewrite Hv2, Hv1, elem_of_app. tauto.
  - intros u [Hu|Hu]%elem_of_app.
    + destruct (Hr1 u Hu) as (s & k & Hs & Hw). exists s, k.
      split; [|done]. apply elem_of_app. by left.
    + destruct (Hr2 u Hu) as (s & k & Hs & Hw). exists s, k.
      split; [apply elem_of_app; by right|].
      eapply same_but_visited_walk; [|exact Hw].
      by apply same_but_visited_sym.
  - intros u w [Hu|Hu]%elem_of_app He.
    + apply Hv2. left. by eapply Hc1.
    + eapply Hc2; [done|]. by apply (same_but_visited_has_edge g g1).
  - intros s [Hs|Hs]%elem_of_app.
    + apply Hv2. left. by apply Ht1.
    + by apply Ht2.
Qed.

Lemma dfs_post_node (g g' : Graph) v vx o1 :
  g !! v = Some vx → visited vx = false →
  dfs_post (<[v := setVisited true vx]> g) (dest <$> adj vx) g' o1 →
  dfs_post g [v] g' (v :: o1).
Proof.
  intros Hv Hf (Hs & Hn & Hu & Hvis & Hr & Hc & Ht).
  pose proof (same_but_visited_insert g v vx true Hv) as Hs1.
  pose proof (is_visited_mark g v vx) as Hmark.
  assert (¬ is_visited g v) as Hnv by by eapply not_is_visited.
  split_and!.
  - by eapply same_but_visited_trans.
  - apply NoDup_cons. split; [|done].
    intros Hin. apply (proj2 (Hu v Hin)), Hmark; [done|by left].
  - intros u [->|Hin]%elem_of_cons.
    + split; [by eapply lookup_lt_Some|done].
    + destruct (Hu u Hin) as [Hlt Hnu]. rewrite length_insert in Hlt.
      split; [done|]. intros Hvu. apply Hnu, Hmark; [done|by right].
  - intros u. rewrite Hvis, Hmark, elem_of_cons by done. tauto.
  - intros u [->|Hin]%elem_of_cons.
    + exists v, 0. split; [by left|apply walk_here].
    + destruct (Hr u Hin) as (s & k & Hsin & Hw).
      exists v, (1 + k). split; [by left|].
      apply (walk_trans g v s u 1 k).
      * apply walk_edge. by apply (has_edge_elem_of g v vx).
      * eapply same_but_visited_walk; [|exact Hw].
        by apply same_but_visited_sym.
  - intros u w [->|Hin]%elem_of_cons He.
    + apply Ht. by apply (has_edge_elem_of g v vx).
    + eapply Hc; [done|]. by apply (same_but_visited_has_edge g).
  - intros s ->%list_elem_of_singleton. apply Hvis. left.
    apply Hmark; [done|by left].
Qed.

Section dfsWith_facts.
Context {R : Type}.
Variable process : VertexPtr → Vertex → R → R.

Lemma processAll_app (g : Graph) o1 o2 (r : R) :
  processAll process g (o1 ++ o2) r
  = processAll process g o2 (processAll process g o1 r).
Proof. apply foldl_app. Qed.

Lemma processAll_same (g g1 : Graph) o (r : R) :
  same_but_visited g g1 →
  processAll process g1 o r = processAll process g o r.
Proof.
  intros Hs. unfold processAll. revert r.
  induction o as [|v o IH]; intros r; [done|]. cbn [foldl].
  assert (setVisited false <$> g !! v = setVisited false <$> g1 !! v) as Hv.
  { unfold same_but_visited in Hs. apply (f_equal (λ l, l !! v)) in Hs.
    by rewrite !lookup_resetVisited in Hs. }
  destruct (g !! v) as [vx|], (g1 !! v) as [vx1|]; try discriminate; [|done].
  pose proof (Some_inj _ _ Hv) as E.
  rewrite IH. do 2 f_equal.
  rewrite <-(setVisited_setVisited true false vx),
    <-(setVisited_setVisited true false vx1). by rewrite E.
Qed.

(** The loop over the flights, given what the recursive calls do. *)
Lemma dfsWith_adj_post fuel :
  (∀ v (g : Graph) (r : R) vx,
     dests_valid g → g !! v = Some vx → visited vx = false →
     unvisited g ≤ fuel →
     ∃ g' o, dfsWith process fuel v (g, r) = Ok (g', processAll process g o r) ∧
             dfs_post g [v] g' o ∧ head o = Some v) →
  ∀ flights (g : Graph) (r : R),
    dests_valid g → (∀ e, e ∈ flights → dest e < length g) →
    unvisited g ≤ fuel →
    ∃ g' o, dfsWith_adj (dfsWith process fuel) flights (g, r)
            = Ok (g', processAll process g o r) ∧
            dfs_post g (dest <$> flights) g' o.
Proof.
  intros Hrec. induction flights as [|e rest IH]; intros g r Hd Hfl Hm.
  { exists g, []. split; [done|apply dfs_post_nil]. }
  destruct (lookup_lt_is_Some_2 g (dest e)) as [dx Hdx]; [apply Hfl; by left|].
  cbn [dfsWith_adj fst].
  rewrite (bind_Ok_l _ _ _ (deref_lookup _ _ _ Hdx)).
  assert (∀ (g1 : Graph) o1 r1,
            dfs_post g [dest e] g1 o1 →
            r1 = processAll process g o1 r →
            ∃ g' o, dfsWith_adj (dfsWith process fuel) rest (g1, r1)
                    = Ok (g', processAll process g o r) ∧
                    dfs_post g (dest <$> e :: rest) g' o) as Hrest.
  { intros g1 o1 r1 Hp1 ->. pose proof Hp1 as (Hs1 & _ & _ & Hv1 & _).
    destruct (IH g1 (processAll process g o1 r)) as (g' & o2 & H' & Hp2).
    - by eapply same_but_visited_dests_valid.
    - intros e' He'. rewrite <-(same_but_visited_length _ _ Hs1).
      apply Hfl. by right.
    - etrans; [|exact Hm]. apply unvisited_mono; [done|].
      intros u Hu. apply Hv1. by left.
    - exists g', (o1 ++ o2). split.
      + by rewrite H', processAll_app, (processAll_same g g1).
      + rewrite fmap_cons. by apply (dfs_post_seq g g1 g' [dest e]). }
  destruct (visited dx) eqn:Hvd.
  - apply (Hrest g [] r); [|done]. apply dfs_post_skip. by exists dx.
  - destruct (Hrec (dest e) g r dx Hd Hdx Hvd Hm) as (g1 & o1 & H1 & Hp1 & _).
    rewrite (bind_Ok_l _ _ _ H1). by apply (Hrest g1 o1).
Qed.

Lemma dfsWith_post fuel :
  ∀ v (g : Graph) (r : R) vx,
    dests_valid g → g !! v = Some vx → visited vx = false →
    unvisited g ≤ fuel →
    ∃ g' o, dfsWith process fuel v (g, r) = Ok (g', processAll process g o r) ∧
            dfs_post g [v] g' o ∧ head o = Some v.
Proof.
  induction fuel as [|fuel IH]; intros v g r vx Hd Hv Hf Hm.
  { pose proof (unvisited_pos _ _ _ Hv Hf). lia. }
  cbn [dfsWith fst snd]. rewrite (bind_Ok_l _ _ _ (deref_lookup _ _ _ Hv)).
  cbv zeta.
  set (g1 := <[v := setVisited true vx]> g).
  pose proof (same_but_visited_insert g v vx true Hv) as Hs1. fold g1 in Hs1.
  destruct (dfsWith_adj_post fuel IH (adj vx) g1
              (process v (setVisited true vx) r)) as (g' & o1 & H' & Hp).
  - by eapply same_but_visited_dests_valid.
  - intros e He. rewrite <-(same_but_visited_length _ _ Hs1). by eapply Hd.
  - pose proof (unvisited_mark g v vx Hv Hf). fold g1 in H. lia.
  - exists g', (v :: o1). split_and!; [|by apply (dfs_post_node g g' v vx)|done].
    change (adj (setVisited true vx)) with (adj vx). rewrite H'. f_equal.
    f_equal. rewrite (processAll_same g g1) by done.
    unfold processAll. cbn [foldl]. by rewrite Hv.
Qed.

Lemma dfsWith_roots_adj fuel vs (st : Graph * R) :
  dfsWith_roots process fuel vs st
  = dfsWith_adj (dfsWith process fuel) ((λ v, mkEdge v 0 ∅) <$> vs) st.
Proof.
  revert st. induction vs as [|v vs IH]; intros st; [done|].
  cbn [dfsWith_roots dfsWith_adj fmap list_fmap dest].
  destruct (deref st.1 v) as [vx| |]; [|done..]. rewrite !bind_ret_Ok.
  destruct (visited vx); [by rewrite IH|].
  destruct (dfsWith process fuel v st) as [st'| |]; [|done..].
  by rewrite !bind_ret_Ok, IH.
Qed.
End dfsWith_facts.

(** ** Graph::dfs *)

Lemma dfsVisit_adj_dfsWith_adj rec rec' flights (st : Graph * list Airport) :
  (∀ v st', rec v st' = rec' v st') →
  dfsVisit_adj rec flights st = dfsWith_adj rec' flights st.
Proof.
  intros Hrec. revert st. induction flights as [|e rest IH]; intros st; [done|].
  cbn [dfsVisit_adj dfsWith_adj].
  destruct (deref st.1 (dest e)) as [wx| |]; [|done..]. rewrite !bind_ret_Ok.
  destruct (visited wx); [apply IH|]. rewrite Hrec.
  destruct (rec' (dest e) st) as [st'| |]; [|done..].
  rewrite !bind_ret_Ok. apply IH.
Qed.

Lemma dfsVisit_dfsWith fuel v (st : Graph * list Airport) :
  dfsVisit fuel v st = dfsWith (λ _ vx res, res ++ [info vx]) fuel v st.
Proof.
  revert v st. induction fuel as [|fuel IH]; intros v st; [done|].
  cbn [dfsVisit dfsWith].
  destruct (deref st.1 v) as [vx| |]; [|done..]. rewrite !bind_ret_Ok.
  cbv zeta. by apply dfsVisit_adj_dfsWith_adj.
Qed.

Lemma dfs_roots_dfsWith_roots fuel vs (st : Graph * list Airport) :
  dfs_roots fuel vs st
  = dfsWith_roots (λ _ vx res, res ++ [info vx]) fuel vs st.
Proof.
  revert st. induction vs as [|v vs IH]; intros st; [done|].
  cbn [dfs_roots dfsWith_roots].
  destruct (deref st.1 v) as [vx| |]; [|done..]. rewrite !bind_ret_Ok.
  destruct (visited vx); [apply IH|]. rewrite dfsVisit_dfsWith.
  destruct (dfsWith _ fuel v st) as [st'| |]; [|done..].
  rewrite !bind_ret_Ok. apply IH.
Qed.

Lemma processAll_infos (g : Graph) o (r : list Airport) :
  processAll (λ _ vx res, res ++ [info vx]) g o r = r ++ infos_of g o.
Proof.
  unfold processAll, infos_of. revert r.
  induction o as [|v o IH]; intros r; [by rewrite app_nil_r|].
  cbn [foldl omap list_omap]. rewrite IH.
  destruct (g !! v) as [vx|]; simpl; [|done]. by rewrite <-app_assoc.
Qed.

Lemma infos_of_same (g g1 : Graph) o :
  same_but_visited g g1 → infos_of g1 o = infos_of g o.
Proof.
  intros Hs. unfold infos_of. apply list_omap_ext.
  induction o as [|v o IH]; constructor; [|done].
  unfold same_but_visited in Hs. apply (f_equal (λ l, l !! v)) in Hs.
  rewrite !lookup_resetVisited in Hs.
  destruct (g !! v) as [vx|], (g1 !! v) as [vx1|]; try discriminate; [|done].
  simpl. f_equal. exact (eq_sym (f_equal info (Some_inj _ _ Hs))).
Qed.

(** In a traversal that starts with no vertex marked, the marked vertices
    are those of [order], and [order] is closed under flights. *)
Lemma dfs_post_closed (g g' : Graph) roots o s u :
  dfs_post (resetVisited g) roots g' o → s ∈ roots →
  reachable g s u → u ∈ o.
Proof.
  intros (Hs & Hn & Hu & Hv & Hr & Hc & Ht) Hroot [k Hw].
  assert (∀ x, is_visited g' x → x ∈ o) as Hin.
  { intros x [Hx|Hx]%Hv; [|done]. by apply is_visited_resetVisited in Hx. }
  induction Hw as [|x y k Hw IH He].
  - by apply Hin, Ht.
  - apply Hin. eapply Hc; [exact IH|].
    by apply (same_but_visited_has_edge g _ x y (same_but_visited_reset g)).
Qed.

Lemma dfs_post_reachable (g g' : Graph) roots o u :
  dfs_post (resetVisited g) roots g' o → u ∈ o →
  ∃ s, s ∈ roots ∧ reachable g s u.
Proof.
  intros (Hs & Hn & Hu & Hv & Hr & Hc & Ht) Hin.
  destruct (Hr u Hin) as (s & k & Hsin & Hw). exists s. split; [done|].
  exists k. eapply same_but_visited_walk; [|exact Hw].
  apply same_but_visited_sym, same_but_visited_reset.
Qed.

(** X12.  [Graph::dfs(source)] for an airport of a graph whose flights all lead
    to vertices of the graph: it returns; the result lists the source first
    and then, each exactly once, the airports that can be reached from it,
    and no other; only visited flags have changed, and they are set on
    exactly those vertices. *)
Theorem dfs_visits_reachable (g : Graph) (source : Airport) (s : VertexPtr) :
  dests_valid g → findVertex g source = Some s →
  ∃ order g',
    dfs g source = Ok (infos_of g order, g') ∧
    same_but_visited g g' ∧ NoDup order ∧ head order = Some s ∧
    (∀ u, u ∈ order ↔ reachable g s u) ∧
    (∀ u, is_visited g' u ↔ reachable g s u).
Proof.
  intros Hd Hf. unfold dfs. rewrite Hf.
  destruct (findVertex_Some _ _ _ Hf) as (sx & Hsx & _).
  pose proof (same_but_visited_reset g) as Hreset.
  destruct (dfsWith_post (λ _ vx res, res ++ [info vx]) (length g) s
              (resetVisited g) [] (setVisited false sx))
    as (g' & o & H & Hp & Hhead).
  - by eapply same_but_visited_dests_valid.
  - by rewrite lookup_resetVisited, Hsx.
  - done.
  - by rewrite unvisited_resetVisited.
  - rewrite dfsVisit_dfsWith, (bind_Ok_l _ _ _ H). cbv beta iota.
    rewrite processAll_infos, app_nil_l, (infos_of_same g) by done.
    exists o, g'. pose proof Hp as (Hs & Hn & Hu & Hv & Hr & Hc & Ht).
    assert (∀ u, u ∈ o ↔ reachable g s u) as Hiff.
    { intros u. split.
      - intros Hin. destruct (dfs_post_reachable g g' [s] o u Hp Hin)
          as (s' & ->%list_elem_of_singleton & Hw). done.
      - apply (dfs_post_closed g g' [s] o s u Hp). by left. }
    split_and!; [done|by eapply same_but_visited_trans|done..| ].
    intros u. rewrite Hv, <-Hiff. split; [|by right].
    intros [Hx|Hx]; [|done]. by apply is_visited_resetVisited in Hx.
Qed.

Lemma dfs_visits_reachable_witness :
  ∃ order g',
    dfs g_triangle (airport_ "C") = Ok (infos_of g_triangle order, g') ∧
    same_but_visited g_triangle g' ∧ NoDup order ∧ head order = Some 2 ∧
    (∀ u, u ∈ order ↔ reachable g_triangle 2 u) ∧
    (∀ u, is_visited g' u ↔ reachable g_triangle 2 u).
Proof.
  apply (dfs_visits_reachable g_triangle (airport_ "C") 2).
  - apply dests_valid_Forall. by_compute.
  - reflexivity.
Defined.

Lemma dfs_forest_run {R} (process : VertexPtr → Vertex → R → R)
    (g : Graph) (r : R) :
  dests_valid g →
  ∃ order g',
    dfsWith_roots process (length g) (seq 0 (length g)) (resetVisited g, r)
    = Ok (g', processAll process g order r) ∧
    same_but_visited g g' ∧ order ≡ₚ seq 0 (length g) ∧
    (∀ u, u < length g → is_visited g' u).
Proof.
  intros Hd. pose proof (same_but_visited_reset g) as Hreset.
  rewrite dfsWith_roots_adj.
  destruct (dfsWith_adj_post process (length g)
              (dfsWith_post process (length g))
              ((λ v, mkEdge v 0 ∅) <$> seq 0 (length g)) (resetVisited g) r)
    as (g' & o & H & Hp).
  - by eapply same_but_visited_dests_valid.
  - intros e (v & -> & Hv%elem_of_seq)%list_elem_of_fmap.
    rewrite length_resetVisited. simpl. lia.
  - by rewrite unvisited_resetVisited.
  - rewrite <-list_fmap_compose in Hp.
    rewrite (list_fmap_ext _ id (seq 0 (length g))), list_fmap_id in Hp
      by done.
    exists o, g'. pose proof Hp as (Hs & Hn & Hu & Hv & Hr & Hc & Ht).
    assert (∀ u, u < length g → is_visited g' u) as Hall.
    { intros u Hlt. apply Ht, elem_of_seq. lia. }
    split_and!; [|by eapply same_but_visited_trans| |done].
    + by rewrite H, (processAll_same process g (resetVisited g)).
    + apply NoDup_Permutation; [done|apply NoDup_seq|].
      intros u. rewrite elem_of_seq. split.
      * intros Hin. destruct (Hu u Hin) as [Hlt _].
        rewrite length_resetVisited in Hlt. lia.
      * intros [_ Hlt]. destruct (proj1 (Hv u) (Hall u Hlt)) as [Hx|Hx];
          [|done]. by apply is_visited_resetVisited in Hx.
Qed.

Lemma infos_of_seq (g : Graph) : infos_of g (seq 0 (length g)) = info <$> g.
Proof.
  unfold infos_of. induction g as [|x g IH] using rev_ind; [done|].
  rewrite length_app, Nat.add_1_r, seq_S, omap_app, fmap_app. simpl.
  rewrite lookup_app_r, Nat.sub_diag by done. simpl. f_equal.
  rewrite <-IH. apply list_omap_ext.
  apply Forall2_same_length_lookup. split; [done|].
  intros i a b Ha Hb. assert (b = a) as -> by congruence.
  apply lookup_seq in Ha as [-> Hlt]. by rewrite lookup_app_l.
Qed.

(** X13.  [Graph::dfs()]: on a graph whose flights all lead to vertices of the
    graph the traversal of the whole graph returns, and its result is a
    rearrangement of the airports of the graph: every airport occurs in it
    as often as in the vertex set, that is once. *)
Theorem dfs_all_permutation (g : Graph) :
  dests_valid g →
  ∃ res g', dfs_all g = Ok (res, g') ∧ res ≡ₚ info <$> g ∧
            same_but_visited g g' ∧ ∀ u, u < length g → is_visited g' u.
Proof.
  intros Hd.
  destruct (dfs_forest_run (λ _ vx res, res ++ [info vx]) g [] Hd)
    as (o & g' & H & Hs & Hperm & Hall).
  exists (infos_of g o), g'. unfold dfs_all.
  rewrite dfs_roots_dfsWith_roots, (bind_Ok_l _ _ _ H). cbv beta iota.
  rewrite processAll_infos, app_nil_l. split_and!; [done| |done..].
  rewrite <-infos_of_seq. unfold infos_of. by rewrite Hperm.
Qed.

Lemma dfs_all_permutation_witness :
  ∃ res g', dfs_all g_triangle = Ok (res, g') ∧ res ≡ₚ info <$> g_triangle ∧
            same_but_visited g_triangle g' ∧
            ∀ u, u < length g_triangle → is_visited g' u.
Proof.
  apply (dfs_all_permutation g_triangle).
  apply dests_valid_Forall. by_compute.
Defined.

(** ** Flights per city *)

Lemma vertices_of_seq (g : Graph) : vertices_of g (seq 0 (length g)) = g.
Proof.
  unfold vertices_of. induction g as [|x g IH] using rev_ind; [done|].
  rewrite length_app, Nat.add_1_r, seq_S, omap_app. simpl.
  rewrite lookup_app_r, Nat.sub_diag by done. simpl. f_equal.
  rewrite <-IH at 2. apply list_omap_ext.
  apply Forall2_same_length_lookup. split; [done|].
  intros i a b Ha Hb. assert (b = a) as -> by congruence.
  apply lookup_seq in Ha as [-> Hlt]. by rewrite lookup_app_l.
Qed.

Lemma sum_flightsFrom_perm (l l' : list Vertex) :
  l ≡ₚ l' →
  foldr (λ vx t, (flightsFrom vx + t)%Z) 0%Z l
  = foldr (λ vx t, (flightsFrom vx + t)%Z) 0%Z l'.
Proof.
  induction 1 as [|x l l' _ IH|x y l|l1 l2 l3 _ IH1 _ IH2]; simpl;
    [done|by rewrite IH| |congruence].
  rewrite !Z.add_assoc. f_equal. apply Z.add_comm.
Qed.

Lemma processAll_flightsOfCity (g : Graph) o k :
  ∀ r : gmap (string * string) Z,
    processAll addFlightsOfCity g o r !! k
    = match filter (λ vx, cityAndCountry vx = k) (vertices_of g o) with
      | [] => r !! k
      | L => Some (wrap_int (default 0 (r !! k)
                             + foldr (λ vx t, (flightsFrom vx + t)%Z) 0 L)%Z)
      end.
Proof.
  unfold processAll, vertices_of.
  induction o as [|v o IH]; intros r; [done|].
  cbn [foldl omap list_omap]. rewrite IH. clear IH.
  destruct (g !! v) as [vx|] eqn:Hv; simpl; [|done].
  rewrite filter_cons. unfold addFlightsOfCity. cbn [info flightsFrom].
  change (city (info vx), country (info vx)) with (cityAndCountry vx).
  destruct (decide (cityAndCountry vx = k)) as [<-|Hne].
  - rewrite lookup_insert_eq. unfold cityAndCountry. simpl.
    destruct (filter _ _); simpl; f_equal.
    + f_equal. lia.
    + rewrite wrap_int_add_l. f_equal. lia.
  - by rewrite lookup_insert_ne.
Qed.

(** X14.  [searchNumberOfFlightsPerCity] on a graph whose flights all lead to
    vertices of the graph: it returns a map with one entry per city (a pair
    of city and country) that has an airport, and the entry of a city is the
    sum of [flightsFrom] over the airports of that city, reduced into the
    [int] range as the [int] additions leave it, every airport being counted
    once whatever the order of the traversal. *)
Theorem searchNumberOfFlightsPerCity_sums (g : Graph) :
  dests_valid g →
  ∃ res g',
    searchNumberOfFlightsPerCity g = Ok (res, g') ∧
    same_but_visited g g' ∧
    ∀ k, res !! k = if decide (k ∈ cityAndCountry <$> g)
                    then Some (wrap_int (flights_of_city g k)) else None.
Proof.
  intros Hd.
  destruct (dfs_forest_run addFlightsOfCity g ∅ Hd)
    as (o & g' & H & Hs & Hperm & Hall).
  eexists _, g'. unfold searchNumberOfFlightsPerCity.
  rewrite (bind_Ok_l _ _ _ H). cbv beta iota. split_and!; [done..|].
  intros k. rewrite processAll_flightsOfCity, lookup_empty.
  assert (filter (λ vx, cityAndCountry vx = k) (vertices_of g o)
          ≡ₚ filter (λ vx, cityAndCountry vx = k) g) as HL.
  { rewrite <-(vertices_of_seq g) at 2. unfold vertices_of. by rewrite Hperm. }
  unfold flights_of_city.
  rewrite <-(sum_flightsFrom_perm _ _ HL).
  destruct (decide (k ∈ cityAndCountry <$> g)) as [Hin|Hout].
  - destruct (filter _ (vertices_of g o)) as [|x L] eqn:E.
    + apply Permutation_nil_l in HL.
      apply list_elem_of_fmap in Hin as (vx & -> & Hvx).
      assert (vx ∈ filter (λ vx0, cityAndCountry vx0 = cityAndCountry vx) g)
        as Hf by by apply list_elem_of_filter.
      rewrite <-HL in Hf. by apply elem_of_nil in Hf.
    + done.
  - destruct (filter _ (vertices_of g o)) as [|x L] eqn:E; [done|].
    destruct Hout. apply list_elem_of_fmap. exists x.
    assert (x ∈ filter (λ vx, cityAndCountry vx = k) g) as Hf
      by (rewrite <-HL; by left).
    apply list_elem_of_filter in Hf as [<- Hf]. done.
Qed.

Lemma searchNumberOfFlightsPerCity_sums_witness :
  ∃ res g',
    searchNumberOfFlightsPerCity g_traffic = Ok (res, g') ∧
    same_but_visited g_traffic g' ∧
    ∀ k, res !! k = if decide (k ∈ cityAndCountry <$> g_traffic)
                    then Some (wrap_int (flights_of_city g_traffic k))
                    else None.
Proof.
  apply (searchNumberOfFlightsPerCity_sums g_traffic).
  apply dests_valid_Forall. by_compute.
Defined.

(** ** Destinations available from an airport *)

Section available.
Context {R : Type}.
Variable process : VertexPtr → Vertex → R → R.

(** Marking the destination before the recursive call, or on entry of the
    call, is the same traversal. *)
Lemma ad_flights_dfsWith_adj fuel :
  ∀ flights (st : Graph * R),
    ad_flights process (dfsAvailableDestinations process fuel) flights st
    = dfsWith_adj (dfsWith process fuel) flights st.
Proof.
  induction fuel as [|fuel IHf]; induction flights as [|e rest IH];
    intros st; try done.
  - cbn [ad_flights dfsWith_adj].
    destruct (deref st.1 (dest e)) as [dx| |]; [|done..].
    rewrite !bind_ret_Ok. destruct (visited dx); [apply IH|done].
  - cbn [ad_flights dfsWith_adj].
    destruct (deref st.1 (dest e)) as [dx| |] eqn:Hdx; [|done..].
    rewrite !bind_ret_Ok. destruct (visited dx); [apply IH|]. cbv zeta.
    apply deref_Ok in Hdx.
    assert (dfsAvailableDestinations process (S fuel) (dest e)
              (<[dest e:=setVisited true dx]> st.1,
               process (dest e) (setVisited true dx) st.2)
            = dfsWith process (S fuel) (dest e) st) as ->.
    { cbn [dfsAvailableDestinations dfsWith fst snd].
      rewrite (bind_Ok_l _ _ (setVisited true dx));
        [|apply deref_lookup, list_lookup_insert_eq;
          exact (lookup_lt_Some _ _ _ Hdx)].
      rewrite (bind_Ok_l _ _ _ (deref_lookup _ _ _ Hdx)). cbv zeta.
      apply IHf. }
    destruct (dfsWith process (S fuel) (dest e) st) as [st'| |]; [|done..].
    rewrite !bind_ret_Ok. apply IH.
Qed.
End available.

Lemma walk_first (g : Graph) a u k :
  walk g a u (S k) → ∃ s, has_edge g a s ∧ walk g s u k.
Proof.
  revert u. induction k as [|k IH]; intros u Hw.
  - inversion Hw as [|x y j Hw' He]; subst. inversion Hw'; subst.
    exists u. split; [done|apply walk_here].
  - inversion Hw as [|x y j Hw' He]; subst.
    destruct (IH x Hw') as (s & Hs & Hsx). exists s. split; [done|].
    by eapply walk_step.
Qed.

Lemma available_run {R} (process : VertexPtr → Vertex → R → R)
    (g : Graph) (airport : VertexPtr) (r : R) :
  dests_valid g → airport < length g →
  ∃ order g',
    dfsAvailableDestinations process (S (length g)) airport
                             (resetVisited g, r)
    = Ok (g', processAll process g order r) ∧
    same_but_visited g g' ∧ destinations_of g airport order ∧
    (∀ u, u ∈ order → u < length g).
Proof.
  intros Hd Ha. pose proof (same_but_visited_reset g) as Hreset.
  destruct (lookup_lt_is_Some_2 g airport Ha) as [ax Hax].
  cbn [dfsAvailableDestinations fst].
  rewrite (bind_Ok_l _ _ (setVisited false ax));
    [|apply deref_lookup; by rewrite lookup_resetVisited, Hax].
  rewrite ad_flights_dfsWith_adj.
  destruct (dfsWith_adj_post process (length g)
              (dfsWith_post process (length g))
              (adj ax) (resetVisited g) r) as (g' & o & H & Hp).
  - by eapply same_but_visited_dests_valid.
  - intros e He. rewrite length_resetVisited. by eapply Hd.
  - by rewrite unvisited_resetVisited.
  - exists o, g'. pose proof Hp as (Hs & Hn & Hu & Hv & Hr & Hc & Ht).
    split_and!.
    + change (adj (setVisited false ax)) with (adj ax).
      by rewrite H, (processAll_same process g (resetVisited g)).
    + by eapply same_but_visited_trans.
    + split; [done|]. intros u. split.
      * intros Hin.
        destruct (dfs_post_reachable g g' _ o u Hp Hin) as (s & Hs' & k & Hw).
        exists k. apply (walk_trans g airport s u 1 k); [|done].
        apply walk_edge. by apply (has_edge_elem_of g airport ax).
      * intros (k & (s & He & Hw)%walk_first).
        apply (dfs_post_closed g g' _ o s u Hp); [|by exists k].
        by apply (has_edge_elem_of g airport ax).
    + intros u Hin. destruct (Hu u Hin) as [Hlt _].
      by rewrite length_resetVisited in Hlt.
Qed.

Lemma processAll_count (g : Graph) o (n : Z) :
  (∀ u, u ∈ o → u < length g) →
  processAll (λ _ _ n, (n + 1)%Z) g o n = (n + Z.of_nat (length o))%Z.
Proof.
  unfold processAll. revert n. induction o as [|v o IH]; intros n Hv.
  { simpl. lia. }
  destruct (lookup_lt_is_Some_2 g v) as [vx Hvx]; [apply Hv; by left|].
  cbn [foldl length]. rewrite Hvx, IH by (intros u Hu; apply Hv; by right).
  lia.
Qed.

Lemma processAll_collect `{Countable K} (key : Vertex → K) (g : Graph) o
    (s : gset K) :
  (∀ vx, key (setVisited true vx) = key vx) →
  processAll (λ _ vx (s : gset K), {[key vx]} ∪ s) g o s
  = list_to_set (key <$> vertices_of g o) ∪ s.
Proof.
  intros Hkey. unfold processAll, vertices_of. revert s.
  induction o as [|v o IH]; intros s.
  { simpl. set_solver. }
  cbn [foldl omap list_omap]. rewrite IH.
  destruct (g !! v) as [vx|]; simpl; [|done]. rewrite Hkey. set_solver.
Qed.

(** X15.  The three counts of destinations available from an airport of a graph
    whose flights all lead to vertices of the graph.  Each query returns;
    with [order] the vertices that can be reached from the airport by one
    flight or more, each listed once, the first count is their number, the
    second the number of distinct pairs of city and country among them, the
    third the number of distinct countries.  The airport itself is among
    them exactly when some flights lead back to it. *)
Theorem destinations_available (g : Graph) (airport : VertexPtr) :
  dests_valid g → airport < length g →
  (∃ order g',
     searchNumberOfAirportsAvailableForAirport g airport
     = Ok (Z.of_nat (length order), g') ∧
     same_but_visited g g' ∧ destinations_of g airport order) ∧
  (∃ order g',
     searchNumberOfCitiesAvailableForAirport g airport
     = Ok (static_cast_int
             (size (list_to_set (C := gset (string * string))
                      (cityAndCountry <$> vertices_of g order))), g') ∧
     same_but_visited g g' ∧ destinations_of g airport order) ∧
  (∃ order g',
     searchNumberOfCountriesAvailableForAirport g airport
     = Ok (static_cast_int
             (size (list_to_set (C := gset string)
                      ((λ vx, country (info vx)) <$> vertices_of g order))),
           g') ∧
     same_but_visited g g' ∧ destinations_of g airport order).
Proof.
  intros Hd Ha. split_and!.
  - destruct (available_run (λ _ _ n, (n + 1)%Z) g airport 0%Z Hd Ha)
      as (o & g' & H & Hs & Hdest & Hlt).
    exists o, g'. unfold searchNumberOfAirportsAvailableForAirport.
    rewrite (bind_Ok_l _ _ _ H). cbv beta iota.
    by rewrite processAll_count, Z.add_0_l.
  - destruct (available_run
                (λ _ vx (s : gset (string * string)),
                   {[(city (info vx), country (info vx))]} ∪ s)
                g airport ∅ Hd Ha) as (o & g' & H & Hs & Hdest & Hlt).
    exists o, g'. unfold searchNumberOfCitiesAvailableForAirport.
    rewrite (bind_Ok_l _ _ _ H). cbv beta iota.
    rewrite (processAll_collect cityAndCountry) by done.
    by rewrite (right_id_L ∅ (∪)).
  - destruct (available_run
                (λ _ vx (s : gset string), {[country (info vx)]} ∪ s)
                g airport ∅ Hd Ha) as (o & g' & H & Hs & Hdest & Hlt).
    exists o, g'. unfold searchNumberOfCountriesAvailableForAirport.
    rewrite (bind_Ok_l _ _ _ H). cbv beta iota.
    rewrite (processAll_collect (λ vx, country (info vx))) by done.
    by rewrite (right_id_L ∅ (∪)).
Qed.

Lemma destinations_available_witness :
  (∃ order g',
     searchNumberOfAirportsAvailableForAirport g_round_trip 0
     = Ok (Z.of_nat (length order), g') ∧
     same_but_visited g_round_trip g' ∧ destinations_of g_round_trip 0 order) ∧
  (∃ order g',
     searchNumberOfCitiesAvailableForAirport g_round_trip 0
     = Ok (static_cast_int
             (size (list_to_set (C := gset (string * string))
                      (cityAndCountry <$> vertices_of g_round_trip order))),
           g') ∧
     same_but_visited g_round_trip g' ∧ destinations_of g_round_trip 0 order) ∧
  (∃ order g',
     searchNumberOfCountriesAvailableForAirport g_round_trip 0
     = Ok (static_cast_int
             (size (list_to_set (C := gset string)
                      ((λ vx, country (info vx))
                         <$> vertices_of g_round_trip order))),
           g') ∧
     same_but_visited g_round_trip g' ∧ destinations_of g_round_trip 0 order).
Proof.
  apply (destinations_available g_round_trip 0).
  - apply dests_valid_Forall. by_compute.
  - simpl; lia.
Defined.

(** ** Graph::bfs *)

Lemma bfs_adj_post flights :
  ∀ (g : Graph) q,
    (∀ e, e ∈ flights → dest e < length g) →
    ∃ g' new,
      bfs_adj flights g q = Ok (g', q ++ new) ∧
      same_but_visited g g' ∧ NoDup new ∧
      (∀ u, u ∈ new → ¬ is_visited g u ∧ u ∈ (dest <$> flights)) ∧
      (∀ u, is_visited g' u ↔ is_visited g u ∨ u ∈ new) ∧
      (∀ e, e ∈ flights → is_visited g' (dest e)) ∧
      unvisited g' + length new = unvisited g.
Proof.
  induction flights as [|e rest IH]; intros g q Hfl.
  { exists g, []. rewrite app_nil_r.
    split; [done|]. split; [apply same_but_visited_refl|].
    split; [apply NoDup_nil_2|]. split; [by intros u ?%elem_of_nil|].
    split; [|split; [by intros e ?%elem_of_nil|simpl; lia]].
    intros u. split; [by left|]. by intros [?|?%elem_of_nil]. }
  destruct (lookup_lt_is_Some_2 g (dest e)) as [wx Hwx]; [apply Hfl; by left|].
  cbn [bfs_adj]. rewrite (bind_Ok_l _ _ _ (deref_lookup _ _ _ Hwx)).
  destruct (visited wx) eqn:Hvw.
  - destruct (IH g q) as (g' & new & H & Hs & Hn & Hnew & Hv & Hall & Hm).
    { intros e' He'. apply Hfl. by right. }
    exists g', new. split; [done|]. split; [done|]. split; [done|].
    split; [|split; [done|split; [|done]]].
    + intros u Hu. destruct (Hnew u Hu) as [? ?]. split; [done|].
      rewrite fmap_cons. by right.
    + intros e' [->|He']%elem_of_cons; [|by apply Hall].
      apply Hv. left. by exists wx.
  - set (g1 := <[dest e := setVisited true wx]> g).
    pose proof (same_but_visited_insert g (dest e) wx true Hwx) as Hs1.
    pose proof (λ u, is_visited_mark g (dest e) wx u Hwx) as Hmark.
    destruct (IH g1 (q ++ [dest e]))
      as (g' & new & H & Hs & Hn & Hnew & Hv & Hall & Hm).
    { intros e' He'. unfold g1. rewrite length_insert. apply Hfl. by right. }
    subst g1. exists g', (dest e :: new). split_and!.
    + by rewrite H, <-app_assoc.
    + by eapply same_but_visited_trans.
    + apply NoDup_cons. split; [|done]. intros Hin.
      apply (proj1 (Hnew _ Hin)), Hmark. by left.
    + intros u [->|Hu]%elem_of_cons.
      * split; [by eapply not_is_visited|]. rewrite fmap_cons. by left.
      * destruct (Hnew u Hu) as [Hnv Hin]. split.
        -- intros Hvu. apply Hnv, Hmark. by right.
        -- rewrite fmap_cons. by right.
    + intros u. rewrite Hv, Hmark, elem_of_cons. tauto.
    + intros e' [->|He']%elem_of_cons; [|by apply Hall].
      apply Hv. left. apply Hmark. by left.
    + pose proof (unvisited_mark g (dest e) wx Hwx Hvw).
      cbn [length]. lia.
Qed.

Lemma infos_of_snoc (g : Graph) o v vx :
  g !! v = Some vx → infos_of g (o ++ [v]) = infos_of g o ++ [info vx].
Proof. intros H. unfold infos_of. rewrite omap_app. simpl. by rewrite H. Qed.

Lemma bfs_loop_post (g0 : Graph) s fuel :
  ∀ (g : Graph) q done_,
    dests_valid g0 → same_but_visited g0 g →
    NoDup (done_ ++ q) →
    (∀ u, is_visited g u ↔ u ∈ done_ ++ q) →
    (∀ u, u ∈ done_ ++ q → reachable g0 s u) →
    (∀ u w, u ∈ done_ → has_edge g0 u w → is_visited g w) →
    unvisited g + length q ≤ fuel →
    ∃ order g',
      bfs_loop fuel g q (infos_of g0 done_) = Ok (infos_of g0 order, g') ∧
      same_but_visited g0 g' ∧ NoDup order ∧
      (∃ later, order = done_ ++ q ++ later) ∧
      (∀ u, is_visited g' u ↔ u ∈ order) ∧
      (∀ u, u ∈ order → reachable g0 s u) ∧
      (∀ u w, u ∈ order → has_edge g0 u w → w ∈ order).
Proof.
  induction fuel as [|fuel IH]; intros g q done_ Hd Hs Hn Hv Hr Hc Hm.
  { destruct q as [|v q]; [|simpl in Hm; lia].
    exists done_, g. rewrite app_nil_r in *.
    split; [done|]. split; [done|]. split; [done|].
    split; [exists []; by rewrite !app_nil_r|]. split; [done|].
    split; [done|].
    intros u w Hu He. apply Hv. by eapply Hc. }
  destruct q as [|v q].
  { exists done_, g. rewrite app_nil_r in *.
    split; [done|]. split; [done|]. split; [done|].
    split; [exists []; by rewrite !app_nil_r|]. split; [done|].
    split; [done|].
    intros u w Hu He. apply Hv. by eapply Hc. }
  assert (is_visited g v) as (vx & Hvx & Hvis).
  { apply Hv, elem_of_app. right. by left. }
  assert (dests_valid g) as Hdg by by eapply same_but_visited_dests_valid.
  destruct (bfs_adj_post (adj vx) g q)
    as (g1 & new & H1 & Hs1 & Hn1 & Hnew & Hv1 & Hall & Hm1).
  { intros e He. by eapply Hdg. }
  destruct (same_but_visited_lookup g0 g v vx Hs Hvx) as (vx0 & Hvx0 & Heq).
  assert (info vx0 = info vx ∧ adj vx0 = adj vx) as [Hinfo Hadj].
  { split; [exact (f_equal info Heq)|exact (f_equal adj Heq)]. }
  assert ((done_ ++ [v]) ++ q ++ new = (done_ ++ v :: q) ++ new) as Hre.
  { by rewrite <-!app_assoc. }
  destruct (IH g1 (q ++ new) (done_ ++ [v]))
    as (order & g' & H & Hs' & Hn' & (later & Hlater) & Hv' & Hr' & Hc');
    [done| | | | | | |].
  - by eapply same_but_visited_trans.
  - rewrite Hre. apply NoDup_app. split_and!; [done| |done].
    intros u Hu Hu'. by apply (proj1 (Hnew u Hu')), Hv.
  - intros u. rewrite Hre, Hv1, Hv, (elem_of_app _ new). done.
  - intros u. rewrite Hre, (elem_of_app _ new). intros [Hu|Hu].
    + by apply Hr.
    + destruct (Hnew u Hu) as [_ Hin].
      destruct (Hr v) as [k Hw]; [apply elem_of_app; right; by left|].
      exists (S k). eapply walk_step; [exact Hw|].
      apply (has_edge_elem_of g0 v vx0 u Hvx0). by rewrite Hadj.
  - intros u w [Hu| ->%list_elem_of_singleton]%elem_of_app He.
    + apply Hv1. left. by eapply Hc.
    + apply (has_edge_elem_of g0 v vx0 w Hvx0) in He. rewrite Hadj in He.
      apply list_elem_of_fmap in He as (e & -> & He). by apply Hall.
  - rewrite length_app. simpl in Hm. lia.
  - exists order, g'. split; [|split; [done|split; [done|split; [|done]]]].
    + cbn [bfs_loop]. rewrite (bind_Ok_l _ _ _ (deref_lookup _ _ _ Hvx)).
      rewrite (bind_Ok_l _ _ _ H1). cbv beta iota.
      rewrite <-Hinfo, <-(infos_of_snoc g0 done_ v vx0 Hvx0). done.
    + exists (new ++ later). rewrite Hlater, <-!app_assoc. done.
Qed.

(** X16.  [Graph::bfs(source)] for an airport of a graph whose flights all lead
    to vertices of the graph: it returns; the result lists the source first
    and then, each exactly once, the airports that can be reached from it,
    and no other; only visited flags have changed, and they are set on
    exactly those vertices. *)
Theorem bfs_visits_reachable (g : Graph) (source : Airport) (s : VertexPtr) :
  dests_valid g → findVertex g source = Some s →
  ∃ order g',
    bfs g source = Ok (infos_of g order, g') ∧
    same_but_visited g g' ∧ NoDup order ∧ head order = Some s ∧
    (∀ u, u ∈ order ↔ reachable g s u) ∧
    (∀ u, is_visited g' u ↔ reachable g s u).
Proof.
  intros Hd Hf. unfold bfs. rewrite Hf.
  destruct (findVertex_Some _ _ _ Hf) as (sx & Hsx & _).
  pose proof (same_but_visited_reset g) as Hreset.
  assert (resetVisited g !! s = Some (setVisited false sx)) as Hsx'
    by by rewrite lookup_resetVisited, Hsx.
  cbv zeta. rewrite (bind_Ok_l _ _ _ (deref_lookup _ _ _ Hsx')).
  set (g1 := <[s := setVisited true (setVisited false sx)]> (resetVisited g)).
  pose proof (λ u, is_visited_mark (resetVisited g) s _ u Hsx') as Hmark.
  fold g1 in Hmark.
  destruct (bfs_loop_post g s (length g) g1 [s] [])
    as (order & g' & H & Hs' & Hn' & (later & Hlater) & Hv' & Hr' & Hc').
  - done.
  - eapply same_but_visited_trans; [exact Hreset|].
    by apply same_but_visited_insert.
  - apply NoDup_singleton.
  - intros u. rewrite Hmark. cbn [app]. rewrite list_elem_of_singleton.
    split; [intros [?|Hx]; [done|by apply is_visited_resetVisited in Hx]|].
    by left.
  - intros u ->%list_elem_of_singleton. exists 0. apply walk_here.
  - by intros u w ?%elem_of_nil.
  - pose proof (unvisited_mark (resetVisited g) s _ Hsx' eq_refl) as Hu.
    fold g1 in Hu. rewrite unvisited_resetVisited in Hu. simpl. lia.
  - exists order, g'. cbn [app] in Hlater.
    assert (∀ u, reachable g s u → u ∈ order) as Hall.
    { intros u [k Hw]. induction Hw as [|x y k Hw IH He].
      - rewrite Hlater. by left.
      - by eapply Hc'. }
    split_and!; [done..|by rewrite Hlater| |].
    + intros u. split; [apply Hr'|apply Hall].
    + intros u. rewrite Hv'. split; [apply Hr'|apply Hall].
Qed.

Lemma bfs_visits_reachable_witness :
  ∃ order g',
    bfs g_triangle (airport_ "A") = Ok (infos_of g_triangle order, g') ∧
    same_but_visited g_triangle g' ∧ NoDup order ∧ head order = Some 0 ∧
    (∀ u, u ∈ order ↔ reachable g_triangle 0 u) ∧
    (∀ u, is_visited g' u ↔ reachable g_triangle 0 u).
Proof.
  apply (bfs_visits_reachable g_triangle (airport_ "A") 0).
  - apply dests_valid_Forall. by_compute.
  - reflexivity.
Defined.

(** * Further properties of the queries of Consult.cpp *)

(** ** The ranking asked for no airport *)

(** X17.  For [k ≤ 0] the loop keeps an airport only while its traffic equals
    the initial [last_totalFlights = 0].  So the ranking is empty as soon as
    one airport has a positive traffic, and otherwise it lists exactly the
    airports whose traffic is 0, whatever order [std::sort] leaves among
    ties (the traffic being the [int] sum of the two flight counters). *)
Theorem searchTopK_nonpositive (sort : list Vertex → list Vertex)
    (g : Graph) (k : Z) :
  sorts_by_traffic sort → (k ≤ 0)%Z →
  searchTopKAirportGreatestAirTrafficCapacity sort g k
  = if decide (Forall (λ v, (totalFlights v ≤ 0)%Z) g)
    then traffic_entry <$> filter (λ v, totalFlights v = 0%Z) (sort g)
    else [].
Proof.
  intros Hsort Hk. unfold searchTopKAirportGreatestAirTrafficCapacity.
  destruct (Hsort g) as [Hperm Hsorted].
  pose proof (sorted_by_traffic_strongly g _ (conj Hperm Hsorted)) as Hss.
  destruct (decide _) as [Hz|Hnz].
  - apply topK_loop_ties; [done|done|]. by rewrite Hperm.
  - apply not_Forall_Exists in Hnz; [|apply _].
    apply Exists_exists in Hnz as (v & Hv & Hpos).
    rewrite <- Hperm in Hv.
    destruct (sort g) as [|a l]; [by apply elem_of_nil in Hv|].
    assert (totalFlights v ≤ totalFlights a)%Z as Hmax.
    { apply StronglySorted_inv in Hss as [_ Hall].
      apply elem_of_cons in Hv as [->|Hv]; [lia|].
      rewrite Forall_forall in Hall. by apply Hall. }
    cbn [topK_loop].
    replace (0 <? k)%Z with false by (symmetry; apply Z.ltb_ge; lia).
    replace (totalFlights a =? 0)%Z with false
      by (symmetry; apply Z.eqb_neq; simpl in Hpos; lia).
    done.
Qed.

Lemma searchTopK_nonpositive_witness :
  searchTopKAirportGreatestAirTrafficCapacity sortByTraffic g_triangle 0
  = if decide (Forall (λ v, (totalFlights v ≤ 0)%Z) g_triangle)
    then traffic_entry
           <$> filter (λ v, totalFlights v = 0%Z) (sortByTraffic g_triangle)
    else [].
Proof.
  apply (searchTopK_nonpositive sortByTraffic g_triangle 0);
    [apply sortByTraffic_sorts|lia].
Defined.

(** ** Direct destinations and the bounded-hop query *)

(** X18.  The number of countries flown to from an airport is the number of
    countries the bounded-hop query reaches with no layover. *)
Theorem countriesFlownTo_is_zero_layovers (g : Graph) (airport : VertexPtr) :
  dests_valid g → airport < length g →
  ∃ n g',
    searchNumberOfCountriesFlownToFromAirport g airport = Ok n ∧
    searchNumberOfReachableCountriesInXStopsFromAirport g airport 0
    = Ok (n, g') ∧
    same_but_visited g g'.
Proof.
  intros Hd Ha.
  destruct (lookup_lt_is_Some_2 g airport Ha) as [ax Hax].
  destruct (reachableDestinations_direct extractCountry g airport ax
              reads_info_extractCountry Hd Hax) as (g' & Hr).
  destruct (reachableDestinations_mono extractCountry 0 0 (Z.le_refl 0) g
              airport Hd Ha) as (r1 & _ & g1 & Hr1 & _ & _ & Hsame & _).
  rewrite Hr in Hr1. injection Hr1 as _ <-.
  exists (static_cast_int (size (collected extractCountry g (adj ax)))), g'.
  split; [|split; [|done]].
  - unfold searchNumberOfCountriesFlownToFromAirport.
    rewrite (deref_lookup _ _ _ Hax), bind_ret_Ok. cbv beta.
    rewrite rd_collect_Ok by (intros e He; exact (Hd airport ax e Hax He)).
    rewrite bind_ret_Ok. cbv beta. by rewrite (right_id_L ∅ (∪)).
  - unfold searchNumberOfReachableCountriesInXStopsFromAirport,
      searchNumberOfReachableDestinationsInXStopsFromAirport.
    by rewrite Hr.
Qed.

Lemma countriesFlownTo_is_zero_layovers_witness :
  ∃ n g',
    searchNumberOfCountriesFlownToFromAirport g_triangle 0 = Ok n ∧
    searchNumberOfReachableCountriesInXStopsFromAirport g_triangle 0 0
    = Ok (n, g') ∧
    same_but_visited g_triangle g'.
Proof.
  apply (countriesFlownTo_is_zero_layovers g_triangle 0).
  - apply dests_valid_Forall. by_compute.
  - simpl. lia.
Defined.

(** X19.  With a negative layover budget the bounded-hop query counts nothing. *)
Theorem reachable_negative_budget (g : Graph) (airport : VertexPtr)
    (layOvers : Z) (attributeExtractor : Vertex → string) :
  dests_valid g → airport < length g → (layOvers < 0)%Z →
  ∃ g', searchNumberOfReachableDestinationsInXStopsFromAirport
          g airport layOvers attributeExtractor = Ok (0%Z, g') ∧
        same_but_visited g g'.
Proof.
  intros Hd Ha Hneg.
  destruct (reachableDestinations_mono attributeExtractor layOvers layOvers
              (Z.le_refl _) g airport Hd Ha)
    as (r & _ & g' & Hr & _ & _ & Hsame & _).
  exists g'. split; [|done].
  unfold searchNumberOfReachableDestinationsInXStopsFromAirport.
  rewrite Hr. cbn. do 2 f_equal.
  unfold reachableDestinations in Hr.
  destruct (lookup_lt_is_Some_2 g airport Ha) as [ax Hax].
  assert (resetVisited g !! airport = Some (setVisited false ax)) as Hax'
    by (by rewrite lookup_resetVisited, Hax).
  rewrite (deref_lookup _ _ _ Hax'), bind_ret_Ok in Hr. cbv beta in Hr.
  apply rd_loop_beyond in Hr.
  - by subst r.
  - eapply same_but_visited_dests_valid; [|exact Hd].
    eapply same_but_visited_trans; [apply same_but_visited_reset|].
    by apply same_but_visited_insert.
  - intros z ->%list_elem_of_singleton. cbn.
    rewrite length_insert, length_resetVisited. done.
  - intros z ->%list_elem_of_singleton. cbn. lia.
Qed.

Lemma reachable_negative_budget_witness :
  ∃ g', searchNumberOfReachableDestinationsInXStopsFromAirport
          g_triangle 0 (-1) extractAirportCode = Ok (0%Z, g') ∧
        same_but_visited g_triangle g'.
Proof.
  apply (reachable_negative_budget g_triangle 0 (-1) extractAirportCode).
  - apply dests_valid_Forall. by_compute.
  - simpl. lia.
  - lia.
Defined.

(** ** The shortest paths are itineraries *)

Lemma is_route_snoc (g : Graph) (p : Path) c d :
  is_route g p → last p = Some c → has_edge g c d → is_route g (p ++ [d]).
Proof.
  intros Hr Hl He. induction p as [|a [|b r] IH]; [done| |].
  - simpl in Hl. by simplify_eq/=.
  - destruct Hr as [Hab Hr]. rewrite last_cons_cons in Hl.
    change ((a :: b :: r) ++ [d]) with (a :: ((b :: r) ++ [d])).
    change (has_edge g a b ∧ is_route g ((b :: r) ++ [d])).
    split; [done|]. by apply IH.
Qed.

Lemma is_route_walk (g : Graph) (p : Path) a b :
  is_route g (a :: p) → last (a :: p) = Some b → walk g a b (length p).
Proof.
  revert a. induction p as [|c r IH]; intros a Hr Hl.
  - simpl in Hl. simplify_eq. apply walk_here.
  - destruct Hr as [Hac Hr]. rewrite last_cons_cons in Hl.
    apply (walk_trans g a c b 1 (length r)); [by apply walk_edge|].
    by apply IH.
Qed.

Lemma route_to_mono (g : Graph) (size size' : Z) p v :
  (size' ≤ size)%Z → route_to g size p v → route_to g size' p v.
Proof. intros Hle [H|H]; [by left|right; lia]. Qed.

Lemma sp_flight_routes (g0 : Graph) c target e st st2 :
  has_edge g0 c (dest e) →
  route_to g0 (sp_size st) (sp_first st) c →
  (∀ x, x ∈ sp_queue st → route_to g0 (sp_size st) x.1 x.2) →
  (∀ p, p ∈ sp_paths st → is_route g0 p) →
  sp_flight target e st = Ok st2 →
  route_to g0 (sp_size st2) (sp_first st2) c ∧
  (∀ x, x ∈ sp_queue st2 → route_to g0 (sp_size st2) x.1 x.2) ∧
  (∀ p, p ∈ sp_paths st2 → is_route g0 p).
Proof.
  intros He Hf Hq Hp H. unfold sp_flight in H.
  assert (length (sp_first st ++ [dest e]) = S (length (sp_first st))) as Hlen
    by (rewrite length_app; simpl; lia).
  destruct (decide (dest e = target)) as [Ht|Ht].
  - destruct (Z.ltb_spec (Z.of_nat (length (sp_first st ++ [dest e])))
                (sp_size st)) as [Hlt|Hge].
    + injection H as <-. cbn [sp_size sp_first sp_queue sp_paths].
      assert (is_route g0 (sp_first st ++ [dest e])) as Hnew.
      { destruct Hf as [[Hr Hl]|Hbig]; [by eapply is_route_snoc|lia]. }
      split; [right; lia|]. split.
      * intros x Hx. eapply route_to_mono; [|by apply Hq]. lia.
      * by intros p ->%list_elem_of_singleton.
    + destruct (Z.eqb_spec (Z.of_nat (length (sp_first st ++ [dest e])))
                  (sp_size st)) as [Heq|Hne].
      * injection H as <-. cbn [sp_size sp_first sp_queue sp_paths].
        assert (is_route g0 (sp_first st ++ [dest e])) as Hnew.
        { destruct Hf as [[Hr Hl]|Hbig]; [by eapply is_route_snoc|lia]. }
        split; [right; lia|]. split; [done|].
        intros p [Hin| ->%list_elem_of_singleton]%elem_of_app;
          [by apply Hp|done].
      * injection H as <-. cbn [sp_size sp_first sp_queue sp_paths].
        split; [right; lia|]. by split.
  - apply bind_Ok in H as (nx & Hnx & H).
    destruct (visited nx).
    + injection H as <-. by split.
    + injection H as <-. cbn [sp_size sp_first sp_queue sp_paths].
      split; [done|]. split; [|done].
      intros x [Hin| ->%list_elem_of_singleton]%elem_of_app; [by apply Hq|].
      cbn [fst snd]. destruct Hf as [[Hr Hl]|Hbig].
      * left. split; [by eapply is_route_snoc|by rewrite last_snoc].
      * right. lia.
Qed.

Lemma searchSmallestPath_is_route (g g' : Graph) source target paths :
  searchSmallestPathBetweenAirports g source target = Ok (paths, g') →
  ∀ p, p ∈ paths → is_route g p.
Proof.
  unfold searchSmallestPathBetweenAirports. intros H.
  apply bind_Ok in H as (sx & Hsx%deref_Ok & H).
  set (Q := λ (g1 : Graph) (q : list (Path * VertexPtr)) (ps : list Path)
              (size : Z),
              same_but_visited g g1 ∧
              (∀ x, x ∈ q → route_to g size x.1 x.2) ∧
              (∀ p, p ∈ ps → is_route g p)).
  assert (∃ size' : Z, Q g' [] paths size') as [_ (_ & _ & ?)]; [|done].
  eapply (sp_loop_invariant Q target); [| |exact H].
  - intros g1 c q p s cx st (Hsame & Hq & Hp) Hcx Hst.
    apply (sp_flights_invariant
             (λ _ st1, same_but_visited g (sp_graph st1) ∧
                       route_to g (sp_size st1) (sp_first st1) c.2 ∧
                       (∀ x, x ∈ sp_queue st1 →
                             route_to g (sp_size st1) x.1 x.2) ∧
                       (∀ p, p ∈ sp_paths st1 → is_route g p))
             target (adj cx))
      with (flights := adj cx) (done_ := []) (st := mkSp g1 q c.1 p s)
           (st' := st) in Hst as (? & _ & ? & ?); [done| |done|].
    + intros d e r st1 st2 Hall (Hs1 & Hf1 & Hq1 & Hp1) Hstep.
      split.
      { eapply same_but_visited_trans; [exact Hs1|].
        by eapply sp_flight_frame. }
      eapply sp_flight_routes; [|done..].
      apply (same_but_visited_has_edge g g1); [done|].
      exists cx, e. split; [done|]. split; [|done].
      rewrite Hall. apply elem_of_app. right. by left.
    + cbn [sp_graph sp_size sp_first sp_queue sp_paths].
      split; [done|]. split; [apply Hq; by left|].
      split; [|done]. intros x Hx. apply Hq. by right.
  - split.
    + eapply same_but_visited_trans; [apply same_but_visited_reset|].
      by apply same_but_visited_insert.
    + split; [|by intros p ?%elem_of_nil].
      intros x ->%list_elem_of_singleton. by left.
Qed.

(** X20.  Every path the shortest-path search returns is an itinerary: it starts
    at the source, ends at the target, has at least one flight, and every
    two consecutive airports are joined by a flight.  When no sequence of
    flights leads from the source to the target, nothing is returned. *)
Theorem searchSmallestPath_routes (g : Graph) (source target : VertexPtr) :
  dests_valid g → source < length g →
  ∃ paths g',
    searchSmallestPathBetweenAirports g source target = Ok (paths, g') ∧
    (∀ p, p ∈ paths →
       is_route g p ∧ head p = Some source ∧ last p = Some target ∧
       ∃ k, length p = S (S k) ∧ walk g source target (S k)) ∧
    ((∀ k, ¬ walk g source target (S k)) → paths = []).
Proof.
  intros Hd Hs.
  destruct (searchSmallestPath_total g source target Hd Hs)
    as (paths & g' & H & _).
  exists paths, g'. split; [done|].
  assert (∀ p, p ∈ paths →
            is_route g p ∧ head p = Some source ∧ last p = Some target ∧
            ∃ k, length p = S (S k) ∧ walk g source target (S k)) as Hall.
  { intros p Hp.
    pose proof (searchSmallestPath_is_route _ _ _ _ _ H p Hp) as Hr.
    destruct (searchSmallestPath_endpoints _ _ _ _ _ H p Hp)
      as (Hh & Hl & Hlen).
    split; [done|]. split; [done|]. split; [done|].
    destruct p as [|a [|b r]]; [simpl in Hlen; lia..|].
    exists (length r). split; [done|].
    simpl in Hh. simplify_eq.
    by apply (is_route_walk g (b :: r) source target). }
  split; [done|].
  intros Hno. destruct paths as [|p ps]; [done|].
  destruct (Hall p) as (_ & _ & _ & k & _ & Hw); [by left|].
  by destruct (Hno k).
Qed.

Lemma searchSmallestPath_routes_witness :
  ∃ paths g',
    searchSmallestPathBetweenAirports g_parallel 0 1 = Ok (paths, g') ∧
    (∀ p, p ∈ paths →
       is_route g_parallel p ∧ head p = Some 0 ∧ last p = Some 1 ∧
       ∃ k, length p = S (S k) ∧ walk g_parallel 0 1 (S k)) ∧
    ((∀ k, ¬ walk g_parallel 0 1 (S k)) → paths = []).
Proof.
  apply (searchSmallestPath_routes g_parallel 0 1).
  - apply dests_valid_Forall. by_compute.
  - simpl. lia.
Defined.

(** * Script.cpp: the best paths between two sets of airports *)

(** ** What the visited flags do not touch *)

Lemma same_but_visited_deref (g g' : Graph) p v :
  same_but_visited g g' → deref g p = Ok v →
  ∃ v', deref g' p = Ok v' ∧ info v' = info v ∧ adj v' = adj v.
Proof.
  intros Hs Hv%deref_Ok.
  assert (p < length g') as Hlt.
  { rewrite <- (same_but_visited_length _ _ Hs). by eapply lookup_lt_Some. }
  destruct (lookup_lt_is_Some_2 g' p Hlt) as [v' Hv'].
  exists v'. split; [by apply deref_lookup|].
  destruct (same_but_visited_adj _ _ _ _ _ Hs Hv Hv'). by split.
Qed.

Lemma same_but_visited_deref_eq {A} (g g' : Graph) p (f f' : Vertex → outcome A) :
  same_but_visited g g' →
  (∀ v v', info v' = info v → adj v' = adj v → f v = f' v') →
  deref g p ≫= f = deref g' p ≫= f'.
Proof.
  intros Hs Hf. unfold deref.
  pose proof (same_but_visited_length _ _ Hs) as Hlen.
  destruct (g !! p) as [v|] eqn:Hv.
  - destruct (same_but_visited_deref g g' p v Hs (deref_lookup _ _ _ Hv))
      as (v' & Hv'%deref_Ok & Hi & Ha).
    rewrite Hv'. cbn. by apply Hf.
  - apply lookup_ge_None in Hv.
    assert (g' !! p = None) as -> by (apply lookup_ge_None; lia). done.
Qed.

Lemma distance_scan_same (g g' : Graph) target flights :
  same_but_visited g g' →
  distance_scan g target flights = distance_scan g' target flights.
Proof.
  intros Hs. induction flights as [|e rest IH]; [done|].
  cbn [distance_scan].
  apply same_but_visited_deref_eq; [done|]. intros dx dx' Hdi _.
  apply same_but_visited_deref_eq; [done|]. intros tx tx' Hti _.
  by rewrite Hdi, Hti, IH.
Qed.

Lemma airlines_scan_same (g g' : Graph) target flights :
  same_but_visited g g' →
  airlines_scan g target flights = airlines_scan g' target flights.
Proof.
  intros Hs. induction flights as [|e rest IH]; [done|].
  cbn [airlines_scan].
  apply same_but_visited_deref_eq; [done|]. intros dx dx' Hdi _.
  apply same_but_visited_deref_eq; [done|]. intros tx tx' Hti _.
  by rewrite Hdi, Hti, IH.
Qed.

Lemma getDistanceBetweenAirports_same (g g' : Graph) source target :
  same_but_visited g g' →
  getDistanceBetweenAirports g source target
  = getDistanceBetweenAirports g' source target.
Proof.
  intros Hs. unfold getDistanceBetweenAirports.
  apply same_but_visited_deref_eq; [done|]. intros sx sx' _ ->.
  by apply distance_scan_same.
Qed.

Lemma airlinesThatOperate_same (g g' : Graph) source target :
  same_but_visited g g' →
  airlinesThatOperateBetweenAirports g source target
  = airlinesThatOperateBetweenAirports g' source target.
Proof.
  intros Hs. unfold airlinesThatOperateBetweenAirports.
  apply same_but_visited_deref_eq; [done|]. intros sx sx' _ ->.
  by apply airlines_scan_same.
Qed.

Lemma pathDistance_same (g g' : Graph) v :
  same_but_visited g g' →
  ∀ distance_, pathDistance g v distance_ = pathDistance g' v distance_.
Proof.
  intros Hs. induction v as [|a [|b r] IH]; intros d0; [done..|].
  cbn [pathDistance].
  rewrite (getDistanceBetweenAirports_same g g' a b Hs).
  destruct (getDistanceBetweenAirports g' a b); [|done..].
  cbn. apply IH.
Qed.

(** ** The selection of the trips with the fewest layovers *)

Lemma wrap_int_le_INT_MAX z : (wrap_int z ≤ INT_MAX)%Z.
Proof.
  unfold wrap_int, INT_MAX.
  pose proof (Z.mod_pos_bound (z + 2 ^ 31) (2 ^ 32) eq_refl). lia.
Qed.

Lemma best_trips_initial (g : Graph) qual :
  best_trips g (λ _, False) qual [] INT_MAX.
Proof.
  split_and!; [by intros t ?%elem_of_nil|done|done|done|done].
Qed.

Lemma best_trips_ext (g : Graph) (P P' : Path → Prop) qual tp min :
  (∀ v, P v ↔ P' v) → best_trips g P qual tp min → best_trips g P' qual tp min.
Proof.
  intros HP (H1 & H2 & H3 & H4 & H5).
  split; [|split; [|split; [|split]]]; [| | |done..].
  - intros t Ht. destruct (H1 t Ht) as (? & ? & ? & ?).
    split; [by apply HP|done].
  - intros v S Hv. apply H2. by apply HP.
  - intros v S Hv. apply H3. by apply HP.
Qed.

Lemma best_trips_push (g : Graph) P (qual : Path → AirlineSet → Prop) tp min
    v S d :
  best_trips g P qual tp min → qual v S →
  pathDistance g v 0%float = Ok d →
  ∀ tp1 min1,
    (if (layOversOf v <? min)%Z then ([], layOversOf v) else (tp, min))
    = (tp1, min1) →
    best_trips g (λ x, P x ∨ x = v) qual
      (if (layOversOf v =? min1)%Z then tp1 ++ [(S, (v, d))] else tp1) min1.
Proof.
  intros (H1 & H2 & H3 & H4 & H5) Hq Hd tp1 min1 Hsel.
  pose proof (wrap_int_le_INT_MAX (Z.of_nat (length v) - 2)) as Hmax.
  fold (layOversOf v) in Hmax.
  destruct (Z.ltb_spec (layOversOf v) min) as [Hlt|Hge]; simplify_eq.
  - rewrite Z.eqb_refl.
    split; [|split; [|split; [|split]]]; [| | |done|done].
    + intros t ->%list_elem_of_singleton. cbn. by split; [right|].
    + intros x Sx [Hx| ->] Hqx; [|lia].
      pose proof (H2 x Sx Hx Hqx). lia.
    + intros x Sx [Hx| ->] Hqx Heq.
      * pose proof (H2 x Sx Hx Hqx). lia.
      * cbn. by left.
  - destruct (Z.eqb_spec (layOversOf v) min1) as [Heq|Hne].
    + split; [|split; [|split; [|split]]]; [| | |done|].
      * intros t [Ht| ->%list_elem_of_singleton]%elem_of_app.
        -- destruct (H1 t Ht) as (? & ? & ? & ?). by split; [left|].
        -- cbn. by split; [right|].
      * intros x Sx [Hx| ->] Hqx; [by eapply H2|lia].
      * intros x Sx [Hx| ->] Hqx Hl.
        -- rewrite fmap_app. apply elem_of_app. left. by eapply H3.
        -- rewrite fmap_app. apply elem_of_app. right. by left.
      * intros Hnil. apply (f_equal length) in Hnil.
        rewrite length_app in Hnil. simpl in Hnil. lia.
    + split; [|split; [|split; [|split]]]; [| | |done|done].
      * intros t Ht. destruct (H1 t Ht) as (? & ? & ? & ?). by split; [left|].
      * intros x Sx [Hx| ->] Hqx; [by eapply H2|lia].
      * intros x Sx [Hx| ->] Hqx Hl; [by eapply H3|done].
Qed.

Lemma best_trips_skip (g : Graph) P (qual : Path → AirlineSet → Prop) tp min v :
  best_trips g P qual tp min → (∀ S, ¬ qual v S) →
  best_trips g (λ x, P x ∨ x = v) qual tp min.
Proof.
  intros (H1 & H2 & H3 & H4 & H5) Hnq.
  split; [|split; [|split; [|split]]]; [| | |done|done].
  - intros t Ht. destruct (H1 t Ht) as (? & ? & ? & ?). by split; [left|].
  - intros x Sx [Hx| ->] Hqx; [by eapply H2|by destruct (Hnq Sx)].
  - intros x Sx [Hx| ->] Hqx Hl; [by eapply H3|by destruct (Hnq Sx)].
Qed.

Lemma cl_evaluate_best (g0 g : Graph) paths :
  same_but_visited g0 g → dests_valid g →
  (∀ p, p ∈ paths → p ≠ [] ∧ nodes_below (length g) p) →
  ∀ P totalPaths minLayOvers,
    best_trips g0 P (λ _ S, S = ∅) totalPaths minLayOvers →
    ∃ totalPaths' minLayOvers',
      cl_evaluate g paths totalPaths minLayOvers
      = Ok (totalPaths', minLayOvers') ∧
      best_trips g0 (λ x, P x ∨ x ∈ paths) (λ _ S, S = ∅) totalPaths'
                 minLayOvers'.
Proof.
  intros Hs Hd. induction paths as [|v rest IH]; intros Hp P tp min Hb.
  - exists tp, min. split; [done|].
    eapply best_trips_ext; [|done]. intros x. split; [by left|].
    by intros [?|?%elem_of_nil].
  - destruct (Hp v) as [Hne Hnb]; [by left|].
    destruct (pathDistance_total g v Hd Hne Hnb 0%float) as [d Hdist].
    assert (pathDistance g0 v 0%float = Ok d) as Hdist0
      by (by rewrite (pathDistance_same g0 g v Hs)).
    cbn [cl_evaluate]. fold (layOversOf v).
    destruct (if (layOversOf v <? min)%Z then _ else _) as [tp1 min1] eqn:Hsel.
    pose proof (best_trips_push g0 P _ tp min v ∅ d Hb eq_refl Hdist0
                  tp1 min1 Hsel) as Hb1.
    assert (∀ p, p ∈ rest → p ≠ [] ∧ nodes_below (length g) p) as Hp'
      by (intros p Hin; apply Hp; by right).
    destruct (layOversOf v =? min1)%Z.
    + rewrite Hdist, bind_ret_Ok. cbv beta.
      destruct (IH Hp' _ _ _ Hb1) as (tp' & min' & Hrun & Hb').
      exists tp', min'. split; [done|].
      eapply best_trips_ext; [|done]. intros x. cbn. rewrite elem_of_cons.
      tauto.
    + destruct (IH Hp' _ _ _ Hb1) as (tp' & min' & Hrun & Hb').
      exists tp', min'. split; [done|].
      eapply best_trips_ext; [|done]. intros x. cbn. rewrite elem_of_cons.
      tauto.
Qed.

(** ** getBestPathsAllAirlines *)

Lemma candidate_of_pairs_snoc (g : Graph) pairs s d paths g1 v :
  searchSmallestPathBetweenAirports g s d = Ok (paths, g1) →
  candidate_of_pairs g (pairs ++ [(s, d)]) v
  ↔ candidate_of_pairs g pairs v ∨ v ∈ paths.
Proof.
  intros Hrun. split.
  - intros (s' & d' & ps & g' & Hin & Hr & Hv).
    apply elem_of_app in Hin as [Hin|Hin%list_elem_of_singleton].
    + left. by exists s', d', ps, g'.
    + right. simplify_eq. rewrite Hrun in Hr. by simplify_eq.
  - intros [(s' & d' & ps & g' & Hin & Hr & Hv)|Hv].
    + exists s', d', ps, g'. split; [|done]. apply elem_of_app. by left.
    + exists s, d, paths, g1. split; [|done]. apply elem_of_app. right.
      by left.
Qed.

Lemma candidate_of_all_pairs (g : Graph) source destination v :
  candidate_of g source destination v
  ↔ candidate_of_pairs g (s ← source; (λ d, (s, d)) <$> destination) v.
Proof.
  split.
  - intros (s & d & ps & g' & Hs & Hd & Hr & Hv).
    exists s, d, ps, g'. split; [|done].
    apply list_elem_of_bind. exists s. split; [|done].
    apply list_elem_of_fmap. by exists d.
  - intros (s & d & ps & g' & Hin & Hr & Hv).
    apply list_elem_of_bind in Hin as (s' & Hin & Hs).
    apply list_elem_of_fmap in Hin as (d' & ? & Hd). simplify_eq.
    by exists s', d', ps, g'.
Qed.

Lemma searchSmallestPath_candidates (g0 g : Graph) s d :
  same_but_visited g0 g → dests_valid g0 → s < length g0 →
  ∃ paths g1,
    searchSmallestPathBetweenAirports g s d = Ok (paths, g1) ∧
    searchSmallestPathBetweenAirports g0 s d = Ok (paths, g1) ∧
    same_but_visited g0 g1 ∧ dests_valid g1 ∧
    ∀ p, p ∈ paths → p ≠ [] ∧ nodes_below (length g1) p.
Proof.
  intros Hs Hd Hlt.
  destruct (searchSmallestPath_total g0 s d Hd Hlt) as (paths & g1 & Hr & Hs1).
  exists paths, g1.
  split; [by rewrite <- (searchSmallestPath_reset g0 g s d Hs)|].
  split; [done|]. split; [done|].
  split; [by eapply same_but_visited_dests_valid|].
  intros p Hp. split.
  - destruct (searchSmallestPath_endpoints _ _ _ _ _ Hr p Hp) as (_ & _ & Hl).
    intros ->. simpl in Hl. lia.
  - rewrite <- (same_but_visited_length _ _ Hs1).
    by eapply searchSmallestPath_nodes_below.
Qed.

Lemma bp_destinations_best (g0 : Graph) s dests :
  dests_valid g0 → s < length g0 →
  ∀ (g : Graph) pairs totalPaths minLayOvers,
    same_but_visited g0 g →
    best_trips g0 (candidate_of_pairs g0 pairs) (λ _ S, S = ∅) totalPaths
               minLayOvers →
    ∃ totalPaths' minLayOvers' g',
      bp_destinations g s dests totalPaths minLayOvers
      = Ok (totalPaths', minLayOvers', g') ∧
      same_but_visited g0 g' ∧
      best_trips g0
        (candidate_of_pairs g0 (pairs ++ ((λ d, (s, d)) <$> dests)))
        (λ _ S, S = ∅) totalPaths' minLayOvers'.
Proof.
  intros Hd Hlt. induction dests as [|d rest IH]; intros g pairs tp min Hs Hb.
  - exists tp, min, g. split; [done|]. split; [done|].
    by rewrite fmap_nil, app_nil_r.
  - destruct (searchSmallestPath_candidates g0 g s d Hs Hd Hlt)
      as (paths & g1 & Hr & Hr0 & Hs1 & Hd1 & Hp).
    cbn [bp_destinations]. rewrite Hr, bind_ret_Ok. cbv beta iota.
    destruct (cl_evaluate_best g0 g1 paths Hs1 Hd1 Hp _ _ _ Hb)
      as (tp1 & min1 & He & Hb1).
    rewrite He, bind_ret_Ok. cbv beta iota.
    destruct (IH g1 (pairs ++ [(s, d)]) tp1 min1 Hs1)
      as (tp' & min' & g' & Hr' & Hs' & Hb').
    { eapply best_trips_ext; [|exact Hb1]. intros v.
      by rewrite (candidate_of_pairs_snoc g0 pairs s d paths g1 v Hr0). }
    exists tp', min', g'. split; [done|]. split; [done|].
    rewrite <- (assoc_L (++)) in Hb'. exact Hb'.
Qed.

Lemma bp_sources_best (g0 : Graph) destination sources :
  dests_valid g0 → (∀ s, s ∈ sources → s < length g0) →
  ∀ (g : Graph) pairs totalPaths minLayOvers,
    same_but_visited g0 g →
    best_trips g0 (candidate_of_pairs g0 pairs) (λ _ S, S = ∅) totalPaths
               minLayOvers →
    ∃ totalPaths' minLayOvers' g',
      bp_sources g sources destination totalPaths minLayOvers
      = Ok (totalPaths', minLayOvers', g') ∧
      same_but_visited g0 g' ∧
      best_trips g0
        (candidate_of_pairs g0
           (pairs ++ (s ← sources; (λ d, (s, d)) <$> destination)))
        (λ _ S, S = ∅) totalPaths' minLayOvers'.
Proof.
  intros Hd. induction sources as [|s rest IH];
    intros Hlt g pairs tp min Hs Hb.
  - exists tp, min, g. split; [done|]. split; [done|].
    by rewrite app_nil_r.
  - destruct (bp_destinations_best g0 s destination Hd (Hlt s ltac:(by left))
                g pairs tp min Hs Hb) as (tp1 & min1 & g1 & Hr & Hs1 & Hb1).
    cbn [bp_sources]. rewrite Hr, bind_ret_Ok. cbv beta iota.
    destruct (IH (λ x Hx, Hlt x ltac:(by right)) g1 _ tp1 min1 Hs1 Hb1)
      as (tp' & min' & g' & Hr' & Hs' & Hb').
    exists tp', min', g'. split; [done|]. split; [done|].
    rewrite <- (assoc_L (++)) in Hb'. by rewrite bind_cons.
Qed.

Lemma best_trips_final (g : Graph) P qual trips min :
  best_trips g P qual trips min →
  (∀ t, t ∈ trips →
     P t.2.1 ∧ qual t.2.1 t.1 ∧ pathDistance g t.2.1 0%float = Ok t.2.2) ∧
  (∀ t v S, t ∈ trips → P v → qual v S →
     (layOversOf t.2.1 ≤ layOversOf v)%Z) ∧
  (∀ v S, P v → qual v S →
     (∀ v' S', P v' → qual v' S' → (layOversOf v ≤ layOversOf v')%Z) →
     v ∈ (λ t : Trip, t.2.1) <$> trips).
Proof.
  intros (H1 & H2 & H3 & H4 & H5). split; [|split].
  - intros t Ht. destruct (H1 t Ht) as (? & ? & ? & ?). done.
  - intros t v S Ht Hv Hq. destruct (H1 t Ht) as (_ & _ & -> & _).
    by eapply H2.
  - intros v S Hv Hq Hmin. apply (H3 v S Hv Hq).
    pose proof (H2 v S Hv Hq) as Hle.
    destruct trips as [|t ts].
    + rewrite H5 in * by done.
      pose proof (wrap_int_le_INT_MAX (Z.of_nat (length v) - 2)).
      unfold layOversOf in *. lia.
    + destruct (H1 t ltac:(by left)) as (Ht & Hqt & Hl & _).
      pose proof (Hmin _ _ Ht Hqt). lia.
Qed.

(** X21.  [getBestPathsAllAirlines] selects, among the candidate paths (the
    paths [searchSmallestPathBetweenAirports] returns for the pairs of a
    source and a destination airport), exactly those with the fewest
    layovers over all pairs, each without airlines and with the sum of the
    distances of its flights. *)
Theorem getBestPathsAllAirlines_fewest_layovers (g : Graph)
    (source destination : list VertexPtr) :
  dests_valid g → (∀ s, s ∈ source → s < length g) →
  ∃ trips g',
    getBestPathsAllAirlines g source destination = Ok (trips, g') ∧
    same_but_visited g g' ∧
    (∀ t, t ∈ trips →
       candidate_of g source destination t.2.1 ∧ t.1 = ∅ ∧
       pathDistance g t.2.1 0%float = Ok t.2.2) ∧
    (∀ t v, t ∈ trips → candidate_of g source destination v →
       (layOversOf t.2.1 ≤ layOversOf v)%Z) ∧
    (∀ v, candidate_of g source destination v →
       (∀ v', candidate_of g source destination v' →
              (layOversOf v ≤ layOversOf v')%Z) →
       v ∈ (λ t : Trip, t.2.1) <$> trips).
Proof.
  intros Hd Hlt.
  destruct (bp_sources_best g destination source Hd Hlt g [] [] INT_MAX
              (same_but_visited_refl g))
    as (trips & min & g' & Hr & Hs & Hb).
  { eapply best_trips_ext; [|apply best_trips_initial].
    intros v. split; [done|].
    by intros (? & ? & ? & ? & ?%elem_of_nil & _). }
  exists trips, g'. unfold getBestPathsAllAirlines.
  rewrite Hr, bind_ret_Ok. cbv beta iota. split; [done|]. split; [done|].
  rewrite app_nil_l in Hb.
  apply best_trips_final in Hb as (H1 & H2 & H3).
  split; [|split].
  - intros t Ht. destruct (H1 t Ht) as (? & ? & ?).
    by rewrite candidate_of_all_pairs.
  - intros t v Ht Hv. apply (H2 t v ∅ Ht); [|done].
    by apply candidate_of_all_pairs.
  - intros v Hv Hmin. apply (H3 v ∅); [by apply candidate_of_all_pairs|done|].
    intros v' S' Hv' _. apply Hmin. by apply candidate_of_all_pairs.
Qed.

Lemma getBestPathsAllAirlines_fewest_layovers_witness :
  ∃ trips g',
    getBestPathsAllAirlines g_triangle [0; 2] [1] = Ok (trips, g') ∧
    same_but_visited g_triangle g' ∧
    (∀ t, t ∈ trips →
       candidate_of g_triangle [0; 2] [1] t.2.1 ∧ t.1 = ∅ ∧
       pathDistance g_triangle t.2.1 0%float = Ok t.2.2) ∧
    (∀ t v, t ∈ trips → candidate_of g_triangle [0; 2] [1] v →
       (layOversOf t.2.1 ≤ layOversOf v)%Z) ∧
    (∀ v, candidate_of g_triangle [0; 2] [1] v →
       (∀ v', candidate_of g_triangle [0; 2] [1] v' →
              (layOversOf v ≤ layOversOf v')%Z) →
       v ∈ (λ t : Trip, t.2.1) <$> trips).
Proof.
  apply (getBestPathsAllAirlines_fewest_layovers g_triangle [0; 2] [1]).
  - apply dests_valid_Forall. by_compute.
  - apply Forall_forall. by_compute.
Defined.

(** ** getBestPathsSameAirlines *)

Lemma flies_route_cons (g : Graph) c a b r :
  flies_route g c (a :: b :: r) ↔ operates g a b c ∧ flies_route g c (b :: r).
Proof.
  split.
  - intros H. split; [by apply (H 0)|].
    intros i x y Hx Hy. by apply (H (S i)).
  - intros [H0 H] [|i] x y Hx Hy.
    + simpl in Hx, Hy. by simplify_eq.
    + by apply (H i).
Qed.

Lemma flies_route_short (g : Graph) c (v : Path) :
  length v ≤ 1 → flies_route g c v.
Proof.
  intros Hl i a b Ha Hb. apply lookup_lt_Some in Hb. lia.
Qed.

Lemma sa_legs_same (g g' : Graph) v :
  same_but_visited g g' →
  ∀ i S0, sa_legs g v i S0 = sa_legs g' v i S0.
Proof.
  intros Hs. induction v as [|a [|b r] IH]; intros i S0; [done..|].
  cbn [sa_legs]. rewrite (airlinesThatOperate_same g g' a b Hs).
  destruct (airlinesThatOperateBetweenAirports g' a b) as [T| |]; [|done..].
  cbn. destruct (decide _); [done|]. apply IH.
Qed.

Lemma sameAirlines_same (g g' : Graph) v :
  same_but_visited g g' → sameAirlines g v = sameAirlines g' v.
Proof.
  intros Hs. destruct v; [done|]. by apply sa_legs_same.
Qed.

Lemma AirlineSet_nonempty (S : AirlineSet) :
  S ≠ ∅ ↔ ∃ c, is_Some (S !! c).
Proof.
  split.
  - intros (c & x & Hx)%map_choose. by exists c, x.
  - intros (c & x & Hx) ->. by rewrite lookup_empty in Hx.
Qed.

Lemma sa_legs_rest (g : Graph) (v : Path) :
  well_formed g → nodes_below (length g) v →
  ∀ i (S0 : AirlineSet), i ≠ 0 → S0 ≠ ∅ →
    ∃ (b : bool) (S : AirlineSet),
      sa_legs g v i S0 = Ok (b, S) ∧
      if b then S ≠ ∅ ∧
                ∀ c, is_Some (S !! c) ↔ is_Some (S0 !! c) ∧ flies_route g c v
      else ¬ ∃ c, is_Some (S0 !! c) ∧ flies_route g c v.
Proof.
  intros Hwf. induction v as [|a [|b r] IH]; intros Hnb i S0 Hi HS0.
  - exists true, S0. split; [done|]. split; [done|]. intros c.
    split; [intros ?; split; [done|apply flies_route_short; simpl; lia]|by intros [? _]].
  - exists true, S0. split; [done|]. split; [done|]. intros c.
    split; [intros ?; split; [done|apply flies_route_short; simpl; lia]|by intros [? _]].
  - apply Forall_cons in Hnb as [Ha Hnb].
    pose proof (Forall_inv Hnb) as Hb.
    destruct (airlines_operates g a b Hwf Ha Hb) as (T & HT & Hop).
    cbn [sa_legs]. rewrite HT, bind_ret_Ok. cbv beta zeta.
    destruct (decide (i = 0)) as [|_]; [done|].
    assert (∀ c, is_Some ((S0 ∩ T) !! c)
                 ↔ is_Some (S0 !! c) ∧ operates g a b c) as Hint.
    { intros c. rewrite <- Hop. split.
      - intros [x [? ?]%lookup_intersection_Some]. by split; [exists x|].
      - intros [[x Hx] HTc]. exists x. by apply lookup_intersection_Some. }
    destruct (decide (S0 ∩ T = ∅)) as [He|Hne].
    + exists false, (S0 ∩ T). split; [done|].
      intros (c & Hc & [Hab _]%flies_route_cons).
      assert (is_Some ((S0 ∩ T) !! c)) as [x Hx] by (by apply Hint).
      by rewrite He, lookup_empty in Hx.
    + destruct (IH Hnb (S i) (S0 ∩ T) ltac:(lia) Hne) as (res & S & Hr & Hspec).
      exists res, S. split; [done|]. destruct res.
      * destruct Hspec as [HS Hspec]. split; [done|]. intros c.
        rewrite Hspec, Hint, flies_route_cons. tauto.
      * intros (c & Hc & [Hab Hrest]%flies_route_cons). apply Hspec.
        exists c. split; [|done]. by apply Hint.
Qed.

Lemma sameAirlines_spec (g : Graph) (v : Path) :
  well_formed g → nodes_below (length g) v → 2 ≤ length v →
  ∃ (b : bool) (S : AirlineSet),
    sameAirlines g v = Ok (b, S) ∧
    if b then S ≠ ∅ ∧ ∀ c, is_Some (S !! c) ↔ flies_route g c v
    else ¬ ∃ c, flies_route g c v.
Proof.
  intros Hwf Hnb Hlen. destruct v as [|a [|b r]]; [simpl in Hlen; lia..|].
  apply Forall_cons in Hnb as [Ha Hnb].
  pose proof (Forall_inv Hnb) as Hb.
  destruct (airlines_operates g a b Hwf Ha Hb) as (T & HT & Hop).
  unfold sameAirlines. cbn [sa_legs]. rewrite HT, bind_ret_Ok. cbv beta zeta.
  destruct (decide (0 = 0)) as [_|]; [|done].
  destruct (decide (T = ∅)) as [He|Hne].
  - exists false, T. split; [done|].
    intros (c & [Hab _]%flies_route_cons).
    apply Hop in Hab as [x Hx]. by rewrite He, lookup_empty in Hx.
  - destruct (sa_legs_rest g (b :: r) Hwf Hnb 1 T ltac:(lia) Hne)
      as (res & S & Hr & Hspec).
    exists res, S. split; [done|]. destruct res.
    + destruct Hspec as [HS Hspec]. split; [done|]. intros c.
      rewrite Hspec, Hop, flies_route_cons. tauto.
    + intros (c & [Hab Hrest]%flies_route_cons). apply Hspec.
      exists c. split; [|done]. by apply Hop.
Qed.

Lemma sa_evaluate_best (g0 g : Graph) paths :
  well_formed g0 → same_but_visited g0 g →
  (∀ p, p ∈ paths → 2 ≤ length p ∧ nodes_below (length g0) p) →
  ∀ P totalPaths minLayOvers,
    best_trips g0 P (λ v S, sameAirlines g0 v = Ok (true, S)) totalPaths
               minLayOvers →
    ∃ totalPaths' minLayOvers',
      sa_evaluate g paths totalPaths minLayOvers
      = Ok (totalPaths', minLayOvers') ∧
      best_trips g0 (λ x, P x ∨ x ∈ paths)
                 (λ v S, sameAirlines g0 v = Ok (true, S)) totalPaths'
                 minLayOvers'.
Proof.
  intros Hwf Hs. pose proof Hwf as (_ & Hd & _).
  assert (dests_valid g) as Hdg by (by eapply same_but_visited_dests_valid).
  induction paths as [|v rest IH]; intros Hp P tp min Hb.
  - exists tp, min. split; [done|].
    eapply best_trips_ext; [|done]. intros x. split; [by left|].
    by intros [?|?%elem_of_nil].
  - destruct (Hp v) as [Hlen Hnb]; [by left|].
    assert (v ≠ []) as Hne by (intros ->; simpl in Hlen; lia).
    assert (nodes_below (length g) v) as Hnbg
      by (by rewrite <- (same_but_visited_length _ _ Hs)).
    destruct (pathDistance_total g v Hdg Hne Hnbg 0%float) as [d Hdist].
    assert (pathDistance g0 v 0%float = Ok d) as Hdist0
      by (by rewrite (pathDistance_same g0 g v Hs)).
    destruct (sameAirlines_spec g0 v Hwf Hnb Hlen) as (b & S & Hsa & Hspec).
    assert (∀ p, p ∈ rest → 2 ≤ length p ∧ nodes_below (length g0) p) as Hp'
      by (intros p Hin; apply Hp; by right).
    cbn [sa_evaluate].
    rewrite <- (sameAirlines_same g0 g v Hs), Hsa, bind_ret_Ok.
    cbv beta iota. destruct b.
    + fold (layOversOf v).
      destruct (if (layOversOf v <? min)%Z then _ else _)
        as [tp1 min1] eqn:Hsel.
      pose proof (best_trips_push g0 P _ tp min v S d Hb Hsa Hdist0
                    tp1 min1 Hsel) as Hb1.
      destruct (layOversOf v =? min1)%Z.
      * rewrite Hdist, bind_ret_Ok. cbv beta.
        destruct (IH Hp' _ _ _ Hb1) as (tp' & min' & Hrun & Hb').
        exists tp', min'. split; [done|].
        eapply best_trips_ext; [|done]. intros x. cbn.
        rewrite elem_of_cons. tauto.
      * destruct (IH Hp' _ _ _ Hb1) as (tp' & min' & Hrun & Hb').
        exists tp', min'. split; [done|].
        eapply best_trips_ext; [|done]. intros x. cbn.
        rewrite elem_of_cons. tauto.
    + assert (∀ S', ¬ sameAirlines g0 v = Ok (true, S')) as Hnq
        by (intros S' HS'; by rewrite Hsa in HS').
      pose proof (best_trips_skip g0 P _ tp min v Hb Hnq) as Hb1.
      destruct (IH Hp' _ _ _ Hb1) as (tp' & min' & Hrun & Hb').
      exists tp', min'. split; [done|].
      eapply best_trips_ext; [|done]. intros x. cbn.
      rewrite elem_of_cons. tauto.
Qed.

Lemma sa_destinations_best (g0 : Graph) s dests :
  well_formed g0 → s < length g0 →
  ∀ (g : Graph) pairs totalPaths minLayOvers,
    same_but_visited g0 g →
    best_trips g0 (candidate_of_pairs g0 pairs)
               (λ v S, sameAirlines g0 v = Ok (true, S)) totalPaths
               minLayOvers →
    ∃ totalPaths' minLayOvers' g',
      sa_destinations g s dests totalPaths minLayOvers
      = Ok (totalPaths', minLayOvers', g') ∧
      same_but_visited g0 g' ∧
      best_trips g0
        (candidate_of_pairs g0 (pairs ++ ((λ d, (s, d)) <$> dests)))
        (λ v S, sameAirlines g0 v = Ok (true, S)) totalPaths' minLayOvers'.
Proof.
  intros Hwf Hlt. pose proof Hwf as (_ & Hd & _).
  induction dests as [|d rest IH]; intros g pairs tp min Hs Hb.
  - exists tp, min, g. split; [done|]. split; [done|].
    by rewrite fmap_nil, app_nil_r.
  - destruct (searchSmallestPath_candidates g0 g s d Hs Hd Hlt)
      as (paths & g1 & Hr & Hr0 & Hs1 & Hd1 & Hp).
    assert (∀ p, p ∈ paths → 2 ≤ length p ∧ nodes_below (length g0) p) as Hp2.
    { intros p Hin. split.
      - by destruct (searchSmallestPath_endpoints _ _ _ _ _ Hr0 p Hin)
          as (_ & _ & ?).
      - rewrite (same_but_visited_length _ _ Hs1). by apply Hp. }
    cbn [sa_destinations]. rewrite Hr, bind_ret_Ok. cbv beta iota.
    destruct (sa_evaluate_best g0 g1 paths Hwf Hs1 Hp2 _ _ _ Hb)
      as (tp1 & min1 & He & Hb1).
    rewrite He, bind_ret_Ok. cbv beta iota.
    destruct (IH g1 (pairs ++ [(s, d)]) tp1 min1 Hs1)
      as (tp' & min' & g' & Hr' & Hs' & Hb').
    { eapply best_trips_ext; [|exact Hb1]. intros v.
      by rewrite (candidate_of_pairs_snoc g0 pairs s d paths g1 v Hr0). }
    exists tp', min', g'. split; [done|]. split; [done|].
    rewrite <- (assoc_L (++)) in Hb'. exact Hb'.
Qed.

Lemma sa_sources_best (g0 : Graph) destination sources :
  well_formed g0 → (∀ s, s ∈ sources → s < length g0) →
  ∀ (g : Graph) pairs totalPaths minLayOvers,
    same_but_visited g0 g →
    best_trips g0 (candidate_of_pairs g0 pairs)
               (λ v S, sameAirlines g0 v = Ok (true, S)) totalPaths
               minLayOvers →
    ∃ totalPaths' minLayOvers' g',
      sa_sources g sources destination totalPaths minLayOvers
      = Ok (totalPaths', minLayOvers', g') ∧
      same_but_visited g0 g' ∧
      best_trips g0
        (candidate_of_pairs g0
           (pairs ++ (s ← sources; (λ d, (s, d)) <$> destination)))
        (λ v S, sameAirlines g0 v = Ok (true, S)) totalPaths' minLayOvers'.
Proof.
  intros Hwf. induction sources as [|s rest IH];
    intros Hlt g pairs tp min Hs Hb.
  - exists tp, min, g. split; [done|]. split; [done|].
    by rewrite app_nil_r.
  - destruct (sa_destinations_best g0 s destination Hwf (Hlt s ltac:(by left))
                g pairs tp min Hs Hb) as (tp1 & min1 & g1 & Hr & Hs1 & Hb1).
    cbn [sa_sources]. rewrite Hr, bind_ret_Ok. cbv beta iota.
    destruct (IH (λ x Hx, Hlt x ltac:(by right)) g1 _ tp1 min1 Hs1 Hb1)
      as (tp' & min' & g' & Hr' & Hs' & Hb').
    exists tp', min', g'. split; [done|]. split; [done|].
    rewrite <- (assoc_L (++)) in Hb'. by rewrite bind_cons.
Qed.

Lemma candidate_shape (g : Graph) source destination v :
  dests_valid g → candidate_of g source destination v →
  2 ≤ length v ∧ nodes_below (length g) v.
Proof.
  intros Hd (s & d & ps & g' & _ & _ & Hr & Hv). split.
  - by destruct (searchSmallestPath_endpoints _ _ _ _ _ Hr v Hv) as (_ & _ & ?).
  - by eapply searchSmallestPath_nodes_below.
Qed.

(** X22.  [getBestPathsSameAirlines] selects, among the candidate paths (the
    paths [searchSmallestPathBetweenAirports] returns for the pairs of a
    source and a destination airport) that one airline can fly from end to
    end, exactly those with the fewest layovers among such candidates; the
    airlines it attaches to a trip are the ones recorded on every flight of
    the trip, and there is at least one. *)
Theorem getBestPathsSameAirlines_one_airline (g : Graph)
    (source destination : list VertexPtr) :
  well_formed g → (∀ s, s ∈ source → s < length g) →
  ∃ trips g',
    getBestPathsSameAirlines g source destination = Ok (trips, g') ∧
    same_but_visited g g' ∧
    (∀ t, t ∈ trips →
       candidate_of g source destination t.2.1 ∧ t.1 ≠ ∅ ∧
       (∀ c, is_Some (t.1 !! c) ↔ flies_route g c t.2.1) ∧
       pathDistance g t.2.1 0%float = Ok t.2.2) ∧
    (∀ t v c, t ∈ trips → candidate_of g source destination v →
       flies_route g c v → (layOversOf t.2.1 ≤ layOversOf v)%Z) ∧
    (∀ v c, candidate_of g source destination v → flies_route g c v →
       (∀ v' c', candidate_of g source destination v' → flies_route g c' v' →
                 (layOversOf v ≤ layOversOf v')%Z) →
       v ∈ (λ t : Trip, t.2.1) <$> trips).
Proof.
  intros Hwf Hlt. pose proof Hwf as (_ & Hd & _).
  destruct (sa_sources_best g destination source Hwf Hlt g [] [] INT_MAX
              (same_but_visited_refl g))
    as (trips & min & g' & Hr & Hs & Hb).
  { eapply best_trips_ext; [|apply best_trips_initial].
    intros v. split; [done|].
    by intros (? & ? & ? & ? & ?%elem_of_nil & _). }
  exists trips, g'. unfold getBestPathsSameAirlines.
  rewrite Hr, bind_ret_Ok. cbv beta iota. split; [done|]. split; [done|].
  rewrite app_nil_l in Hb.
  apply best_trips_final in Hb as (H1 & H2 & H3).
  assert (∀ v, candidate_of g source destination v →
            ∀ S, sameAirlines g v = Ok (true, S) →
                 S ≠ ∅ ∧ ∀ c, is_Some (S !! c) ↔ flies_route g c v) as Hyes.
  { intros v Hv S HS. destruct (candidate_shape g _ _ v Hd Hv) as [Hlen Hnb].
    destruct (sameAirlines_spec g v Hwf Hnb Hlen) as (b & S' & Hsa & Hspec).
    rewrite HS in Hsa. by simplify_eq. }
  assert (∀ v c, candidate_of g source destination v → flies_route g c v →
            ∃ S, sameAirlines g v = Ok (true, S)) as Hflies.
  { intros v c Hv Hc. destruct (candidate_shape g _ _ v Hd Hv) as [Hlen Hnb].
    destruct (sameAirlines_spec g v Hwf Hnb Hlen) as (b & S & Hsa & Hspec).
    destruct b; [by exists S|]. destruct Hspec. by exists c. }
  split; [|split].
  - intros t Ht. destruct (H1 t Ht) as (Hc%candidate_of_all_pairs & Hq & Hdist).
    destruct (Hyes _ Hc _ Hq) as [Hne Hiff]. done.
  - intros t v c Ht Hv Hc. destruct (Hflies v c Hv Hc) as [S HS].
    apply (H2 t v S Ht); [|done]. by apply candidate_of_all_pairs.
  - intros v c Hv Hc Hmin. destruct (Hflies v c Hv Hc) as [S HS].
    apply (H3 v S); [by apply candidate_of_all_pairs|done|].
    intros v' S' Hv'%candidate_of_all_pairs HS'.
    destruct (Hyes v' Hv' S' HS') as [(c' & Hc')%AirlineSet_nonempty Hiff].
    apply (Hmin v' c' Hv'). by apply Hiff.
Qed.

Lemma well_formed_g_two_legs : well_formed g_two_legs.
Proof. apply well_formed_Forall; by_compute. Qed.

Lemma getBestPathsSameAirlines_one_airline_witness :
  ∃ trips g',
    getBestPathsSameAirlines g_two_legs [0] [2] = Ok (trips, g') ∧
    same_but_visited g_two_legs g' ∧
    (∀ t, t ∈ trips →
       candidate_of g_two_legs [0] [2] t.2.1 ∧ t.1 ≠ ∅ ∧
       (∀ c, is_Some (t.1 !! c) ↔ flies_route g_two_legs c t.2.1) ∧
       pathDistance g_two_legs t.2.1 0%float = Ok t.2.2) ∧
    (∀ t v c, t ∈ trips → candidate_of g_two_legs [0] [2] v →
       flies_route g_two_legs c v → (layOversOf t.2.1 ≤ layOversOf v)%Z) ∧
    (∀ v c, candidate_of g_two_legs [0] [2] v → flies_route g_two_legs c v →
       (∀ v' c', candidate_of g_two_legs [0] [2] v' →
                 flies_route g_two_legs c' v' →
                 (layOversOf v ≤ layOversOf v')%Z) →
       v ∈ (λ t : Trip, t.2.1) <$> trips).
Proof.
  apply (getBestPathsSameAirlines_one_airline g_two_legs [0] [2]).
  - exact well_formed_g_two_legs.
  - apply Forall_forall. by_compute.
Defined.

(** * Utilities.cpp and the queries by city *)

Section string_facts.

Variable tolower : Ascii.ascii → Ascii.ascii.
Variable isspace : Ascii.ascii → bool.

(** ** TrimString *)

Lemma from_first_non_space_split (l : list Ascii.ascii) :
  ∃ pre, l = pre ++ from_first_non_space isspace l ∧
         Forall (λ c, isspace c = true) pre.
Proof.
  induction l as [|c l (pre & IH & Hpre)]; [by exists []|].
  cbn [from_first_non_space]. destruct (isspace c) eqn:Hc.
  - exists (c :: pre). split; [by rewrite IH at 1|]. by constructor.
  - by exists [].
Qed.

Lemma from_first_non_space_head (l : list Ascii.ascii) c :
  head (from_first_non_space isspace l) = Some c → isspace c = false.
Proof.
  induction l as [|a l IH]; [done|].
  cbn [from_first_non_space]. destruct (isspace a) eqn:Ha; [done|].
  intros [= <-]. done.
Qed.

Lemma from_first_non_space_spaces (pre t : list Ascii.ascii) :
  Forall (λ c, isspace c = true) pre →
  (∀ c, head t = Some c → isspace c = false) →
  from_first_non_space isspace (pre ++ t) = t.
Proof.
  intros Hpre Ht. induction Hpre as [|c pre Hc _ IH].
  - destruct t as [|a t]; [done|]. cbn. by rewrite (Ht a).
  - cbn. by rewrite Hc.
Qed.

Lemma TrimString_of_parts (s : string) (pre t post : list Ascii.ascii) :
  String.list_ascii_of_string s = pre ++ t ++ post →
  Forall (λ c, isspace c = true) pre → Forall (λ c, isspace c = true) post →
  trimmed_string isspace t →
  TrimString isspace s = String.string_of_list_ascii t.
Proof.
  intros Hs Hpre Hpost [Hh Hl]. unfold TrimString. rewrite Hs. f_equal.
  destruct t as [|a t].
  - replace (pre ++ [] ++ post) with ((pre ++ post) ++ [])
      by (by rewrite app_nil_r).
    rewrite (from_first_non_space_spaces (pre ++ post) []); [done| |done].
    apply Forall_app. by split.
  - rewrite (from_first_non_space_spaces pre); [|done|].
    + rewrite reverse_app, (from_first_non_space_spaces (reverse post)).
      * apply reverse_involutive.
      * by apply Forall_reverse.
      * intros c. rewrite head_reverse. apply Hl.
    + intros c Hc. apply Hh. done.
Qed.

Lemma TrimString_parts (s : string) :
  ∃ pre post,
    String.list_ascii_of_string s
    = pre ++ String.list_ascii_of_string (TrimString isspace s) ++ post ∧
    Forall (λ c, isspace c = true) pre ∧
    Forall (λ c, isspace c = true) post ∧
    trimmed_string isspace
      (String.list_ascii_of_string (TrimString isspace s)).
Proof.
  unfold TrimString. rewrite String.list_ascii_of_string_of_list_ascii.
  set (M := from_first_non_space isspace (String.list_ascii_of_string s)).
  destruct (from_first_non_space_split (String.list_ascii_of_string s))
    as (pre & HL & Hpre). fold M in HL.
  destruct (from_first_non_space_split (reverse M)) as (post' & HM & Hpost).
  set (X := from_first_non_space isspace (reverse M)) in *.
  assert (M = reverse X ++ reverse post') as HM'.
  { by rewrite <- reverse_app, <- HM, reverse_involutive. }
  exists pre, (reverse post'). split; [by rewrite <- HM'|].
  split; [done|]. split; [by apply Forall_reverse|]. split.
  - intros c Hc.
    apply (from_first_non_space_head (String.list_ascii_of_string s)).
    fold M. rewrite HM', head_app. by rewrite Hc.
  - intros c. rewrite last_reverse. apply from_first_non_space_head.
Qed.

(** X23.  [TrimString] removes the spaces at both ends and nothing else: its
    result is the one string without a space at either end that the argument
    holds between a run of spaces and a run of spaces. *)
Theorem TrimString_spec (s t : string) :
  TrimString isspace s = t ↔
  ∃ pre post,
    String.list_ascii_of_string s
    = pre ++ String.list_ascii_of_string t ++ post ∧
    Forall (λ c, isspace c = true) pre ∧
    Forall (λ c, isspace c = true) post ∧
    trimmed_string isspace (String.list_ascii_of_string t).
Proof.
  split.
  - intros <-. apply TrimString_parts.
  - intros (pre & post & Hs & Hpre & Hpost & Ht).
    rewrite (TrimString_of_parts s pre _ post Hs Hpre Hpost Ht).
    apply String.string_of_list_ascii_of_string.
Qed.

(** ** Lower case without spaces *)

Lemma RemoveSpaces_ToLower_chars (s : string) c :
  c ∈ String.list_ascii_of_string (RemoveSpaces isspace (ToLower tolower s)) →
  isspace c = false ∧ ∃ x, tolower x = c.
Proof.
  induction s as [|a s IH]; [by intros ?%elem_of_nil|].
  cbn [ToLower RemoveSpaces]. destruct (isspace (tolower a)) eqn:Ha; [done|].
  cbn [String.list_ascii_of_string].
  intros [->|Hc]%elem_of_cons; [|by apply IH]. split; [done|by exists a].
Qed.

Lemma in_city_normalized (city_ country_ : string) (vx : Vertex) c :
  in_city tolower isspace city_ country_ vx →
  c ∈ String.list_ascii_of_string city_ ∨
  c ∈ String.list_ascii_of_string country_ →
  isspace c = false ∧ ∃ x, tolower x = c.
Proof.
  intros [<- <-] [Hc|Hc]; by eapply RemoveSpaces_ToLower_chars.
Qed.

(** ** The airports of a city *)

Lemma processAll_cons {R} (process : VertexPtr → Vertex → R → R) (g : Graph)
    u order r :
  processAll process g (u :: order) r
  = processAll process g order
      match g !! u with
      | Some vx => process u (setVisited true vx) r
      | None => r
      end.
Proof. done. Qed.

Lemma processAll_cityAirports (g : Graph) city_ country_ order :
  ∀ res v,
    v ∈ processAll (addCityAirport tolower isspace city_ country_) g order res
    ↔ v ∈ res ∨
      (v ∈ order ∧ ∃ vx, g !! v = Some vx ∧
                         in_city tolower isspace city_ country_ vx).
Proof.
  induction order as [|u order IH]; intros res v.
  - cbn. split; [by left|]. by intros [?|[?%elem_of_nil _]].
  - rewrite processAll_cons, IH, elem_of_cons.
    destruct (g !! u) as [ux|] eqn:Hu.
    + unfold addCityAirport.
      change (in_city tolower isspace city_ country_ (setVisited true ux))
        with (in_city tolower isspace city_ country_ ux).
      destruct (decide (in_city tolower isspace city_ country_ ux)) as [Hin|Hn].
      * rewrite elem_of_app, list_elem_of_singleton. split.
        -- intros [[?| ->]|[? ?]]; [by left| |by right; split; [right|]].
           right. split; [by left|]. by exists ux.
        -- intros [?|[[->|?] ?]]; [by left; left|by left; right|by right].
      * split.
        -- intros [?|[? ?]]; [by left|by right; split; [right|]].
        -- intros [?|[[->|?] (vx & Hvx & Hc)]];
             [by left| |right; split; [done|by exists vx]].
           rewrite Hu in Hvx. by simplify_eq.
    + split.
      * intros [?|[? ?]]; [by left|by right; split; [right|]].
      * intros [?|[[->|?] (vx & Hvx & Hc)]];
          [by left| |right; split; [done|by exists vx]].
        by rewrite Hu in Hvx.
Qed.

Lemma processAll_cityAirports_NoDup (g : Graph) city_ country_ order :
  ∀ res,
    NoDup order → NoDup res → (∀ v, v ∈ res → v ∉ order) →
    NoDup (processAll (addCityAirport tolower isspace city_ country_) g
                      order res).
Proof.
  induction order as [|u order IH]; intros res Ho Hr Hdisj; [done|].
  apply NoDup_cons in Ho as [Hu Ho].
  rewrite processAll_cons.
  assert (∀ v, v ∈ res → v ∉ order) as Hdisj'.
  { intros v Hv Hin. apply (Hdisj v Hv). by right. }
  destruct (g !! u) as [ux|]; [|by apply IH].
  unfold addCityAirport. destruct (decide _); [|by apply IH].
  apply IH; [done| |].
  - apply NoDup_app. split; [done|]. split; [|apply NoDup_singleton].
    intros v Hv ->%list_elem_of_singleton. apply (Hdisj u Hv). by left.
  - intros v [Hv| ->%list_elem_of_singleton]%elem_of_app; [by apply Hdisj'|done].
Qed.

Lemma cityAirports_run (g : Graph) (city_ country_ : string) :
  dests_valid g →
  ∃ res g',
    dfsWith_roots (addCityAirport tolower isspace city_ country_)
                  (length g) (seq 0 (length g)) (resetVisited g, [])
    = Ok (g', res) ∧
    same_but_visited g g' ∧ NoDup res ∧
    ∀ v, v ∈ res ↔ ∃ vx, g !! v = Some vx ∧
                         in_city tolower isspace city_ country_ vx.
Proof.
  intros Hd.
  destruct (dfs_forest_run (addCityAirport tolower isspace city_ country_)
              g [] Hd) as (order & g' & Hrun & Hs & Hperm & _).
  eexists _, g'. split; [exact Hrun|]. split; [done|]. split.
  - apply processAll_cityAirports_NoDup; [|constructor|by intros v ?%elem_of_nil].
    rewrite Hperm. apply NoDup_seq.
  - intros v. rewrite processAll_cityAirports. split.
    + by intros [?%elem_of_nil|[_ ?]].
    + intros (vx & Hvx & Hc). right. split; [|by exists vx].
      rewrite Hperm. apply elem_of_seq. apply lookup_lt_Some in Hvx. lia.
Qed.

(** X24.  [getAirportsInACityAndCountry] returns, once each, the airports whose
    city and country equal the given ones when both sides are put in lower
    case and stripped of spaces. *)
Theorem getAirportsInACityAndCountry_all (g : Graph) (city_ country_ : string) :
  dests_valid g →
  ∃ res g',
    getAirportsInACityAndCountry tolower isspace g city_ country_
    = Ok (res, g') ∧
    same_but_visited g g' ∧ NoDup res ∧
    ∀ v, v ∈ res ↔
         ∃ vx, g !! v = Some vx ∧
               RemoveSpaces isspace (ToLower tolower (city (info vx)))
               = RemoveSpaces isspace (ToLower tolower city_) ∧
               RemoveSpaces isspace (ToLower tolower (country (info vx)))
               = RemoveSpaces isspace (ToLower tolower country_).
Proof.
  intros Hd.
  destruct (cityAirports_run g (RemoveSpaces isspace (ToLower tolower city_))
              (RemoveSpaces isspace (ToLower tolower country_)) Hd)
    as (res & g' & Hrun & Hs & Hnd & Hres).
  exists res, g'. unfold getAirportsInACityAndCountry.
  rewrite Hrun, bind_ret_Ok. cbv beta iota. done.
Qed.

(** ** The countries flown to from a city *)

Lemma elem_of_collected attr (g : Graph) flights k :
  (∀ e, e ∈ flights → dest e < length g) →
  k ∈ collected attr g flights ↔
  ∃ e dx, e ∈ flights ∧ g !! dest e = Some dx ∧ attr dx = k.
Proof.
  intros Hv. unfold collected. rewrite elem_of_list_to_set, list_elem_of_fmap.
  split.
  - intros (e & -> & He).
    destruct (lookup_lt_is_Some_2 g (dest e) (Hv e He)) as [dx Hdx].
    exists e, dx. by rewrite Hdx.
  - intros (e & dx & He & Hdx & <-). exists e. by rewrite Hdx.
Qed.

Lemma cf_collect_Ok (g : Graph) cityAirports :
  dests_valid g → (∀ v, v ∈ cityAirports → v < length g) →
  ∀ acc, ∃ countries,
    cf_collect cityAirports g acc = Ok countries ∧
    ∀ k, k ∈ countries ↔
         k ∈ acc ∨
         ∃ v vx e dx, v ∈ cityAirports ∧ g !! v = Some vx ∧ e ∈ adj vx ∧
                      g !! dest e = Some dx ∧ country (info dx) = k.
Proof.
  intros Hd. induction cityAirports as [|v rest IH]; intros Hlt acc.
  - exists acc. split; [done|]. intros k. split; [by left|].
    by intros [?|(? & ? & ? & ? & ?%elem_of_nil & _)].
  - destruct (lookup_lt_is_Some_2 g v (Hlt v ltac:(by left))) as [vx Hvx].
    assert (∀ e, e ∈ adj vx → dest e < length g) as Hadj
      by (intros e He; exact (Hd v vx e Hvx He)).
    cbn [cf_collect]. rewrite (deref_lookup _ _ _ Hvx), bind_ret_Ok.
    cbv beta. rewrite rd_collect_Ok, bind_ret_Ok by done. cbv beta.
    destruct (IH (λ x Hx, Hlt x ltac:(by right))
                 (collected extractCountry g (adj vx) ∪ acc))
      as (countries & Hrun & Hc).
    exists countries. split; [done|]. intros k.
    rewrite Hc, elem_of_union, elem_of_collected by done. split.
    + intros [[(e & dx & He & Hdx & Hk)|?]|(u & ux & e & dx & Hu & ?)].
      * right. exists v, vx, e, dx. by split; [left|].
      * by left.
      * right. exists u, ux, e, dx. by split; [right|].
    + intros [?|(u & ux & e & dx & [->|Hu]%elem_of_cons & Hux & He & Hdx & Hk)].
      * by left; right.
      * rewrite Hvx in Hux. simplify_eq. left. left. by exists e, dx.
      * right. by exists u, ux, e, dx.
Qed.

(** X25.  [searchNumberOfCountriesFlownToFromCity] counts the countries of the
    destinations of the airports whose city and country, in lower case and
    without spaces, are the two strings exactly as given.  The strings are
    not put in that form first: as soon as one of them holds a space or a
    character that is no lower-case image, no airport matches and the count
    is zero. *)
Theorem searchNumberOfCountriesFlownToFromCity_raw (g : Graph)
    (city_ country_ : string) :
  dests_valid g →
  ∃ (countries : gset string) g',
    searchNumberOfCountriesFlownToFromCity tolower isspace g city_ country_
    = Ok (static_cast_int (size countries), g') ∧
    same_but_visited g g' ∧
    (∀ k, k ∈ countries ↔
          ∃ v vx e dx,
            g !! v = Some vx ∧
            RemoveSpaces isspace (ToLower tolower (city (info vx))) = city_ ∧
            RemoveSpaces isspace (ToLower tolower (country (info vx)))
            = country_ ∧
            e ∈ adj vx ∧ g !! dest e = Some dx ∧ country (info dx) = k) ∧
    ((∃ c, (c ∈ String.list_ascii_of_string city_ ∨
            c ∈ String.list_ascii_of_string country_) ∧
           (isspace c = true ∨ ∀ x, tolower x ≠ c)) →
     countries = ∅ ∧
     searchNumberOfCountriesFlownToFromCity tolower isspace g city_ country_
     = Ok (0%Z, g')).
Proof.
  intros Hd.
  destruct (cityAirports_run g city_ country_ Hd)
    as (res & g' & Hrun & Hs & Hnd & Hres).
  assert (dests_valid g') as Hd' by (by eapply same_but_visited_dests_valid).
  assert (∀ v, v ∈ res → v < length g') as Hlt.
  { intros v (vx & Hvx & _)%Hres.
    rewrite <- (same_but_visited_length _ _ Hs). by eapply lookup_lt_Some. }
  destruct (cf_collect_Ok g' res Hd' Hlt ∅) as (countries & Hcf & Hc).
  assert (∀ k, k ∈ countries ↔
            ∃ v vx e dx,
              g !! v = Some vx ∧
              RemoveSpaces isspace (ToLower tolower (city (info vx))) = city_ ∧
              RemoveSpaces isspace (ToLower tolower (country (info vx)))
              = country_ ∧
              e ∈ adj vx ∧ g !! dest e = Some dx ∧ country (info dx) = k)
    as Hchar.
  { intros k. rewrite Hc. split.
    - intros [?%elem_of_empty|(v & vx' & e & dx' & Hv & Hvx' & He & Hdx' & Hk)];
        [done|].
      apply Hres in Hv as (vx & Hvx & Hcity & Hcountry).
      destruct (same_but_visited_adj _ _ _ _ _ Hs Hvx Hvx') as [Ha Hi].
      destruct (same_but_visited_lookup _ _ _ _ Hs Hdx') as (dx & Hdx & Hdd).
      exists v, vx, e, dx. split; [done|]. split; [done|]. split; [done|].
      split; [by rewrite Ha|]. split; [done|].
      rewrite <- Hk.
      change (country (info (setVisited false dx))
              = country (info (setVisited false dx'))).
      by rewrite Hdd.
    - intros (v & vx & e & dx & Hvx & Hcity & Hcountry & He & Hdx & Hk).
      right.
      assert (v < length g') as Hv'.
      { rewrite <- (same_but_visited_length _ _ Hs). by eapply lookup_lt_Some. }
      destruct (lookup_lt_is_Some_2 g' v Hv') as [vx' Hvx'].
      destruct (same_but_visited_adj _ _ _ _ _ Hs Hvx Hvx') as [Ha Hi].
      assert (dest e < length g') as He'.
      { rewrite <- (same_but_visited_length _ _ Hs). by eapply lookup_lt_Some. }
      destruct (lookup_lt_is_Some_2 g' (dest e) He') as [dx' Hdx'].
      destruct (same_but_visited_adj _ _ _ _ _ Hs Hdx Hdx') as [_ Hdi].
      exists v, vx', e, dx'. split; [|split; [done|]].
      + apply Hres. exists vx. by split.
      + split; [by rewrite <- Ha|]. split; [done|]. by rewrite <- Hdi. }
  exists countries, g'.
  assert (searchNumberOfCountriesFlownToFromCity tolower isspace g city_
            country_ = Ok (static_cast_int (size countries), g')) as Hq.
  { unfold searchNumberOfCountriesFlownToFromCity.
    rewrite Hrun, bind_ret_Ok. cbv beta iota.
    by rewrite Hcf, bind_ret_Ok. }
  split; [done|]. split; [done|]. split; [done|].
  intros (c & Hin & Hbad).
  assert (countries = ∅) as ->.
  { apply set_eq. intros k. rewrite Hchar. split; [|by intros ?%elem_of_empty].
    intros (v & vx & e & dx & Hvx & Hcity & Hcountry & _).
    destruct (in_city_normalized city_ country_ vx c (conj Hcity Hcountry) Hin)
      as [Hsp [x Hx]].
    destruct Hbad as [Hbad|Hbad]; [congruence|by destruct (Hbad x)]. }
  split; [done|]. by rewrite Hq, size_empty.
Qed.

End string_facts.

Lemma getAirportsInACityAndCountry_all_witness :
  ∃ res g',
    getAirportsInACityAndCountry tolower_C isspace_C g_cities "London"
                                 "United Kingdom"
    = Ok (res, g') ∧
    same_but_visited g_cities g' ∧ NoDup res ∧
    ∀ v, v ∈ res ↔
         ∃ vx, g_cities !! v = Some vx ∧
               RemoveSpaces isspace_C (ToLower tolower_C (city (info vx)))
               = RemoveSpaces isspace_C (ToLower tolower_C "London") ∧
               RemoveSpaces isspace_C (ToLower tolower_C (country (info vx)))
               = RemoveSpaces isspace_C (ToLower tolower_C "United Kingdom").
Proof.
  apply (getAirportsInACityAndCountry_all tolower_C isspace_C g_cities
           "London" "United Kingdom").
  apply dests_valid_Forall. by_compute.
Defined.

Lemma searchNumberOfCountriesFlownToFromCity_raw_witness :
  ∃ (countries : gset string) g',
    searchNumberOfCountriesFlownToFromCity tolower_C isspace_C g_cities
      "london" "unitedkingdom"
    = Ok (static_cast_int (size countries), g') ∧
    same_but_visited g_cities g' ∧
    (∀ k, k ∈ countries ↔
          ∃ v vx e dx,
            g_cities !! v = Some vx ∧
            RemoveSpaces isspace_C (ToLower tolower_C (city (info vx)))
            = "london" ∧
            RemoveSpaces isspace_C (ToLower tolower_C (country (info vx)))
            = "unitedkingdom" ∧
            e ∈ adj vx ∧ g_cities !! dest e = Some dx ∧
            country (info dx) = k) ∧
    ((∃ c, (c ∈ String.list_ascii_of_string "london" ∨
            c ∈ String.list_ascii_of_string "unitedkingdom") ∧
           (isspace_C c = true ∨ ∀ x, tolower_C x ≠ c)) →
     countries = ∅ ∧
     searchNumberOfCountriesFlownToFromCity tolower_C isspace_C g_cities
       "london" "unitedkingdom"
     = Ok (0%Z, g')).
Proof.
  apply (searchNumberOfCountriesFlownToFromCity_raw tolower_C isspace_C
           g_cities "london" "unitedkingdom").
  apply dests_valid_Forall. by_compute.
Defined.

(** * The statistics by airline *)

Lemma airlines_keyed_Forall (g : Graph) :
  Forall (λ v, Forall (λ e, map_Forall (λ c a, airline_code a = c)
                                       (airlines e)) (adj v)) g →
  airlines_keyed g.
Proof.
  intros H u ux e c a Hu He Ha.
  rewrite Forall_forall in H.
  pose proof (H ux (list_elem_of_lookup_2 _ _ _ Hu)) as Hv.
  rewrite Forall_forall in Hv. by apply (Hv e He c a).
Qed.

(** ** The airlines out of an airport *)

Lemma AirlineSet_elements_codes (m : AirlineSet) :
  (∀ c a, m !! c = Some a → airline_code a = c) →
  NoDup (airline_code <$> AirlineSet_elements m) ∧
  ∀ c, c ∈ airline_code <$> AirlineSet_elements m ↔ is_Some (m !! c).
Proof.
  intros Hk. unfold AirlineSet_elements.
  set (l := merge_sort _ (map_to_list m)).
  assert (l ≡ₚ map_to_list m) as Hperm by apply merge_sort_Permutation.
  assert (airline_code <$> l.*2 = l.*1) as Hcodes.
  { rewrite <- list_fmap_compose. apply list_fmap_ext.
    intros i [c a] Hi. cbn. apply Hk, elem_of_map_to_list.
    rewrite <- Hperm. by eapply list_elem_of_lookup_2. }
  rewrite Hcodes. split.
  - rewrite Hperm. apply NoDup_fst_map_to_list.
  - intros c. rewrite Hperm, list_elem_of_fmap. split.
    + intros ([c' a] & -> & Hin%elem_of_map_to_list). by exists a.
    + intros [a Ha]. exists (c, a). split; [done|].
      by apply elem_of_map_to_list.
Qed.

Lemma foldl_AirlineSet_insert_is_Some (l : list Airline) c :
  ∀ acc : AirlineSet,
    is_Some (foldl (λ acc a, AirlineSet_insert a acc) acc l !! c)
    ↔ is_Some (acc !! c) ∨ c ∈ airline_code <$> l.
Proof.
  induction l as [|a l IH]; intros acc.
  - cbn. split; [by left|]. by intros [?|?%elem_of_nil].
  - cbn [foldl]. rewrite IH, AirlineSet_insert_is_Some, fmap_cons,
      elem_of_cons. tauto.
Qed.

Lemma insertAirlines_is_Some (m acc : AirlineSet) :
  (∀ c a, m !! c = Some a → airline_code a = c) →
  ∀ c, is_Some (insertAirlines m acc !! c)
       ↔ is_Some (acc !! c) ∨ is_Some (m !! c).
Proof.
  intros Hk c. unfold insertAirlines.
  rewrite foldl_AirlineSet_insert_is_Some.
  by rewrite (proj2 (AirlineSet_elements_codes m Hk) c).
Qed.

Lemma insertAirlines_flights (flights : list Edge) :
  (∀ e c a, e ∈ flights → airlines e !! c = Some a → airline_code a = c) →
  ∀ (acc : AirlineSet) c,
    is_Some (foldl (λ airlines_ flight,
                      insertAirlines (airlines flight) airlines_)
                   acc flights !! c)
    ↔ is_Some (acc !! c) ∨ ∃ e, e ∈ flights ∧ is_Some (airlines e !! c).
Proof.
  induction flights as [|e rest IH]; intros Hk acc c.
  - cbn. split; [by left|]. by intros [?|(? & ?%elem_of_nil & _)].
  - cbn [foldl]. rewrite IH by (intros e' c' a' He'; apply Hk; by right).
    rewrite insertAirlines_is_Some
      by (intros c' a'; apply Hk; by left).
    split.
    + intros [[?|?]|(e' & He' & ?)]; [by left| |].
      * right. exists e. by split; [left|].
      * right. exists e'. by split; [right|].
    + intros [?|(e' & [->|He']%elem_of_cons & ?)];
        [by left; left|by left; right|].
      right. by exists e'.
Qed.

Lemma differentAirlines_run (g : Graph) (airport : VertexPtr) :
  airlines_keyed g → airport < length g →
  ∃ S : gset string,
    searchNumberOfFlightsOutOfAirportFromDifferentAirlines g airport
    = Ok (static_cast_int (size S)) ∧
    ∀ c, c ∈ S ↔ ∃ w, operates g airport w c.
Proof.
  intros Hk Hlt.
  destruct (lookup_lt_is_Some_2 g airport Hlt) as [ax Hax].
  unfold searchNumberOfFlightsOutOfAirportFromDifferentAirlines.
  rewrite (deref_lookup _ _ _ Hax), bind_ret_Ok. cbv beta.
  set (m := foldl (λ airlines_ flights,
                     insertAirlines (airlines flights) airlines_)
                  (∅ : AirlineSet) (adj ax)).
  exists (dom m). rewrite (size_dom m). split; [done|].
  intros c. subst m. rewrite elem_of_dom, insertAirlines_flights
    by (intros e c' a' He; exact (Hk airport ax e c' a' Hax He)).
  rewrite lookup_empty. split.
  - intros [[? ?]|(e & He & Hc)]; [done|].
    exists (dest e), ax, e. done.
  - intros (w & ux & e & Hux & He & _ & Hc). right.
    rewrite Hax in Hux. simplify_eq. by exists e.
Qed.

(** X26.  The number of different airlines out of an airport is the number of
    airline codes recorded on some flight that leaves it. *)
Theorem differentAirlines_out_of_airport (g : Graph) (airport : VertexPtr) :
  airlines_keyed g → airport < length g →
  ∃ S : gset string,
    searchNumberOfFlightsOutOfAirportFromDifferentAirlines g airport
    = Ok (static_cast_int (size S)) ∧
    ∀ c, c ∈ S ↔ ∃ w, operates g airport w c.
Proof. apply differentAirlines_run. Qed.

Lemma airlines_keyed_g_two_legs : airlines_keyed g_two_legs.
Proof. apply airlines_keyed_Forall. by_compute. Qed.

Lemma differentAirlines_out_of_airport_witness :
  ∃ S : gset string,
    searchNumberOfFlightsOutOfAirportFromDifferentAirlines g_two_legs 0
    = Ok (static_cast_int (size S)) ∧
    ∀ c, c ∈ S ↔ ∃ w, operates g_two_legs 0 w c.
Proof.
  apply (differentAirlines_out_of_airport g_two_legs 0).
  - exact airlines_keyed_g_two_legs.
  - simpl. lia.
Defined.

(** ** The flights of every airline *)

Lemma countAirline_lookup (a : Airline) (res : gmap string (Airline * Z)) c :
  snd <$> countAirline a res !! c
  = if decide (c = airline_code a)
    then Some (default 0 (snd <$> res !! c) + 1)%Z
    else snd <$> res !! c.
Proof.
  unfold countAirline. destruct (decide (c = airline_code a)) as [->|Hne].
  - destruct (res !! airline_code a) as [[a0 n]|] eqn:E;
      by rewrite lookup_insert_eq.
  - destruct (res !! airline_code a) as [[a0 n]|] eqn:E;
      by rewrite lookup_insert_ne.
Qed.

Lemma foldl_countAirline_lookup (l : list Airline) c :
  NoDup (airline_code <$> l) →
  ∀ res : gmap string (Airline * Z),
    snd <$> foldl (λ acc a, countAirline a acc) res l !! c
    = if decide (c ∈ airline_code <$> l)
      then Some (default 0 (snd <$> res !! c) + 1)%Z
      else snd <$> res !! c.
Proof.
  induction l as [|a l IH]; intros Hnd res.
  { cbn. destruct (decide _) as [?%elem_of_nil|]; done. }
  rewrite fmap_cons in Hnd. apply NoDup_cons in Hnd as [Ha Hnd].
  cbn [foldl]. rewrite (IH Hnd), countAirline_lookup, fmap_cons.
  destruct (decide (c ∈ airline_code <$> l)) as [Hin|Hout];
    destruct (decide (c = airline_code a)) as [->|Hne];
    destruct (decide (_ ∈ _ :: _)) as [Hc|Hc]; try done.
  - destruct Hc. by right.
  - destruct Hc. by left.
  - by apply elem_of_cons in Hc as [?|?].
Qed.

Lemma countAirlines_lookup (m : AirlineSet) (res : gmap string (Airline * Z)) :
  (∀ c a, m !! c = Some a → airline_code a = c) →
  ∀ c, snd <$> foldl (λ acc a, countAirline a acc) res
                     (AirlineSet_elements m) !! c
       = match m !! c with
         | Some _ => Some (default 0 (snd <$> res !! c) + 1)%Z
         | None => snd <$> res !! c
         end.
Proof.
  intros Hk c. destruct (AirlineSet_elements_codes m Hk) as [Hnd Hin].
  rewrite foldl_countAirline_lookup by done.
  destruct (decide _) as [Hc|Hc].
  - apply Hin in Hc as [a ->]. done.
  - destruct (m !! c) as [a|] eqn:E; [|done].
    destruct Hc. apply Hin. by eexists.
Qed.

Lemma addFlightsOfAirlines_lookup (flights : list Edge) c :
  (∀ e c a, e ∈ flights → airlines e !! c = Some a → airline_code a = c) →
  ∀ res : gmap string (Airline * Z),
    snd <$> foldl (λ res flight,
                     foldl (λ acc airline, countAirline airline acc) res
                           (AirlineSet_elements (airlines flight)))
                  res flights !! c
    = match flights_with c flights with
      | 0 => snd <$> res !! c
      | S n => Some (default 0 (snd <$> res !! c) + Z.of_nat (S n))%Z
      end.
Proof.
  unfold flights_with.
  induction flights as [|e rest IH]; intros Hk res; [done|].
  cbn [foldl]. rewrite IH by (intros e' c' a' He'; apply Hk; by right).
  rewrite countAirlines_lookup by (intros c' a'; apply Hk; by left).
  rewrite filter_cons.
  destruct (airlines e !! c) as [a|] eqn:Hc.
  - destruct (decide (is_Some (Some a))) as [_|Hn]; [|destruct Hn; by eexists].
    cbn [length default].
    destruct (length (filter _ rest)); unfold id; f_equal; lia.
  - destruct (decide (is_Some None)) as [[? ?]|_]; done.
Qed.

Lemma flights_with_bind (c : string) (l : list Vertex) :
  flights_with c (vx ← l; adj vx)
  = sum_list_with (λ vx, flights_with c (adj vx)) l.
Proof.
  unfold flights_with. induction l as [|vx l IH]; [done|].
  rewrite bind_cons, filter_app, length_app, IH. done.
Qed.

Lemma processAll_flightsOfAirlines (g : Graph) o c :
  airlines_keyed g →
  ∀ res : gmap string (Airline * Z),
    snd <$> processAll addFlightsOfAirlines g o res !! c
    = match sum_list_with (λ vx, flights_with c (adj vx)) (vertices_of g o) with
      | 0 => snd <$> res !! c
      | S n => Some (default 0 (snd <$> res !! c) + Z.of_nat (S n))%Z
      end.
Proof.
  intros Hk. unfold vertices_of.
  induction o as [|v o IH]; intros res; [done|].
  rewrite processAll_cons, IH. clear IH. cbn [omap list_omap].
  destruct (g !! v) as [vx|] eqn:Hv; [|done].
  cbn [sum_list_with]. unfold addFlightsOfAirlines.
  change (adj (setVisited true vx)) with (adj vx).
  rewrite addFlightsOfAirlines_lookup
    by (intros e c' a' He; exact (Hk v vx e c' a' Hv He)).
  destruct (flights_with c (adj vx)) as [|n]; [done|].
  cbn [Nat.add default].
  destruct (sum_list_with _ _) as [|k]; [by rewrite Nat.add_0_r|].
  unfold id. f_equal. lia.
Qed.

(** X27.  [searchNumberOfFlightsPerAirline] gives every airline recorded on some
    flight the number of flights of the graph that carry it, and has no
    entry for any other code. *)
Theorem searchNumberOfFlightsPerAirline_counts (g : Graph) :
  dests_valid g → airlines_keyed g →
  ∃ res g',
    searchNumberOfFlightsPerAirline g = Ok (res, g') ∧
    same_but_visited g g' ∧
    ∀ c, snd <$> res !! c
         = match routes_of_airline g c with
           | 0 => None
           | S n => Some (Z.of_nat (S n))
           end.
Proof.
  intros Hd Hk.
  destruct (dfs_forest_run addFlightsOfAirlines g ∅ Hd)
    as (o & g' & H & Hs & Hperm & Hall).
  eexists _, g'. unfold searchNumberOfFlightsPerAirline.
  rewrite (bind_Ok_l _ _ _ H). cbv beta iota. split; [done|]. split; [done|].
  intros c. rewrite processAll_flightsOfAirlines, lookup_empty by done.
  assert (vertices_of g o ≡ₚ g) as HL.
  { rewrite <- (vertices_of_seq g) at 2. unfold vertices_of. by rewrite Hperm. }
  unfold routes_of_airline. rewrite flights_with_bind, HL.
  destruct (sum_list_with _ g); [done|]. cbn. f_equal.
Qed.

Lemma searchNumberOfFlightsPerAirline_counts_witness :
  ∃ res g',
    searchNumberOfFlightsPerAirline g_two_legs = Ok (res, g') ∧
    same_but_visited g_two_legs g' ∧
    ∀ c, snd <$> res !! c
         = match routes_of_airline g_two_legs c with
           | 0 => None
           | S n => Some (Z.of_nat (S n))
           end.
Proof.
  apply (searchNumberOfFlightsPerAirline_counts g_two_legs).
  - apply dests_valid_Forall. by_compute.
  - exact airlines_keyed_g_two_legs.
Defined.

(** ** The statistics after loading *)

Lemma AirlineSet_insert_keyed (al : Airline) (s : AirlineSet) :
  (∀ c a, s !! c = Some a → airline_code a = c) →
  ∀ c a, AirlineSet_insert al s !! c = Some a → airline_code a = c.
Proof.
  intros Hk c a. unfold AirlineSet_insert.
  destruct (s !! airline_code al) eqn:E; [apply Hk|].
  destruct (decide (c = airline_code al)) as [->|Hne].
  - rewrite lookup_insert_eq. by intros [= <-].
  - rewrite lookup_insert_ne by done. apply Hk.
Qed.

Lemma adj_with_flight_keyed t w al flights :
  (∀ e c a, e ∈ flights → airlines e !! c = Some a → airline_code a = c) →
  ∀ e c a, e ∈ adj_with_flight t w al flights →
           airlines e !! c = Some a → airline_code a = c.
Proof.
  intros Hk e c a. unfold adj_with_flight.
  destruct (list_find _ flights) as [[j e0]|] eqn:E.
  - apply list_find_Some in E as (Hj & _ & _).
    intros [k Hk']%list_elem_of_lookup.
    destruct (decide (j = k)) as [->|Hjk].
    + rewrite list_lookup_alter_eq, Hj in Hk'. simplify_eq/=.
      apply AirlineSet_insert_keyed. intros c' a'. apply (Hk e0).
      by eapply list_elem_of_lookup_2.
    + rewrite list_lookup_alter_ne in Hk' by done.
      apply Hk. by eapply list_elem_of_lookup_2.
  - intros [He| ->%list_elem_of_singleton]%elem_of_app; [by apply Hk|].
    cbn. apply AirlineSet_insert_keyed. intros c' a'.
    by rewrite lookup_empty.
Qed.

Lemma airlines_keyed_flight_added vs vt w al (g : Graph) :
  airlines_keyed g → airlines_keyed (flight_added vs vt w al g).
Proof.
  intros Hk u ux e c a Hu He Ha.
  assert (u < length g) as Hlt.
  { rewrite <- (length_flight_added vs vt w al g). by eapply lookup_lt_Some. }
  destruct (lookup_lt_is_Some_2 g u Hlt) as [v Hv].
  rewrite (lookup_flight_added vs vt w al g u v Hv) in Hu.
  injection Hu as <-. cbn [adj] in He.
  destruct (decide (u = vs)) as [->|_].
  - eapply (adj_with_flight_keyed vt w al (adj v)); [|exact He|exact Ha].
    intros e' c' a'. apply (Hk vs v e' c' a' Hv).
  - by apply (Hk u v e c a Hv).
Qed.

Section loaded_airlines.
Variable HarversineDistance : float → float → float → float → float.
Variable airlinesInfo : AirlineSet.

Lemma parseFlights_keyed lines :
  ∀ g g' : Graph,
    well_formed g → airlines_keyed g →
    parseFlights HarversineDistance airlinesInfo g lines = Ok g' →
    airlines_keyed g'.
Proof.
  induction lines as [|[[source target] airlineCode] rest IH];
    intros g g' Hwf Hk H.
  { cbn in H. by simplify_eq. }
  pose proof (parseFlights_Ok_known HarversineDistance airlinesInfo _ g g'
                Hwf H) as Hkn.
  destruct (Hkn (source, target, airlineCode)) as [[vs Hfs] [vt Hft]];
    [by left|]. cbn in Hfs, Hft.
  destruct (airportOfCode_Some _ _ _ Hfs) as (sx & Hsx & _).
  destruct (airportOfCode_Some _ _ _ Hft) as (tx & Htx & _).
  cbn [parseFlights] in H.
  rewrite (parseFlight_run HarversineDistance airlinesInfo g source target
             airlineCode vs vt sx tx Hwf Hfs Hft Hsx Htx), bind_ret_Ok in H.
  cbv beta in H. eapply IH; [| |exact H].
  - apply well_formed_flight_added; [done|by eapply lookup_lt_Some].
  - by apply airlines_keyed_flight_added.
Qed.

(** X28.  After [parseFlights] has loaded the flight lines into a graph without
    flights, the number of different airlines out of an airport is the number
    of airlines named on the lines that leave it (an unknown airline code
    standing for the default airline). *)
Theorem differentAirlines_loaded (g g' : Graph)
    (lines : list (string * string * string)) (airport : VertexPtr) :
  well_formed g → (∀ v, v ∈ g → adj v = []) →
  parseFlights HarversineDistance airlinesInfo g lines = Ok g' →
  airport < length g →
  ∃ S : gset string,
    searchNumberOfFlightsOutOfAirportFromDifferentAirlines g' airport
    = Ok (static_cast_int (size S)) ∧
    ∀ c, c ∈ S ↔
         ∃ line, line ∈ lines ∧ airportOfCode g line.1.1 = Some airport ∧
                 c = airline_code (getAirline airlinesInfo line.2).
Proof.
  intros Hwf Hno Hrun Hlt.
  assert (airlines_keyed g) as Hk.
  { intros u ux e c a Hu He.
    rewrite (Hno ux (list_elem_of_lookup_2 _ _ _ Hu)) in He.
    by apply elem_of_nil in He. }
  pose proof (parseFlights_keyed lines g g' Hwf Hk Hrun) as Hk'.
  pose proof (parseFlights_Ok_known HarversineDistance airlinesInfo _ g g'
                Hwf Hrun) as Hkn.
  destruct (parseFlights_run HarversineDistance airlinesInfo lines g Hwf Hkn)
    as (g2 & Hrun2 & Hwf' & Hinfo & _ & Hop & _).
  rewrite Hrun in Hrun2. injection Hrun2 as <-.
  assert (airport < length g') as Hlt'.
  { by rewrite <- (length_fmap info g'), Hinfo, length_fmap. }
  destruct (differentAirlines_run g' airport Hk' Hlt') as (S & Hq & HS).
  exists S. split; [done|]. intros c. rewrite HS. split.
  - intros (w & [(ux & e & Hux & He & _)|(line & Hl & Hs & _ & Hc)]%Hop).
    + rewrite (Hno ux (list_elem_of_lookup_2 _ _ _ Hux)) in He.
      by apply elem_of_nil in He.
    + by exists line.
  - intros (line & Hl & Hs & Hc).
    destruct (Hkn line Hl) as [_ [x Hx]].
    exists x. apply Hop. right. by exists line.
Qed.

End loaded_airlines.

Lemma differentAirlines_loaded_witness :
  ∃ S : gset string,
    searchNumberOfFlightsOutOfAirportFromDifferentAirlines
      (graph_of (parseFlights (λ _ _ _ _, 1%float) ∅ g_two_airports
                              three_lines)) 0
    = Ok (static_cast_int (size S)) ∧
    ∀ c, c ∈ S ↔
         ∃ line, line ∈ three_lines ∧
                 airportOfCode g_two_airports line.1.1 = Some 0 ∧
                 c = airline_code (getAirline ∅ line.2).
Proof.
  apply (differentAirlines_loaded (λ _ _ _ _, 1%float) ∅ g_two_airports _
           three_lines 0).
  - apply well_formed_Forall; by_compute.
  - apply Forall_forall. by_compute.
  - reflexivity.
  - simpl. lia.
Defined.

(** * Script.cpp: the selection among the paths through custom layovers *)

Lemma mergeVectors_long (a b : Path) :
  a = [] ∨ 2 ≤ length a →
  mergeVectors a b = [] ∨ 2 ≤ length (mergeVectors a b).
Proof.
  intros Ha. unfold mergeVectors.
  destruct (last a) as [x|] eqn:Hl; [|by left].
  destruct b as [|f rest]; [by left|].
  destruct (decide (x = f)); [|by left].
  destruct Ha as [->|Ha]; [done|]. right. rewrite length_app. lia.
Qed.

Lemma mergeAll_long (temp segs : list Path) :
  (∀ p, p ∈ temp → p = [] ∨ 2 ≤ length p) →
  ∀ p, p ∈ mergeAll temp segs → p = [] ∨ 2 ≤ length p.
Proof.
  intros Ht p (a & b & Ha & Hb & ->)%elem_of_mergeAll.
  apply mergeVectors_long. by apply Ht.
Qed.

Lemma searchSmallestPath_long (g g' : Graph) s t paths :
  searchSmallestPathBetweenAirports g s t = Ok (paths, g') →
  ∀ p, p ∈ paths → p = [] ∨ 2 ≤ length p.
Proof.
  intros H p Hp. right.
  by destruct (searchSmallestPath_endpoints _ _ _ _ _ H p Hp) as (_ & _ & ?).
Qed.

Lemma cl_segments_long customLayovers :
  ∀ (g g' : Graph) temp temp',
    (∀ p, p ∈ temp → p = [] ∨ 2 ≤ length p) →
    cl_segments g temp customLayovers = Ok (temp', g') →
    ∀ p, p ∈ temp' → p = [] ∨ 2 ≤ length p.
Proof.
  induction customLayovers as [|a rest IH]; intros g g' temp temp' Ht H.
  { by injection H as <- <-. }
  destruct rest as [|b rest]; [by injection H as <- <-|].
  simpl in H. apply bind_Ok in H as ([segs g1] & H1 & H).
  eapply IH; [|exact H]. by apply mergeAll_long.
Qed.

Lemma customLayoverPaths_long (g g' : Graph) customLayovers s d paths :
  customLayoverPaths g customLayovers s d = Ok (paths, g') →
  ∀ p, p ∈ paths → p = [] ∨ 2 ≤ length p.
Proof.
  intros H. unfold customLayoverPaths in H.
  destruct customLayovers as [|l0 rest]; [done|].
  destruct (last (l0 :: rest)) as [back|]; [|done].
  apply bind_Ok in H as ([temp g1] & H1 & H).
  apply bind_Ok in H as ([temp' g2] & H2 & H).
  apply bind_Ok in H as ([temp2 g3] & H3 & H).
  injection H as <- <-.
  apply mergeAll_long. eapply cl_segments_long; [|exact H2].
  by eapply searchSmallestPath_long.
Qed.

Lemma customLayoverPaths_reset (g1 g2 : Graph) customLayovers s d :
  same_but_visited g1 g2 →
  customLayoverPaths g1 customLayovers s d
  = customLayoverPaths g2 customLayovers s d.
Proof.
  intros Hs. unfold customLayoverPaths.
  destruct customLayovers as [|l0 rest]; [done|].
  destruct (last (l0 :: rest)); [|done].
  by rewrite (searchSmallestPath_reset g1 g2 s l0 Hs).
Qed.

Lemma customLayover_candidates (g0 g : Graph) customLayovers s d :
  same_but_visited g0 g → dests_valid g0 → s < length g0 →
  customLayovers ≠ [] → (∀ v, v ∈ customLayovers → v < length g0) →
  ∃ paths g1,
    customLayoverPaths g customLayovers s d = Ok (paths, g1) ∧
    customLayoverPaths g0 customLayovers s d = Ok (paths, g1) ∧
    same_but_visited g0 g1 ∧ dests_valid g1 ∧
    ∀ p, p ∈ paths →
         2 ≤ length p ∧ nodes_below (length g0) p ∧
         chain (s :: customLayovers ++ [d]) p.
Proof.
  intros Hs Hd Hlt Hne Hcl.
  destruct (customLayoverPaths_chain g0 customLayovers s d Hd Hlt Hcl Hne)
    as (paths & g1 & Hr & Hs1 & Hch).
  exists paths, g1.
  split; [by rewrite <- (customLayoverPaths_reset g0 g _ s d Hs)|].
  split; [done|]. split; [done|].
  split; [by eapply same_but_visited_dests_valid|].
  intros p Hp. split; [|split; [|by apply Hch]].
  - destruct (customLayoverPaths_long _ _ _ _ _ _ Hr p Hp) as [->|?]; [|done].
    destruct (chain_endpoints _ _ _ _ (Hch [] Hp)) as [Hh _]. done.
  - by eapply customLayoverPaths_nodes_below.
Qed.

Lemma layover_candidate_of_pairs_snoc (g : Graph) cl pairs s d paths g1 v :
  customLayoverPaths g cl s d = Ok (paths, g1) →
  layover_candidate_of_pairs g cl (pairs ++ [(s, d)]) v
  ↔ layover_candidate_of_pairs g cl pairs v ∨ v ∈ paths.
Proof.
  intros Hrun. split.
  - intros (s' & d' & ps & g' & Hin & Hr & Hv).
    apply elem_of_app in Hin as [Hin|Hin%list_elem_of_singleton].
    + left. by exists s', d', ps, g'.
    + right. simplify_eq. rewrite Hrun in Hr. by simplify_eq.
  - intros [(s' & d' & ps & g' & Hin & Hr & Hv)|Hv].
    + exists s', d', ps, g'. split; [|done]. apply elem_of_app. by left.
    + exists s, d, paths, g1. split; [|done]. apply elem_of_app. right.
      by left.
Qed.

Lemma layover_candidate_of_all_pairs (g : Graph) cl source destination v :
  layover_candidate_of g cl source destination v
  ↔ layover_candidate_of_pairs g cl
      (s ← source; (λ d, (s, d)) <$> destination) v.
Proof.
  split.
  - intros (s & d & ps & g' & Hs & Hd & Hr & Hv).
    exists s, d, ps, g'. split; [|done].
    apply list_elem_of_bind. exists s. split; [|done].
    apply list_elem_of_fmap. by exists d.
  - intros (s & d & ps & g' & Hin & Hr & Hv).
    apply list_elem_of_bind in Hin as (s' & Hin & Hs).
    apply list_elem_of_fmap in Hin as (d' & ? & Hd). simplify_eq.
    by exists s', d', ps, g'.
Qed.

Section custom_layovers_selection.
Variables (g0 : Graph) (customLayovers : list VertexPtr).
Hypothesis Hwf : well_formed g0.
Hypothesis Hne : customLayovers ≠ [].
Hypothesis Hcl : ∀ v, v ∈ customLayovers → v < length g0.

Lemma cl_destinations_best s dests :
  s < length g0 →
  ∀ (g : Graph) pairs totalPaths minLayOvers,
    same_but_visited g0 g →
    best_trips g0 (layover_candidate_of_pairs g0 customLayovers pairs)
               (λ _ S, S = ∅) totalPaths minLayOvers →
    ∃ totalPaths' minLayOvers' g',
      cl_destinations g customLayovers s dests totalPaths minLayOvers
      = Ok (totalPaths', minLayOvers', g') ∧
      same_but_visited g0 g' ∧
      best_trips g0
        (layover_candidate_of_pairs g0 customLayovers
           (pairs ++ ((λ d, (s, d)) <$> dests)))
        (λ _ S, S = ∅) totalPaths' minLayOvers'.
Proof.
  intros Hlt. pose proof Hwf as (_ & Hd & _).
  induction dests as [|d rest IH]; intros g pairs tp min Hs Hb.
  - exists tp, min, g. split; [done|]. split; [done|].
    by rewrite fmap_nil, app_nil_r.
  - destruct (customLayover_candidates g0 g customLayovers s d Hs Hd Hlt
                Hne Hcl) as (paths & g1 & Hr & Hr0 & Hs1 & Hd1 & Hp).
    assert (∀ p, p ∈ paths → p ≠ [] ∧ nodes_below (length g1) p) as Hp1.
    { intros p Hin. destruct (Hp p Hin) as (Hlen & Hnb & _). split.
      - intros ->. simpl in Hlen. lia.
      - by rewrite <- (same_but_visited_length _ _ Hs1). }
    cbn [cl_destinations]. rewrite Hr, bind_ret_Ok. cbv beta iota.
    destruct (cl_evaluate_best g0 g1 paths Hs1 Hd1 Hp1 _ _ _ Hb)
      as (tp1 & min1 & He & Hb1).
    rewrite He, bind_ret_Ok. cbv beta iota.
    destruct (IH g1 (pairs ++ [(s, d)]) tp1 min1 Hs1)
      as (tp' & min' & g' & Hr' & Hs' & Hb').
    { eapply best_trips_ext; [|exact Hb1]. intros v.
      by rewrite (layover_candidate_of_pairs_snoc g0 _ pairs s d paths g1 v
                    Hr0). }
    exists tp', min', g'. split; [done|]. split; [done|].
    rewrite <- (assoc_L (++)) in Hb'. exact Hb'.
Qed.

Lemma cl_sources_best destination sources :
  (∀ s, s ∈ sources → s < length g0) →
  ∀ (g : Graph) pairs totalPaths minLayOvers,
    same_but_visited g0 g →
    best_trips g0 (layover_candidate_of_pairs g0 customLayovers pairs)
               (λ _ S, S = ∅) totalPaths minLayOvers →
    ∃ totalPaths' minLayOvers' g',
      cl_sources g customLayovers sources destination totalPaths minLayOvers
      = Ok (totalPaths', minLayOvers', g') ∧
      same_but_visited g0 g' ∧
      best_trips g0
        (layover_candidate_of_pairs g0 customLayovers
           (pairs ++ (s ← sources; (λ d, (s, d)) <$> destination)))
        (λ _ S, S = ∅) totalPaths' minLayOvers'.
Proof.
  induction sources as [|s rest IH]; intros Hlt g pairs tp min Hs Hb.
  - exists tp, min, g. split; [done|]. split; [done|].
    by rewrite app_nil_r.
  - destruct (cl_destinations_best s destination (Hlt s ltac:(by left))
                g pairs tp min Hs Hb) as (tp1 & min1 & g1 & Hr & Hs1 & Hb1).
    cbn [cl_sources]. rewrite Hr, bind_ret_Ok. cbv beta iota.
    destruct (IH (λ x Hx, Hlt x ltac:(by right)) g1 _ tp1 min1 Hs1 Hb1)
      as (tp' & min' & g' & Hr' & Hs' & Hb').
    exists tp', min', g'. split; [done|]. split; [done|].
    rewrite <- (assoc_L (++)) in Hb'. by rewrite bind_cons.
Qed.

Lemma csa_destinations_best s dests :
  s < length g0 →
  ∀ (g : Graph) pairs totalPaths minLayOvers,
    same_but_visited g0 g →
    best_trips g0 (layover_candidate_of_pairs g0 customLayovers pairs)
               (λ v S, sameAirlines g0 v = Ok (true, S)) totalPaths
               minLayOvers →
    ∃ totalPaths' minLayOvers' g',
      csa_destinations g customLayovers s dests totalPaths minLayOvers
      = Ok (totalPaths', minLayOvers', g') ∧
      same_but_visited g0 g' ∧
      best_trips g0
        (layover_candidate_of_pairs g0 customLayovers
           (pairs ++ ((λ d, (s, d)) <$> dests)))
        (λ v S, sameAirlines g0 v = Ok (true, S)) totalPaths' minLayOvers'.
Proof.
  intros Hlt. pose proof Hwf as (_ & Hd & _).
  induction dests as [|d rest IH]; intros g pairs tp min Hs Hb.
  - exists tp, min, g. split; [done|]. split; [done|].
    by rewrite fmap_nil, app_nil_r.
  - destruct (customLayover_candidates g0 g customLayovers s d Hs Hd Hlt
                Hne Hcl) as (paths & g1 & Hr & Hr0 & Hs1 & Hd1 & Hp).
    assert (∀ p, p ∈ paths → 2 ≤ length p ∧ nodes_below (length g0) p) as Hp2.
    { intros p Hin. by destruct (Hp p Hin) as (? & ? & _). }
    cbn [csa_destinations]. rewrite Hr, bind_ret_Ok. cbv beta iota.
    destruct (sa_evaluate_best g0 g1 paths Hwf Hs1 Hp2 _ _ _ Hb)
      as (tp1 & min1 & He & Hb1).
    rewrite He, bind_ret_Ok. cbv beta iota.
    destruct (IH g1 (pairs ++ [(s, d)]) tp1 min1 Hs1)
      as (tp' & min' & g' & Hr' & Hs' & Hb').
    { eapply best_trips_ext; [|exact Hb1]. intros v.
      by rewrite (layover_candidate_of_pairs_snoc g0 _ pairs s d paths g1 v
                    Hr0). }
    exists tp', min', g'. split; [done|]. split; [done|].
    rewrite <- (assoc_L (++)) in Hb'. exact Hb'.
Qed.

Lemma csa_sources_best destination sources :
  (∀ s, s ∈ sources → s < length g0) →
  ∀ (g : Graph) pairs totalPaths minLayOvers,
    same_but_visited g0 g →
    best_trips g0 (layover_candidate_of_pairs g0 customLayovers pairs)
               (λ v S, sameAirlines g0 v = Ok (true, S)) totalPaths
               minLayOvers →
    ∃ totalPaths' minLayOvers' g',
      csa_sources g customLayovers sources destination totalPaths minLayOvers
      = Ok (totalPaths', minLayOvers', g') ∧
      same_but_visited g0 g' ∧
      best_trips g0
        (layover_candidate_of_pairs g0 customLayovers
           (pairs ++ (s ← sources; (λ d, (s, d)) <$> destination)))
        (λ v S, sameAirlines g0 v = Ok (true, S)) totalPaths' minLayOvers'.
Proof.
  induction sources as [|s rest IH]; intros Hlt g pairs tp min Hs Hb.
  - exists tp, min, g. split; [done|]. split; [done|].
    by rewrite app_nil_r.
  - destruct (csa_destinations_best s destination (Hlt s ltac:(by left))
                g pairs tp min Hs Hb) as (tp1 & min1 & g1 & Hr & Hs1 & Hb1).
    cbn [csa_sources]. rewrite Hr, bind_ret_Ok. cbv beta iota.
    destruct (IH (λ x Hx, Hlt x ltac:(by right)) g1 _ tp1 min1 Hs1 Hb1)
      as (tp' & min' & g' & Hr' & Hs' & Hb').
    exists tp', min', g'. split; [done|]. split; [done|].
    rewrite <- (assoc_L (++)) in Hb'. by rewrite bind_cons.
Qed.

End custom_layovers_selection.

Lemma layover_candidate_shape (g : Graph) cl source destination v :
  dests_valid g → cl ≠ [] → (∀ x, x ∈ cl → x < length g) →
  (∀ s, s ∈ source → s < length g) →
  layover_candidate_of g cl source destination v →
  2 ≤ length v ∧ nodes_below (length g) v ∧
  through_layovers cl source destination v.
Proof.
  intros Hd Hne Hcl Hlt (s & d & ps & g' & Hs & Hdd & Hr & Hv).
  destruct (customLayover_candidates g g cl s d (same_but_visited_refl g) Hd
              (Hlt s Hs) Hne Hcl) as (paths & g1 & _ & Hr0 & _ & _ & Hp).
  rewrite Hr in Hr0. injection Hr0 as <- <-.
  destruct (Hp v Hv) as (Hlen & Hnb & Hch).
  split; [done|]. split; [done|].
  exists s, d. split; [done|]. split; [done|]. split; [done|].
  by apply (chain_endpoints s cl d).
Qed.

(** X29.  Both queries through custom layovers select, among the candidate paths
    (one shortest path per leg, from a source airport through the layovers
    in order to a destination airport), those with the fewest layovers.
    [getBestPathsAllAirlinesWithCustomLayovers] takes every candidate;
    [getBestPathsSameAirlinesWithCustomLayovers] takes the candidates that one
    airline flies from end to end, and attaches to a trip exactly the
    airlines recorded on every flight of it. *)
Theorem customLayovers_fewest_layovers (g : Graph)
    (customLayovers source destination : list VertexPtr) :
  well_formed g → customLayovers ≠ [] →
  (∀ v, v ∈ customLayovers → v < length g) →
  (∀ s, s ∈ source → s < length g) →
  (∃ trips g',
     getBestPathsAllAirlinesWithCustomLayovers g customLayovers source
                                               destination
     = Ok (trips, g') ∧
     same_but_visited g g' ∧
     (∀ t, t ∈ trips →
        layover_candidate_of g customLayovers source destination t.2.1 ∧
        t.1 = ∅ ∧ pathDistance g t.2.1 0%float = Ok t.2.2) ∧
     (∀ t v, t ∈ trips →
        layover_candidate_of g customLayovers source destination v →
        (layOversOf t.2.1 ≤ layOversOf v)%Z) ∧
     (∀ v, layover_candidate_of g customLayovers source destination v →
        (∀ v', layover_candidate_of g customLayovers source destination v' →
               (layOversOf v ≤ layOversOf v')%Z) →
        v ∈ (λ t : Trip, t.2.1) <$> trips)) ∧
  (∃ trips g',
     getBestPathsSameAirlinesWithCustomLayovers g customLayovers source
                                                destination
     = Ok (trips, g') ∧
     same_but_visited g g' ∧
     (∀ t, t ∈ trips →
        layover_candidate_of g customLayovers source destination t.2.1 ∧
        through_layovers customLayovers source destination t.2.1 ∧
        t.1 ≠ ∅ ∧
        (∀ c, is_Some (t.1 !! c) ↔ flies_route g c t.2.1) ∧
        pathDistance g t.2.1 0%float = Ok t.2.2) ∧
     (∀ t v c, t ∈ trips →
        layover_candidate_of g customLayovers source destination v →
        flies_route g c v → (layOversOf t.2.1 ≤ layOversOf v)%Z) ∧
     (∀ v c, layover_candidate_of g customLayovers source destination v →
        flies_route g c v →
        (∀ v' c',
           layover_candidate_of g customLayovers source destination v' →
           flies_route g c' v' → (layOversOf v ≤ layOversOf v')%Z) →
        v ∈ (λ t : Trip, t.2.1) <$> trips)).
Proof.
  intros Hwf Hne Hcl Hlt. pose proof Hwf as (_ & Hd & _).
  assert (∀ qual, best_trips g (layover_candidate_of_pairs g customLayovers [])
                             qual [] INT_MAX) as Hinit.
  { intros qual. eapply best_trips_ext; [|apply best_trips_initial].
    intros v. split; [done|].
    by intros (? & ? & ? & ? & ?%elem_of_nil & _). }
  split.
  - destruct (cl_sources_best g customLayovers Hwf Hne Hcl destination source
                Hlt g [] [] INT_MAX (same_but_visited_refl g) (Hinit _))
      as (trips & min & g' & Hr & Hs & Hb).
    exists trips, g'. unfold getBestPathsAllAirlinesWithCustomLayovers.
    rewrite Hr, bind_ret_Ok. cbv beta iota. split; [done|]. split; [done|].
    rewrite app_nil_l in Hb.
    apply best_trips_final in Hb as (H1 & H2 & H3).
    split; [|split].
    + intros t Ht. destruct (H1 t Ht) as (? & ? & ?).
      by rewrite layover_candidate_of_all_pairs.
    + intros t v Ht Hv. apply (H2 t v ∅ Ht); [|done].
      by apply layover_candidate_of_all_pairs.
    + intros v Hv Hmin.
      apply (H3 v ∅); [by apply layover_candidate_of_all_pairs|done|].
      intros v' S' Hv' _. apply Hmin. by apply layover_candidate_of_all_pairs.
  - destruct (csa_sources_best g customLayovers Hwf Hne Hcl destination source
                Hlt g [] [] INT_MAX (same_but_visited_refl g) (Hinit _))
      as (trips & min & g' & Hr & Hs & Hb).
    exists trips, g'. unfold getBestPathsSameAirlinesWithCustomLayovers.
    rewrite Hr, bind_ret_Ok. cbv beta iota. split; [done|]. split; [done|].
    rewrite app_nil_l in Hb.
    apply best_trips_final in Hb as (H1 & H2 & H3).
    assert (∀ v, layover_candidate_of g customLayovers source destination v →
              ∀ S, sameAirlines g v = Ok (true, S) →
                   S ≠ ∅ ∧ ∀ c, is_Some (S !! c) ↔ flies_route g c v) as Hyes.
    { intros v Hv S HS.
      destruct (layover_candidate_shape g _ _ _ v Hd Hne Hcl Hlt Hv)
        as (Hlen & Hnb & _).
      destruct (sameAirlines_spec g v Hwf Hnb Hlen) as (b & S' & Hsa & Hspec).
      rewrite HS in Hsa. by simplify_eq. }
    assert (∀ v c, layover_candidate_of g customLayovers source destination v →
              flies_route g c v →
              ∃ S, sameAirlines g v = Ok (true, S)) as Hflies.
    { intros v c Hv Hc.
      destruct (layover_candidate_shape g _ _ _ v Hd Hne Hcl Hlt Hv)
        as (Hlen & Hnb & _).
      destruct (sameAirlines_spec g v Hwf Hnb Hlen) as (b & S & Hsa & Hspec).
      destruct b; [by exists S|]. destruct Hspec. by exists c. }
    split; [|split].
    + intros t Ht.
      destruct (H1 t Ht) as (Hc%layover_candidate_of_all_pairs & Hq & Hdist).
      destruct (Hyes _ Hc _ Hq) as [Hne' Hiff].
      destruct (layover_candidate_shape g _ _ _ _ Hd Hne Hcl Hlt Hc)
        as (_ & _ & Hthrough).
      done.
    + intros t v c Ht Hv Hc. destruct (Hflies v c Hv Hc) as [S HS].
      apply (H2 t v S Ht); [|done]. by apply layover_candidate_of_all_pairs.
    + intros v c Hv Hc Hmin. destruct (Hflies v c Hv Hc) as [S HS].
      apply (H3 v S); [by apply layover_candidate_of_all_pairs|done|].
      intros v' S' Hv'%layover_candidate_of_all_pairs HS'.
      destruct (Hyes v' Hv' S' HS') as [(c' & Hc')%AirlineSet_nonempty Hiff].
      apply (Hmin v' c' Hv'). by apply Hiff.
Qed.

Lemma well_formed_g_three_legs : well_formed g_three_legs.
Proof. apply well_formed_Forall; by_compute. Qed.

Lemma customLayovers_fewest_layovers_witness :
  (∃ trips g',
     getBestPathsAllAirlinesWithCustomLayovers g_three_legs [1; 2] [0] [3]
     = Ok (trips, g') ∧
     same_but_visited g_three_legs g' ∧
     (∀ t, t ∈ trips →
        layover_candidate_of g_three_legs [1; 2] [0] [3] t.2.1 ∧
        t.1 = ∅ ∧ pathDistance g_three_legs t.2.1 0%float = Ok t.2.2) ∧
     (∀ t v, t ∈ trips →
        layover_candidate_of g_three_legs [1; 2] [0] [3] v →
        (layOversOf t.2.1 ≤ layOversOf v)%Z) ∧
     (∀ v, layover_candidate_of g_three_legs [1; 2] [0] [3] v →
        (∀ v', layover_candidate_of g_three_legs [1; 2] [0] [3] v' →
               (layOversOf v ≤ layOversOf v')%Z) →
        v ∈ (λ t : Trip, t.2.1) <$> trips)) ∧
  (∃ trips g',
     getBestPathsSameAirlinesWithCustomLayovers g_three_legs [1; 2] [0] [3]
     = Ok (trips, g') ∧
     same_but_visited g_three_legs g' ∧
     (∀ t, t ∈ trips →
        layover_candidate_of g_three_legs [1; 2] [0] [3] t.2.1 ∧
        through_layovers [1; 2] [0] [3] t.2.1 ∧
        t.1 ≠ ∅ ∧
        (∀ c, is_Some (t.1 !! c) ↔ flies_route g_three_legs c t.2.1) ∧
        pathDistance g_three_legs t.2.1 0%float = Ok t.2.2) ∧
     (∀ t v c, t ∈ trips →
        layover_candidate_of g_three_legs [1; 2] [0] [3] v →
        flies_route g_three_legs c v → (layOversOf t.2.1 ≤ layOversOf v)%Z) ∧
     (∀ v c, layover_candidate_of g_three_legs [1; 2] [0] [3] v →
        flies_route g_three_legs c v →
        (∀ v' c',
           layover_candidate_of g_three_legs [1; 2] [0] [3] v' →
           flies_route g_three_legs c' v' →
           (layOversOf v ≤ layOversOf v')%Z) →
        v ∈ (λ t : Trip, t.2.1) <$> trips)).
Proof.
  apply (customLayovers_fewest_layovers g_three_legs [1; 2] [0] [3]).
  - exact well_formed_g_three_legs.
  - done.
  - apply Forall_forall. by_compute.
  - apply Forall_forall. by_compute.
Defined.

(** * The maximum trip *)

(** ** The search from one airport *)

Lemma foldl_insert_distance_lookup (x : Z) (new : list VertexPtr) v :
  ∀ m : gmap VertexPtr Z,
    foldl (λ m d, <[d := x]> m) m new !! v
    = if decide (v ∈ new) then Some x else m !! v.
Proof.
  induction new as [|d new IH]; intros m.
  { cbn. destruct (decide _) as [?%elem_of_nil|]; done. }
  cbn [foldl]. rewrite IH.
  destruct (decide (v ∈ new)) as [Hin|Hout].
  - rewrite decide_True; [done|by right].
  - destruct (decide (v = d)) as [->|Hne].
    + rewrite lookup_insert_eq, decide_True; [done|by left].
    + rewrite lookup_insert_ne by done.
      rewrite decide_False; [done|]. by intros [?|?]%elem_of_cons.
Qed.

Lemma foldl_insert_path_lookup (pa : Path) (new : list VertexPtr) v :
  ∀ m : gmap VertexPtr Path,
    foldl (λ m d, <[d := pa ++ [d]]> m) m new !! v
    = if decide (v ∈ new) then Some (pa ++ [v]) else m !! v.
Proof.
  induction new as [|d new IH]; intros m.
  { cbn. destruct (decide _) as [?%elem_of_nil|]; done. }
  cbn [foldl]. rewrite IH.
  destruct (decide (v ∈ new)) as [Hin|Hout].
  - rewrite decide_True; [done|by right].
  - destruct (decide (v = d)) as [->|Hne].
    + rewrite lookup_insert_eq, decide_True; [done|by left].
    + rewrite lookup_insert_ne by done.
      rewrite decide_False; [done|]. by intros [?|?]%elem_of_cons.
Qed.

(** The graph and the queue evolve as in [Graph::bfs]; the two maps receive
    an entry for every airport that joins the queue. *)
Lemma mt_flights_run (a : VertexPtr) (da : Z) (pa : Path) flights :
  ∀ (g : Graph) q (dist : gmap VertexPtr Z) (path : gmap VertexPtr Path),
    (∀ e, e ∈ flights → dest e < length g) →
    is_visited g a → dist !! a = Some da → path !! a = Some pa →
    ∃ g' new,
      bfs_adj flights g q = Ok (g', q ++ new) ∧
      mt_flights a flights g q dist path
      = Ok (g', q ++ new,
            foldl (λ m d, <[d := (da + 1)%Z]> m) dist new,
            foldl (λ m d, <[d := pa ++ [d]]> m) path new).
Proof.
  induction flights as [|e rest IH]; intros g q dist path Hfl Ha Hda Hpa.
  { exists g, []. by rewrite app_nil_r. }
  destruct (lookup_lt_is_Some_2 g (dest e)) as [dx Hdx]; [apply Hfl; by left|].
  cbn [bfs_adj mt_flights].
  rewrite (deref_lookup _ _ _ Hdx), !bind_ret_Ok. cbv beta zeta.
  destruct (visited dx) eqn:Hvd.
  - apply IH; [|done..]. intros e' He'. apply Hfl. by right.
  - assert (dest e ≠ a) as Hne.
    { intros Heq. destruct Ha as (ax & Hax & Hva). rewrite Heq in Hdx.
      congruence. }
    rewrite Hda, Hpa.
    change (default 0%Z (Some da)) with da.
    change (default [] (Some pa)) with pa.
    rewrite (insert_id dist a da Hda), (insert_id path a pa Hpa).
    destruct (IH (<[dest e := setVisited true dx]> g) (q ++ [dest e])
                 (<[dest e := (da + 1)%Z]> dist)
                 (<[dest e := pa ++ [dest e]]> path))
      as (g' & new & H1 & H2).
    + intros e' He'. rewrite length_insert. apply Hfl. by right.
    + apply (is_visited_mark g (dest e) dx a Hdx). by right.
    + by rewrite lookup_insert_ne.
    + by rewrite lookup_insert_ne.
    + exists g', (dest e :: new). rewrite H1, H2.
      by rewrite <- !(assoc_L (++)).
Qed.

Lemma mt_loop_post (g0 : Graph) s fuel :
  ∀ (g : Graph) q done_ (dist : gmap VertexPtr Z) (path : gmap VertexPtr Path),
    dests_valid g0 → same_but_visited g0 g →
    NoDup (done_ ++ q) →
    (∀ u, is_visited g u ↔ u ∈ done_ ++ q) →
    dist !! s = Some 0%Z →
    mt_inv g0 s done_ q dist path →
    unvisited g + length q ≤ fuel →
    ∃ dist' path' g' order,
      mt_loop fuel g q dist path = Ok (dist', path', g') ∧
      same_but_visited g0 g' ∧ dist' !! s = Some 0%Z ∧
      mt_inv g0 s order [] dist' path'.
Proof.
  induction fuel as [|fuel IH]; intros g q done_ dist path Hd Hs Hn Hv Hs0 Hinv Hm.
  { destruct q as [|v q]; [|simpl in Hm; lia]. by exists dist, path, g, done_. }
  destruct q as [|a q']; [by exists dist, path, g, done_|].
  assert (is_visited g a) as Hva.
  { apply Hv, elem_of_app. right. by left. }
  pose proof Hva as (ax & Hax & Hvis).
  assert (dests_valid g) as Hdg by by eapply same_but_visited_dests_valid.
  destruct Hinv as (Hdom & Hent & (L & q1 & q2 & Hq & HdoneL & Hq1 & Hq2) & Hrel).
  assert (is_Some (dist !! a)) as [ka Hka].
  { apply Hdom, elem_of_app. right. by left. }
  destruct (Hent a ka Hka) as (d_a & pa & Hkd & Hpa & Hroute & Hhead & Hlast & Hlen).
  assert (L ≤ ka ≤ L + 1)%Z as HkaL.
  { destruct q1 as [|x q1].
    - cbn in Hq. assert (a ∈ q2) as Hin by (rewrite <- Hq; by left).
      rewrite (Hq2 a Hin) in Hka. injection Hka as <-. lia.
    - injection Hq as <- Hq. rewrite (Hq1 a) in Hka by by left.
      injection Hka as <-. lia. }
  destruct (bfs_adj_post (adj ax) g q')
    as (g1 & new & H1 & Hs1 & Hn1 & Hnew & Hv1 & Hall & Hm1).
  { intros e He. by eapply Hdg. }
  destruct (mt_flights_run a ka pa (adj ax) g q' dist path)
    as (g1' & new' & H1' & H2); [|done..|].
  { intros e He. by eapply Hdg. }
  rewrite H1 in H1'. injection H1' as <- Hnew'.
  apply app_inv_head in Hnew'. subst new'.
  set (dist1 := foldl (λ m d, <[d := (ka + 1)%Z]> m) dist new) in *.
  set (path1 := foldl (λ m d, <[d := pa ++ [d]]> m) path new) in *.
  assert (∀ u, dist1 !! u
             = if decide (u ∈ new) then Some (ka + 1)%Z else dist !! u) as Hd1
    by (intros u; apply foldl_insert_distance_lookup).
  assert (∀ u, path1 !! u
             = if decide (u ∈ new) then Some (pa ++ [u]) else path !! u) as Hp1
    by (intros u; apply foldl_insert_path_lookup).
  assert (∀ u, u ∈ done_ ++ a :: q' → u ∉ new) as Hold.
  { intros u Hu Hin. by apply (proj1 (Hnew u Hin)), Hv. }
  assert (∀ u, u ∈ done_ ++ a :: q' → dist1 !! u = dist !! u) as Hsame.
  { intros u Hu. rewrite Hd1, decide_False; [done|by apply Hold]. }
  destruct (same_but_visited_lookup g0 g a ax Hs Hax) as (ax0 & Hax0 & Heq).
  assert (adj ax0 = adj ax) as Hadj by exact (f_equal adj Heq).
  assert (∀ w, has_edge g0 a w ↔ w ∈ dest <$> adj ax) as Hedge.
  { intros w. rewrite (has_edge_elem_of g0 a ax0 w Hax0). by rewrite Hadj. }
  assert ((done_ ++ [a]) ++ q' ++ new = (done_ ++ a :: q') ++ new) as Hre.
  { by rewrite <-!app_assoc. }
  destruct (IH g1 (q' ++ new) (done_ ++ [a]) dist1 path1)
    as (dist' & path' & g' & order & Hrun & Hs' & Hs0' & Hinv');
    [done| | | | | | |].
  - by eapply same_but_visited_trans.
  - rewrite Hre. apply NoDup_app. split_and!; [done| |done].
    intros u Hu Hu'. by apply (Hold u).
  - intros u. rewrite Hre, Hv1, Hv, (elem_of_app _ new). done.
  - rewrite Hsame; [done|]. apply Hdom. by rewrite Hs0.
  - split; [|split; [|split]].
    + intros u. rewrite Hre, (elem_of_app _ new), Hd1.
      destruct (decide (u ∈ new)) as [Hin|Hout].
      * split; [by right|by eexists].
      * rewrite Hdom. tauto.
    + intros u k. rewrite Hd1, Hp1.
      destruct (decide (u ∈ new)) as [Hin|Hout]; [|apply Hent].
      intros [= <-]. exists (S d_a), (pa ++ [u]).
      split; [lia|]. split; [done|]. split.
      { eapply is_route_snoc; [done..|]. apply Hedge, (Hnew u Hin). }
      split; [by apply head_snoc|]. split; [by rewrite last_snoc|].
      rewrite length_app. simpl. lia.
    + destruct q1 as [|x q1].
      * cbn in Hq. subst q2. exists (L + 1)%Z, q', new.
        assert (ka = (L + 1)%Z) as Hkeq.
        { rewrite (Hq2 a) in Hka by by left. by injection Hka. }
        split; [done|]. split; [|split].
        -- intros u k [Hu| ->%list_elem_of_singleton]%elem_of_app.
           ++ rewrite Hsame by (apply elem_of_app; by left).
              intros Hk. pose proof (HdoneL u k Hu Hk). lia.
           ++ rewrite Hsame by (apply elem_of_app; right; by left).
              rewrite Hka. intros [= <-]. lia.
        -- intros u Hu.
           rewrite Hsame by (apply elem_of_app; right; by right).
           apply Hq2. by right.
        -- intros u Hu. rewrite Hd1, decide_True by done.
           f_equal. lia.
      * injection Hq as <- Hq. subst q'. exists L, q1, (q2 ++ new).
        assert (ka = L) as Hkeq.
        { rewrite (Hq1 a) in Hka by by left. by injection Hka. }
        split; [by rewrite (assoc_L (++))|]. split; [|split].
        -- intros u k [Hu| ->%list_elem_of_singleton]%elem_of_app.
           ++ rewrite Hsame by (apply elem_of_app; by left). by apply HdoneL.
           ++ rewrite Hsame by (apply elem_of_app; right; by left).
              rewrite Hka. intros [= <-]. lia.
        -- intros u Hu.
           rewrite Hsame
             by (apply elem_of_app; right; right; apply elem_of_app; by left).
           apply Hq1. by right.
        -- intros u [Hu|Hu]%elem_of_app.
           ++ rewrite Hsame
                by (apply elem_of_app; right; right; apply elem_of_app;
                    by right).
              by apply Hq2.
           ++ rewrite Hd1, decide_True by done. f_equal. lia.
    + assert (∀ w kw, w ∈ done_ ++ a :: q' → dist !! w = Some kw →
                (kw ≤ ka + 1)%Z) as Hbound.
      { intros w kw [Hw|Hw]%elem_of_app Hkw.
        - pose proof (HdoneL w kw Hw Hkw). lia.
        - rewrite Hq in Hw. apply elem_of_app in Hw as [Hw|Hw].
          + rewrite (Hq1 w Hw) in Hkw. injection Hkw as <-. lia.
          + rewrite (Hq2 w Hw) in Hkw. injection Hkw as <-. lia. }
      intros u w ku [Hu| ->%list_elem_of_singleton]%elem_of_app He.
      * rewrite Hsame by (apply elem_of_app; by left). intros Hku.
        destruct (Hrel u w ku Hu He Hku) as (kw & Hkw & Hle).
        exists kw. split; [|done]. rewrite Hsame; [done|].
        apply Hdom. by rewrite Hkw.
      * rewrite Hsame by (apply elem_of_app; right; by left).
        rewrite Hka. intros [= <-].
        apply Hedge, list_elem_of_fmap in He as (e & -> & He).
        pose proof (Hall e He) as Hvw. apply Hv1 in Hvw as [Hvw|Hvw].
        -- apply Hv in Hvw. pose proof Hvw as Hw.
           apply Hdom in Hw as [kw Hkw]. exists kw.
           rewrite Hsame by done. split; [done|]. by eapply Hbound.
        -- exists (ka + 1)%Z. rewrite Hd1, decide_True by done.
           split; [done|lia].
  - rewrite length_app. simpl in Hm. lia.
  - exists dist', path', g', order. split; [|done].
    cbn [mt_loop]. rewrite (deref_lookup _ _ _ Hax), bind_ret_Ok. cbv beta.
    rewrite H2, bind_ret_Ok. cbv beta iota. exact Hrun.
Qed.

Lemma mt_inv_bfs_tree (g : Graph) s order dist path :
  dist !! s = Some 0%Z → mt_inv g s order [] dist path →
  bfs_tree g s dist path.
Proof.
  intros Hs0 (Hdom & Hent & _ & Hrel).
  assert (∀ u k, walk g s u k →
            ∃ ku, dist !! u = Some ku ∧ (ku ≤ Z.of_nat k)%Z) as Hclosed.
  { intros u k Hw. induction Hw as [|x y k Hw (kx & Hkx & Hle) He].
    - exists 0%Z. split; [done|lia].
    - destruct (Hrel x y kx) as (ky & Hky & Hle'); [|done..|].
      + rewrite <- (app_nil_r order). apply Hdom. by rewrite Hkx.
      + exists ky. split; [done|lia]. }
  assert (∀ u k, dist !! u = Some k →
            ∃ d p, k = Z.of_nat d ∧ is_hop_distance g s u d ∧
                   path !! u = Some p ∧ is_route g p ∧
                   head p = Some s ∧ last p = Some u ∧ length p = S d) as Hhop.
  { intros u k Hk.
    destruct (Hent u k Hk) as (d & p & -> & Hp & Hroute & Hhead & Hlast & Hlen).
    exists d, p. split; [done|]. split; [|done].
    destruct p as [|x p']; [done|]. simpl in Hhead. injection Hhead as ->.
    injection Hlen as Hlen. subst d. split.
    - by apply is_route_walk.
    - intros j Hw. destruct (Hclosed u j Hw) as (ku & Hku & Hle).
      rewrite Hk in Hku. injection Hku as <-. lia. }
  intros u. split; [|apply Hhop]. split.
  - intros [k Hw]. destruct (Hclosed u k Hw) as (ku & Hku & _). by eexists.
  - intros [k Hk]. destruct (Hhop u k Hk) as (d & p & _ & [Hw _] & _).
    by exists d.
Qed.

Lemma mt_search_run (g0 g : Graph) (a : VertexPtr) (ax : Vertex) :
  dests_valid g0 → same_but_visited g0 g →
  resetVisited g !! a = Some ax →
  ∃ dist path g2,
    mt_loop (length g0) (<[a := setVisited true ax]> (resetVisited g)) [a]
            {[a := 0%Z]} {[a := [a]]}
    = Ok (dist, path, g2) ∧
    same_but_visited g0 g2 ∧ dist !! a = Some 0%Z ∧ bfs_tree g0 a dist path.
Proof.
  intros Hd Hs Hax.
  set (g1 := <[a := setVisited true ax]> (resetVisited g)).
  pose proof (λ u, is_visited_mark (resetVisited g) a _ u Hax) as Hmark.
  fold g1 in Hmark.
  assert (same_but_visited g0 g1) as Hs1.
  { eapply same_but_visited_trans; [exact Hs|].
    eapply same_but_visited_trans; [apply same_but_visited_reset|].
    by apply same_but_visited_insert. }
  destruct (mt_loop_post g0 a (length g0) g1 [a] [] {[a := 0%Z]} {[a := [a]]})
    as (dist & path & g2 & order & Hrun & Hs2 & Hs0 & Hinv).
  - done.
  - done.
  - apply NoDup_singleton.
  - intros u. rewrite Hmark. cbn [app]. rewrite list_elem_of_singleton.
    split; [intros [?|Hx]; [done|by apply is_visited_resetVisited in Hx]|].
    by left.
  - apply lookup_singleton_eq.
  - split; [|split; [|split]].
    + intros u. cbn [app]. rewrite list_elem_of_singleton.
      destruct (decide (u = a)) as [->|Hne].
      * rewrite lookup_singleton_eq. split; [done|by eexists].
      * rewrite lookup_singleton_ne by done. split; [by intros [? ?]|done].
    + intros u k Hk. apply lookup_singleton_Some in Hk as [<- <-].
      exists 0, [a]. rewrite lookup_singleton_eq. done.
    + exists 0%Z, [a], []. split; [done|]. split; [|split].
      * by intros u k ?%elem_of_nil.
      * intros u ->%list_elem_of_singleton. apply lookup_singleton_eq.
      * by intros u ?%elem_of_nil.
    + by intros u w ku ?%elem_of_nil.
  - pose proof (unvisited_mark (resetVisited g) a _ Hax) as Hu.
    fold g1 in Hu. rewrite unvisited_resetVisited in Hu.
    assert (visited ax = false) as Hvf.
    { rewrite lookup_resetVisited in Hax.
      destruct (g !! a); simplify_eq/=. done. }
    specialize (Hu Hvf). rewrite (same_but_visited_length _ _ Hs).
    simpl. lia.
  - exists dist, path, g2. split; [done|]. split; [done|]. split; [done|].
    by eapply mt_inv_bfs_tree.
Qed.

(** ** The largest distance and the trips that have it *)

Section any_order.
Variable enumerate : gmap VertexPtr Z → list (VertexPtr * Z).
Hypothesis Henum : enumerates enumerate.

Lemma elem_of_enumerate (m : gmap VertexPtr Z) u k :
  (u, k) ∈ enumerate m ↔ m !! u = Some k.
Proof. by rewrite (Henum m), elem_of_map_to_list. Qed.

Lemma foldl_largest (x0 : Z) (rest : list (VertexPtr * Z)) :
  let r := foldl (λ largest p', if (largest <? p'.2)%Z then p'.2 else largest)
                 x0 rest in
  (r = x0 ∨ ∃ p, p ∈ rest ∧ r = p.2) ∧ (x0 ≤ r)%Z ∧
  ∀ p, p ∈ rest → (p.2 ≤ r)%Z.
Proof.
  revert x0. induction rest as [|p rest IH]; intros x0.
  { cbn. split; [by left|]. split; [lia|]. by intros p ?%elem_of_nil. }
  cbn [foldl]. cbv zeta.
  destruct (IH (if (x0 <? p.2)%Z then p.2 else x0)) as (Hr & Hle & Hall).
  set (r := foldl _ _ rest) in *.
  destruct (Z.ltb_spec x0 p.2) as [Hlt|Hge].
  - split; [|split; [lia|]].
    + right. destruct Hr as [->|(p' & Hp' & ->)]; [exists p; by split; [left|]|].
      exists p'. by split; [right|].
    + intros p' [->|Hp']%elem_of_cons; [lia|by apply Hall].
  - split; [|split; [lia|]].
    + destruct Hr as [->|(p' & Hp' & ->)]; [by left|].
      right. exists p'. by split; [right|].
    + intros p' [->|Hp']%elem_of_cons; [lia|by apply Hall].
Qed.

Lemma mt_max_spec (dist : gmap VertexPtr Z) u0 k0 :
  dist !! u0 = Some k0 →
  ∃ m, mt_max enumerate dist = Ok m ∧ (∃ u, dist !! u = Some m) ∧
       ∀ v k, dist !! v = Some k → (k ≤ m)%Z.
Proof.
  intros H0. unfold mt_max.
  destruct (enumerate dist) as [|[u x] rest] eqn:E.
  { apply elem_of_enumerate in H0. rewrite E in H0.
    by apply elem_of_nil in H0. }
  destruct (foldl_largest x rest) as (Hr & Hle & Hall). cbv zeta in *.
  cbn [snd]. set (r := foldl _ x rest) in *.
  exists r. split; [done|]. split.
  - destruct Hr as [->|([v k] & Hp & ->)].
    + exists u. apply elem_of_enumerate. rewrite E. by left.
    + exists v. apply elem_of_enumerate. rewrite E. by right.
  - intros v k Hk. apply elem_of_enumerate in Hk. rewrite E in Hk.
    apply elem_of_cons in Hk as [[= -> ->]|Hk]; [done|].
    by apply (Hall (v, k)).
Qed.

Lemma mt_matching_spec (dist : gmap VertexPtr Z) (path : gmap VertexPtr Path)
    (m : Z) (acc : list Path) p :
  p ∈ mt_matching enumerate dist path m acc ↔
  p ∈ acc ∨ ∃ u, dist !! u = Some m ∧ p = default [] (path !! u).
Proof.
  unfold mt_matching.
  assert (∀ l acc,
            p ∈ foldl (λ acc (x : VertexPtr * Z),
                         if (x.2 =? m)%Z
                         then acc ++ [default [] (path !! x.1)] else acc)
                      acc l
            ↔ p ∈ acc ∨ ∃ u, (u, m) ∈ l ∧ p = default [] (path !! u)) as Hl.
  { clear acc. induction l as [|[u k] l IH]; intros acc.
    - cbn. split; [by left|]. by intros [?|(? & ?%elem_of_nil & _)].
    - cbn [foldl fst snd]. rewrite IH.
      destruct (Z.eqb_spec k m) as [->|Hne].
      + rewrite elem_of_app, list_elem_of_singleton. split.
        * intros [[?| ->]|(v & Hv & ->)]; [by left| |].
          -- right. exists u. by split; [left|].
          -- right. exists v. by split; [right|].
        * intros [?|(v & [[= -> ]|Hv]%elem_of_cons & ->)];
            [by left; left|by left; right|].
          right. by exists v.
      + split.
        * intros [?|(v & Hv & ->)]; [by left|].
          right. exists v. by split; [right|].
        * intros [?|(v & [[= -> ?]|Hv]%elem_of_cons & ->)];
            [by left|done|]. right. by exists v. }
  rewrite Hl. split.
  - intros [?|(u & Hu%elem_of_enumerate & ->)]; [by left|].
    right. by exists u.
  - intros [?|(u & Hu & ->)]; [by left|].
    right. exists u. by split; [apply elem_of_enumerate|].
Qed.

(** ** The loop over the airports *)

Lemma is_hop_distance_unique (g : Graph) s t d d' :
  is_hop_distance g s t d → is_hop_distance g s t d' → d = d'.
Proof.
  intros [Hw Hmin] [Hw' Hmin'].
  pose proof (Hmin d' Hw'). pose proof (Hmin' d Hw). lia.
Qed.

Lemma bfs_tree_distance (g : Graph) s dist path t d :
  bfs_tree g s dist path → is_hop_distance g s t d →
  dist !! t = Some (Z.of_nat d).
Proof.
  intros Htree Hhop. destruct (Htree t) as [Hreach Hent].
  assert (is_Some (dist !! t)) as [k Hk].
  { apply Hreach. exists d. apply Hhop. }
  destruct (Hent k Hk) as (d' & p & -> & Hhop' & _).
  by rewrite (is_hop_distance_unique g s t d d' Hhop Hhop').
Qed.

Lemma mt_sources_post (g0 : Graph) rest :
  dests_valid g0 → (∀ a, a ∈ rest → a < length g0) →
  ∀ (g : Graph) done_ diameter paths,
    same_but_visited g0 g → mt_outer g0 done_ diameter paths →
    ∃ paths' diameter' g',
      mt_sources enumerate (length g0) rest g diameter paths
      = Ok (paths', diameter', g') ∧
      same_but_visited g0 g' ∧
      mt_outer g0 (done_ ++ rest) diameter' paths'.
Proof.
  intros Hd. induction rest as [|a rest IH];
    intros Hlt g done_ diameter paths Hs Hout.
  { exists paths, diameter, g. by rewrite app_nil_r. }
  assert (a < length g) as Hag.
  { rewrite <- (same_but_visited_length _ _ Hs). apply Hlt. by left. }
  destruct (lookup_lt_is_Some_2 (resetVisited g) a) as [ax Hax];
    [by rewrite length_resetVisited|].
  destruct (mt_search_run g0 g a ax Hd Hs Hax)
    as (dist & path & g2 & Hrun & Hs2 & Ha0 & Htree).
  destruct (mt_max_spec dist a 0 Ha0) as (m & Hmax & [um Hum] & Hbound).
  pose proof (Hbound a 0%Z Ha0) as Hm0.
  destruct (proj2 (Htree um) m Hum)
    as (dm & pm & -> & Hhopm & _).
  assert (∀ t d, is_hop_distance g0 a t d → (Z.of_nat d ≤ Z.of_nat dm)%Z) as Hecc.
  { intros t d Hh. apply (Hbound t). by eapply bfs_tree_distance. }
  assert (∀ p, (∃ u, dist !! u = Some (Z.of_nat dm) ∧
                     p = default [] (path !! u)) →
               ∃ t, is_hop_distance g0 a t dm ∧ is_route g0 p ∧
                    head p = Some a ∧ last p = Some t ∧ length p = S dm)
    as Hmatch.
  { intros p (u & Hu & ->).
    destruct (proj2 (Htree u) _ Hu) as (d & p & Hd' & Hh & -> & Hr & Hhd & Hl & Hlen).
    apply Nat2Z.inj in Hd'. subst d. exists u. done. }
  assert (∀ t, is_hop_distance g0 a t dm →
               ∃ p, (∃ u, dist !! u = Some (Z.of_nat dm) ∧
                          p = default [] (path !! u)) ∧
                    head p = Some a ∧ last p = Some t) as Hfound.
  { intros t Hh.
    pose proof (bfs_tree_distance g0 a dist path t dm Htree Hh) as Ht.
    destruct (proj2 (Htree t) _ Ht) as (d & p & _ & _ & Hp & _ & Hhd & Hl & _).
    exists p. split; [|done]. exists t. by rewrite Hp. }
  destruct Hout as (C1 & C2 & C3 & C4 & C5).
  cbn [mt_sources]. cbv zeta.
  rewrite (deref_lookup _ _ _ Hax), bind_ret_Ok. cbv beta.
  rewrite Hrun, bind_ret_Ok. cbv beta iota.
  rewrite Hmax, bind_ret_Ok. cbv beta.
  assert (∀ x, x ∈ rest → x < length g0) as Hlt'
    by (intros x Hx; apply Hlt; by right).
  assert (∀ d1 p1,
            mt_outer g0 (done_ ++ [a]) d1 p1 →
            ∃ paths' diameter' g',
              mt_sources enumerate (length g0) rest g2 d1 p1
              = Ok (paths', diameter', g') ∧
              same_but_visited g0 g' ∧
              mt_outer g0 (done_ ++ a :: rest) diameter' paths') as Hnext.
  { intros d1 p1 H1.
    destruct (IH Hlt' g2 (done_ ++ [a]) d1 p1 Hs2 H1)
      as (paths' & diameter' & g' & Hr & Hs' & Ho').
    exists paths', diameter', g'. by rewrite <- (assoc_L (++)) in Ho'. }
  destruct (Z.ltb_spec diameter (Z.of_nat dm)) as [Hlt1|Hge1].
  - rewrite Z.eqb_refl. apply Hnext. split; [|split; [|split; [|split]]].
    + intros s t d [Hin| ->%list_elem_of_singleton]%elem_of_app Hh.
      * pose proof (C1 s t d Hin Hh). lia.
      * by eapply Hecc.
    + by intros [_ ?]%app_eq_nil.
    + intros _. exists a, um, dm.
      split; [apply elem_of_app; right; by left|done].
    + intros p [?%elem_of_nil|Hp]%mt_matching_spec; [done|].
      destruct (Hmatch p Hp) as (t & ? & ? & ? & ? & ?).
      exists a, t, dm. split; [apply elem_of_app; right; by left|done].
    + intros s t d [Hin| ->%list_elem_of_singleton]%elem_of_app Hh Heq.
      * pose proof (C1 s t d Hin Hh). lia.
      * apply Nat2Z.inj in Heq. subst d.
        destruct (Hfound t Hh) as (p & Hp & ? & ?).
        exists p. split; [|done]. apply mt_matching_spec. by right.
  - destruct (Z.eqb_spec (Z.of_nat dm) diameter) as [Heq|Hne].
    + apply Hnext. split; [|split; [|split; [|split]]].
      * intros s t d [Hin| ->%list_elem_of_singleton]%elem_of_app Hh.
        -- by eapply C1.
        -- rewrite <- Heq. by eapply Hecc.
      * by intros [_ ?]%app_eq_nil.
      * intros _. exists a, um, dm.
        split; [apply elem_of_app; right; by left|done].
      * intros p [Hp|Hp]%mt_matching_spec.
        -- destruct (C4 p Hp) as (s & t & d & Hin & ?).
           exists s, t, d. split; [apply elem_of_app; by left|done].
        -- destruct (Hmatch p Hp) as (t & ? & ? & ? & ? & ?).
           exists a, t, dm. split; [apply elem_of_app; right; by left|done].
      * intros s t d [Hin| ->%list_elem_of_singleton]%elem_of_app Hh Heq'.
        -- destruct (C5 s t d Hin Hh Heq') as (p & Hp & ?).
           exists p. split; [|done]. apply mt_matching_spec. by left.
        -- assert (d = dm) as -> by lia.
           destruct (Hfound t Hh) as (p & Hp & ? & ?).
           exists p. split; [|done]. apply mt_matching_spec. by right.
    + assert (done_ ≠ []) as Hne'.
      { intros Hnil. destruct (C2 Hnil) as [-> _]. lia. }
      apply Hnext. split; [|split; [|split; [|split]]].
      * intros s t d [Hin| ->%list_elem_of_singleton]%elem_of_app Hh.
        -- by eapply C1.
        -- pose proof (Hecc t d Hh). lia.
      * by intros [_ ?]%app_eq_nil.
      * intros _. destruct (C3 Hne') as (s & t & d & Hin & ?).
        exists s, t, d. split; [apply elem_of_app; by left|done].
      * intros p Hp. destruct (C4 p Hp) as (s & t & d & Hin & ?).
        exists s, t, d. split; [apply elem_of_app; by left|done].
      * intros s t d [Hin| ->%list_elem_of_singleton]%elem_of_app Hh Heq'.
        -- by eapply C5.
        -- pose proof (Hecc t d Hh). lia.
Qed.

(** X30.  [searchMaxTripAndCorrespondingPairsOfAirports] on a graph whose flights
    lead to vertices of the graph: the value left in [diameterResult] is the
    largest number of flights a shortest trip between two airports takes (0
    on a graph without airports); every path returned is an itinerary with
    that many flights between two airports that are that far apart; and for
    every such pair of airports a path from the one to the other is
    returned. *)
Theorem searchMaxTrip_diameter (g : Graph) :
  dests_valid g →
  ∃ airportPaths diameter g',
    searchMaxTripAndCorrespondingPairsOfAirports enumerate g
    = Ok (airportPaths, diameter, g') ∧
    same_but_visited g g' ∧
    (∀ s t d, s < length g → is_hop_distance g s t d →
       (Z.of_nat d ≤ diameter)%Z) ∧
    (g = [] → diameter = 0%Z ∧ airportPaths = []) ∧
    (g ≠ [] →
       ∃ s t d, s < length g ∧ is_hop_distance g s t d ∧
                diameter = Z.of_nat d) ∧
    (∀ p, p ∈ airportPaths →
       ∃ s t d, s < length g ∧ is_hop_distance g s t d ∧
                diameter = Z.of_nat d ∧ is_route g p ∧
                head p = Some s ∧ last p = Some t ∧ length p = S d) ∧
    (∀ s t d, s < length g → is_hop_distance g s t d →
       diameter = Z.of_nat d →
       ∃ p, p ∈ airportPaths ∧ head p = Some s ∧ last p = Some t).
Proof.
  intros Hd. unfold searchMaxTripAndCorrespondingPairsOfAirports.
  destruct (mt_sources_post g (seq 0 (length g)) Hd) with
    (g := g) (done_ := @nil VertexPtr) (diameter := 0%Z) (paths := @nil Path)
    as (paths & diameter & g' & Hrun & Hs & C1 & C2 & C3 & C4 & C5).
  - intros a Ha%elem_of_seq. lia.
  - apply same_but_visited_refl.
  - split; [|split; [|split; [|split]]].
    + by intros s t d ?%elem_of_nil.
    + done.
    + done.
    + by intros p ?%elem_of_nil.
    + by intros s t d ?%elem_of_nil.
  - cbn [app] in *. exists paths, diameter, g'.
    assert (∀ s, s ∈ seq 0 (length g) ↔ s < length g) as Hseq.
    { intros s. rewrite elem_of_seq. lia. }
    split; [done|]. split; [done|]. split; [|split; [|split; [|split]]].
    + intros s t d Hs'. apply C1. by apply Hseq.
    + intros ->. by apply C2.
    + intros Hne. destruct C3 as (s & t & d & Hin & ?).
      { destruct g; [done|]. done. }
      exists s, t, d. split; [by apply Hseq|done].
    + intros p Hp. destruct (C4 p Hp) as (s & t & d & Hin & ?).
      exists s, t, d. split; [by apply Hseq|done].
    + intros s t d Hs'. apply C5. by apply Hseq.
Qed.

End any_order.

Lemma searchMaxTrip_diameter_witness :
  ∃ airportPaths diameter g',
    searchMaxTripAndCorrespondingPairsOfAirports map_to_list g_diamond
    = Ok (airportPaths, diameter, g') ∧
    same_but_visited g_diamond g' ∧
    (∀ s t d, s < length g_diamond → is_hop_distance g_diamond s t d →
       (Z.of_nat d ≤ diameter)%Z) ∧
    (g_diamond = [] → diameter = 0%Z ∧ airportPaths = []) ∧
    (g_diamond ≠ [] →
       ∃ s t d, s < length g_diamond ∧ is_hop_distance g_diamond s t d ∧
                diameter = Z.of_nat d) ∧
    (∀ p, p ∈ airportPaths →
       ∃ s t d, s < length g_diamond ∧ is_hop_distance g_diamond s t d ∧
                diameter = Z.of_nat d ∧ is_route g_diamond p ∧
                head p = Some s ∧ last p = Some t ∧ length p = S d) ∧
    (∀ s t d, s < length g_diamond → is_hop_distance g_diamond s t d →
       diameter = Z.of_nat d →
       ∃ p, p ∈ airportPaths ∧ head p = Some s ∧ last p = Some t).
Proof.
  apply (searchMaxTrip_diameter map_to_list); [|].
  - by intros m.
  - apply dests_valid_Forall. by_compute.
Defined.

